(** * lem-in: ant-farm routing

    A shallow embedding of the Go sources of the lem-in solver
    (packages [model], [parser], [path], [scheduler] and [main], and the
    assignment of the ants in [antfarm]) together with theorems about them.

    Conventions of the embedding.
    - A Go [*Room] is represented by the room's name: the model package only
      ever creates one [Room] object per name ([AddRoom] returns the existing
      object when the name is taken), so pointer identity and name identity
      coincide on every graph built through the API.
    - A Go [map[string]T] is a [gmap string T]; a slice is a [list].
    - Go's [int] is 64 bits wide and its arithmetic wraps around.  The ant
      count is read by [Atoi] within the 64-bit range.  The pre-allocation
      of [Run] computes with the ant count before any ant is queued, so
      its operations are modelled with the wrap-around ([wrap]); its loop
      over [T] is run for the [2^64] values [T] can take.  Elsewhere an
      [int] is a [Z], or a [nat] where it is a slice index: flows and
      capacities are bounded by the number of rooms and by the constant
      [INF], positions by the path lengths, and the counters of ants and
      ant ids by the number of ids appended to the queues, which are held
      in memory.
    - A computation that may raise a Go run-time panic (index out of range)
      or whose loop may not end returns an [option], with [None] for no
      result; a theorem that says that the program returns shows that the
      result is [Some]. *)

From stdpp Require Import gmap strings list fin_maps sorting pretty relations.
From Stdlib Require Import ZArith Lia.

Open Scope Z_scope.

(** The value a 64-bit [int] holds after an operation whose mathematical
    result is [z]. *)
Definition wrap (z : Z) : Z := (z + 2 ^ 63) `mod` 2 ^ 64 - 2 ^ 63.

(** ** Package model *)

Module model.

Record Room := mkRoom {
  Name : string;
  X : Z;
  Y : Z;
  Links : list string;
}.

Record Graph := mkGraph {
  Rooms : gmap string Room;
  Start : option string;
  End : option string;
}.

Record Path := mkPath {
  PRooms : list string;
  Length : Z;
}.

Definition NewGraph : Graph := mkGraph ∅ None None.

(** [AddRoom] returns the updated graph and the room it hands back. *)
Definition AddRoom (g : Graph) (name : string) (x y : Z) : Graph * Room :=
  match Rooms g !! name with
  | Some r => (g, r)
  | None =>
      let r := mkRoom name x y [] in
      (mkGraph (<[name := r]> (Rooms g)) (Start g) (End g), r)
  end.

Definition add_link_to (r : Room) (other : string) : Room :=
  mkRoom (Name r) (X r) (Y r) (Links r ++ [other]).

(** [AddLink] returns the updated graph and the boolean result. *)
Definition AddLink (g : Graph) (a b : string) : Graph * bool :=
  match Rooms g !! a, Rooms g !! b with
  | Some ra, Some rb =>
      if bool_decide (a = b) then (g, false)
      else if bool_decide (b ∈ Links ra) then (g, false)
      else
        let rooms1 := <[a := add_link_to ra b]> (Rooms g) in
        let rooms2 := <[b := add_link_to rb a]> rooms1 in
        (mkGraph rooms2 (Start g) (End g), true)
  | _, _ => (g, false)
  end.

End model.

Import model.

(** ** Package parser *)

Module parser.

Import Stdlib.Strings.Ascii.

Definition errInvalid : string := "ERROR: invalid data format".

(** The character classes of Go's [regexp] (RE2 syntax) used by the two
    line patterns: "\s" is tab, line feed, form feed, carriage return or
    space, and "\d" is an ASCII digit. *)
Definition is_space (c : Ascii.ascii) : bool :=
  match c with
  | "009" | "010" | "012" | "013" | " " => true
  | _ => false
  end%char.

Definition is_digit (c : Ascii.ascii) : bool :=
  let n := Ascii.N_of_ascii c in ((48 <=? n) && (n <=? 57))%N.

(** The class "[^\s#L]": the first character of a room name. *)
Definition name_head (c : Ascii.ascii) : bool :=
  negb (is_space c) && negb (Ascii.eqb c "#") && negb (Ascii.eqb c "L").

Fixpoint span (p : Ascii.ascii → bool) (cs : list Ascii.ascii) : list Ascii.ascii * list Ascii.ascii :=
  match cs with
  | [] => ([], [])
  | c :: cs' =>
      if p c then let '(a, b) := span p cs' in (c :: a, b) else ([], cs)
  end.

(** "-?\d+" anchored on both sides. *)
Definition is_int_token (cs : list Ascii.ascii) : bool :=
  let ds := match cs with "-"%char :: r => r | _ => cs end in
  match ds with
  | [] => false
  | _ => forallb is_digit ds
  end.

Definition is_name_token (cs : list Ascii.ascii) : bool :=
  match cs with
  | [] => false
  | c :: _ => name_head c
  end.

(** [roomLineRe] compiles the pattern ^(NAME)\s+(INT)\s+(INT)$ where NAME
    is [^\s#L][^\s]* and INT is -?\d+.  The three groups
    contain no white space and are separated by white space, so the match,
    when there is one, is the unique split of the line into three maximal
    runs of non-space characters.  The result is [FindStringSubmatch]'s
    groups 1, 2 and 3. *)
Definition roomLineRe (line : string) : option (string * string * string) :=
  let cs := String.list_ascii_of_string line in
  let '(name, r1) := span (λ c, negb (is_space c)) cs in
  let '(ws1, r2) := span is_space r1 in
  let '(xs, r3) := span (λ c, negb (is_space c)) r2 in
  let '(ws2, r4) := span is_space r3 in
  let '(ys, r5) := span (λ c, negb (is_space c)) r4 in
  if is_name_token name && negb (bool_decide (ws1 = [])) && is_int_token xs
     && negb (bool_decide (ws2 = [])) && is_int_token ys && bool_decide (r5 = [])
  then Some (String.string_of_list_ascii name, String.string_of_list_ascii xs, String.string_of_list_ascii ys)
  else None.

(** The last [-] of [cs] that is followed by a valid name token: group 1 is
    greedy, so the regexp engine (leftmost-first semantics) settles on the
    rightmost split that lets group 2 match. *)
Fixpoint last_dash_split (cs : list Ascii.ascii) : option (list Ascii.ascii * list Ascii.ascii) :=
  match cs with
  | [] => None
  | c :: cs' =>
      match last_dash_split cs' with
      | Some (a, b) => Some (c :: a, b)
      | None =>
          if Ascii.eqb c "-" && is_name_token cs' then Some ([], cs') else None
      end
  end.

(** [linkLineRe] compiles the pattern ^(NAME)-(NAME)$ with NAME as above;
    the result is groups 1 and 2. *)
Definition linkLineRe (line : string) : option (string * string) :=
  match String.list_ascii_of_string line with
  | [] => None
  | c0 :: rest =>
      if name_head c0 && forallb (λ c, negb (is_space c)) rest then
        match last_dash_split rest with
        | Some (a, b) => Some (String.string_of_list_ascii (c0 :: a), String.string_of_list_ascii b)
        | None => None
        end
      else None
  end.

(** [strconv.Atoi] on a 64-bit platform: an optional sign followed by
    decimal digits.  The result is the value and whether the error is nil;
    out of range the value is clamped and the error is set, on a syntax
    error the value is 0. *)
Fixpoint digits_val (acc : Z) (cs : list Ascii.ascii) : option Z :=
  match cs with
  | [] => Some acc
  | c :: cs' =>
      if is_digit c then digits_val (10 * acc + (Z.of_N (Ascii.N_of_ascii c) - 48)) cs'
      else None
  end.

Definition Atoi (s : string) : Z * bool :=
  let cs := String.list_ascii_of_string s in
  let '(neg, ds) :=
    match cs with
    | "-"%char :: r => (true, r)
    | "+"%char :: r => (false, r)
    | _ => (false, cs)
    end in
  match ds with
  | [] => (0, false)
  | _ =>
      match digits_val 0 ds with
      | None => (0, false)
      | Some n =>
          let v := if neg then - n else n in
          if v <? - 2 ^ 63 then (- 2 ^ 63, false)
          else if 2 ^ 63 - 1 <? v then (2 ^ 63 - 1, false)
          else (v, true)
      end
  end.

Record Result := mkResult {
  Ants : Z;
  RGraph : Graph;
  OriginalLines : list string;
}.

Inductive phase := PhAnts | PhRooms | PhLinks.

Global Instance phase_eq_dec : EqDecision phase.
Proof. solve_decision. Defined.

(** The local variables of [Parse] that live across loop iterations. *)
Record pstate := mkPState {
  ps_ants : Z;
  ps_graph : Graph;
  ps_lines : list string;
  ps_phase : phase;
  ps_pending : string;
}.

Definition set_start (g : Graph) (r : string) : Graph :=
  mkGraph (Rooms g) (Some r) (End g).
Definition set_end (g : Graph) (r : string) : Graph :=
  mkGraph (Rooms g) (Start g) (Some r).

(** One iteration of the [for scanner.Scan()] loop: [inl] is the error
    returned from inside the loop. *)
Definition parse_line (st : pstate) (line : string) : string + pstate :=
  if bool_decide (line = "") then inl (errInvalid +:+ ", empty line")
  else if String.prefix "#" line then
    if String.prefix "##" line then
      if bool_decide (line = "##start") || bool_decide (line = "##end") then
        inr (mkPState (ps_ants st) (ps_graph st) (ps_lines st ++ [line])
               (ps_phase st) line)
      else
        inr (mkPState (ps_ants st) (ps_graph st) (ps_lines st ++ [line])
               (ps_phase st) (ps_pending st))
    else inr st
  else if bool_decide (ps_phase st = PhAnts) then
    let '(ants, ok) := Atoi line in
    if negb ok || (ants <=? 0) then inl errInvalid
    else inr (mkPState ants (ps_graph st) (ps_lines st ++ [line]) PhRooms
                (ps_pending st))
  else
    match roomLineRe line, bool_decide (ps_phase st = PhRooms) with
    | Some (name, xs, ys), true =>
        let x := fst (Atoi xs) in
        let y := fst (Atoi ys) in
        match Rooms (ps_graph st) !! name with
        | Some _ => inl (errInvalid +:+ ", duplicate room")
        | None =>
            let '(g1, r) := AddRoom (ps_graph st) name x y in
            let after (g2 : Graph) :=
              inr (mkPState (ps_ants st) g2 (ps_lines st ++ [line])
                     (ps_phase st) "") in
            if bool_decide (ps_pending st = "##start") then
              match Start g1 with
              | Some _ => inl (errInvalid +:+ ", multiple start")
              | None => after (set_start g1 (Name r))
              end
            else if bool_decide (ps_pending st = "##end") then
              match End g1 with
              | Some _ => inl (errInvalid +:+ ", multiple end")
              | None => after (set_end g1 (Name r))
              end
            else after g1
        end
    | _, _ =>
        match linkLineRe line with
        | Some (a, b) =>
            match Start (ps_graph st), End (ps_graph st) with
            | Some _, Some _ =>
                let '(g1, ok) := AddLink (ps_graph st) a b in
                if ok then
                  inr (mkPState (ps_ants st) g1 (ps_lines st ++ [line])
                         PhLinks (ps_pending st))
                else inl (errInvalid +:+ ", invalid link")
            | _, _ => inl (errInvalid +:+ ", missing start or end")
            end
        | None =>
            if bool_decide (ps_phase st = PhLinks)
            then inl (errInvalid +:+ ", expected link")
            else inl (errInvalid +:+ ", unrecognized line")
        end
    end.

Fixpoint parse_loop (st : pstate) (input : list string) : string + pstate :=
  match input with
  | [] => inr st
  | line :: rest =>
      match parse_line st line with
      | inl e => inl e
      | inr st' => parse_loop st' rest
      end
  end.

Definition init_pstate : pstate := mkPState 0 NewGraph [] PhAnts "".

(** [Parse] on a scanner that yields the lines [input] and then stops;
    [scan_err] is what [scanner.Err()] reports then: nothing at the end of
    the file, an error of its own when a line is too long for its buffer or
    the file cannot be read further. *)
Definition Parse_scanner (input : list string) (scan_err : option string)
  : string + Result :=
  match parse_loop init_pstate input with
  | inl e => inl e
  | inr st =>
      match scan_err with
      | Some e => inl e
      | None =>
          match Start (ps_graph st), End (ps_graph st) with
          | Some _, Some _ =>
              if bool_decide (ps_ants st = 0)
              then inl (errInvalid +:+ ", missing essential data")
              else inr (mkResult (ps_ants st) (ps_graph st) (ps_lines st))
          | _, _ => inl (errInvalid +:+ ", missing essential data")
          end
      end
  end.

(** [Parse] on the lines of an input that the scanner reads to its end. *)
Definition Parse (input : list string) : string + Result :=
  Parse_scanner input None.

End parser.

(** ** Package path *)

Module path.

(** A half-edge of the residual graph. *)
Record edge := mkEdge {
  to : nat;
  rev : nat;
  cap : Z;
  flow : Z;
}.

(** BFS bookkeeping: [-1] in [pu] marks a node that has not been reached. *)
Record parentInfo := mkParent {
  pu : Z;
  pei : Z;
}.

Record outEdge := mkOutEdge {
  ei : nat;
  toName : string;
}.

Definition INF : Z := 1000000.

Definition add_flow (d : Z) (e : edge) : edge :=
  mkEdge (to e) (rev e) (cap e) (flow e + d).

(** [graph[u][i]] *)
Definition edge_at (graph : list (list edge)) (u i : nat) : option edge :=
  graph !! u ≫= λ adj, adj !! i.

(** [graph[u][i].flow += d] *)
Definition upd_flow (graph : list (list edge)) (u i : nat) (d : Z)
  : option (list (list edge)) :=
  adj ← graph !! u;
  e ← adj !! i;
  Some (<[u := <[i := add_flow d e]> adj]> graph).

(** The closure [addEdge]: a forward half-edge at [u] and its reverse at [v]. *)
Definition addEdge (u v : nat) (c : Z) (graph : list (list edge))
  : option (list (list edge)) :=
  gu ← graph !! u;
  gv ← graph !! v;
  let graph1 := <[u := gu ++ [mkEdge v (length gv) c 0]]> graph in
  gv1 ← graph1 !! v;
  gu1 ← graph1 !! u;
  Some (<[v := gv1 ++ [mkEdge u (length gu1 - 1) 0 0]]> graph1).

(** [for i, nm := range names { idOf[nm] = i }] *)
Fixpoint build_idOf (i : nat) (names : list string) (m : gmap string nat)
  : gmap string nat :=
  match names with
  | [] => m
  | nm :: rest => build_idOf (S i) rest (<[nm := i]> m)
  end.

Section network.

(** The variables [MultiPath] fixes before it builds the residual graph. *)
Variable g : Graph.
Variable names : list string.
Variable startName endName : string.

Definition idOf : gmap string nat := build_idOf 0 names ∅.
(** A missing key reads as Go's zero value. *)
Definition inIdx (name : string) : nat := 2 * default 0%nat (idOf !! name).
Definition outIdx (name : string) : nat := 2 * default 0%nat (idOf !! name) + 1.
Definition Sout : nat := outIdx startName.
Definition Ein : nat := inIdx endName.

(** First construction loop: the room edge [v_in -> v_out] of every room. *)
Fixpoint add_room_edges (nms : list string) (graph : list (list edge))
  : option (list (list edge)) :=
  match nms with
  | [] => Some graph
  | nm :: rest =>
      let capacity :=
        if bool_decide (nm = startName) || bool_decide (nm = endName)
        then INF else 1 in
      graph' ← addEdge (inIdx nm) (outIdx nm) capacity graph;
      add_room_edges rest graph'
  end.

(** Inner loop of the second construction loop, over the sorted neighbours. *)
Fixpoint add_links_of (nm : string) (nbs : list string) (graph : list (list edge))
  : option (list (list edge)) :=
  match nbs with
  | [] => Some graph
  | vn :: rest =>
      graph' ← addEdge (outIdx nm) (inIdx vn) 1 graph;
      add_links_of nm rest graph'
  end.

Fixpoint add_link_edges (nms : list string) (graph : list (list edge))
  : option (list (list edge)) :=
  match nms with
  | [] => Some graph
  | nm :: rest =>
      u ← Rooms g !! nm;
      let nbs := merge_sort String.le (Links u) in
      graph' ← add_links_of nm nbs graph;
      add_link_edges rest graph'
  end.

Definition build_network : option (list (list edge)) :=
  graph ← add_room_edges names (replicate (2 * length names) []);
  add_link_edges names graph.

(** *** Edmonds-Karp *)

Definition source : nat := Sout.
Definition sink : nat := Ein.

Definition unseen : parentInfo := mkParent (-1) (-1).

(** [for ei := range graph[u]]: the scan of the half-edges leaving [u]. *)
Fixpoint bfs_scan (u : nat) (i : nat) (adj : list edge)
    (par : list parentInfo) (q : list nat)
  : option (list parentInfo * list nat) :=
  match adj with
  | [] => Some (par, q)
  | e :: rest =>
      p ← par !! to e;
      if bool_decide (pu p = -1) && (0 <? cap e - flow e) then
        bfs_scan u (S i) rest
          (<[to e := mkParent (Z.of_nat u) (Z.of_nat i)]> par) (q ++ [to e])
      else bfs_scan u (S i) rest par q
  end.

(** [for q.Len() > 0]: one unit of fuel per dequeued node. *)
Fixpoint bfs_loop (fuel : nat) (graph : list (list edge))
    (par : list parentInfo) (q : list nat) : option (list parentInfo) :=
  match fuel with
  | O => None
  | S fuel' =>
      match q with
      | [] => Some par
      | u :: q' =>
          if bool_decide (u = sink) then Some par
          else
            adj ← graph !! u;
            '(par', q'') ← bfs_scan u 0 adj par q';
            bfs_loop fuel' graph par' q''
      end
  end.

Definition bfs_search (graph : list (list edge)) : option (list parentInfo) :=
  let par := replicate (length graph) unseen in
  _ ← par !! source;
  let par := <[source := mkParent (Z.of_nat source) (-1)]> par in
  bfs_loop (S (length graph)) graph par [source].

(** A slice index held in a Go [int]: negative values panic. *)
Definition index_of_Z (z : Z) : option nat :=
  if z <? 0 then None else Some (Z.to_nat z).

(** [for v := sink; v != source; { ... v = pr.u }], first pass. *)
Fixpoint bottleneck_loop (fuel : nat) (graph : list (list edge))
    (par : list parentInfo) (v : nat) (bneck : Z) : option Z :=
  match fuel with
  | O => None
  | S fuel' =>
      if bool_decide (v = source) then Some bneck
      else
        pr ← par !! v;
        u ← index_of_Z (pu pr);
        i ← index_of_Z (pei pr);
        e ← edge_at graph u i;
        let bneck' := if cap e - flow e <? bneck then cap e - flow e else bneck in
        bottleneck_loop fuel' graph par u bneck'
  end.

(** Second pass: push [bneck] along the parent chain. *)
Fixpoint augment_loop (fuel : nat) (graph : list (list edge))
    (par : list parentInfo) (v : nat) (bneck : Z) : option (list (list edge)) :=
  match fuel with
  | O => None
  | S fuel' =>
      if bool_decide (v = source) then Some graph
      else
        pr ← par !! v;
        u ← index_of_Z (pu pr);
        i ← index_of_Z (pei pr);
        fe ← edge_at graph u i;
        graph1 ← upd_flow graph u i bneck;
        graph2 ← upd_flow graph1 (to fe) (rev fe) (- bneck);
        augment_loop fuel' graph2 par u bneck
  end.

(** The closure [bfs]: the residual graph after the call and the amount
    pushed (0 when there is no augmenting path). *)
Definition bfs (graph : list (list edge)) : option (list (list edge) * Z) :=
  par ← bfs_search graph;
  ps ← par !! sink;
  if bool_decide (pu ps = -1) then Some (graph, 0)
  else
    bneck ← bottleneck_loop (S (length graph)) graph par sink INF;
    if bneck <=? 0 then Some (graph, 0)
    else
      graph' ← augment_loop (S (length graph)) graph par sink bneck;
      Some (graph', bneck).

(** The main Edmonds-Karp loop; the result is the final residual graph and
    [totalFlow]. *)
Fixpoint ek_loop (fuel : nat) (maxPaths : Z) (graph : list (list edge))
    (totalFlow : Z) : option (list (list edge) * Z) :=
  match fuel with
  | O => None
  | S fuel' =>
      '(graph', pushed) ← bfs graph;
      if bool_decide (pushed = 0) then Some (graph', totalFlow)
      else
        let totalFlow' := totalFlow + pushed in
        if (0 <? maxPaths) && (maxPaths <=? totalFlow')
        then Some (graph', totalFlow')
        else ek_loop fuel' maxPaths graph' totalFlow'
  end.

(** *** Path reconstruction *)

Definition roomNameOf (idx : nat) : option string := names !! (idx `div` 2)%nat.

(** The order [sort.Slice] establishes on the out-edges: by destination
    name, then by edge index.  The keys are pairwise different, so every
    sorting algorithm produces the same slice. *)
Definition outEdge_leb (a b : outEdge) : bool :=
  if String.eqb (toName a) (toName b) then Nat.leb (ei a) (ei b)
  else String.leb (toName a) (toName b).

Definition outEdge_le (a b : outEdge) : Prop := outEdge_leb a b.

Global Instance outEdge_le_dec : RelDecision outEdge_le :=
  λ a b, Is_true_dec (outEdge_leb a b).

Fixpoint outs_of (i : nat) (adj : list edge) : option (list outEdge) :=
  match adj with
  | [] => Some []
  | e :: rest =>
      nm ← roomNameOf (to e);
      outs ← outs_of (S i) rest;
      Some (mkOutEdge i nm :: outs)
  end.

Definition sortedOuts (graph : list (list edge)) : option (list (list outEdge)) :=
  mapM (λ adj, outs ← outs_of 0 adj; Some (merge_sort outEdge_le outs)) graph.

(** [consumeFlowAlong]: the first out-edge, in sorted order, that carries
    flow gives one unit back.  The inner [option] is the [bool] result. *)
Fixpoint consume_scan (u : nat) (outs : list outEdge) (graph : list (list edge))
  : option (option nat * list (list edge)) :=
  match outs with
  | [] => Some (None, graph)
  | oe :: rest =>
      e ← edge_at graph u (ei oe);
      if 0 <? flow e then
        graph1 ← upd_flow graph u (ei oe) (-1);
        graph2 ← upd_flow graph1 (to e) (rev e) 1;
        Some (Some (to e), graph2)
      else consume_scan u rest graph
  end.

Definition consumeFlowAlong (sorted : list (list outEdge)) (u : nat)
    (graph : list (list edge)) : option (option nat * list (list edge)) :=
  outs ← sorted !! u;
  consume_scan u outs graph.

(** [for cur != Ein]: the walk of one path from the first room after the
    source up to the sink. *)
Fixpoint trace_walk (fuel : nat) (sorted : list (list outEdge)) (cur : nat)
    (namePath : list string) (graph : list (list edge))
  : option (list string * list (list edge)) :=
  match fuel with
  | O => None
  | S fuel' =>
      if bool_decide (cur = Ein) then Some (namePath, graph)
      else
        vName ← roomNameOf cur;
        let namePath :=
          if bool_decide (vName ≠ endName) then namePath ++ [vName] else namePath in
        '(next, graph) ← consumeFlowAlong sorted cur graph;
        match next with
        | None => Some (namePath, graph)
        | Some cur1 =>
            '(next, graph) ← consumeFlowAlong sorted cur1 graph;
            match next with
            | None => Some (namePath, graph)
            | Some cur2 => trace_walk fuel' sorted cur2 namePath graph
            end
        end
  end.

(** The outer reconstruction loop. *)
Fixpoint trace_paths (fuel : nat) (maxPaths : Z) (sorted : list (list outEdge))
    (paths : list Path) (graph : list (list edge)) : option (list Path) :=
  match fuel with
  | O => None
  | S fuel' =>
      '(nextFromSource, graph) ← consumeFlowAlong sorted source graph;
      match nextFromSource with
      | None => Some paths
      | Some cur =>
          '(namePath, graph) ←
            trace_walk (S (length graph)) sorted cur [startName] graph;
          let namePath := namePath ++ [endName] in
          let paths := paths ++ [mkPath namePath (Z.of_nat (length namePath) - 1)] in
          if (0 <? maxPaths) && (maxPaths <=? Z.of_nat (length paths))
          then Some paths
          else trace_paths fuel' maxPaths sorted paths graph
      end
  end.

Definition flow_and_paths (maxPaths : Z) : option (list Path) :=
  graph ← build_network;
  adj ← graph !! source;
  '(graph, totalFlow) ← ek_loop (S (length adj)) maxPaths graph 0;
  if bool_decide (totalFlow = 0) then Some []
  else
    sorted ← sortedOuts graph;
    trace_paths (S (length adj)) maxPaths sorted [] graph.

End network.

(** [MultiPath], given the order [keys] in which [range g.Rooms] happens to
    enumerate the room names. *)
Definition MultiPath_from (keys : list string) (g : Graph) (maxPaths : Z)
  : option (list Path) :=
  match Start g, End g with
  | Some s, Some e =>
      if bool_decide (size (Rooms g) = 0%nat) then Some []
      else
        let names := merge_sort String.le keys in
        flow_and_paths g names s e maxPaths
  | _, _ => Some []
  end.

Definition MultiPath (g : Graph) (maxPaths : Z) : option (list Path) :=
  MultiPath_from (map_to_list (Rooms g)).*1 g maxPaths.

End path.

(** ** Package scheduler *)

Module scheduler.

Record AntState := mkAnt {
  ID : Z;
  PathIdx : nat;
  Pos : Z;
}.

(** The variables of [Run] that the turn loop mutates. *)
Record sim := mkSim {
  occupied : gmap string Z;
  antsState : gmap Z AntState;
  waitQueues : list (list Z);
  finished : Z;
}.

(** *** The (L-1) pre-allocation *)

(** [sum] of one pass of the inner [for _, L := range lens]. *)
Definition capacity_at (T : Z) (lens : list Z) : Z :=
  foldl (λ sum L, let base := wrap (L - 1) in
                  if base <? T then wrap (sum + wrap (T - base)) else sum)
        0 lens.

(** One pass of [for { ... if sum >= ants { break }; T++ }]: [inr T] when
    the loop breaks with [T], [inl] with the next value of [T] otherwise. *)
Definition find_T_step (ants : Z) (lens : list Z) (T : Z) : Z + Z :=
  if ants <=? capacity_at T lens then inr T else inl (wrap (T + 1)).

(** [2 ^ depth] passes of the loop, as long as it does not break. *)
Fixpoint find_T (depth : nat) (ants : Z) (lens : list Z) (T : Z) : Z + Z :=
  match depth with
  | O => find_T_step ants lens T
  | S depth' =>
      match find_T depth' ants lens T with
      | inr T' => inr T'
      | inl T' => find_T depth' ants lens T'
      end
  end.

(** First pass over [lens]: [counts[i] = min(max(0, T-(L-1)), remain)]. *)
Fixpoint take_counts (T : Z) (lens : list Z) (remain : Z) : list Z * Z :=
  match lens with
  | [] => ([], remain)
  | L :: rest =>
      let base := wrap (L - 1) in
      let take := if base <? T then wrap (T - base) else 0 in
      let take := if remain <? take then remain else take in
      let '(counts, remain') := take_counts T rest (wrap (remain - take)) in
      (take :: counts, remain')
  end.

(** Second pass: [for i := 0; i < len(paths) && remain > 0; i++]. *)
Fixpoint give_leftovers (counts : list Z) (remain : Z) : list Z :=
  match counts with
  | [] => []
  | c :: rest =>
      if 0 <? remain then wrap (c + 1) :: give_leftovers rest (wrap (remain - 1))
      else counts
  end.

(** The turn count [T] and the per-path ant counts.  The body of the loop
    over [T] depends on [T] alone, and [T++] takes [T] through all its
    [2^64] values: a loop that has not ended after [2^64] passes never
    ends, and there is no result. *)
Definition preallocate (ants : Z) (lens : list Z) : option (Z * list Z) :=
  L0 ← head lens;
  let T0 := if wrap (L0 - 1) <? 0 then 0 else wrap (L0 - 1) in
  match find_T 64 ants lens T0 with
  | inl _ => None
  | inr T =>
      let '(counts, remain) := take_counts T lens ants in
      Some (T, give_leftovers counts remain)
  end.

(** [assigned]: consecutive ant ids, [counts[i]] of them for path [i]. *)
Fixpoint assign_ids (id : Z) (counts : list Z) : list (list Z) :=
  match counts with
  | [] => []
  | c :: rest => seqZ id c :: assign_ids (id + (if 0 <? c then c else 0)) rest
  end.

(** *** The turn loop *)

Section simulation.

(** [range antsState] enumerates a Go map in an unspecified order, which may
    change from one loop to the next: [range_ants turn pi m] is the order
    taken in turn [turn] while path [pi] is handled. *)
Variable range_ants : nat → nat → gmap Z AntState → list (Z * AntState).
Variable startName endName : string.

Definition index_of_Z (z : Z) : option nat :=
  if z <? 0 then None else Some (Z.to_nat z).

Definition room_at (p : Path) (pos : Z) : option string :=
  i ← index_of_Z pos; PRooms p !! i.

Definition posToAnt_of (pi : nat) (states : list (Z * AntState)) : gmap Z Z :=
  foldl (λ m ka,
           let a := snd ka in
           if bool_decide (PathIdx a = pi) && (0 <? Pos a)
           then <[Pos a := ID a]> m else m)
        ∅ states.

Definition is_free (occ : gmap string Z) (room : string) : bool :=
  bool_decide (room = endName) || bool_decide (default 0 (occ !! room) = 0).

Definition is_inner (room : string) : bool :=
  bool_decide (room ≠ startName) && bool_decide (room ≠ endName).

Definition move_token (antID : Z) (room : string) : string :=
  "L" +:+ pretty antID +:+ "-" +:+ room.

(** Body of [for pos := p.Length - 1; pos >= 0; pos--]. *)
Definition advance_at (p : Path) (posToAnt : gmap Z Z) (pos : Z)
    (st : sim) (moves : list string) : option (sim * list string) :=
  match posToAnt !! pos with
  | None => Some (st, moves)
  | Some antID =>
      a ← antsState st !! antID;
      curRoom ← room_at p (Pos a);
      nextRoom ← room_at p (Pos a + 1);
      if is_free (occupied st) nextRoom then
        let occ1 :=
          if is_inner curRoom then <[curRoom := 0]> (occupied st) else occupied st in
        let occ2 := if is_inner nextRoom then <[nextRoom := antID]> occ1 else occ1 in
        let ants' := <[antID := mkAnt (ID a) (PathIdx a) (Pos a + 1)]> (antsState st) in
        let fin := if bool_decide (nextRoom = endName) then finished st + 1 else finished st in
        Some (mkSim occ2 ants' (waitQueues st) fin,
              moves ++ [move_token antID nextRoom])
      else Some (st, moves)
  end.

Fixpoint advance_positions (p : Path) (posToAnt : gmap Z Z) (poss : list Z)
    (st : sim) (moves : list string) : option (sim * list string) :=
  match poss with
  | [] => Some (st, moves)
  | pos :: rest =>
      '(st', moves') ← advance_at p posToAnt pos st moves;
      advance_positions p posToAnt rest st' moves'
  end.

(** The positions [p.Length - 1, ..., 0]. *)
Definition positions_down (p : Path) : list Z := reverse (seqZ 0 (Length p)).

(** Phase 1, [for pi, p := range paths]. *)
Fixpoint advance_paths (turn : nat) (pi : nat) (ps : list Path)
    (st : sim) (moves : list string) : option (sim * list string) :=
  match ps with
  | [] => Some (st, moves)
  | p :: rest =>
      let posToAnt := posToAnt_of pi (range_ants turn pi (antsState st)) in
      '(st', moves') ← advance_positions p posToAnt (positions_down p) st moves;
      advance_paths turn (S pi) rest st' moves'
  end.

Definition set_queue (st : sim) (pi : nat) (q : list Z) : sim :=
  mkSim (occupied st) (antsState st) (<[pi := q]> (waitQueues st)) (finished st).

(** Body of phase 2 for path [pi]. *)
Definition dispatch_at (pi : nat) (p : Path) (st : sim) (moves : list string)
  : option (sim * list string) :=
  q ← waitQueues st !! pi;
  match q with
  | [] => Some (st, moves)
  | antID :: q' =>
      if bool_decide (length (PRooms p) = 2%nat) then
        let st1 := set_queue st pi q' in
        Some (mkSim (occupied st1) (antsState st1) (waitQueues st1) (finished st1 + 1),
              moves ++ [move_token antID endName])
      else
        first ← PRooms p !! 1%nat;
        if is_free (occupied st) first then
          let st1 := set_queue st pi q' in
          let ants' := <[antID := mkAnt antID pi 1]> (antsState st1) in
          let occ' :=
            if is_inner first then <[first := antID]> (occupied st1) else occupied st1 in
          let fin := if bool_decide (first = endName) then finished st1 + 1 else finished st1 in
          Some (mkSim occ' ants' (waitQueues st1) fin,
                moves ++ [move_token antID first])
        else Some (st, moves)
  end.

Fixpoint dispatch_paths (pi : nat) (ps : list Path) (st : sim) (moves : list string)
  : option (sim * list string) :=
  match ps with
  | [] => Some (st, moves)
  | p :: rest =>
      '(st', moves') ← dispatch_at pi p st moves;
      dispatch_paths (S pi) rest st' moves'
  end.

(** One iteration of [for finished < ants], up to the print. *)
Definition turn_step (turn : nat) (paths : list Path) (st : sim)
  : option (sim * list string) :=
  '(st1, moves1) ← advance_paths turn 0 paths st [];
  dispatch_paths 0 paths st1 moves1.

(** [strings.Join(moves, " ")] *)
Definition join_moves (moves : list string) : string := String.concat " " moves.

(** The turn loop; the result is the list of printed lines. *)
Fixpoint turn_loop (fuel : nat) (turn : nat) (ants : Z) (paths : list Path)
    (st : sim) (out : list string) : option (list string) :=
  match fuel with
  | O => None
  | S fuel' =>
      if finished st <? ants then
        '(st', moves) ← turn_step turn paths st;
        match moves with
        | [] => Some out
        | _ => turn_loop fuel' (S turn) ants paths st' (out ++ [join_moves moves])
        end
      else Some out
  end.

End simulation.

(** A bound on the number of moves: every move advances one ant by one
    room.  It serves as the fuel of the turn loop. *)
Definition total_moves (counts : list Z) (paths : list Path) : nat :=
  foldr (λ cp acc, (Z.to_nat (fst cp) * Z.to_nat (Length (snd cp)) + acc)%nat)
        0%nat (zip counts paths).

Section run.

(** [sort.Slice] is not stable; the order it leaves between paths of equal
    length is fixed by its algorithm, which the caller cannot observe in any
    other way.  [sort_paths] stands for that algorithm. *)
Variable sort_paths : list Path → list Path.
Variable range_ants : nat → nat → gmap Z AntState → list (Z * AntState).

(** [Run]: the printed lines. *)
Definition Run (ants : Z) (paths : list Path) (g : Graph) : option (list string) :=
  if (ants <=? 0) || bool_decide (paths = []) then Some []
  else
    let paths := sort_paths paths in
    let lens := Length <$> paths in
    '(T, counts) ← preallocate ants lens;
    let assigned := assign_ids 1 counts in
    startName ← Start g;
    endName ← End g;
    turn_loop range_ants startName endName
      (S (total_moves counts paths)) 0 ants paths
      (mkSim ∅ ∅ assigned 0) [].

End run.

(** The order on paths that [Run] sorts by. *)
Definition shorter_eq (p q : Path) : Prop := Length p ≤ Length q.

Global Instance shorter_eq_dec : RelDecision shorter_eq.
Proof. intros p q. unfold shorter_eq. apply _. Defined.

End scheduler.

(** ** Package main *)

Module main.

Section main.

Variable sort_paths : list Path → list Path.
Variable range_rooms : gmap string Room → list string.
Variable range_ants : nat → nat → gmap Z scheduler.AntState → list (Z * scheduler.AntState).

(** What [main] does once the file has been read: the lines written to
    standard output and the exit status.  Every exit of [main] is either an
    explicit [os.Exit(0)] or the normal return. *)
Definition run_parsed (parsed : string + parser.Result) : option (list string * Z) :=
  match parsed with
  | inl err => Some ([err], 0)
  | inr res =>
      let echo := parser.OriginalLines res ++ [""] in
      paths ← path.MultiPath_from (range_rooms (Rooms (parser.RGraph res)))
                 (parser.RGraph res) 0;
      if bool_decide (length paths = 0%nat) then
        Some (echo ++ ["ERROR: invalid data format, no path found"], 0)
      else
        moves ← scheduler.Run sort_paths range_ants (parser.Ants res) paths
                   (parser.RGraph res);
        Some (echo ++ moves, 0)
  end.

(** [main] on the command line [args] (with the program name first) and a
    file system that maps a path to the error of [os.Open] or to the lines
    the scanner yields from the file, with the error it ends on, if any. *)
Definition main (args : list string)
    (fs : string → string + list string * option string)
  : option (list string * Z) :=
  match args with
  | _ :: file :: _ =>
      match fs file with
      | inl err => Some ([err], 0)
      | inr (lines, scan_err) => run_parsed (parser.Parse_scanner lines scan_err)
      end
  | _ => Some (["Usage: go run . <input-file>"], 0)
  end.

End main.

(** One run of the program.  [sort.Slice] is not stable and Go enumerates a
    map in an order of its choice, so the program is [run_parsed] for some
    sort by length and some enumerations, and the theorems are stated for
    all of them; this instance takes a merge sort and the key order of the
    maps. *)
Definition lem_in (lines : list string) : option (list string * Z) :=
  run_parsed (merge_sort scheduler.shorter_eq)
    (λ m, (map_to_list m).*1) (λ _ _ m, map_to_list m) (parser.Parse lines).

End main.

(** ** Package antfarm *)

Module antfarm.

(** The assignment of the ants to the paths in [Schedule].  [assigned] has
    one queue per path, so the index [i] of the inner loop is in range. *)




End antfarm.

(** * Verification *)

(** ** The graph model *)

(** C10. Calling [AddRoom] with a name that is already present returns the
    graph unchanged together with the room already stored under that name:
    neither the coordinates nor the links of the stored room are
    overwritten, and no room is created. *)
Theorem AddRoom_existing_unchanged (g : Graph) (name : string) (x y : Z) (r : Room) :
  Rooms g !! name = Some r →
  AddRoom g name x y = (g, r).
Proof.
  intros Hr. unfold AddRoom. by rewrite Hr.
Qed.

Lemma AddRoom_existing_unchanged_witness :
  let g := fst (AddRoom NewGraph "a" 1 2) in
  Rooms g !! "a" = Some (mkRoom "a" 1 2 []) ∧
  AddRoom g "a" 7 9 = (g, mkRoom "a" 1 2 []).
Proof.
  split; [reflexivity|].
  apply (AddRoom_existing_unchanged _ "a" 7 9 (mkRoom "a" 1 2 [])).
  reflexivity.
Defined.

Lemma AddRoom_Start g name x y : Start (AddRoom g name x y).1 = Start g.
Proof. unfold AddRoom. by destruct (Rooms g !! name). Qed.

Lemma AddRoom_End g name x y : End (AddRoom g name x y).1 = End g.
Proof. unfold AddRoom. by destruct (Rooms g !! name). Qed.

Lemma AddLink_Start g a b : Start (AddLink g a b).1 = Start g.
Proof. unfold AddLink. by repeat case_match. Qed.

Lemma AddLink_End g a b : End (AddLink g a b).1 = End g.
Proof. unfold AddLink. by repeat case_match. Qed.

(** ** The parser *)

Module parser_facts.
Import parser.
Import Stdlib.Strings.Ascii.

(** A comment line: it begins with [#] but not with [##]. *)
Definition is_comment (line : string) : bool :=
  String.prefix "#" line && negb (String.prefix "##" line).

Lemma parse_line_lines st line st' :
  parse_line st line = inr st' →
  ps_lines st' = ps_lines st ++ (if is_comment line then [] else [line]).
Proof.
  unfold parse_line, is_comment. intros H.
  repeat (case_match; simplify_eq/=; try done);
    by rewrite ?app_nil_r.
Qed.

Lemma parse_loop_lines input : ∀ st st',
  parse_loop st input = inr st' →
  ps_lines st' = ps_lines st ++ filter (λ l, ¬ is_comment l) input.
Proof.
  induction input as [|line rest IH]; intros st st' H; simplify_eq/=.
  { by rewrite app_nil_r. }
  destruct (parse_line st line) as [e|st1] eqn:Hl; [done|].
  apply IH in H. apply parse_line_lines in Hl. rewrite H, Hl.
  rewrite filter_cons.
  destruct (is_comment line); case_decide as Hd; simpl in *;
    rewrite ?app_nil_r, <- ?app_assoc; try done; exfalso; tauto.
Qed.

Lemma span_spec p cs a b :
  span p cs = (a, b) → cs = a ++ b ∧ forallb p a = true.
Proof.
  revert a b. induction cs as [|c cs IH]; intros a b H; simplify_eq/=; [done|].
  destruct (span p cs) as [a' b'] eqn:Hs.
  destruct (IH a' b' eq_refl) as [-> Ha].
  destruct (p c) eqn:Hp; simplify_eq/=; [|done].
  by rewrite Hp.
Qed.

(** A room line begins with a name character and contains white space. *)
Lemma roomLineRe_shape line m :
  roomLineRe line = Some m →
  ∃ c cs, String.list_ascii_of_string line = c :: cs ∧ name_head c = true ∧
          existsb is_space cs = true.
Proof.
  unfold roomLineRe. intros H.
  destruct (span _ (String.list_ascii_of_string line)) as [name r1] eqn:H1.
  destruct (span is_space r1) as [ws1 r2] eqn:H2.
  destruct (span _ r2) as [xs r3] eqn:H3.
  destruct (span is_space r3) as [ws2 r4] eqn:H4.
  destruct (span _ r4) as [ys r5] eqn:H5.
  case_match eqn:Hc; [|done].
  repeat (apply andb_prop in Hc as [Hc ?]).
  apply span_spec in H1 as [H1 _]. apply span_spec in H2 as [H2 Hws].
  destruct name as [|c name]; [done|].
  destruct ws1 as [|w ws1]; [done|].
  exists c, (name ++ (w :: ws1) ++ r2). split; [by rewrite H1, H2|].
  split; [done|].
  rewrite existsb_app. simpl in *. apply andb_prop in Hws as [-> _].
  by rewrite orb_true_r.
Qed.

Lemma space_not_digit c : is_space c = true → is_digit c = false.
Proof.
  destruct c as [[] [] [] [] [] [] [] []]; by vm_compute.
Qed.

Lemma digits_val_space cs : ∀ acc,
  existsb is_space cs = true → digits_val acc cs = None.
Proof.
  induction cs as [|c cs IH]; intros acc H; simplify_eq/=.
  destruct (is_space c) eqn:Hc; simpl in H.
  - by rewrite (space_not_digit c Hc).
  - destruct (is_digit c); [by apply IH|done].
Qed.

Lemma room_line_Atoi line m : roomLineRe line = Some m → (Atoi line).2 = false.
Proof.
  intros (c & cs & Hl & Hc & Hs)%roomLineRe_shape.
  unfold Atoi. rewrite Hl.
  assert (∀ acc, digits_val acc (c :: cs) = None) as Hall.
  { intros acc. apply digits_val_space. simpl. by rewrite Hs, orb_true_r. }
  assert (∀ acc, digits_val acc cs = None) as Hcs.
  { intros acc. by apply digits_val_space. }
  destruct cs as [|c1 cs1]; [done|].
  repeat case_match; simplify_eq/=; try done;
    try (by rewrite Hcs in *); by rewrite Hall in *.
Qed.

Lemma room_line_not_link line m : roomLineRe line = Some m → linkLineRe line = None.
Proof.
  intros (c & cs & Hl & Hc & Hs)%roomLineRe_shape.
  unfold linkLineRe. rewrite Hl, Hc. simpl.
  assert (forallb (λ c, negb (is_space c)) cs = false) as ->; [|done].
  clear -Hs. induction cs as [|a cs IH]; simplify_eq/=.
  destruct (is_space a); simpl in *; [done|by apply IH].
Qed.

Lemma room_line_not_hash line m :
  roomLineRe line = Some m → line ≠ "" ∧ String.prefix "#" line = false.
Proof.
  intros (c & cs & Hl & Hc & Hs)%roomLineRe_shape.
  destruct line as [|a line]; [done|].
  cbn [String.list_ascii_of_string] in Hl. injection Hl as -> _.
  split; [done|].
  change (String.prefix "#" (String c line)) with
    (if Ascii.ascii_dec "#"%char c then String.prefix "" line else false).
  destruct (Ascii.ascii_dec "#"%char c) as [<-|]; [|done].
  by vm_compute in Hc.
Qed.

Inductive marker := MStart | MEnd.

Definition marker_line (m : marker) : string :=
  match m with MStart => "##start" | MEnd => "##end" end.

(** The room a marker has designated so far. *)
Definition designated (m : marker) (g : Graph) : option string :=
  match m with MStart => Start g | MEnd => End g end.

Lemma parse_line_marker st m :
  parse_line st (marker_line m) =
    inr (mkPState (ps_ants st) (ps_graph st) (ps_lines st ++ [marker_line m])
           (ps_phase st) (marker_line m)).
Proof. by destruct m. Qed.

Lemma parse_line_designated m st line st' :
  parse_line st line = inr st' →
  is_Some (designated m (ps_graph st)) →
  is_Some (designated m (ps_graph st')).
Proof.
  unfold parse_line. intros H Hd.
  repeat (case_match; simplify_eq/=; try done);
    repeat match goal with
    | H : AddRoom ?g ?n ?x ?y = (?g1, _) |- _ =>
        pose proof (AddRoom_Start g n x y); pose proof (AddRoom_End g n x y);
        rewrite H in *; clear H
    | H : AddLink ?g ?a ?b = (?g1, _) |- _ =>
        pose proof (AddLink_Start g a b); pose proof (AddLink_End g a b);
        rewrite H in *; clear H
    end; simpl in *; destruct m; simpl in *; try done; try congruence;
    by (eexists || (destruct Hd; congruence)).
Qed.

Lemma parse_loop_designated m input : ∀ st st',
  parse_loop st input = inr st' →
  is_Some (designated m (ps_graph st)) →
  is_Some (designated m (ps_graph st')).
Proof.
  induction input as [|l input IH]; intros st st' H Hd; simplify_eq/=; [done|].
  destruct (parse_line st l) as [|st1] eqn:Hl; [done|].
  eapply IH; [done|]. by eapply parse_line_designated.
Qed.

Lemma parse_loop_app l1 l2 st :
  parse_loop st (l1 ++ l2) =
    match parse_loop st l1 with
    | inl e => inl e
    | inr st' => parse_loop st' l2
    end.
Proof.
  revert st. induction l1 as [|l l1 IH]; intros st; simpl; [done|].
  destruct (parse_line st l); [done|]. apply IH.
Qed.

(** A room line that follows a pending marker either is refused or leaves
    the marker's room designated; it is refused when the marker already has
    a room. *)
Lemma parse_line_room_after_marker m st line x :
  roomLineRe line = Some x →
  ps_pending st = marker_line m →
  match parse_line st line with
  | inl _ => True
  | inr st' =>
      designated m (ps_graph st) = None ∧ is_Some (designated m (ps_graph st'))
  end.
Proof.
  intros Hr Hp.
  pose proof (room_line_Atoi _ _ Hr) as Ha.
  pose proof (room_line_not_link _ _ Hr) as Hl.
  destruct (room_line_not_hash _ _ Hr) as [Hne Hh].
  unfold parse_line. rewrite Hr, Hl, Hh, Hp.
  rewrite bool_decide_eq_false_2 by done.
  destruct (Atoi line) as [v ok]; simpl in Ha; subst ok.
  destruct x as [[name xs] ys].
  repeat (case_match; simplify_eq/=; try done);
    repeat match goal with
    | H : AddRoom ?g ?n ?x ?y = (?g1, _) |- _ =>
        pose proof (AddRoom_Start g n x y); pose proof (AddRoom_End g n x y);
        rewrite H in *; clear H
    end; simpl in *; destruct m; simplify_eq/=; try done;
    split; try done; congruence.
Qed.

Definition other (m : marker) : marker :=
  match m with MStart => MEnd | MEnd => MStart end.

(** A line over which a pending marker stays pending: it is no room line
    and it is not the other marker.  Comments, unknown [##] commands, the
    line of the ant count and the marker itself are such lines. *)
Definition keeps_marker (m : marker) (line : string) : Prop :=
  roomLineRe line = None ∧ line ≠ marker_line (other m).

Lemma parse_line_keeps_marker m st line st' :
  ps_pending st = marker_line m → keeps_marker m line →
  parse_line st line = inr st' → ps_pending st' = marker_line m.
Proof.
  intros Hp [Hr Ho]. unfold parse_line.
  destruct (bool_decide (line = "")); [done|].
  destruct (String.prefix "#" line).
  - destruct (String.prefix "##" line); [|by intros [= <-]].
    destruct (bool_decide (line = "##start") || bool_decide (line = "##end")) eqn:Hm;
      [|by intros [= <-]].
    intros [= <-]. cbn [ps_pending].
    apply orb_prop in Hm as [Hm%bool_decide_eq_true|Hm%bool_decide_eq_true];
      destruct m; simpl in *; congruence.
  - destruct (bool_decide (ps_phase st = PhAnts)).
    + destruct (Atoi line) as [ants ok].
      destruct (negb ok || (ants <=? 0)); [done|]. by intros [= <-].
    + rewrite Hr. destruct (linkLineRe line) as [[a b]|]; [|by case_match].
      destruct (Start (ps_graph st)); [|done]. destruct (End (ps_graph st)); [|done].
      destruct (AddLink (ps_graph st) a b) as [g1 ok]. destruct ok; [|done].
      by intros [= <-].
Qed.

Lemma parse_loop_keeps_marker m lines : ∀ st st',
  ps_pending st = marker_line m → Forall (keeps_marker m) lines →
  parse_loop st lines = inr st' → ps_pending st' = marker_line m.
Proof.
  induction lines as [|l lines IH]; intros st st' Hp Hk H; simplify_eq/=; [done|].
  apply Forall_cons in Hk as [Hl Hk].
  destruct (parse_line st l) as [|st1] eqn:H1; [done|].
  apply (IH st1); [|done..]. by apply (parse_line_keeps_marker m st l).
Qed.

(** A marker, then lines that keep it pending, then a room line: the input
    is refused, or the marker had no room before and has one after. *)
Lemma parse_loop_marker_then_room m st between r x rest :
  roomLineRe r = Some x →
  Forall (keeps_marker m) between →
  match parse_loop st ([marker_line m] ++ between ++ [r] ++ rest) with
  | inl _ => True
  | inr st' =>
      designated m (ps_graph st) = None ∧ is_Some (designated m (ps_graph st'))
  end.
Proof.
  intros Hr Hk. cbn [app parse_loop]. rewrite parse_line_marker.
  set (st0 := mkPState _ _ _ _ _).
  rewrite parse_loop_app.
  destruct (parse_loop st0 between) as [|st1] eqn:H1; [done|].
  pose proof (parse_loop_keeps_marker m between st0 st1 eq_refl Hk H1) as Hp.
  cbn [parse_loop].
  pose proof (parse_line_room_after_marker m st1 r x Hr Hp) as H.
  destruct (parse_line st1 r) as [|st2] eqn:H2; [done|].
  destruct H as [Hnone Hsome].
  destruct (parse_loop st2 rest) as [|st3] eqn:H3; [done|].
  split; [|by eapply parse_loop_designated].
  destruct (designated m (ps_graph st)) as [d|] eqn:Hd; [exfalso|done].
  assert (is_Some (designated m (ps_graph st1))) as [d1 Hd1].
  { apply (parse_loop_designated m between st0 st1 H1). unfold st0. cbn [ps_graph].
    by rewrite Hd. }
  congruence.
Qed.

(** Two states of [Parse] that differ at most in the lines kept for the
    echo. *)
Definition same_but_lines (a b : pstate) : Prop :=
  ps_ants a = ps_ants b ∧ ps_graph a = ps_graph b ∧
  ps_phase a = ps_phase b ∧ ps_pending a = ps_pending b.

Lemma parse_line_same_but_lines a b line :
  same_but_lines a b →
  match parse_line a line, parse_line b line with
  | inl e, inl e' => e = e'
  | inr a', inr b' => same_but_lines a' b'
  | _, _ => False
  end.
Proof.
  destruct a as [an ag al ap ad], b as [bn bg bl bp bd].
  intros (Hn & Hg & Hp & Hd). simpl in *. subst bn bg bp bd.
  unfold parse_line, same_but_lines. simpl.
  repeat (case_match; simplify_eq/=; try done).
Qed.

Lemma parse_loop_same_but_lines lines : ∀ a b,
  same_but_lines a b →
  match parse_loop a lines, parse_loop b lines with
  | inl e, inl e' => e = e'
  | inr a', inr b' => same_but_lines a' b'
  | _, _ => False
  end.
Proof.
  induction lines as [|l lines IH]; intros a b Hab; [done|].
  cbn [parse_loop]. pose proof (parse_line_same_but_lines a b l Hab) as H.
  destruct (parse_line a l) as [|a1], (parse_line b l) as [|b1]; try done.
  by apply IH.
Qed.

End parser_facts.

(** C9 (as the code has it). [Parse] refuses an input as soon as a second
    room would be designated by the same marker.  A room line is designated
    by the marker [##start] (likewise [##end]) when the marker precedes it
    with no room line and no [##end] (likewise [##start]) line in between;
    comments, unknown [##] commands, the line of the ant count and further
    copies of the marker may stand in between.  An input with two room
    lines designated by the same marker is refused.  The marker alone does
    not count: writing a marker line twice in place of once changes neither
    whether the input is accepted, nor the error, nor the ant count and the
    graph. *)
Theorem second_designation_rejected
    (m : parser_facts.marker) (pre between1 mid between2 post : list string)
    (r1 r2 : string) :
  is_Some (parser.roomLineRe r1) →
  is_Some (parser.roomLineRe r2) →
  Forall (λ l, parser.roomLineRe l = None ∧
               l ≠ parser_facts.marker_line (parser_facts.other m)) between1 →
  Forall (λ l, parser.roomLineRe l = None ∧
               l ≠ parser_facts.marker_line (parser_facts.other m)) between2 →
  (∃ e, parser.Parse
          (pre ++ [parser_facts.marker_line m] ++ between1 ++ [r1] ++ mid
               ++ [parser_facts.marker_line m] ++ between2 ++ [r2] ++ post) = inl e) ∧
  (∀ before after : list string,
     match parser.Parse (before ++ [parser_facts.marker_line m] ++ after),
           parser.Parse (before ++ [parser_facts.marker_line m;
                                    parser_facts.marker_line m] ++ after) with
     | inl e, inl e' => e = e'
     | inr res, inr res' =>
         parser.Ants res = parser.Ants res' ∧ parser.RGraph res = parser.RGraph res'
     | _, _ => False
     end).
Proof.
  intros [x1 H1] [x2 H2] Hk1 Hk2. split.
  - unfold parser.Parse, parser.Parse_scanner.
    rewrite parser_facts.parse_loop_app.
    destruct (parser.parse_loop parser.init_pstate pre) as [e|st0]; [by eexists|].
    replace ([parser_facts.marker_line m] ++ between1 ++ [r1] ++ mid
               ++ [parser_facts.marker_line m] ++ between2 ++ [r2] ++ post)
      with (([parser_facts.marker_line m] ++ between1 ++ [r1] ++ mid)
              ++ [parser_facts.marker_line m] ++ between2 ++ [r2] ++ post)
      by (by rewrite <- !app_assoc).
    rewrite parser_facts.parse_loop_app.
    pose proof (parser_facts.parse_loop_marker_then_room m st0 between1 r1 x1 mid H1 Hk1)
      as Ha.
    destruct (parser.parse_loop st0 _) as [e|st1]; [by eexists|].
    destruct Ha as [_ Ha].
    pose proof (parser_facts.parse_loop_marker_then_room m st1 between2 r2 x2 post H2 Hk2)
      as Hb.
    destruct (parser.parse_loop st1 _) as [e|st2]; [by eexists|].
    destruct Hb as [Hb _]. rewrite Hb in Ha. by destruct Ha.
  - intros before after. unfold parser.Parse, parser.Parse_scanner.
    rewrite !parser_facts.parse_loop_app.
    destruct (parser.parse_loop parser.init_pstate before) as [e|st0]; [done|].
    cbn [app parser.parse_loop]. rewrite !parser_facts.parse_line_marker.
    cbn [parser.ps_ants parser.ps_graph parser.ps_lines parser.ps_phase].
    set (a := parser.mkPState _ _ (parser.ps_lines st0 ++ [_]) _ _).
    set (b := parser.mkPState _ _ ((parser.ps_lines st0 ++ [_]) ++ [_]) _ _).
    pose proof (parser_facts.parse_loop_same_but_lines after a b) as Hsame.
    destruct (parser.parse_loop a after) as [e1|a1],
             (parser.parse_loop b after) as [e2|b1];
      specialize (Hsame ltac:(done)); try done.
    destruct Hsame as (Hn & Hg & _ & _). rewrite Hn, Hg.
    destruct (Start (parser.ps_graph b1)); [|done].
    destruct (End (parser.ps_graph b1)); [|done].
    by destruct (bool_decide (parser.ps_ants b1 = 0)).
Qed.

Lemma second_designation_rejected_witness :
  let input :=
    ["2"] ++ [parser_facts.marker_line parser_facts.MStart] ++ ["#c"] ++ ["a 0 0"]
      ++ ["##end"; "z 5 5"]
      ++ [parser_facts.marker_line parser_facts.MStart] ++ ["#c"] ++ ["b 1 1"] ++ ["a-z"] in
  (∃ e, parser.Parse input = inl e) ∧
  (∀ before after : list string,
     match parser.Parse (before ++ [parser_facts.marker_line parser_facts.MStart] ++ after),
           parser.Parse (before ++ [parser_facts.marker_line parser_facts.MStart;
                                    parser_facts.marker_line parser_facts.MStart] ++ after)
     with
     | inl e, inl e' => e = e'
     | inr res, inr res' =>
         parser.Ants res = parser.Ants res' ∧ parser.RGraph res = parser.RGraph res'
     | _, _ => False
     end).
Proof.
  intros input.
  apply (second_designation_rejected parser_facts.MStart ["2"] ["#c"] ["##end"; "z 5 5"]
           ["#c"] ["a-z"] "a 0 0" "b 1 1").
  - by eexists.
  - by eexists.
  - repeat constructor; discriminate.
  - repeat constructor; discriminate.
Defined.

(** C9, counterexample: the marker [##start] occurs twice and the input is
    accepted. *)
Lemma repeated_marker_accepted :
  ∃ res,
    parser.Parse ["1"; "##start"; "##start"; "a 0 0"; "##end"; "b 1 1"; "a-b"] = inr res ∧
    length (filter (λ l, l = "##start")
              ["1"; "##start"; "##start"; "a 0 0"; "##end"; "b 1 1"; "a-b"]) = 2%nat ∧
    Start (parser.RGraph res) = Some "a".
Proof.
  eexists. split; [reflexivity|]. split; reflexivity.
Qed.


(** ** The residual graph and the flow *)

Definition Zsum (l : list Z) : Z := foldr Z.add 0 l.

Lemma Zsum_cons x l : Zsum (x :: l) = x + Zsum l.
Proof. done. Qed.

Lemma Zsum_app l1 l2 : Zsum (l1 ++ l2) = Zsum l1 + Zsum l2.
Proof. induction l1 as [|x l1 IH]; simpl; lia. Qed.

Lemma Zsum_insert (l : list Z) (i : nat) x y :
  l !! i = Some x → Zsum (<[i := y]> l) = Zsum l - x + y.
Proof.
  revert i. induction l as [|z l IH]; intros [|i] H; simplify_eq/=; [lia|].
  rewrite (IH i H). lia.
Qed.

Lemma Zsum_nonpos_zero (l : list Z) :
  Forall (λ x, x ≤ 0) l → 0 ≤ Zsum l → Forall (λ x, x = 0) l.
Proof.
  induction 1 as [|x l Hx Hl IH]; intros Hs; [done|]. simpl in Hs.
  assert (Zsum l ≤ 0) as Hle.
  { clear -Hl. induction Hl; simpl; lia. }
  constructor; [lia|]. apply IH. lia.
Qed.

Module residual.
Import path.

(** *** Reading and updating half-edges *)

Lemma edge_at_Some graph u i e :
  edge_at graph u i = Some e ↔ ∃ adj, graph !! u = Some adj ∧ adj !! i = Some e.
Proof.
  unfold edge_at. destruct (graph !! u) as [adj|]; simpl.
  - split; [by exists adj|]. by intros (adj' & [= <-] & ?).
  - split; [done|]. by intros (adj' & ? & ?).
Qed.

Lemma upd_flow_Some graph u i d e :
  edge_at graph u i = Some e →
  upd_flow graph u i d =
    Some (<[u := <[i := add_flow d e]> (default [] (graph !! u))]> graph).
Proof.
  intros (adj & Hu & Hi)%edge_at_Some. unfold upd_flow.
  by rewrite Hu; simpl; rewrite Hi.
Qed.

Lemma upd_flow_inv graph u i d graph' :
  upd_flow graph u i d = Some graph' →
  ∃ adj e, graph !! u = Some adj ∧ adj !! i = Some e ∧
           graph' = <[u := <[i := add_flow d e]> adj]> graph.
Proof.
  unfold upd_flow. intros H.
  destruct (graph !! u) as [adj|] eqn:Hu; simplify_eq/=.
  destruct (adj !! i) as [e|] eqn:Hi; simplify_eq/=. eauto.
Qed.

Lemma upd_flow_length graph u i d graph' :
  upd_flow graph u i d = Some graph' → length graph' = length graph.
Proof. intros (adj & e & _ & _ & ->)%upd_flow_inv. by rewrite length_insert. Qed.

Lemma upd_flow_lookup graph u i d graph' v :
  upd_flow graph u i d = Some graph' →
  length <$> graph' !! v = length <$> graph !! v.
Proof.
  intros (adj & e & Hu & Hi & ->)%upd_flow_inv.
  destruct (decide (v = u)) as [->|].
  - rewrite list_lookup_insert_eq by (by eapply lookup_lt_Some).
    rewrite Hu. simpl. by rewrite length_insert.
  - by rewrite list_lookup_insert_ne.
Qed.

Lemma edge_at_upd_flow graph u i d graph' v j :
  upd_flow graph u i d = Some graph' →
  edge_at graph' v j =
    if decide (v = u ∧ j = i) then add_flow d <$> edge_at graph u i
    else edge_at graph v j.
Proof.
  intros (adj & e & Hu & Hi & ->)%upd_flow_inv. unfold edge_at.
  destruct (decide (v = u)) as [->|Hne].
  - rewrite list_lookup_insert_eq by (by eapply lookup_lt_Some).
    rewrite Hu. simpl. destruct (decide (j = i)) as [->|Hji].
    + rewrite decide_True by done.
      rewrite list_lookup_insert_eq by (by eapply lookup_lt_Some). by rewrite Hi.
    + rewrite decide_False by (intros [? ?]; congruence). by rewrite list_lookup_insert_ne.
  - rewrite list_lookup_insert_ne by done. rewrite decide_False by (intros [? ?]; congruence). done.
Qed.

Lemma edge_at_upd_flow_eq graph u i d graph' e :
  upd_flow graph u i d = Some graph' →
  edge_at graph u i = Some e →
  edge_at graph' u i = Some (add_flow d e).
Proof.
  intros H He. rewrite (edge_at_upd_flow _ _ _ _ _ _ _ H), decide_True by done.
  by rewrite He.
Qed.

Lemma edge_at_upd_flow_ne graph u i d graph' v j :
  upd_flow graph u i d = Some graph' →
  (v, j) ≠ (u, i) →
  edge_at graph' v j = edge_at graph v j.
Proof.
  intros H Hne. rewrite (edge_at_upd_flow _ _ _ _ _ _ _ H), decide_False; [done|].
  intros [-> ->]. done.
Qed.

(** The part of a half-edge that flow updates leave alone. *)
Definition shape (e : edge) : nat * nat * Z := (to e, rev e, cap e).

Lemma shape_add_flow d e : shape (add_flow d e) = shape e.
Proof. done. Qed.

Lemma shape_upd_flow graph u i d graph' v j :
  upd_flow graph u i d = Some graph' →
  shape <$> edge_at graph' v j = shape <$> edge_at graph v j.
Proof.
  intros H. rewrite (edge_at_upd_flow _ _ _ _ _ _ _ H). case_decide as Hd; [|done].
  destruct Hd as [-> ->]. by destruct (edge_at graph u i).
Qed.


(** *** The construction of the residual graph *)

Lemma addEdge_spec u v c graph gu gv :
  u ≠ v → graph !! u = Some gu → graph !! v = Some gv →
  addEdge u v c graph =
    Some (<[v := gv ++ [mkEdge u (length gu) 0 0]]>
            (<[u := gu ++ [mkEdge v (length gv) c 0]]> graph)).
Proof.
  intros Hne Hu Hv. unfold addEdge. rewrite Hu. cbn [mbind option_bind].
  rewrite Hv. cbn [mbind option_bind].
  rewrite (list_lookup_insert_ne graph u v) by done.
  rewrite Hv. cbn [mbind option_bind].
  rewrite list_lookup_insert_eq by (by eapply lookup_lt_Some).
  cbn [mbind option_bind]. rewrite length_app. simpl.
  by replace (length gu + 1 - 1)%nat with (length gu) by lia.
Qed.

Lemma build_idOf_notin names : ∀ i m nm,
  nm ∉ names → build_idOf i names m !! nm = m !! nm.
Proof.
  induction names as [|x names IH]; intros i m nm Hnm; simpl; [done|].
  apply not_elem_of_cons in Hnm as [? ?].
  rewrite IH by done. by rewrite lookup_insert_ne.
Qed.

Lemma build_idOf_lookup names : ∀ i m (a : nat) nm,
  NoDup names → names !! a = Some nm →
  build_idOf i names m !! nm = Some (i + a)%nat.
Proof.
  induction names as [|x names IH]; intros i m a nm Hnd Ha; [done|].
  apply NoDup_cons in Hnd as [Hx Hnd]. destruct a as [|a]; simplify_eq/=.
  - rewrite build_idOf_notin by done. rewrite lookup_insert_eq. f_equal. lia.
  - rewrite (IH _ _ a) by done. f_equal. lia.
Qed.

Lemma build_idOf_bound names : ∀ i m nm (a : nat),
  build_idOf i names m !! nm = Some a →
  m !! nm = Some a ∨ (i ≤ a < i + length names)%nat.
Proof.
  induction names as [|x names IH]; intros i m nm a H; simpl in *; [by left|].
  apply IH in H as [H|H]; [|right; lia].
  destruct (decide (x = nm)) as [->|].
  - rewrite lookup_insert_eq in H. simplify_eq. right. lia.
  - rewrite lookup_insert_ne in H by done. by left.
Qed.

Lemma odd_succ_double (a : nat) : Nat.odd (2 * a + 1) = true.
Proof. rewrite Nat.odd_add, Nat.odd_mul. done. Qed.

(** Every half-edge has its partner where [rev] says, pointing back. *)
Definition paired (graph : list (list edge)) : Prop :=
  ∀ u i e, edge_at graph u i = Some e →
    to e ≠ u ∧
    ∃ e', edge_at graph (to e) (rev e) = Some e' ∧ to e' = u ∧ rev e' = i.

Lemma edge_at_addEdge u v c graph gu gv w j :
  u ≠ v → graph !! u = Some gu → graph !! v = Some gv →
  edge_at (<[v := gv ++ [mkEdge u (length gu) 0 0]]>
             (<[u := gu ++ [mkEdge v (length gv) c 0]]> graph)) w j =
    if decide (w = u ∧ j = length gu) then Some (mkEdge v (length gv) c 0)
    else if decide (w = v ∧ j = length gv) then Some (mkEdge u (length gu) 0 0)
    else edge_at graph w j.
Proof.
  intros Hne Hu Hv. unfold edge_at.
  assert (u < length graph)%nat by (by eapply lookup_lt_Some).
  assert (v < length graph)%nat by (by eapply lookup_lt_Some).
  destruct (decide (w = v)) as [->|Hwv].
  - rewrite list_lookup_insert_eq by (by rewrite length_insert).
    rewrite decide_False by (intros [? ?]; congruence). rewrite Hv. simpl.
    destruct (decide (j = length gv)) as [->|].
    + rewrite decide_True by done. by rewrite lookup_app_r, Nat.sub_diag.
    + rewrite decide_False by (intros [? ?]; congruence).
      destruct (decide (j < length gv)%nat).
      * by rewrite lookup_app_l.
      * rewrite !lookup_ge_None_2; [done|lia|rewrite length_app; simpl; lia].
  - rewrite list_lookup_insert_ne by done.
    rewrite (decide_False (P := w = v ∧ _)) by (intros [? ?]; congruence).
    destruct (decide (w = u)) as [->|Hwu].
    + rewrite list_lookup_insert_eq by done. rewrite Hu. simpl.
      destruct (decide (j = length gu)) as [->|].
      * rewrite decide_True by done. by rewrite lookup_app_r, Nat.sub_diag.
      * rewrite decide_False by (intros [? ?]; congruence).
        destruct (decide (j < length gu)%nat).
        -- by rewrite lookup_app_l.
        -- rewrite !lookup_ge_None_2; [done|lia|rewrite length_app; simpl; lia].
    + rewrite list_lookup_insert_ne by done. by rewrite decide_False by (intros [? ?]; congruence).
Qed.

Lemma paired_addEdge u v c graph gu gv :
  u ≠ v → graph !! u = Some gu → graph !! v = Some gv →
  paired graph →
  paired (<[v := gv ++ [mkEdge u (length gu) 0 0]]>
            (<[u := gu ++ [mkEdge v (length gv) c 0]]> graph)).
Proof.
  intros Hne Hu Hv Hp w j e.
  assert (edge_at graph u (length gu) = None) as Hnu.
  { unfold edge_at. rewrite Hu. simpl. by apply lookup_ge_None_2. }
  assert (edge_at graph v (length gv) = None) as Hnv.
  { unfold edge_at. rewrite Hv. simpl. by apply lookup_ge_None_2. }
  intros He. rewrite (edge_at_addEdge u v c graph gu gv) in He by done.
  repeat case_decide; destruct_and?; simplify_eq/=.
  - split; [congruence|]. eexists.
    rewrite (edge_at_addEdge u v c graph gu gv) by done.
    rewrite decide_False by (intros [? ?]; congruence). by rewrite decide_True.
  - split; [congruence|]. eexists.
    rewrite (edge_at_addEdge u v c graph gu gv) by done.
    by rewrite decide_True.
  - destruct (Hp w j e He) as [? (e' & He' & ? & ?)]. split; [done|]. exists e'.
    rewrite (edge_at_addEdge u v c graph gu gv) by done.
    rewrite !decide_False; [done|intros [??]; congruence|intros [??]; congruence].
Qed.

Section network.

Variable g : Graph.
Variable names : list string.
Variable startName endName : string.
Hypothesis names_nodup : NoDup names.
Hypothesis names_rooms : ∀ nm, nm ∈ names → is_Some (Rooms g !! nm).

Local Abbreviation N := (length names).
Local Abbreviation inIdx := (inIdx names).
Local Abbreviation outIdx := (outIdx names).
Local Abbreviation idOf := (idOf names).

Lemma idOf_lookup (a : nat) nm : names !! a = Some nm → idOf !! nm = Some a.
Proof.
  intros H. unfold path.idOf. by rewrite (build_idOf_lookup names 0 ∅ a nm).
Qed.

Lemma inIdx_name (a : nat) nm : names !! a = Some nm → inIdx nm = (2 * a)%nat.
Proof. intros H. unfold path.inIdx. by rewrite (idOf_lookup a nm H). Qed.

Lemma outIdx_name (a : nat) nm : names !! a = Some nm → outIdx nm = (2 * a + 1)%nat.
Proof. intros H. unfold path.outIdx. by rewrite (idOf_lookup a nm H). Qed.

(** Whatever the name, [inIdx] is twice a room id as soon as there is a room. *)
Lemma inIdx_room nm : names ≠ [] → ∃ b : nat, inIdx nm = (2 * b)%nat ∧ (b < N)%nat.
Proof using Type.
  intros Hne. unfold path.inIdx. destruct (idOf !! nm) as [b|] eqn:Hb; simpl.
  - exists b. split; [done|]. apply build_idOf_bound in Hb as [Hb|Hb]; [done|lia].
  - exists 0%nat. split; [done|].
    destruct (decide (N = 0)%nat) as [H0|]; [by apply nil_length_inv in H0|lia].
Qed.

Definition room_cap (nm : string) : Z :=
  if bool_decide (nm = startName) || bool_decide (nm = endName) then INF else 1.

Definition room_fwd (a : nat) (nm : string) : edge :=
  mkEdge (2 * a + 1) 0 (room_cap nm) 0.
Definition room_rev (a : nat) : edge := mkEdge (2 * a) 0 0 0.

(** State of the first loop after [k] rooms. *)
Definition rooms_done (k : nat) (graph : list (list edge)) : Prop :=
  length graph = (2 * N)%nat ∧
  ∀ (a : nat) nm, names !! a = Some nm →
    if decide (a < k)%nat
    then graph !! (2 * a)%nat = Some [room_fwd a nm] ∧
         graph !! (2 * a + 1)%nat = Some [room_rev a]
    else graph !! (2 * a)%nat = Some [] ∧ graph !! (2 * a + 1)%nat = Some [].

Lemma add_room_edges_spec todo : ∀ k graph,
  names = take k names ++ todo → k = (N - length todo)%nat →
  rooms_done k graph →
  ∃ graph', add_room_edges names startName endName todo graph = Some graph' ∧
            rooms_done N graph'.
Proof.
  induction todo as [|nm todo IH]; intros k graph Hsplit Hk [Hlen Hdone].
  { simpl in *. exists graph. split; [done|]. split; [done|]. by replace N with k by lia. }
  assert (N = k + S (length todo))%nat as HkN.
  { pose proof (f_equal length Hsplit) as Hl.
    rewrite length_app, length_take in Hl. simpl in *. lia. }
  assert (names !! k = Some nm) as Hnm.
  { rewrite Hsplit. rewrite lookup_app_r; rewrite length_take; [|lia].
    by replace (k - k `min` N)%nat with 0%nat by lia. }
  cbn [add_room_edges]. rewrite (inIdx_name k nm Hnm), (outIdx_name k nm Hnm).
  pose proof (Hdone k nm Hnm) as Hk0. rewrite decide_False in Hk0 by lia.
  destruct Hk0 as [Hin Hout].
  rewrite (addEdge_spec (2 * k) (2 * k + 1) _ _ [] [] ltac:(lia) Hin Hout).
  cbn [mbind option_bind]. fold (room_cap nm).
  apply (IH (S k)).
  - rewrite (take_S_r _ _ nm Hnm), <- app_assoc. done.
  - simpl in Hk. lia.
  - split; [by rewrite !length_insert|].
    intros a nm' Ha. specialize (Hdone a nm' Ha).
    destruct (decide (a = k)) as [->|Hak].
    + simplify_eq. rewrite decide_True by lia.
      rewrite list_lookup_insert_ne by lia.
      rewrite list_lookup_insert_eq by lia.
      rewrite list_lookup_insert_eq by (rewrite length_insert; lia). done.
    + rewrite !list_lookup_insert_ne by lia.
      destruct (decide (a < k)%nat); [rewrite decide_True by lia|rewrite decide_False by lia];
        done.
Qed.


(** State of the second loop: [Lf a] lists the in-nodes that [a]'s
    out-node has been linked to so far. *)
Definition links_done (Lf : nat → list nat) (graph : list (list edge)) : Prop :=
  length graph = (2 * N)%nat ∧
  paired graph ∧
  ∀ (a : nat) nm, names !! a = Some nm →
    ∃ rin rout,
      graph !! (2 * a)%nat = Some (room_fwd a nm :: rin) ∧
      Forall (λ e, cap e = 0 ∧ flow e = 0 ∧ Nat.odd (to e) = true) rin ∧
      graph !! (2 * a + 1)%nat = Some (room_rev a :: rout) ∧
      Forall (λ e, cap e = 1 ∧ flow e = 0) rout ∧
      to <$> rout = Lf a.

Lemma rooms_done_links_done graph :
  rooms_done N graph → links_done (λ _, []) graph.
Proof.
  intros [Hlen Hdone]. unfold room_fwd, room_rev in *. split; [done|]. split.
  - intros u i e (adj & Hu & Hi)%edge_at_Some.
    assert (u < 2 * N)%nat as Hlt by (rewrite <- Hlen; by eapply lookup_lt_Some).
    assert (∃ a : nat, (a < N)%nat ∧ (u = 2 * a ∨ u = 2 * a + 1)%nat) as (a & HaN & Hua).
    { exists (u `div` 2)%nat. pose proof (Nat.div_mod_eq u 2) as Hdm.
      destruct (Nat.mod_bound_pos u 2) as [_ Hm]; [lia..|].
      split; [apply Nat.Div0.div_lt_upper_bound; lia|lia]. }
    destruct (lookup_lt_is_Some_2 names a HaN) as [nm Hnm].
    specialize (Hdone _ _ Hnm). rewrite decide_True in Hdone by done.
    destruct Hdone as [Hin Hout].
    destruct Hua as [-> | ->].
    + simplify_eq. destruct i; simplify_eq/=. split; [lia|].
      eexists. unfold edge_at. rewrite Hout. simpl. split; [done|]. simpl. split; [lia|done].
    + simplify_eq. destruct i; simplify_eq/=. split; [lia|].
      eexists. unfold edge_at. rewrite Hin. simpl. split; [done|]. simpl. split; [lia|done].
  - intros a nm Ha. specialize (Hdone _ _ Ha). rewrite decide_True in Hdone
      by (by eapply lookup_lt_Some).
    destruct Hdone as [Hin Hout]. by exists [], [].
Qed.

Definition Lf_add (Lf : nat → list nat) (a : nat) (ts : list nat) : nat → list nat :=
  λ x, if decide (x = a) then Lf a ++ ts else Lf x.

Lemma addEdge_links_done Lf graph (a b : nat) nm :
  links_done Lf graph → names !! a = Some nm → (b < N)%nat →
  ∃ graph', addEdge (2 * a + 1) (2 * b) 1 graph = Some graph' ∧
            links_done (Lf_add Lf a [(2 * b)%nat]) graph'.
Proof.
  intros (Hlen & Hp & Hall) Ha Hb.
  destruct (lookup_lt_is_Some_2 names b Hb) as [nb Hnb].
  destruct (Hall a nm Ha) as (rin & rout & Hin & Hrin & Hout & Hrout & HLf).
  destruct (Hall b nb Hnb) as (rinb & routb & Hinb & Hrinb & Houtb & Hroutb & HLfb).
  rewrite (addEdge_spec (2 * a + 1) (2 * b) _ _ _ _ ltac:(lia) Hout Hinb).
  eexists. split; [done|]. split; [by rewrite !length_insert|]. split.
  { by apply paired_addEdge; [lia|..]. }
  intros c nc Hc.
  destruct (Hall c nc Hc) as (rinc & routc & Hinc & Hrinc & Houtc & Hroutc & HLfc).
  assert (2 * c < length graph)%nat by (by eapply lookup_lt_Some).
  assert (2 * c + 1 < length graph)%nat by (by eapply lookup_lt_Some).
  exists (if decide (c = b) then rinc ++ [mkEdge (2 * a + 1) (length (room_rev a :: rout)) 0 0] else rinc),
         (if decide (c = a) then routc ++ [mkEdge (2 * b) (length (room_fwd b nb :: rinb)) 1 0] else routc).
  split; [|split; [|split; [|split]]].
  - destruct (decide (c = b)) as [->|].
    + rewrite list_lookup_insert_eq by (rewrite length_insert; lia). by simplify_eq.
    + rewrite !list_lookup_insert_ne by lia. done.
  - case_decide; [|done]. apply Forall_app. split; [done|].
    apply Forall_singleton. simpl. split; [done|]. split; [done|].
    apply (odd_succ_double a).
  - rewrite list_lookup_insert_ne by lia. destruct (decide (c = a)) as [->|].
    + rewrite list_lookup_insert_eq by lia. by simplify_eq.
    + rewrite !list_lookup_insert_ne by lia. done.
  - case_decide; [|done]. apply Forall_app. split; [done|].
    by apply Forall_singleton.
  - unfold Lf_add. case_decide; [|done]. subst c. simplify_eq.
    rewrite fmap_app. by f_equal.
Qed.

Lemma Lf_add_add Lf a ts1 ts2 :
  ∀ x, Lf_add (Lf_add Lf a ts1) a ts2 x = Lf_add Lf a (ts1 ++ ts2) x.
Proof.
  intros x. unfold Lf_add. destruct (decide (x = a)) as [->|]; [|done].
  rewrite decide_True by done. by rewrite <- app_assoc.
Qed.

Lemma links_done_ext Lf Lf' graph :
  (∀ x, Lf x = Lf' x) → links_done Lf graph → links_done Lf' graph.
Proof.
  intros Heq (? & ? & Hall). split; [done|]. split; [done|].
  intros a nm Ha. destruct (Hall a nm Ha) as (rin & rout & ?).
  exists rin, rout. rewrite <- Heq. naive_solver.
Qed.

Lemma add_links_of_spec (a : nat) nm nbs : ∀ Lf graph,
  links_done Lf graph → names !! a = Some nm →
  ∃ graph', add_links_of names nm nbs graph = Some graph' ∧
            links_done (Lf_add Lf a (inIdx <$> nbs)) graph'.
Proof.
  induction nbs as [|vn nbs IH]; intros Lf graph Hld Ha.
  { exists graph. split; [done|]. eapply links_done_ext; [|done].
    intros x. unfold Lf_add. case_decide; [subst; by rewrite app_nil_r|done]. }
  cbn [add_links_of]. rewrite (outIdx_name a nm Ha).
  destruct (inIdx_room vn) as (b & Hb & HbN).
  { intros Hn. rewrite Hn in Ha. done. }
  rewrite Hb.
  destruct (addEdge_links_done Lf graph a b nm Hld Ha HbN) as (graph1 & -> & Hld1).
  cbn [mbind option_bind].
  destruct (IH _ _ Hld1 Ha) as (graph2 & -> & Hld2).
  exists graph2. split; [done|]. eapply links_done_ext; [|done].
  intros x. rewrite Lf_add_add. by rewrite fmap_cons, Hb.
Qed.

(** The out-node of room [a] is linked to the in-nodes of [a]'s
    neighbours, in sorted order. *)
Definition links_of (a : nat) : list nat :=
  match names !! a with
  | Some nm =>
      match Rooms g !! nm with
      | Some r => inIdx <$> merge_sort String.le (Links r)
      | None => []
      end
  | None => []
  end.

Lemma add_link_edges_spec todo : ∀ (k : nat) Lf graph,
  names = take k names ++ todo →
  links_done Lf graph →
  (∀ a, Lf a = if decide (a < k)%nat then links_of a else []) →
  ∃ graph', add_link_edges g names todo graph = Some graph' ∧
            links_done links_of graph'.
Proof.
  induction todo as [|nm todo IH]; intros k Lf graph Hsplit Hld HLf.
  { exists graph. split; [done|]. eapply links_done_ext; [|done].
    intros a. rewrite HLf. rewrite app_nil_r in Hsplit.
    case_decide; [done|]. unfold links_of.
    rewrite lookup_ge_None_2; [done|].
    pose proof (f_equal length Hsplit) as Hl. rewrite length_take in Hl. lia. }
  assert (N = k + S (length todo))%nat as HkN.
  { pose proof (f_equal length Hsplit) as Hl.
    rewrite length_app, length_take in Hl. simpl in *. lia. }
  assert (names !! k = Some nm) as Hnm.
  { rewrite Hsplit. rewrite lookup_app_r; rewrite length_take; [|lia].
    by replace (k - k `min` N)%nat with 0%nat by lia. }
  cbn [add_link_edges].
  destruct (names_rooms nm) as [r Hr]; [by eapply list_elem_of_lookup_2|].
  rewrite Hr. cbn [mbind option_bind].
  destruct (add_links_of_spec k nm (merge_sort String.le (Links r)) Lf graph Hld Hnm)
    as (graph1 & -> & Hld1).
  cbn [mbind option_bind].
  eapply (IH (S k)); [|exact Hld1|].
  - rewrite (take_S_r _ _ nm Hnm), <- app_assoc. done.
  - intros a. unfold Lf_add. rewrite !HLf.
    destruct (decide (a = k)) as [->|].
    + rewrite decide_False by lia. rewrite decide_True by lia.
      unfold links_of. by rewrite Hnm, Hr.
    + destruct (decide (a < k)%nat);
        [rewrite decide_True by lia|rewrite decide_False by lia]; done.
Qed.

(** The residual graph [MultiPath] starts from. *)
Lemma build_network_spec :
  ∃ graph, build_network g names startName endName = Some graph ∧
           links_done links_of graph.
Proof.
  unfold build_network.
  destruct (add_room_edges_spec names 0 (replicate (2 * N) []))
    as (graph1 & -> & Hrd); [done|lia| |].
  { split; [by rewrite length_replicate|]. intros a nm Ha.
    assert (a < N)%nat by (by eapply lookup_lt_Some).
    rewrite decide_False by lia.
    split; apply lookup_replicate_2; lia. }
  cbn [mbind option_bind].
  apply (add_link_edges_spec names 0 (λ _, [])); [done| |done].
  by apply rooms_done_links_done.
Qed.

End network.


Global Arguments path.source : simpl never.
Global Arguments path.sink : simpl never.

(** *** Breadth-first search *)

Lemma NoDup_bounded_length (l : list nat) (n : nat) :
  NoDup l → (∀ x, x ∈ l → (x < n)%nat) → (length l ≤ n)%nat.
Proof.
  intros Hnd Hb. transitivity (length (seq 0 n)); [|by rewrite length_seq].
  apply submseteq_length.
  apply NoDup_submseteq; [done|]. intros x Hx. apply elem_of_seq.
  specialize (Hb x Hx). lia.
Qed.

Section bfs.

Variable names : list string.
Variable startName endName : string.
Variable graph : list (list edge).
Hypothesis graph_to : ∀ u i e, edge_at graph u i = Some e → (to e < length graph)%nat.
Hypothesis source_lt : (path.source names startName < length graph)%nat.

Local Abbreviation source := (path.source names startName).
Local Abbreviation sink := (path.sink names endName).

Definition visited (par : list parentInfo) (v : nat) : Prop :=
  ∃ p, par !! v = Some p ∧ pu p ≠ -1.

(** The parent array is a tree rooted at the source whose edges have
    residual capacity; [order] is the order of discovery. *)
Record bfs_tree (par : list parentInfo) (order : list nat) : Prop := {
  bt_len : length par = length graph;
  bt_nodup : NoDup order;
  bt_visited : ∀ v, v ∈ order ↔ visited par v;
  bt_source : order !! 0%nat = Some source;
  bt_parent : ∀ (k : nat) v, order !! k = Some v → v ≠ source →
    ∃ (u i : nat) e (k' : nat),
      par !! v = Some (mkParent (Z.of_nat u) (Z.of_nat i)) ∧
      edge_at graph u i = Some e ∧ to e = v ∧ 0 < cap e - flow e ∧
      order !! k' = Some u ∧ (k' < k)%nat;
}.

(** All residual edges of [u] lead to discovered nodes. *)
Definition closed (order : list nat) (u : nat) : Prop :=
  ∀ i e, edge_at graph u i = Some e → 0 < cap e - flow e → to e ∈ order.

Lemma closed_mono order new u : closed order u → closed (order ++ new) u.
Proof. intros H i e He Hr. apply elem_of_app. left. by eapply H. Qed.

Lemma bfs_tree_order_bound par order :
  bfs_tree par order → (length order ≤ length graph)%nat.
Proof.
  intros Ht. apply NoDup_bounded_length; [by destruct Ht|].
  intros v Hv. apply (bt_visited _ _ Ht) in Hv as (p & Hp & _).
  rewrite <- (bt_len _ _ Ht). by eapply lookup_lt_Some.
Qed.

Lemma bfs_scan_spec u (ku : nat) full :
  graph !! u = Some full →
  ∀ adj (i : nat) par q order,
    drop i full = adj →
    bfs_tree par order → order !! ku = Some u →
    ∃ par' new,
      bfs_scan u i adj par q = Some (par', q ++ new) ∧
      bfs_tree par' (order ++ new) ∧
      (∀ (j : nat) e, (i ≤ j)%nat → full !! j = Some e → 0 < cap e - flow e →
                      to e ∈ order ++ new).
Proof.
  intros Hu. induction adj as [|e rest IH]; intros i par q order Hdrop Ht Hku.
  { exists par, []. rewrite !app_nil_r. split; [done|]. split; [done|].
    intros j e' Hij Hj _. apply (f_equal length) in Hdrop.
    rewrite length_drop in Hdrop. simpl in Hdrop.
    apply lookup_lt_Some in Hj. lia. }
  assert (full !! i = Some e) as Hi.
  { pose proof (lookup_drop full i 0) as Hl.
    rewrite Hdrop, Nat.add_0_r in Hl. done. }
  assert (drop (S i) full = rest) as Hdrop'.
  { rewrite (drop_S _ _ _ Hi) in Hdrop. by simplify_eq. }
  assert (edge_at graph u i = Some e) as He.
  { unfold edge_at. rewrite Hu. done. }
  destruct (lookup_lt_is_Some_2 par (to e)) as [p Hp].
  { rewrite (bt_len _ _ Ht). by eapply graph_to. }
  cbn [bfs_scan]. rewrite Hp. cbn [mbind option_bind].
  destruct (bool_decide (pu p = -1) && (0 <? cap e - flow e)) eqn:Hc.
  - apply andb_prop in Hc as [Hc1 Hc2].
    apply bool_decide_eq_true in Hc1. apply Z.ltb_lt in Hc2.
    assert (to e ∉ order) as Hnew.
    { intros (p' & Hp' & Hne)%(bt_visited _ _ Ht). by simplify_eq. }
    assert (ku < length order)%nat as Hkul by (by eapply lookup_lt_Some).
    destruct (IH (S i) (<[to e := mkParent (Z.of_nat u) (Z.of_nat i)]> par)
                (q ++ [to e]) (order ++ [to e]) Hdrop')
      as (par' & new & Hscan & Ht' & Hcl).
    + split.
      * rewrite length_insert. by destruct Ht.
      * apply NoDup_app. split; [by destruct Ht|]. split; [|apply NoDup_singleton].
        intros x Hx ->%list_elem_of_singleton. done.
      * intros v. rewrite elem_of_app, list_elem_of_singleton.
        destruct (decide (v = to e)) as [->|Hne].
        -- split; [|by right]. intros _. eexists.
           rewrite list_lookup_insert_eq by (by eapply lookup_lt_Some).
           split; [done|]. simpl. lia.
        -- unfold visited. rewrite list_lookup_insert_ne by done.
           rewrite (bt_visited _ _ Ht v). unfold visited. tauto.
      * rewrite lookup_app_l; [by destruct Ht|]. lia.
      * intros k v Hk Hvs.
        destruct (decide (k < length order)%nat) as [Hlt|Hge].
        -- rewrite lookup_app_l in Hk by done.
           destruct (bt_parent _ _ Ht k v Hk Hvs) as (u' & i' & e' & k' & H1 & H2 & H3 & H4 & H5 & H6).
           exists u', i', e', k'. rewrite list_lookup_insert_ne.
           ++ rewrite lookup_app_l by lia. done.
           ++ intros <-. apply Hnew. by eapply list_elem_of_lookup_2.
        -- rewrite lookup_app_r in Hk by lia.
           apply list_lookup_singleton_Some in Hk as [Hk0 <-].
           exists u, i, e, ku.
           rewrite list_lookup_insert_eq by (by eapply lookup_lt_Some).
           rewrite lookup_app_l by done. repeat split; try done. lia.
    + rewrite lookup_app_l by done. done.
    + exists par', ([to e] ++ new). rewrite !app_assoc. split; [done|].
      split; [done|]. intros j e' Hij Hj Hr.
      destruct (decide (j = i)) as [->|].
      * simplify_eq. rewrite <- app_assoc. apply elem_of_app. right. set_solver.
      * apply (Hcl j e'); [lia|done|done].
  - destruct (IH (S i) par q order Hdrop' Ht Hku) as (par' & new & Hscan & Ht' & Hcl).
    exists par', new. split; [done|]. split; [done|].
    intros j e' Hij Hj Hr. destruct (decide (j = i)) as [->|].
    + simplify_eq. apply elem_of_app. left. apply (bt_visited _ _ Ht).
      exists p. split; [done|]. intros Hpu.
      rewrite bool_decide_eq_true_2 in Hc by done.
      simpl in Hc. apply Z.ltb_ge in Hc. lia.
    + apply (Hcl j e'); [lia|done|done].
Qed.

Lemma bfs_loop_spec : ∀ fuel par q done order,
  order = done ++ q →
  bfs_tree par order →
  (∀ u, u ∈ done → closed order u) →
  (length graph + 1 ≤ fuel + length done)%nat →
  ∃ par' order',
    bfs_loop names endName fuel graph par q = Some par' ∧
    bfs_tree par' order' ∧
    (¬ visited par' sink → ∀ u, u ∈ order' → closed order' u).
Proof.
  induction fuel as [|fuel IH]; intros par q done order Ho Ht Hcl Hf.
  { pose proof (bfs_tree_order_bound _ _ Ht) as Hb. subst order.
    rewrite length_app in Hb. lia. }
  destruct q as [|u q]; cbn [bfs_loop].
  { exists par, order. split; [done|]. split; [done|].
    intros _ u Hu. apply Hcl. by rewrite Ho, app_nil_r in Hu. }
  case_bool_decide as Hus.
  { exists par, order. split; [done|]. split; [done|].
    intros Hnv. destruct Hnv. apply (bt_visited _ _ Ht). subst. set_solver. }
  assert (u ∈ order) as Huo by (subst; set_solver).
  destruct (list_elem_of_lookup_1 _ _ Huo) as [ku Hku].
  destruct (lookup_lt_is_Some_2 graph u) as [adj Hadj].
  { apply (bt_visited _ _ Ht) in Huo as (p & Hp & _).
    rewrite <- (bt_len _ _ Ht). by eapply lookup_lt_Some. }
  rewrite Hadj. cbn [mbind option_bind].
  destruct (bfs_scan_spec u ku adj Hadj adj 0 par q order eq_refl Ht Hku)
    as (par' & new & -> & Ht' & Hcl').
  cbn [mbind option_bind].
  apply (IH par' (q ++ new) (done ++ [u]) (order ++ new)).
  - subst order. by rewrite <- !app_assoc.
  - done.
  - intros w [Hw| ->%list_elem_of_singleton]%elem_of_app.
    + apply closed_mono. by apply Hcl.
    + intros i e (adj' & Ha & Hi)%edge_at_Some Hr. simplify_eq.
      apply (Hcl' i e); [lia|done|done].
  - rewrite length_app. simpl. lia.
Qed.

Lemma bfs_search_spec :
  ∃ par order,
    bfs_search names startName endName graph = Some par ∧
    bfs_tree par order ∧
    (¬ visited par sink → ∀ u, u ∈ order → closed order u).
Proof.
  unfold bfs_search.
  rewrite lookup_replicate_2 by done. cbn [mbind option_bind].
  apply (bfs_loop_spec _ _ [source] [] [source]); [done| |set_solver|simpl; lia].
  split.
  - by rewrite length_insert, length_replicate.
  - apply NoDup_singleton.
  - intros v. rewrite list_elem_of_singleton. split.
    + intros ->. eexists.
      rewrite list_lookup_insert_eq by (by rewrite length_replicate).
      split; [done|]. simpl. lia.
    + intros (p & Hp & Hpu). destruct (decide (v = source)) as [|Hne]; [done|].
      rewrite list_lookup_insert_ne in Hp by done.
      apply lookup_replicate in Hp as [-> _]. done.
  - done.
  - intros k v Hk Hv. apply list_lookup_singleton_Some in Hk as [_ <-]. done.
Qed.

End bfs.


(** *** Augmenting along the parent chain *)

(** Two residual graphs that differ in the flows only. *)
Definition same_shape (g1 g2 : list (list edge)) : Prop :=
  length g2 = length g1 ∧
  ∀ u i, shape <$> edge_at g2 u i = shape <$> edge_at g1 u i.

Lemma same_shape_refl g : same_shape g g.
Proof. by split. Qed.

Lemma same_shape_trans g1 g2 g3 :
  same_shape g1 g2 → same_shape g2 g3 → same_shape g1 g3.
Proof.
  intros [Hl1 H1] [Hl2 H2]. split; [congruence|].
  intros u i. by rewrite H2, H1.
Qed.

Lemma same_shape_upd_flow graph u i d graph' :
  upd_flow graph u i d = Some graph' → same_shape graph graph'.
Proof.
  intros H. split; [by eapply upd_flow_length|].
  intros v j. by eapply shape_upd_flow.
Qed.

Lemma same_shape_edge g1 g2 u i e :
  same_shape g1 g2 → edge_at g1 u i = Some e →
  ∃ e', edge_at g2 u i = Some e' ∧ to e' = to e ∧ rev e' = rev e ∧ cap e' = cap e.
Proof.
  intros [_ H] He. specialize (H u i). rewrite He in H.
  destruct (edge_at g2 u i) as [e'|]; simplify_eq/=.
  exists e'. unfold shape in H. by simplify_eq.
Qed.

Lemma same_shape_sym g1 g2 : same_shape g1 g2 → same_shape g2 g1.
Proof. intros [Hl H]. split; [done|]. intros u i. by rewrite H. Qed.

Lemma paired_same_shape g1 g2 : same_shape g1 g2 → paired g1 → paired g2.
Proof.
  intros Hs Hp u i e He.
  destruct (same_shape_edge _ _ _ _ _ (same_shape_sym _ _ Hs) He)
    as (e1 & He1 & Hto & Hrev & Hcap).
  destruct (Hp u i e1 He1) as [Hne (e1' & He1' & Hto' & Hrev')].
  destruct (same_shape_edge _ _ _ _ _ Hs He1') as (e' & He' & Hto'' & Hrev'' & _).
  split; [congruence|]. exists e'. rewrite <- Hto, <- Hrev.
  split; [done|]. split; congruence.
Qed.

(** One step of the augmentation loop: [b] more on the half-edge at [p],
    [b] less on its partner. *)
Definition push (b : Z) (graph : list (list edge)) (p : nat * nat)
  : option (list (list edge)) :=
  fe ← edge_at graph p.1 p.2;
  graph1 ← upd_flow graph p.1 p.2 b;
  upd_flow graph1 (to fe) (rev fe) (- b).

Fixpoint push_all (b : Z) (chain : list (nat * nat)) (graph : list (list edge))
  : option (list (list edge)) :=
  match chain with
  | [] => Some graph
  | p :: rest => graph' ← push b graph p; push_all b rest graph'
  end.

Fixpoint min_residual (graph : list (list edge)) (chain : list (nat * nat)) (b : Z)
  : option Z :=
  match chain with
  | [] => Some b
  | p :: rest =>
      e ← edge_at graph p.1 p.2;
      min_residual graph rest (if cap e - flow e <? b then cap e - flow e else b)
  end.

Section chain.

Variable names : list string.
Variable startName endName : string.

Local Abbreviation source := (path.source names startName).
Local Abbreviation sink := (path.sink names endName).

(** The half-edges the two loops over the parent chain visit, from [v] back
    to the source. *)
Fixpoint chain_of (fuel : nat) (par : list parentInfo) (v : nat)
  : option (list (nat * nat)) :=
  match fuel with
  | O => None
  | S fuel' =>
      if bool_decide (v = source) then Some []
      else
        pr ← par !! v;
        u ← path.index_of_Z (pu pr);
        i ← path.index_of_Z (pei pr);
        rest ← chain_of fuel' par u;
        Some ((u, i) :: rest)
  end.

Lemma bottleneck_loop_chain fuel graph par : ∀ v b,
  bottleneck_loop names startName fuel graph par v b =
    chain_of fuel par v ≫= λ ch, min_residual graph ch b.
Proof.
  induction fuel as [|fuel IH]; intros v b; [done|].
  cbn [bottleneck_loop chain_of]. case_bool_decide; [done|].
  destruct (par !! v) as [pr|]; [|done]. cbn [mbind option_bind].
  destruct (path.index_of_Z (pu pr)) as [u|]; [|done]. cbn [mbind option_bind].
  destruct (path.index_of_Z (pei pr)) as [i|]; [|done]. cbn [mbind option_bind].
  destruct (edge_at graph u i) as [e|] eqn:He; cbn [mbind option_bind].
  - rewrite IH. destruct (chain_of fuel par u); [|done].
    cbn [mbind option_bind min_residual fst snd]. by rewrite He.
  - destruct (chain_of fuel par u); [|done].
    cbn [mbind option_bind min_residual fst snd]. by rewrite He.
Qed.

Lemma augment_loop_chain fuel par b : ∀ v graph,
  augment_loop names startName fuel graph par v b =
    chain_of fuel par v ≫= λ ch, push_all b ch graph.
Proof.
  induction fuel as [|fuel IH]; intros v graph; [done|].
  cbn [augment_loop chain_of]. case_bool_decide; [done|].
  destruct (par !! v) as [pr|]; [|done]. cbn [mbind option_bind].
  destruct (path.index_of_Z (pu pr)) as [u|]; [|done]. cbn [mbind option_bind].
  destruct (path.index_of_Z (pei pr)) as [i|]; [|done]. cbn [mbind option_bind].
  destruct (chain_of fuel par u) as [rest|] eqn:Hrest; cbn [mbind option_bind].
  - cbn [push_all]. unfold push. cbn [fst snd].
    destruct (edge_at graph u i) as [fe|]; [|done]. cbn [mbind option_bind].
    destruct (upd_flow graph u i b) as [g1|]; [|done]. cbn [mbind option_bind].
    destruct (upd_flow g1 (to fe) (rev fe) (- b)) as [g2|]; [|done].
    cbn [mbind option_bind]. by rewrite IH, Hrest.
  - destruct (edge_at graph u i) as [fe|]; [|done]. cbn [mbind option_bind].
    destruct (upd_flow graph u i b) as [g1|]; [|done]. cbn [mbind option_bind].
    destruct (upd_flow g1 (to fe) (rev fe) (- b)) as [g2|]; [|done].
    cbn [mbind option_bind]. by rewrite IH, Hrest.
Qed.

Variable graph : list (list edge).

(** [ch] is a path of half-edges with residual capacity from the source to
    [v], listed from [v] backwards. *)
Fixpoint aug_path (ch : list (nat * nat)) (v : nat) : Prop :=
  match ch with
  | [] => v = source
  | p :: rest =>
      v ≠ source ∧
      (∃ e, edge_at graph p.1 p.2 = Some e ∧ to e = v ∧ 0 < cap e - flow e) ∧
      aug_path rest p.1
  end.

Lemma index_of_Z_of_nat (n : nat) : path.index_of_Z (Z.of_nat n) = Some n.
Proof.
  unfold path.index_of_Z. destruct (Z.ltb_spec (Z.of_nat n) 0); [lia|].
  by rewrite Nat2Z.id.
Qed.

Lemma chain_of_tree par order :
  bfs_tree names startName graph par order →
  ∀ (k : nat) v fuel, order !! k = Some v → (k < fuel)%nat →
    ∃ ch, chain_of fuel par v = Some ch ∧ aug_path ch v ∧
          NoDup (v :: ch.*1) ∧
          Forall (λ u, ∃ k' : nat, order !! k' = Some u ∧ (k' < k)%nat) ch.*1.
Proof.
  intros Ht k. induction k as [k IH] using lt_wf_ind.
  intros v fuel Hk Hf. destruct fuel as [|fuel]; [lia|].
  cbn [chain_of]. case_bool_decide as Hvs.
  { exists []. split; [done|]. split; [done|]. split; [|done].
    apply NoDup_singleton. }
  destruct (bt_parent _ _ _ _ _ Ht k v Hk Hvs)
    as (u & i & e & k' & Hp & He & Hto & Hr & Hk' & Hlt).
  rewrite Hp. cbn [mbind option_bind pu pei].
  rewrite !index_of_Z_of_nat. cbn [mbind option_bind].
  destruct (IH k' Hlt u fuel Hk' ltac:(lia)) as (rest & -> & Hap & Hnd & Hranks).
  cbn [mbind option_bind]. exists ((u, i) :: rest).
  split; [done|]. split; [|split].
  - cbn [aug_path fst snd]. split; [done|]. split; [by exists e|done].
  - rewrite fmap_cons. cbn [fst]. apply NoDup_cons. split; [|done].
    intros Hin. apply elem_of_cons in Hin as [->|Hin].
    + pose proof (NoDup_lookup _ _ _ _ (bt_nodup _ _ _ _ _ Ht) Hk Hk'). lia.
    + rewrite Forall_forall in Hranks. destruct (Hranks v Hin) as (k'' & Hk'' & ?).
      pose proof (NoDup_lookup _ _ _ _ (bt_nodup _ _ _ _ _ Ht) Hk Hk''). lia.
  - rewrite fmap_cons. cbn [fst]. apply Forall_cons. split; [by exists k'|].
    eapply Forall_impl; [done|]. intros w (k'' & ? & ?). exists k''. split; [done|lia].
Qed.

Lemma aug_path_last ch v :
  aug_path ch v → ch ≠ [] → ∃ i, (source, i) ∈ ch.
Proof.
  revert v. induction ch as [|[u i] rest IH]; intros v Hap Hne; [done|].
  destruct Hap as (_ & _ & Hrest). destruct rest as [|q rest].
  - simpl in Hrest. subst u. exists i. apply list_elem_of_here.
  - destruct (IH u Hrest) as [j Hj]; [done|]. exists j. by apply list_elem_of_further.
Qed.

Lemma min_residual_spec ch : ∀ v b,
  aug_path ch v → 0 < b →
  ∃ b', min_residual graph ch b = Some b' ∧ 0 < b' ≤ b ∧
        Forall (λ p, ∃ e, edge_at graph p.1 p.2 = Some e ∧ b' ≤ cap e - flow e) ch.
Proof.
  induction ch as [|[u i] rest IH]; intros v b Hap Hb.
  { exists b. split; [done|]. split; [lia|done]. }
  destruct Hap as (_ & (e & He & _ & Hr) & Hrest).
  cbn [min_residual fst snd]. cbn [fst snd] in He. rewrite He.
  cbn [mbind option_bind].
  set (b1 := if cap e - flow e <? b then cap e - flow e else b).
  assert (0 < b1 ≤ b ∧ b1 ≤ cap e - flow e) as (Hb1 & Hb1').
  { unfold b1. destruct (Z.ltb_spec (cap e - flow e) b); lia. }
  destruct (IH u b1 Hrest ltac:(lia)) as (b' & -> & Hb' & Hall).
  exists b'. split; [done|]. split; [lia|].
  apply Forall_cons. split; [exists e; split; [done|lia]|done].
Qed.

(** The half-edges that leave the source have capacity at most 1 and carry
    no negative flow. *)
Definition src_ok (gr : list (list edge)) : Prop :=
  ∀ i e, edge_at gr source i = Some e → cap e ≤ 1 ∧ 0 ≤ flow e.

Lemma min_residual_one ch v b b' :
  src_ok graph → aug_path ch v → ch ≠ [] → 0 < b →
  min_residual graph ch b = Some b' → b' = 1.
Proof.
  intros Hsrc Hap Hne Hb Hmin.
  destruct (min_residual_spec ch v b Hap Hb) as (b'' & Hmin' & Hb'' & Hall).
  rewrite Hmin in Hmin'. simplify_eq.
  destruct (aug_path_last ch v Hap Hne) as [i Hi].
  rewrite Forall_forall in Hall. destruct (Hall _ Hi) as (e & He & Hle).
  destruct (Hsrc i e He). lia.
Qed.

End chain.


(** *** Flows *)

Definition cap_ok (gr : list (list edge)) : Prop :=
  ∀ u i e, edge_at gr u i = Some e → flow e ≤ cap e.

Definition antisym (gr : list (list edge)) : Prop :=
  ∀ u i e e', edge_at gr u i = Some e →
    edge_at gr (to e) (rev e) = Some e' → flow e + flow e' = 0.

(** Net flow out of a node: incoming flow shows as negative flow on the
    reverse half-edges stored at the node. *)
Definition excess (gr : list (list edge)) (u : nat) : Z :=
  Zsum (flow <$> default [] (gr !! u)).

Lemma excess_upd_flow gr u i d gr' w :
  upd_flow gr u i d = Some gr' →
  excess gr' w = excess gr w + (if decide (w = u) then d else 0).
Proof.
  intros (adj & e & Hu & Hi & ->)%upd_flow_inv. unfold excess.
  destruct (decide (w = u)) as [->|].
  - rewrite list_lookup_insert_eq by (by eapply lookup_lt_Some).
    rewrite Hu. simpl. rewrite list_fmap_insert.
    rewrite (Zsum_insert _ _ (flow e)) by (by rewrite list_lookup_fmap, Hi).
    simpl. lia.
  - rewrite list_lookup_insert_ne by done. lia.
Qed.

(** What one [push] does to every half-edge. *)
Lemma push_spec b gr u i e :
  paired gr → edge_at gr u i = Some e →
  ∃ gr', push b gr (u, i) = Some gr' ∧ same_shape gr gr' ∧
    (∀ w, excess gr' w = excess gr w + (if decide (w = u) then b else 0)
                         - (if decide (w = to e) then b else 0)) ∧
    (∀ w j e0, edge_at gr w j = Some e0 →
       ∃ e1, edge_at gr' w j = Some e1 ∧ shape e1 = shape e0 ∧
             flow e1 = flow e0 + (if decide ((w, j) = (u, i)) then b else 0)
                       - (if decide ((w, j) = (to e, rev e)) then b else 0)).
Proof.
  intros Hp He. destruct (Hp u i e He) as [Hne (e' & He' & Hto' & Hrev')].
  unfold push. cbn [fst snd]. rewrite He. cbn [mbind option_bind].
  destruct (upd_flow gr u i b) as [g1|] eqn:H1.
  2:{ by rewrite (upd_flow_Some _ _ _ _ _ He) in H1. }
  cbn [mbind option_bind].
  assert (edge_at g1 (to e) (rev e) = Some e') as He1.
  { rewrite (edge_at_upd_flow_ne _ _ _ _ _ _ _ H1); [done|]. congruence. }
  destruct (upd_flow g1 (to e) (rev e) (- b)) as [g2|] eqn:H2.
  2:{ by rewrite (upd_flow_Some _ _ _ _ _ He1) in H2. }
  exists g2. split; [done|]. split; [|split].
  - eapply same_shape_trans; by eapply same_shape_upd_flow.
  - intros w. rewrite (excess_upd_flow _ _ _ _ _ _ H2), (excess_upd_flow _ _ _ _ _ _ H1).
    repeat case_decide; lia.
  - intros w j e0 He0.
    destruct (decide ((w, j) = (to e, rev e))) as [Heq|Hn1].
    + simplify_eq. rewrite decide_False by congruence.
      rewrite (edge_at_upd_flow_eq _ _ _ _ _ _ H2 He1).
      eexists. split; [done|]. split; [done|]. simpl. lia.
    + rewrite (edge_at_upd_flow_ne _ _ _ _ _ _ _ H2) by done.
      destruct (decide ((w, j) = (u, i))) as [Heq|Hn2].
      * simplify_eq. rewrite (edge_at_upd_flow_eq _ _ _ _ _ _ H1 He).
        eexists. split; [done|]. split; [done|]. simpl. lia.
      * rewrite (edge_at_upd_flow_ne _ _ _ _ _ _ _ H1) by done.
        exists e0. split; [done|]. split; [done|]. lia.
Qed.

Section push_all.

Variable names : list string.
Variable startName endName : string.
Variable graph : list (list edge).
Hypothesis graph_paired : paired graph.

Local Abbreviation source := (path.source names startName).
Local Abbreviation aug_path := (aug_path names startName graph).

Lemma aug_path_heads ch v p :
  aug_path ch v → p ∈ ch →
  ∃ e, edge_at graph p.1 p.2 = Some e ∧ 0 < cap e - flow e ∧
       to e ≠ source ∧ to e ∈ v :: ch.*1.
Proof.
  revert v. induction ch as [|q rest IH]; intros v Hap Hp; [by apply elem_of_nil in Hp|].
  destruct Hap as (Hv & (e & He & Hto & Hr) & Hrest).
  apply elem_of_cons in Hp as [->|Hp].
  - exists e. subst v. repeat split; try done. apply list_elem_of_here.
  - destruct (IH _ Hrest Hp) as (e' & ? & ? & ? & ?). exists e'.
    repeat split; try done. rewrite fmap_cons. by apply list_elem_of_further.
Qed.

Lemma push_all_spec b : 0 ≤ b → ∀ ch v gr,
  same_shape graph gr →
  aug_path ch v → NoDup (v :: ch.*1) →
  Forall (λ p, ∃ e, edge_at graph p.1 p.2 = Some e ∧ b ≤ cap e - flow e) ch →
  Forall (λ p, ∀ e ec, edge_at graph p.1 p.2 = Some e →
                       edge_at gr p.1 p.2 = Some ec → flow ec ≤ flow e) ch →
  cap_ok gr → antisym gr →
  ∃ gr', push_all b ch gr = Some gr' ∧ same_shape graph gr' ∧
    cap_ok gr' ∧ antisym gr' ∧
    (∀ w, excess gr' w = excess gr w +
            (if decide (ch = []) then 0
             else (if decide (w = source) then b else 0)
                  - (if decide (w = v) then b else 0))) ∧
    (∀ w j, w ∉ v :: ch.*1 → edge_at gr' w j = edge_at gr w j) ∧
    (∀ j ec e', edge_at gr source j = Some ec → edge_at gr' source j = Some e' →
                flow ec ≤ flow e').
Proof.
  intros Hb. induction ch as [|[u i] rest IH];
    intros v gr Hs Hap Hnd Hres Hpend Hcap Hanti.
  { exists gr. split; [done|]. split; [done|]. split; [done|]. split; [done|].
    split; [intros w; rewrite decide_True by done; lia|].
    split; [done|]. intros j ec e' H1 H2. simplify_eq. lia. }
  destruct Hap as (Hv & (e & He & Hto & Hr) & Hrest). cbn [fst snd] in *.
  apply Forall_cons in Hres as [(e_ & He_ & Hbe) Hres]. cbn [fst snd] in *.
  apply Forall_cons in Hpend as [Hpe Hpend]. cbn [fst snd] in *. simplify_eq.
  destruct (same_shape_edge _ _ _ _ _ Hs He) as (ec & Hec & Htoc & Hrevc & Hcapc).
  pose proof (paired_same_shape _ _ Hs graph_paired) as Hpgr.
  destruct (push_spec b gr u i ec Hpgr Hec) as (g1 & Hpush & Hs1 & Hex1 & Hfl1).
  pose proof (proj1 (Hpgr u i ec Hec)) as Hne.
  assert (NoDup (u :: rest.*1)) as Hnd'.
  { rewrite fmap_cons in Hnd. by apply NoDup_cons in Hnd as [_ ?]. }
  assert (to e ∉ u :: rest.*1) as Hvn.
  { rewrite fmap_cons in Hnd. by apply NoDup_cons in Hnd as [? _]. }
  destruct (IH u g1) as (g' & Hpa & Hs' & Hcap' & Hanti' & Hex' & Hframe' & Hsrc').
  - by eapply same_shape_trans.
  - done.
  - done.
  - done.
  - apply Forall_forall. intros p Hp e0 e1 He0 He1.
    destruct (same_shape_edge _ _ _ _ _ Hs He0) as (e0c & He0c & _).
    destruct (Hfl1 _ _ _ He0c) as (e1' & He1' & _ & Hf). simplify_eq.
    rewrite Forall_forall in Hpend. specialize (Hpend p Hp e0 e0c He0 He0c).
    assert ((p.1, p.2) ≠ (u, i)) as Hpne.
    { intros Heq. destruct p as [pu pi]. simplify_eq/=.
      destruct (aug_path_heads rest u (u, i) Hrest Hp) as (e2 & He2 & _ & _ & Hin).
      simpl in He2. by simplify_eq. }
    rewrite Hf. rewrite (decide_False (P := (p.1, p.2) = (u, i))) by done.
    destruct (decide ((p.1, p.2) = (to ec, rev ec))); lia.
  - intros w j e1 He1.
    destruct (same_shape_edge _ _ _ _ _ (same_shape_sym _ _ Hs1) He1)
      as (e0 & He0 & _ & _ & Hcap0).
    destruct (Hfl1 _ _ _ He0) as (e1' & He1' & Hsh & Hf).
    rewrite He1 in He1'. injection He1' as <-.
    rewrite Hf, <- Hcap0.
    pose proof (Hcap _ _ _ He0) as Hc0.
    destruct (decide ((w, j) = (u, i))) as [Heq|].
    + injection Heq as -> ->. rewrite Hec in He0. injection He0 as <-.
      specialize (Hpe _ _ He Hec). case_decide; lia.
    + case_decide; lia.
  - intros w j e1 e1' He1 He1p.
    destruct (same_shape_edge _ _ _ _ _ (same_shape_sym _ _ Hs1) He1)
      as (e0 & He0 & Hto0 & Hrev0 & _).
    rewrite <- Hto0, <- Hrev0 in He1p.
    destruct (same_shape_edge _ _ _ _ _ (same_shape_sym _ _ Hs1) He1p)
      as (e0' & He0' & _).
    destruct (Hfl1 _ _ _ He0) as (x & Hx & _ & Hf).
    rewrite He1 in Hx. injection Hx as <-.
    destruct (Hfl1 _ _ _ He0') as (x' & Hx' & _ & Hf').
    rewrite He1p in Hx'. injection Hx' as <-.
    rewrite Hf, Hf'. pose proof (Hanti _ _ _ _ He0 He0') as Ha.
    destruct (Hpgr w j e0 He0) as [_ (y & Hy & Hyto & Hyrev)].
    rewrite He0' in Hy. injection Hy as <-.
    destruct (Hpgr u i ec Hec) as [_ (ec' & Hec' & Hto' & Hrev')].
    destruct (decide ((w, j) = (u, i))) as [Heq|Hn1].
    { injection Heq as -> ->. rewrite Hec in He0. injection He0 as <-.
      rewrite (decide_True (P := (to ec, rev ec) = (to ec, rev ec))) by done.
      rewrite !decide_False; [lia|congruence|congruence]. }
    destruct (decide ((w, j) = (to ec, rev ec))) as [Heq|Hn2].
    { injection Heq as -> ->. rewrite Hec' in He0. injection He0 as <-.
      rewrite (decide_True (P := (to ec', rev ec') = _)) by congruence.
      rewrite decide_False; [lia|congruence]. }
    rewrite !decide_False; [lia| |].
    + intros Heq. injection Heq as Heq1 Heq2. rewrite Heq1, Heq2 in He0'.
      rewrite Hec' in He0'. injection He0' as <-. apply Hn1. congruence.
    + intros Heq. injection Heq as Heq1 Heq2. rewrite Heq1, Heq2 in He0'.
      rewrite Hec in He0'. injection He0' as <-. apply Hn2. congruence.
  - exists g'. split.
    { cbn [push_all]. rewrite Hpush. cbn [mbind option_bind]. done. }
    split; [done|]. split; [done|]. split; [done|]. split; [|split].
    + intros w. rewrite Hex', Hex1. rewrite (decide_False (P := _ :: _ = [])) by done.
      rewrite Htoc. destruct rest as [|q rest].
      * simpl in Hrest. subst u. repeat case_decide; try lia; done.
      * repeat case_decide; try lia; done.
    + intros w j Hw. rewrite Hframe'.
      2:{ intros Hin. apply Hw. rewrite fmap_cons. by apply list_elem_of_further. }
      assert (w ≠ to e ∧ w ≠ u) as [Hw1 Hw2].
      { split; intros ->; apply Hw; rewrite fmap_cons.
        - apply list_elem_of_here.
        - apply list_elem_of_further, list_elem_of_here. }
      destruct (edge_at gr w j) as [e0|] eqn:He0.
      * destruct (Hfl1 _ _ _ He0) as (e1 & He1 & Hsh & Hf). rewrite He1. f_equal.
        rewrite !decide_False in Hf by congruence.
        destruct e0, e1. unfold shape in Hsh. simplify_eq/=. f_equal. lia.
      * destruct Hs1 as [_ Hs1]. specialize (Hs1 w j). rewrite He0 in Hs1.
        by destruct (edge_at g1 w j).
    + intros j e0 e2 He0 He2.
      destruct (Hfl1 _ _ _ He0) as (e1 & He1 & _ & Hf).
      specialize (Hsrc' j e1 e2 He1 He2).
      rewrite (decide_False (P := _ = (to ec, rev ec))) in Hf by congruence.
      case_decide; lia.
Qed.

End push_all.

(** *** The Edmonds-Karp loop *)

Section ek.

Variable g : Graph.
Variable names : list string.
Variable startName endName : string.
Hypothesis names_nodup : NoDup names.
Hypothesis names_rooms : ∀ nm, nm ∈ names → is_Some (Rooms g !! nm).
Hypothesis names_ne : names ≠ [].

Local Abbreviation N := (length names).
Local Abbreviation source := (path.source names startName).
Local Abbreviation sink := (path.sink names endName).
Local Abbreviation links_done := (links_done names startName endName).
Local Abbreviation links_of := (links_of g names).

Lemma source_room : ∃ b : nat, source = (2 * b + 1)%nat ∧ (b < N)%nat.
Proof.
  destruct (inIdx_room names startName names_ne) as (b & Hb & HbN).
  exists b. split; [|done]. unfold path.source, Sout, outIdx.
  unfold inIdx in Hb. lia.
Qed.

Lemma sink_room : ∃ c : nat, sink = (2 * c)%nat ∧ (c < N)%nat.
Proof. apply (inIdx_room names endName names_ne). Qed.

Lemma source_ne_sink : source ≠ sink.
Proof.
  destruct source_room as (b & -> & _). destruct sink_room as (c & -> & _). lia.
Qed.

Lemma node_cases (u : nat) :
  (u < 2 * N)%nat →
  ∃ (a : nat) nm, names !! a = Some nm ∧ (u = 2 * a ∨ u = 2 * a + 1)%nat.
Proof.
  intros Hu.
  assert (∃ a : nat, (a < N)%nat ∧ (u = 2 * a ∨ u = 2 * a + 1)%nat) as (a & HaN & Hua).
  { exists (u `div` 2)%nat. pose proof (Nat.div_mod_eq u 2) as Hdm.
    destruct (Nat.mod_bound_pos u 2) as [_ Hm]; [lia..|].
    split; [apply Nat.Div0.div_lt_upper_bound; lia|lia]. }
  destruct (lookup_lt_is_Some_2 names a HaN) as [nm Hnm]. by exists a, nm.
Qed.

Variable graph0 : list (list edge).
Hypothesis graph0_done : links_done links_of graph0.

Lemma graph0_length : length graph0 = (2 * N)%nat.
Proof. by destruct graph0_done. Qed.

Lemma graph0_paired : paired graph0.
Proof. by destruct graph0_done as (_ & ? & _). Qed.

Lemma room_cap_nonneg nm : 0 ≤ room_cap startName endName nm.
Proof. unfold room_cap, INF. case_match; lia. Qed.

Lemma graph0_edges u i e :
  edge_at graph0 u i = Some e → flow e = 0 ∧ 0 ≤ cap e.
Proof.
  intros (adj & Hu & Hi)%edge_at_Some.
  destruct (node_cases u) as (a & nm & Ha & Hua).
  { rewrite <- graph0_length. by eapply lookup_lt_Some. }
  destruct graph0_done as (_ & _ & Hall).
  destruct (Hall a nm Ha) as (rin & rout & Hin & Hrin & Hout & Hrout & _).
  unfold room_fwd, room_rev in *.
  destruct Hua as [-> | ->]; simplify_eq.
  - destruct i as [|i]; simplify_eq/=; [split; [done|apply room_cap_nonneg]|].
    rewrite Forall_lookup in Hrin. destruct (Hrin i e Hi) as (-> & -> & _). done.
  - destruct i as [|i]; simplify_eq/=; [done|].
    rewrite Forall_lookup in Hrout. destruct (Hrout i e Hi) as (-> & ->). done.
Qed.

Lemma graph0_src_ok : src_ok names startName graph0.
Proof.
  intros i e (adj & Hu & Hi)%edge_at_Some.
  destruct source_room as (b & Hb & HbN). rewrite Hb in Hu.
  destruct (lookup_lt_is_Some_2 names b HbN) as [nm Hnm].
  destruct graph0_done as (_ & _ & Hall).
  destruct (Hall b nm Hnm) as (rin & rout & Hin & Hrin & Hout & Hrout & _).
  unfold room_fwd, room_rev in *.
  simplify_eq. destruct i as [|i]; simplify_eq/=; [lia|].
  rewrite Forall_lookup in Hrout. destruct (Hrout i e Hi) as (-> & ->). lia.
Qed.

Lemma graph0_cap_ok : cap_ok graph0.
Proof. intros u i e He. destruct (graph0_edges u i e He). lia. Qed.

Lemma graph0_antisym : antisym graph0.
Proof.
  intros u i e e' He He'. destruct (graph0_edges _ _ _ He).
  destruct (graph0_edges _ _ _ He'). lia.
Qed.

Lemma graph0_excess u : excess graph0 u = 0.
Proof.
  unfold excess. destruct (graph0 !! u) as [adj|] eqn:Hu; [|done]. simpl.
  assert (Forall (λ e, flow e = 0) adj) as Hall.
  { apply Forall_lookup. intros i e Hi.
    apply (graph0_edges u i e). unfold edge_at. by rewrite Hu. }
  clear Hu. induction Hall as [|e adj He _ IH]; [done|].
  rewrite fmap_cons, Zsum_cons. lia.
Qed.

(** What the Edmonds-Karp loop maintains. *)
Record flow_inv (gr : list (list edge)) : Prop := {
  fi_shape : same_shape graph0 gr;
  fi_cap : cap_ok gr;
  fi_antisym : antisym gr;
  fi_src : src_ok names startName gr;
  fi_conserved : ∀ w, w ≠ source → w ≠ sink → excess gr w = 0;
}.

Lemma flow_inv_init : flow_inv graph0.
Proof.
  split.
  - apply same_shape_refl.
  - apply graph0_cap_ok.
  - apply graph0_antisym.
  - apply graph0_src_ok.
  - intros. apply graph0_excess.
Qed.

Lemma flow_inv_to gr u i e :
  flow_inv gr → edge_at gr u i = Some e → (to e < length gr)%nat.
Proof.
  intros Hinv He.
  pose proof (paired_same_shape _ _ (fi_shape _ Hinv) graph0_paired) as Hp.
  destruct (Hp u i e He) as [_ (e' & (adj & Hto & _)%edge_at_Some & _)].
  by eapply lookup_lt_Some.
Qed.

Lemma flow_inv_length gr : flow_inv gr → length gr = (2 * N)%nat.
Proof. intros [[Hl _] _ _ _ _]. by rewrite Hl, graph0_length. Qed.

(** One call of the closure [bfs] on a state of the loop. *)
Lemma bfs_step gr :
  flow_inv gr →
  ∃ par order,
    bfs_search names startName endName gr = Some par ∧
    bfs_tree names startName gr par order ∧
    (¬ visited par sink →
       (∀ u, u ∈ order → closed gr order u) ∧
       bfs names startName endName gr = Some (gr, 0)) ∧
    (visited par sink →
       ∃ ch gr',
         aug_path names startName gr ch sink ∧ NoDup (sink :: ch.*1) ∧
         bottleneck_loop names startName (S (length gr)) gr par sink INF = Some 1 ∧
         push_all 1 ch gr = Some gr' ∧
         bfs names startName endName gr = Some (gr', 1) ∧
         flow_inv gr' ∧
         excess gr' source = excess gr source + 1 ∧
         excess gr' sink = excess gr sink - 1 ∧
         (∀ w j, w ∉ sink :: ch.*1 → edge_at gr' w j = edge_at gr w j)).
Proof.
  intros Hinv. pose proof (flow_inv_length gr Hinv) as Hlen.
  assert (source < length gr)%nat as Hsrc.
  { destruct source_room as (b & -> & ?). lia. }
  assert (sink < length gr)%nat as Hsnk.
  { destruct sink_room as (c & -> & ?). lia. }
  destruct (bfs_search_spec names startName endName gr
              (λ u i e, flow_inv_to gr u i e Hinv) Hsrc)
    as (par & order & Hsearch & Htree & Hclosed).
  exists par, order. split; [done|]. split; [done|].
  destruct (lookup_lt_is_Some_2 par sink) as [ps Hps].
  { by rewrite (bt_len _ _ _ _ _ Htree). }
  split.
  - intros Hnv. split; [by apply Hclosed|].
    unfold bfs. rewrite Hsearch. cbn [mbind option_bind]. rewrite Hps.
    cbn [mbind option_bind]. rewrite bool_decide_eq_true_2; [done|].
    destruct (decide (pu ps = -1)) as [|Hne]; [done|]. destruct Hnv. by exists ps.
  - intros Hv. apply (bt_visited _ _ _ _ _ Htree) in Hv as Hin.
    destruct (list_elem_of_lookup_1 _ _ Hin) as [k Hk].
    pose proof (bfs_tree_order_bound _ _ _ _ _ Htree) as Hob.
    assert (k < length order)%nat by (by eapply lookup_lt_Some).
    destruct (chain_of_tree names startName gr par order Htree k sink (S (length gr)) Hk
                ltac:(lia)) as (ch & Hch & Hap & Hnd & _).
    assert (ch ≠ []) as Hne.
    { intros ->. simpl in Hap. by apply source_ne_sink. }
    destruct (min_residual_spec names startName gr ch sink INF Hap ltac:(unfold INF; lia))
      as (b & Hmin & Hb & Hall).
    pose proof (min_residual_one names startName gr ch sink INF b (fi_src _ Hinv) Hap Hne
                  ltac:(unfold INF; lia) Hmin) as ->.
    pose proof (paired_same_shape _ _ (fi_shape _ Hinv) graph0_paired) as Hp.
    destruct (push_all_spec names startName gr Hp 1 ltac:(lia) ch sink gr
                (same_shape_refl gr) Hap Hnd Hall)
      as (gr' & Hpush & Hs' & Hcap' & Hanti' & Hex' & Hframe' & Hsrc');
      [|apply (fi_cap _ Hinv)|apply (fi_antisym _ Hinv)|].
    { apply Forall_forall. intros p _ e ec H1 H2. simplify_eq. lia. }
    exists ch, gr'. split; [done|]. split; [done|].
    assert (bottleneck_loop names startName (S (length gr)) gr par sink INF = Some 1) as Hbn.
    { rewrite bottleneck_loop_chain, Hch. done. }
    split; [done|]. split; [done|]. split.
    { unfold bfs. rewrite Hsearch. cbn [mbind option_bind]. rewrite Hps.
      cbn [mbind option_bind]. rewrite bool_decide_eq_false_2.
      2:{ destruct Hv as (ps' & Hps' & Hpu). by simplify_eq. }
      rewrite Hbn. cbn [mbind option_bind].
      rewrite augment_loop_chain, Hch. cbn [mbind option_bind].
      rewrite Hpush. done. }
    split; [|split; [|split]].
    + split.
      * eapply same_shape_trans; [apply (fi_shape _ Hinv)|done].
      * done.
      * done.
      * intros i e' He'.
        destruct (same_shape_edge _ _ _ _ _ (same_shape_sym _ _ Hs') He')
          as (e0 & He0 & _ & _ & Hcap0).
        destruct (fi_src _ Hinv i e0 He0) as [Hc Hf].
        specialize (Hsrc' i e0 e' He0 He'). lia.
      * intros w Hw1 Hw2. rewrite Hex'. rewrite decide_False by done.
        rewrite !decide_False by done. rewrite (fi_conserved _ Hinv) by done. lia.
    + rewrite Hex'. rewrite decide_False by done. rewrite decide_True by done.
      rewrite decide_False by apply source_ne_sink. lia.
    + rewrite Hex'. rewrite decide_False by done.
      rewrite decide_False by (intros Heq; by apply source_ne_sink).
      rewrite decide_True by done. lia.
    + done.
Qed.


(** The residual graphs the loop goes through: the initial one, and the one
    after each call of [bfs] that pushed flow. *)
Inductive ek_state : list (list edge) → Prop :=
| ek_state_init : ek_state graph0
| ek_state_next gr gr' pushed :
    ek_state gr →
    bfs names startName endName gr = Some (gr', pushed) →
    pushed ≠ 0 →
    ek_state gr'.

Lemma visited_dec par v : Decision (visited par v).
Proof.
  unfold visited. destruct (par !! v) as [p|].
  - destruct (decide (pu p = -1)) as [Hp|Hp].
    + right. intros (p' & ? & ?). by simplify_eq.
    + left. by exists p.
  - right. by intros (p' & ? & ?).
Qed.

Lemma ek_state_inv gr : ek_state gr → flow_inv gr.
Proof.
  induction 1 as [|gr gr' pushed _ IH Hbfs Hpushed]; [apply flow_inv_init|].
  destruct (bfs_step gr IH) as (par & order & _ & _ & Hno & Hyes).
  destruct (visited_dec par sink) as [Hv|Hv].
  - destruct (Hyes Hv) as (ch & gr'' & _ & _ & _ & _ & Hbfs' & Hinv' & _).
    rewrite Hbfs in Hbfs'. by simplify_eq.
  - destruct (Hno Hv) as [_ Hbfs']. rewrite Hbfs in Hbfs'. by simplify_eq.
Qed.

(** Every search of the loop either misses the sink, and [bfs] pushes
    nothing, or reaches it, and then the bottleneck is 1. *)
Lemma ek_state_bottleneck gr :
  ek_state gr →
  ∃ par ps,
    bfs_search names startName endName gr = Some par ∧
    par !! sink = Some ps ∧
    if decide (pu ps = -1)
    then bfs names startName endName gr = Some (gr, 0)
    else bottleneck_loop names startName (S (length gr)) gr par sink INF = Some 1 ∧
         ∃ gr', bfs names startName endName gr = Some (gr', 1).
Proof.
  intros Hinv%ek_state_inv.
  destruct (bfs_step gr Hinv) as (par & order & Hsearch & Htree & Hno & Hyes).
  destruct (lookup_lt_is_Some_2 par sink) as [ps Hps].
  { rewrite (bt_len _ _ _ _ _ Htree), (flow_inv_length gr Hinv).
    destruct sink_room as (c & -> & ?). lia. }
  exists par, ps. split; [done|]. split; [done|]. case_decide as Hpu.
  - apply Hno. intros (ps' & Hps' & Hne). by simplify_eq.
  - destruct Hyes as (ch & gr' & _ & _ & Hbn & _ & Hbfs & _); [by exists ps|].
    split; [done|]. by exists gr'.
Qed.

(** Room left at the source bounds the number of augmentations. *)
Definition source_cap : Z := Zsum (cap <$> default [] (graph0 !! source)).

Lemma same_shape_adj g1 g2 u :
  same_shape g1 g2 →
  shape <$> default [] (g2 !! u) = shape <$> default [] (g1 !! u).
Proof.
  intros [Hl Hs]. apply list_eq. intros i. rewrite !list_lookup_fmap.
  specialize (Hs u i). unfold edge_at in Hs.
  destruct (g1 !! u) as [a1|] eqn:H1, (g2 !! u) as [a2|] eqn:H2; simpl in *; done.
Qed.

Lemma excess_le_source_cap gr : flow_inv gr → excess gr source ≤ source_cap.
Proof.
  intros Hinv. unfold excess, source_cap.
  pose proof (same_shape_adj _ _ source (fi_shape _ Hinv)) as Hsh.
  assert (cap <$> default [] (graph0 !! source) = cap <$> default [] (gr !! source)) as ->.
  { apply (f_equal (fmap (λ s : nat * nat * Z, s.2))) in Hsh.
    rewrite <- !list_fmap_compose in Hsh. done. }
  assert (Forall (λ e, flow e ≤ cap e) (default [] (gr !! source))) as Hall.
  { apply Forall_lookup. intros i e Hi. apply (fi_cap _ Hinv source i).
    unfold edge_at. destruct (gr !! source); simpl in *; [done|].
    by rewrite lookup_nil in Hi. }
  revert Hall. generalize (default [] (gr !! source)). intros adj Hall.
  induction Hall as [|e adj He _ IH]; [done|].
  rewrite !fmap_cons, !Zsum_cons. lia.
Qed.

Lemma source_cap_bound adj :
  graph0 !! source = Some adj → source_cap ≤ Z.of_nat (length adj).
Proof.
  intros Hadj. unfold source_cap. rewrite Hadj. simpl.
  assert (Forall (λ e, cap e ≤ 1) adj) as Hall.
  { apply Forall_lookup. intros i e Hi.
    apply (graph0_src_ok i e). unfold edge_at. by rewrite Hadj. }
  clear Hadj. induction Hall as [|e adj He _ IH]; [done|].
  rewrite fmap_cons, Zsum_cons. simpl length. lia.
Qed.

(** The loop returns, in a state of the loop whose flow out of the source
    is [totalFlow]; uncapped, it returns when the search misses the sink. *)
Lemma ek_loop_spec maxPaths : ∀ fuel gr f,
  ek_state gr → excess gr source = f →
  source_cap - f < Z.of_nat fuel →
  ∃ gr' f',
    ek_loop names startName endName fuel maxPaths gr f = Some (gr', f') ∧
    ek_state gr' ∧ excess gr' source = f' ∧ f ≤ f' ∧
    (maxPaths ≤ 0 → bfs names startName endName gr' = Some (gr', 0)).
Proof.
  induction fuel as [|fuel IH]; intros gr f Hst Hf Hfuel.
  { pose proof (excess_le_source_cap gr (ek_state_inv gr Hst)). lia. }
  pose proof (ek_state_inv gr Hst) as Hinv.
  destruct (bfs_step gr Hinv) as (par & order & _ & _ & Hno & Hyes).
  cbn [ek_loop].
  destruct (visited_dec par sink) as [Hv|Hv].
  - destruct (Hyes Hv) as (ch & gr1 & _ & _ & _ & _ & Hbfs & Hinv1 & Hex1 & _).
    rewrite Hbfs. cbn [mbind option_bind].
    rewrite bool_decide_eq_false_2 by lia.
    assert (ek_state gr1) as Hst1 by (by eapply ek_state_next).
    destruct ((0 <? maxPaths) && (maxPaths <=? f + 1)) eqn:Hcapd.
    + exists gr1, (f + 1). split; [done|]. split; [done|]. split; [lia|].
      split; [lia|]. intros Hmp. apply andb_prop in Hcapd as [H1%Z.ltb_lt _]. lia.
    + destruct (IH gr1 (f + 1) Hst1 ltac:(lia) ltac:(lia))
        as (gr' & f' & Hloop & Hst' & Hex' & Hle & Hend).
      exists gr', f'. split; [done|]. split; [done|]. split; [done|].
      split; [lia|done].
  - destruct (Hno Hv) as [_ Hbfs]. rewrite Hbfs. cbn [mbind option_bind].
    rewrite bool_decide_eq_true_2 by done.
    exists gr, f. split; [done|]. split; [done|]. split; [done|]. split; [lia|done].
Qed.

End ek.


(** The room names [MultiPath] works with: the keys of the map, sorted. *)
Lemma sorted_keys_nodup (g : Graph) keys :
  keys ≡ₚ (map_to_list (Rooms g)).*1 → NoDup (merge_sort String.le keys).
Proof.
  intros Hk. rewrite merge_sort_Permutation, Hk. apply NoDup_fst_map_to_list.
Qed.

Lemma sorted_keys_rooms (g : Graph) keys nm :
  keys ≡ₚ (map_to_list (Rooms g)).*1 →
  nm ∈ merge_sort String.le keys → is_Some (Rooms g !! nm).
Proof.
  intros Hk. rewrite merge_sort_Permutation, Hk.
  intros ([nm' r] & -> & Hin)%list_elem_of_fmap.
  apply elem_of_map_to_list in Hin. by exists r.
Qed.

Lemma sorted_keys_elem (g : Graph) keys nm :
  keys ≡ₚ (map_to_list (Rooms g)).*1 →
  is_Some (Rooms g !! nm) → nm ∈ merge_sort String.le keys.
Proof.
  intros Hk [r Hr]. rewrite merge_sort_Permutation, Hk.
  apply list_elem_of_fmap. exists (nm, r). split; [done|].
  by apply elem_of_map_to_list.
Qed.

Lemma sorted_keys_ne (g : Graph) keys :
  keys ≡ₚ (map_to_list (Rooms g)).*1 →
  size (Rooms g) ≠ 0%nat → merge_sort String.le keys ≠ [].
Proof.
  intros Hk Hsz Hnil. apply Hsz.
  rewrite <- length_map_to_list, <- (length_fmap fst), <- Hk.
  rewrite <- (merge_sort_Permutation String.le keys), Hnil. done.
Qed.

End residual.

(** ** Reconstruction of the paths from the flow *)

Module reconstruction.
Import path residual.

(** *** The shape of the residual graph *)

Section shape.

Variable g : Graph.
Variable names : list string.
Variable startName endName : string.
Hypothesis names_nodup : NoDup names.
(** Links lead to rooms of the graph. *)
Hypothesis links_closed : ∀ nm r nb,
  Rooms g !! nm = Some r → nb ∈ Links r → nb ∈ names.

Local Abbreviation N := (length names).
Local Abbreviation source := (path.source names startName).
Local Abbreviation sink := (path.sink names endName).
Local Abbreviation links_of := (links_of g names).

Variable graph0 : list (list edge).
Hypothesis graph0_done : links_done names startName endName links_of graph0.

Variable gr : list (list edge).
Hypothesis gr_shape : same_shape graph0 gr.

Lemma gr_paired : paired gr.
Proof using graph0_done gr_shape.
  eapply paired_same_shape; [done|]. by destruct graph0_done as (_ & ? & _).
Qed.

Lemma net_in (a : nat) nm i e :
  names !! a = Some nm → edge_at gr (2 * a) i = Some e →
  (i = 0%nat ∧ to e = (2 * a + 1)%nat ∧ rev e = 0%nat ∧
   cap e = room_cap startName endName nm) ∨
  ((0 < i)%nat ∧ cap e = 0 ∧ Nat.odd (to e) = true).
Proof using graph0_done gr_shape.
  intros Ha He.
  destruct (same_shape_edge _ _ _ _ _ (same_shape_sym _ _ gr_shape) He)
    as (e0 & (adj & Hadj & Hi)%edge_at_Some & <- & <- & <-).
  destruct graph0_done as (_ & _ & Hall).
  destruct (Hall a nm Ha) as (rin & rout & Hin & Hrin & _).
  unfold room_fwd in Hin. simplify_eq. destruct i as [|i]; simplify_eq/=.
  - by left.
  - right. rewrite Forall_lookup in Hrin. destruct (Hrin i e0 Hi) as (? & _ & ?).
    split; [lia|done].
Qed.

Lemma net_in0 (a : nat) nm :
  names !! a = Some nm →
  ∃ e, edge_at gr (2 * a) 0 = Some e ∧ to e = (2 * a + 1)%nat ∧ rev e = 0%nat ∧
       cap e = room_cap startName endName nm.
Proof using graph0_done gr_shape.
  intros Ha. destruct graph0_done as (_ & _ & Hall).
  destruct (Hall a nm Ha) as (rin & rout & Hin & _).
  destruct (same_shape_edge graph0 gr (2 * a) 0 (room_fwd startName endName a nm) gr_shape)
    as (e & He & ? & ? & ?).
  { unfold edge_at. by rewrite Hin. }
  by exists e.
Qed.

Lemma net_out (a : nat) nm i e :
  names !! a = Some nm → edge_at gr (2 * a + 1) i = Some e →
  (i = 0%nat ∧ to e = (2 * a)%nat ∧ rev e = 0%nat ∧ cap e = 0) ∨
  (∃ j : nat, i = S j ∧ cap e = 1 ∧ links_of a !! j = Some (to e)).
Proof using graph0_done gr_shape.
  intros Ha He.
  destruct (same_shape_edge _ _ _ _ _ (same_shape_sym _ _ gr_shape) He)
    as (e0 & (adj & Hadj & Hi)%edge_at_Some & <- & <- & <-).
  destruct graph0_done as (_ & _ & Hall).
  destruct (Hall a nm Ha) as (rin & rout & _ & _ & Hout & Hrout & HLf).
  unfold room_rev in Hout. simplify_eq. destruct i as [|i]; simplify_eq/=.
  - by left.
  - right. exists i. rewrite Forall_lookup in Hrout.
    destruct (Hrout i e0 Hi) as (? & _). split; [done|]. split; [done|].
    rewrite <- HLf, list_lookup_fmap, Hi. done.
Qed.

Lemma net_out0 (a : nat) nm :
  names !! a = Some nm →
  ∃ e, edge_at gr (2 * a + 1) 0 = Some e ∧ to e = (2 * a)%nat ∧ rev e = 0%nat ∧ cap e = 0.
Proof using graph0_done gr_shape.
  intros Ha. destruct graph0_done as (_ & _ & Hall).
  destruct (Hall a nm Ha) as (rin & rout & _ & _ & Hout & _).
  destruct (same_shape_edge graph0 gr (2 * a + 1) 0 (room_rev a) gr_shape)
    as (e & He & ? & ? & ?).
  { unfold edge_at. by rewrite Hout. }
  by exists e.
Qed.

Lemma net_out_link (a j : nat) nm t :
  names !! a = Some nm → links_of a !! j = Some t →
  ∃ e, edge_at gr (2 * a + 1) (S j) = Some e ∧ to e = t ∧ cap e = 1.
Proof using graph0_done gr_shape.
  intros Ha Hj. destruct graph0_done as (_ & _ & Hall).
  destruct (Hall a nm Ha) as (rin & rout & _ & _ & Hout & Hrout & HLf).
  rewrite <- HLf, list_lookup_fmap in Hj.
  destruct (rout !! j) as [e0|] eqn:Hrj; [|done]. simpl in Hj. injection Hj as <-.
  destruct (same_shape_edge graph0 gr (2 * a + 1) (S j) e0 gr_shape)
    as (e & He & ? & ? & ?).
  { unfold edge_at. rewrite Hout. done. }
  exists e. rewrite Forall_lookup in Hrout. destruct (Hrout j e0 Hrj) as (? & _).
  split; [done|]. split; congruence.
Qed.

(** A link target is the in-node of the linked room. *)
Lemma links_of_target (a j : nat) nm r t :
  names !! a = Some nm → Rooms g !! nm = Some r → links_of a !! j = Some t →
  ∃ (b : nat) nb, names !! b = Some nb ∧ nb ∈ Links r ∧ t = (2 * b)%nat.
Proof using names_nodup links_closed.
  intros Ha Hr Hj. unfold residual.links_of in Hj. rewrite Ha, Hr in Hj.
  rewrite list_lookup_fmap in Hj.
  destruct (merge_sort String.le (Links r) !! j) as [nb|] eqn:Hnb; simplify_eq/=.
  assert (nb ∈ Links r) as Hin.
  { rewrite <- (merge_sort_Permutation String.le). by eapply list_elem_of_lookup_2. }
  destruct (list_elem_of_lookup_1 _ _ (links_closed nm r nb Hr Hin)) as [b Hb].
  exists b, nb. split; [done|]. split; [done|]. by apply inIdx_name.
Qed.

End shape.


(** *** Giving flow back: [consumeFlowAlong] *)

Lemma push_antisym b gr u i e gr' :
  paired gr → edge_at gr u i = Some e →
  push b gr (u, i) = Some gr' →
  antisym gr → antisym gr'.
Proof.
  intros Hpgr Hec Hpush Hanti.
  destruct (push_spec b gr u i e Hpgr Hec) as (g1 & Hpush' & Hs1 & Hex1 & Hfl1).
  rewrite Hpush in Hpush'. injection Hpush' as <-.
  intros w j e1 e1' He1 He1p.
  destruct (same_shape_edge _ _ _ _ _ (same_shape_sym _ _ Hs1) He1)
    as (e0 & He0 & Hto0 & Hrev0 & _).
  rewrite <- Hto0, <- Hrev0 in He1p.
  destruct (same_shape_edge _ _ _ _ _ (same_shape_sym _ _ Hs1) He1p)
    as (e0' & He0' & _).
  destruct (Hfl1 _ _ _ He0) as (x & Hx & _ & Hf).
  rewrite He1 in Hx. injection Hx as <-.
  destruct (Hfl1 _ _ _ He0') as (x' & Hx' & _ & Hf').
  rewrite He1p in Hx'. injection Hx' as <-.
  rewrite Hf, Hf'. pose proof (Hanti _ _ _ _ He0 He0') as Ha.
  destruct (Hpgr w j e0 He0) as [_ (y & Hy & Hyto & Hyrev)].
  rewrite He0' in Hy. injection Hy as <-.
  destruct (Hpgr u i e Hec) as [Hne (ec' & Hec' & Hto' & Hrev')].
  destruct (decide ((w, j) = (u, i))) as [Heq|Hn1].
  { injection Heq as -> ->. rewrite Hec in He0. injection He0 as <-.
    rewrite (decide_True (P := (to e, rev e) = (to e, rev e))) by done.
    rewrite !decide_False; [lia|congruence|congruence]. }
  destruct (decide ((w, j) = (to e, rev e))) as [Heq|Hn2].
  { injection Heq as -> ->. rewrite Hec' in He0. injection He0 as <-.
    rewrite (decide_True (P := (to ec', rev ec') = _)) by congruence.
    rewrite decide_False; [lia|congruence]. }
  rewrite !decide_False; [lia| |].
  + intros Heq. injection Heq as Heq1 Heq2. rewrite Heq1, Heq2 in He0'.
    rewrite Hec' in He0'. injection He0' as <-. apply Hn1. congruence.
  + intros Heq. injection Heq as Heq1 Heq2. rewrite Heq1, Heq2 in He0'.
    rewrite Hec in He0'. injection He0' as <-. apply Hn2. congruence.
Qed.

Lemma push_frame b gr u i e gr' w j :
  paired gr → edge_at gr u i = Some e →
  push b gr (u, i) = Some gr' →
  (w, j) ≠ (u, i) → (w, j) ≠ (to e, rev e) →
  edge_at gr' w j = edge_at gr w j.
Proof.
  intros Hpgr Hec Hpush H1 H2.
  destruct (push_spec b gr u i e Hpgr Hec) as (g1 & Hpush' & Hs1 & Hex1 & Hfl1).
  rewrite Hpush in Hpush'. injection Hpush' as <-.
  destruct (edge_at gr w j) as [e0|] eqn:He0.
  - destruct (Hfl1 _ _ _ He0) as (e1 & He1 & Hsh & Hf). rewrite He1. f_equal.
    rewrite !decide_False in Hf by done.
    destruct e0, e1. unfold shape in Hsh. simplify_eq/=. f_equal. lia.
  - destruct Hs1 as [_ Hs1]. specialize (Hs1 w j). rewrite He0 in Hs1.
    by destruct (edge_at gr' w j).
Qed.

Definition quiet (gr : list (list edge)) (u : nat) : Prop :=
  ∀ i e, edge_at gr u i = Some e → flow e = 0.

Lemma quiet_excess gr u : quiet gr u → excess gr u = 0.
Proof.
  intros Hq. unfold excess. destruct (gr !! u) as [adj|] eqn:Hu; [|done]. simpl.
  assert (Forall (λ e, flow e = 0) adj) as Hall.
  { apply Forall_lookup. intros i e Hi. apply (Hq i e). unfold edge_at. by rewrite Hu. }
  clear Hu Hq. induction Hall as [|e adj He _ IH]; [done|].
  rewrite fmap_cons, Zsum_cons. lia.
Qed.

Lemma quiet_push b gr u i e gr' w :
  paired gr → edge_at gr u i = Some e →
  push b gr (u, i) = Some gr' →
  w ≠ u → w ≠ to e → quiet gr w → quiet gr' w.
Proof.
  intros Hp He Hpush H1 H2 Hq j e' He'.
  rewrite (push_frame b gr u i e gr' w j Hp He Hpush) in He'; [by eapply Hq|..];
    congruence.
Qed.

(** The out-edge lists [sortedOuts] computes. *)
Lemma outs_of_ei names adj : ∀ i outs,
  outs_of names i adj = Some outs → ei <$> outs = seq i (length adj).
Proof.
  induction adj as [|e adj IH]; intros i outs H; simplify_eq/=; [done|].
  destruct (roomNameOf names (to e)) as [nm|]; simplify_eq/=.
  destruct (outs_of names (S i) adj) as [outs'|] eqn:Ho; simplify_eq/=.
  f_equal. by apply IH.
Qed.

Lemma outs_of_Some names adj : ∀ i,
  Forall (λ e, is_Some (roomNameOf names (to e))) adj →
  is_Some (outs_of names i adj).
Proof.
  induction adj as [|e adj IH]; intros i Hall; [by eexists|].
  apply Forall_cons in Hall as [[nm Hnm] Hall]. simpl. rewrite Hnm. simpl.
  destruct (IH (S i) Hall) as [outs ->]. by eexists.
Qed.

Lemma sortedOuts_spec names gr :
  (∀ u i e, edge_at gr u i = Some e → (to e < 2 * length names)%nat) →
  ∃ sorted, sortedOuts names gr = Some sorted ∧
    ∀ u adj, gr !! u = Some adj →
      ∃ outs, sorted !! u = Some outs ∧ ei <$> outs ≡ₚ seq 0 (length adj).
Proof.
  intros Hto.
  assert (∀ u adj, gr !! u = Some adj →
            ∃ outs, outs_of names 0 adj = Some outs) as Houts.
  { intros u adj Hu. apply outs_of_Some. apply Forall_lookup. intros i e Hi.
    unfold roomNameOf. apply lookup_lt_is_Some_2.
    apply Nat.Div0.div_lt_upper_bound.
    apply (Hto u i e). unfold edge_at. by rewrite Hu. }
  unfold sortedOuts.
  destruct (mapM (λ adj, outs ← outs_of names 0 adj;
                         Some (merge_sort outEdge_le outs)) gr) as [sorted|] eqn:Hm.
  - exists sorted. split; [done|]. apply mapM_Some in Hm.
    intros u adj Hu. destruct (Forall2_lookup_l _ _ _ _ _ Hm Hu) as (outs & Hs & Ho).
    exists outs. split; [done|].
    destruct (outs_of names 0 adj) as [outs0|] eqn:Ho0; simplify_eq/=.
    rewrite merge_sort_Permutation. by rewrite (outs_of_ei _ _ _ _ Ho0).
  - exfalso. apply mapM_None in Hm. apply Exists_exists in Hm as (adj & Hin & Hnone).
    apply list_elem_of_lookup_1 in Hin as [u Hu].
    destruct (Houts u adj Hu) as [outs Ho]. rewrite Ho in Hnone. done.
Qed.

(** [consume_scan] gives back one unit on some half-edge at [u] that
    carries flow, or reports that there is none. *)
Lemma consume_scan_spec gr u outs :
  paired gr →
  (∀ oe, oe ∈ outs → is_Some (edge_at gr u (ei oe))) →
  (consume_scan u outs gr = Some (None, gr) ∧
   ∀ oe e, oe ∈ outs → edge_at gr u (ei oe) = Some e → flow e ≤ 0) ∨
  (∃ i e gr', edge_at gr u i = Some e ∧ 0 < flow e ∧
     push (-1) gr (u, i) = Some gr' ∧
     consume_scan u outs gr = Some (Some (to e), gr')).
Proof.
  intros Hp. induction outs as [|oe outs IH]; intros Hall.
  { left. split; [done|]. intros oe e Hoe. by apply elem_of_nil in Hoe. }
  destruct (Hall oe) as [e He]; [apply list_elem_of_here|].
  cbn [consume_scan]. rewrite He. cbn [mbind option_bind].
  destruct (Z.ltb_spec 0 (flow e)) as [Hpos|Hneg].
  - right. destruct (push_spec (-1) gr u (ei oe) e Hp He) as (gr' & Hpush & _).
    exists (ei oe), e, gr'. split; [done|]. split; [done|]. split; [done|].
    unfold push in Hpush. cbn [fst snd] in Hpush. rewrite He in Hpush.
    cbn [mbind option_bind] in Hpush.
    destruct (upd_flow gr u (ei oe) (-1)) as [g1|]; [|done].
    cbn [mbind option_bind] in *. change (- -1) with 1 in Hpush.
    rewrite Hpush. done.
  - destruct IH as [[Hscan Hnone]|(i & e' & gr' & ? & ? & ? & ?)].
    + intros oe' Hoe'. apply Hall. by apply list_elem_of_further.
    + left. split; [done|]. intros oe' e' [->|Hoe']%elem_of_cons He'.
      * simplify_eq. done.
      * by eapply Hnone.
    + right. by exists i, e', gr'.
Qed.


(** *** Path reconstruction *)

Section trace.

Variable g : Graph.
Variable names : list string.
Variable startName endName : string.
Hypothesis names_nodup : NoDup names.
Hypothesis links_closed : ∀ nm r nb,
  Rooms g !! nm = Some r → nb ∈ Links r → nb ∈ names.
Hypothesis links_nodup : ∀ nm r, Rooms g !! nm = Some r → NoDup (Links r).
Hypothesis names_rooms : ∀ nm, nm ∈ names → is_Some (Rooms g !! nm).

(** The room ids of the start and end rooms. *)
Variable s_id e_id : nat.
Hypothesis start_id : names !! s_id = Some startName.
Hypothesis end_id : names !! e_id = Some endName.
Hypothesis start_ne_end : startName ≠ endName.

Local Abbreviation N := (length names).
Local Abbreviation source := (path.source names startName).
Local Abbreviation sink := (path.sink names endName).
Local Abbreviation links_of := (links_of g names).

Variable graph0 : list (list edge).
Hypothesis graph0_done : links_done names startName endName links_of graph0.

Variable sorted : list (list outEdge).
Hypothesis sorted_ok : ∀ u adj, graph0 !! u = Some adj →
  ∃ outs, sorted !! u = Some outs ∧ ei <$> outs ≡ₚ seq 0 (length adj).

Lemma source_eq : source = (2 * s_id + 1)%nat.
Proof using names_nodup start_id. by apply outIdx_name. Qed.

Lemma sink_eq : sink = (2 * e_id)%nat.
Proof using names_nodup end_id. by apply inIdx_name. Qed.

Lemma s_id_ne_e_id : s_id ≠ e_id.
Proof using start_id end_id start_ne_end. intros Heq. rewrite Heq in start_id. congruence. Qed.

Lemma names_ne : names ≠ [].
Proof using start_id. intros Hn. by rewrite Hn in start_id. Qed.

Record trace_inv (gr : list (list edge)) : Prop := {
  ti_shape : same_shape graph0 gr;
  ti_cap : cap_ok gr;
  ti_antisym : antisym gr;
  ti_quiet_start : quiet gr (2 * s_id);
}.

Lemma ti_paired gr : trace_inv gr → paired gr.
Proof using graph0_done.
  intros [Hs _ _ _]. eapply paired_same_shape; [done|].
  by destruct graph0_done as (_ & ? & _).
Qed.

Lemma ti_length gr : trace_inv gr → length gr = (2 * N)%nat.
Proof using graph0_done.
  intros [[Hl _] _ _ _]. rewrite Hl. by destruct graph0_done.
Qed.

Lemma ti_cap_nonneg gr u i e :
  trace_inv gr → edge_at gr u i = Some e → 0 ≤ cap e.
Proof using graph0_done names_nodup start_id.
  intros Hinv He.
  destruct (same_shape_edge _ _ _ _ _ (same_shape_sym _ _ (ti_shape _ Hinv)) He)
    as (e0 & He0 & _ & _ & <-).
  by destruct (graph0_edges _ _ _ _ _ graph0_done u i e0 He0).
Qed.

(** A half-edge that carries flow has a partner that carries the opposite
    flow; so it neither leaves nor enters a quiet node. *)
Lemma positive_flow_partner gr u i e :
  trace_inv gr → edge_at gr u i = Some e → 0 < flow e →
  ∃ e', edge_at gr (to e) (rev e) = Some e' ∧ flow e' = - flow e ∧
        to e' = u ∧ rev e' = i ∧ to e ≠ u.
Proof using graph0_done.
  intros Hinv He Hpos.
  destruct (ti_paired gr Hinv u i e He) as [Hne (e' & He' & Hto & Hrev)].
  exists e'. pose proof (ti_antisym _ Hinv _ _ _ _ He He').
  repeat split; try done. lia.
Qed.

Lemma positive_flow_not_quiet gr u i e :
  trace_inv gr → edge_at gr u i = Some e → 0 < flow e →
  ¬ quiet gr u ∧ ¬ quiet gr (to e).
Proof using graph0_done.
  intros Hinv He Hpos. split.
  - intros Hq. specialize (Hq i e He). lia.
  - destruct (positive_flow_partner gr u i e Hinv He Hpos) as (e' & He' & Hf & _).
    intros Hq. specialize (Hq _ _ He'). lia.
Qed.

(** Giving one unit back keeps the invariant. *)
Lemma unpush_inv gr u i e gr' :
  trace_inv gr → edge_at gr u i = Some e → 0 < flow e →
  push (-1) gr (u, i) = Some gr' →
  trace_inv gr'.
Proof using graph0_done names_nodup start_id.
  intros Hinv He Hpos Hpush.
  pose proof (ti_paired gr Hinv) as Hp.
  destruct (push_spec (-1) gr u i e Hp He) as (g1 & Hpush' & Hs1 & Hex1 & Hfl1).
  rewrite Hpush in Hpush'. injection Hpush' as <-.
  destruct (positive_flow_not_quiet gr u i e Hinv He Hpos) as [Hq1 Hq2].
  destruct (positive_flow_partner gr u i e Hinv He Hpos) as (e' & He' & Hf' & _ & _ & Hne).
  split.
  - eapply same_shape_trans; [apply (ti_shape _ Hinv)|done].
  - intros w j e1 He1.
    destruct (same_shape_edge _ _ _ _ _ (same_shape_sym _ _ Hs1) He1)
      as (e0 & He0 & _ & _ & Hcap0).
    destruct (Hfl1 _ _ _ He0) as (x & Hx & _ & Hf).
    rewrite He1 in Hx. injection Hx as <-. rewrite Hf, <- Hcap0.
    pose proof (ti_cap _ Hinv _ _ _ He0) as Hc0.
    pose proof (ti_cap_nonneg _ _ _ _ Hinv He0) as Hc1.
    destruct (decide ((w, j) = (to e, rev e))) as [Heq|].
    + injection Heq as -> ->. rewrite He' in He0. injection He0 as <-.
      rewrite decide_False by congruence. lia.
    + case_decide; lia.
  - eapply push_antisym; [exact Hp|exact He|exact Hpush|apply (ti_antisym _ Hinv)].
  - eapply quiet_push; [exact Hp|exact He|exact Hpush| | |apply (ti_quiet_start _ Hinv)].
    + intros Heq. apply Hq1. rewrite <- Heq. apply (ti_quiet_start _ Hinv).
    + intros Heq. apply Hq2. rewrite <- Heq. apply (ti_quiet_start _ Hinv).
Qed.

Lemma same_shape_lookup_length gr u adj :
  same_shape graph0 gr → gr !! u = Some adj →
  ∃ adj0, graph0 !! u = Some adj0 ∧ length adj0 = length adj.
Proof.
  intros Hs Hu. pose proof (same_shape_adj _ _ u Hs) as Hsh.
  destruct Hs as [Hl _]. rewrite Hu in Hsh. simpl in Hsh.
  destruct (graph0 !! u) as [adj0|] eqn:H0.
  - exists adj0. split; [done|]. apply (f_equal length) in Hsh.
    by rewrite !length_fmap in Hsh.
  - apply lookup_ge_None_1 in H0. apply lookup_lt_Some in Hu. lia.
Qed.

(** [consumeFlowAlong] at a node of the graph. *)
Lemma consume_at gr u :
  trace_inv gr → (u < 2 * N)%nat →
  (consumeFlowAlong sorted u gr = Some (None, gr) ∧
   ∀ i e, edge_at gr u i = Some e → flow e ≤ 0) ∨
  (∃ i e gr', edge_at gr u i = Some e ∧ 0 < flow e ∧
     push (-1) gr (u, i) = Some gr' ∧
     consumeFlowAlong sorted u gr = Some (Some (to e), gr')).
Proof using graph0_done sorted_ok.
  intros Hinv Hu.
  destruct (lookup_lt_is_Some_2 gr u) as [adj Hadj].
  { by rewrite (ti_length gr Hinv). }
  destruct (same_shape_lookup_length gr u adj (ti_shape _ Hinv) Hadj)
    as (adj0 & Hadj0 & Hlen).
  destruct (sorted_ok u adj0 Hadj0) as (outs & Houts & Hperm).
  unfold consumeFlowAlong. rewrite Houts. cbn [mbind option_bind].
  assert (∀ i, i ∈ ei <$> outs ↔ (i < length adj)%nat) as Hidx.
  { intros i. rewrite Hperm, elem_of_seq. lia. }
  destruct (consume_scan_spec gr u outs (ti_paired gr Hinv)) as [[Hscan Hnone]|Hsome].
  - intros oe Hoe. unfold edge_at. rewrite Hadj. simpl.
    apply lookup_lt_is_Some_2. apply Hidx. by apply list_elem_of_fmap_2.
  - left. split; [done|]. intros i e He.
    assert (i ∈ ei <$> outs) as (oe & -> & Hoe)%list_elem_of_fmap.
    { apply Hidx. apply edge_at_Some in He as (adj' & ? & Hi). simplify_eq.
      by eapply lookup_lt_Some. }
    by eapply Hnone.
  - by right.
Qed.


Lemma excess_nonpos gr u :
  (∀ i e, edge_at gr u i = Some e → flow e ≤ 0) → excess gr u ≤ 0.
Proof.
  intros Hq. unfold excess. destruct (gr !! u) as [adj|] eqn:Hu; [|done]. simpl.
  assert (Forall (λ e, flow e ≤ 0) adj) as Hall.
  { apply Forall_lookup. intros i e Hi. apply (Hq i e). unfold edge_at. by rewrite Hu. }
  clear Hu Hq. induction Hall as [|e adj He _ IH]; [done|].
  rewrite fmap_cons, Zsum_cons. lia.
Qed.

Lemma excess_head gr u adj e0 :
  gr !! u = Some (e0 :: adj) → excess gr u = flow e0 + Zsum (flow <$> adj).
Proof. intros Hu. unfold excess. rewrite Hu. done. Qed.

(** The effect of giving one unit back on the net flows. *)
Lemma unpush_excess gr u i e gr' w :
  trace_inv gr → edge_at gr u i = Some e →
  push (-1) gr (u, i) = Some gr' →
  excess gr' w = excess gr w - (if decide (w = u) then 1 else 0)
                 + (if decide (w = to e) then 1 else 0).
Proof using graph0_done.
  intros Hinv He Hpush.
  destruct (push_spec (-1) gr u i e (ti_paired gr Hinv) He) as (g1 & Hpush' & _ & Hex & _).
  rewrite Hpush in Hpush'. injection Hpush' as <-. rewrite Hex.
  repeat case_decide; lia.
Qed.

Lemma unpush_frame gr u i e gr' w j :
  trace_inv gr → edge_at gr u i = Some e →
  push (-1) gr (u, i) = Some gr' →
  w ≠ u → w ≠ to e → edge_at gr' w j = edge_at gr w j.
Proof using graph0_done.
  intros Hinv He Hpush H1 H2.
  eapply push_frame; [apply (ti_paired gr Hinv)|exact He|exact Hpush|congruence..].
Qed.

Lemma unpush_flow gr u i e gr' :
  trace_inv gr → edge_at gr u i = Some e →
  push (-1) gr (u, i) = Some gr' →
  ∃ e1, edge_at gr' u i = Some e1 ∧ flow e1 = flow e - 1 ∧
        ∀ j, j ≠ i → edge_at gr' u j = edge_at gr u j.
Proof using graph0_done.
  intros Hinv He Hpush.
  pose proof (ti_paired gr Hinv) as Hp.
  destruct (push_spec (-1) gr u i e Hp He) as (g1 & Hpush' & _ & _ & Hfl).
  rewrite Hpush in Hpush'. injection Hpush' as <-.
  destruct (Hp u i e He) as [Hne _].
  destruct (Hfl _ _ _ He) as (e1 & He1 & _ & Hf).
  rewrite decide_True in Hf by done. rewrite decide_False in Hf by congruence.
  exists e1. split; [done|]. split; [lia|].
  intros j Hj. eapply push_frame; [exact Hp|exact He|exact Hpush|congruence..].
Qed.

Lemma room_cap_inner (x : nat) nm :
  names !! x = Some nm → x ≠ s_id → x ≠ e_id →
  room_cap startName endName nm = 1 ∧ nm ≠ startName ∧ nm ≠ endName.
Proof using names_nodup start_id end_id.
  intros Hx Hs He.
  assert (nm ≠ startName) as H1.
  { intros ->. apply Hs. by eapply NoDup_lookup. }
  assert (nm ≠ endName) as H2.
  { intros ->. apply He. by eapply NoDup_lookup. }
  unfold room_cap. by rewrite !bool_decide_eq_false_2.
Qed.

(** Flow on a link half-edge is 0 or 1. *)
Lemma link_flow_bounds gr (a j : nat) nm e :
  trace_inv gr → names !! a = Some nm →
  edge_at gr (2 * a + 1) (S j) = Some e →
  0 ≤ flow e ≤ 1 ∧
  ∃ (y : nat) nb r, Rooms g !! nm = Some r ∧ names !! y = Some nb ∧
                    nb ∈ Links r ∧ to e = (2 * y)%nat.
Proof using graph0_done names_nodup names_rooms links_closed.
  intros Hinv Ha He.
  destruct (net_out g names startName endName graph0 graph0_done gr (ti_shape _ Hinv)
              a nm (S j) e Ha He) as [(? & _)|(j' & Hj & Hcap & Hlk)]; [done|].
  injection Hj as <-.
  destruct (names_rooms nm) as [r Hr]; [by eapply list_elem_of_lookup_2|].
  destruct (links_of_target g names names_nodup links_closed a j nm r (to e) Ha Hr Hlk)
    as (y & nb & Hy & Hnb & Hto).
  split; [|by exists y, nb, r].
  pose proof (ti_cap _ Hinv _ _ _ He) as Hc.
  destruct (ti_paired gr Hinv _ _ _ He) as [_ (e' & He' & Hto' & Hrev')].
  pose proof (ti_antisym _ Hinv _ _ _ _ He He') as Ha'.
  rewrite Hto in He'.
  destruct (net_in g names startName endName graph0 graph0_done gr (ti_shape _ Hinv)
              y nb (rev e) e' Hy He') as [(_ & _ & Hr0 & _)|(_ & Hc' & _)].
  - lia.
  - pose proof (ti_cap _ Hinv _ _ _ He'). lia.
Qed.

(** In a quiet room, the half-edge from the out-node back to the in-node
    carries nothing. *)
Lemma quiet_out0 gr (a : nat) nm e :
  trace_inv gr → names !! a = Some nm → quiet gr (2 * a) →
  edge_at gr (2 * a + 1) 0 = Some e → flow e = 0.
Proof using graph0_done.
  intros Hinv Ha Hq He.
  destruct (net_out g names startName endName graph0 graph0_done gr (ti_shape _ Hinv)
              a nm 0 e Ha He) as [(_ & Hto & Hrev & _)|(j & ? & _)]; [|done].
  destruct (ti_paired gr Hinv _ _ _ He) as [_ (e' & He' & _)].
  pose proof (ti_antisym _ Hinv _ _ _ _ He He') as Hanti.
  rewrite Hto, Hrev in He'. specialize (Hq _ _ He'). lia.
Qed.

(** Leaving the out-node of a quiet room: the step along a link. *)
Lemma out_step gr (a : nat) nm :
  trace_inv gr → names !! a = Some nm → quiet gr (2 * a) →
  0 < excess gr (2 * a + 1) →
  ∃ (j : nat) e gr' (y : nat) nb r,
    edge_at gr (2 * a + 1) (S j) = Some e ∧ flow e = 1 ∧
    Rooms g !! nm = Some r ∧ names !! y = Some nb ∧ nb ∈ Links r ∧
    to e = (2 * y)%nat ∧ ¬ quiet gr (2 * y) ∧
    push (-1) gr ((2 * a + 1)%nat, S j) = Some gr' ∧
    consumeFlowAlong sorted (2 * a + 1) gr = Some (Some (2 * y)%nat, gr') ∧
    trace_inv gr'.
Proof using graph0_done names_nodup names_rooms links_closed sorted_ok start_id.
  intros Hinv Ha Hq Hex.
  assert (a < N)%nat as HaN by (by eapply lookup_lt_Some).
  destruct (consume_at gr (2 * a + 1) Hinv ltac:(lia))
    as [[_ Hnone]|(i & e & gr' & He & Hpos & Hpush & Hcons)].
  { pose proof (excess_nonpos gr _ Hnone). lia. }
  destruct i as [|j].
  { rewrite (quiet_out0 gr a nm e Hinv Ha Hq He) in Hpos. lia. }
  destruct (link_flow_bounds gr a j nm e Hinv Ha He)
    as [Hb (y & nb & r & Hr & Hy & Hnb & Hto)].
  exists j, e, gr', y, nb, r. rewrite <- Hto.
  destruct (positive_flow_not_quiet gr _ _ e Hinv He Hpos) as [_ Hnq].
  split_and!; try done; [lia|].
  by eapply unpush_inv.
Qed.

(** Entering a room that is neither start nor end: the step across it. *)
Lemma room_step gr (x : nat) nm :
  trace_inv gr → names !! x = Some nm → x ≠ s_id → x ≠ e_id →
  excess gr (2 * x) = 1 →
  ∃ gr',
    consumeFlowAlong sorted (2 * x) gr = Some (Some (2 * x + 1)%nat, gr') ∧
    trace_inv gr' ∧ quiet gr' (2 * x) ∧
    (∀ w, excess gr' w = excess gr w - (if decide (w = (2 * x)%nat) then 1 else 0)
                         + (if decide (w = (2 * x + 1)%nat) then 1 else 0)) ∧
    (∀ w j, w ≠ (2 * x)%nat → w ≠ (2 * x + 1)%nat →
            edge_at gr' w j = edge_at gr w j).
Proof using graph0_done names_nodup names_rooms links_closed sorted_ok start_id end_id.
  intros Hinv Hx Hxs Hxe Hex.
  assert (x < N)%nat as HxN by (by eapply lookup_lt_Some).
  destruct (room_cap_inner x nm Hx Hxs Hxe) as (Hcap1 & _ & _).
  destruct (consume_at gr (2 * x) Hinv ltac:(lia))
    as [[_ Hnone]|(i & e & gr' & He & Hpos & Hpush & Hcons)].
  { pose proof (excess_nonpos gr _ Hnone). lia. }
  destruct (net_in g names startName endName graph0 graph0_done gr (ti_shape _ Hinv)
              x nm i e Hx He) as [(-> & Hto & Hrev & Hcap)|(_ & Hc0 & _)].
  2:{ pose proof (ti_cap _ Hinv _ _ _ He). lia. }
  rewrite Hto in Hcons. exists gr'. split; [done|].
  split; [by eapply unpush_inv|].
  pose proof (ti_cap _ Hinv _ _ _ He) as Hce. rewrite Hcap, Hcap1 in Hce.
  assert (flow e = 1) as Hfe by lia.
  split; [|split].
  - (* every other half-edge at the in-node carries nothing *)
    apply edge_at_Some in He as (adj & Hadj & H0).
    destruct adj as [|e0 rest]; [done|]. simpl in H0. injection H0 as ->.
    pose proof (excess_head gr _ _ _ Hadj) as Hsum. rewrite Hex, Hfe in Hsum.
    assert (Forall (λ f, f ≤ 0) (flow <$> rest)) as Hrest.
    { apply Forall_fmap, Forall_lookup. intros j e1 Hj. simpl.
      assert (edge_at gr (2 * x) (S j) = Some e1) as He1.
      { unfold edge_at. rewrite Hadj. done. }
      destruct (net_in g names startName endName graph0 graph0_done gr
                  (ti_shape _ Hinv) x nm (S j) e1 Hx He1)
        as [(? & _)|(_ & Hc0 & _)]; [done|].
      pose proof (ti_cap _ Hinv _ _ _ He1). lia. }
    apply Zsum_nonpos_zero in Hrest; [|lia].
    assert (edge_at gr (2 * x) 0 = Some e) as He.
    { unfold edge_at. by rewrite Hadj. }
    destruct (unpush_flow gr _ _ e gr' Hinv He Hpush) as (e1 & He1 & Hf1 & Hoth).
    intros j e2 He2. destruct j as [|j].
    + rewrite He1 in He2. injection He2 as <-. lia.
    + rewrite Hoth in He2 by done.
      apply edge_at_Some in He2 as (adj' & Hadj' & Hj). rewrite Hadj in Hadj'.
      injection Hadj' as <-. simpl in Hj.
      rewrite Forall_fmap, Forall_lookup in Hrest. by apply (Hrest j e2).
  - intros w. rewrite (unpush_excess gr _ _ e gr' w Hinv He Hpush). by rewrite Hto.
  - intros w j Hw1 Hw2.
    apply (unpush_frame gr _ _ e gr' w j Hinv He Hpush); congruence.
Qed.


(** *** One walk of the reconstruction *)

(** Every node but the source, the sink and [cur] is balanced; [cur] has one
    unit more coming in than going out. *)
Definition walk_inv (gr : list (list edge)) (cur : nat) : Prop :=
  trace_inv gr ∧
  ∀ w, w ≠ source → w ≠ sink → excess gr w = if decide (w = cur) then 1 else 0.

(** A room none of whose in-node half-edges carries flow: no later walk
    enters it. *)
Definition dead (gr : list (list edge)) (nm : string) : Prop :=
  ∃ x : nat, names !! x = Some nm ∧ quiet gr (2 * x).

Definition linked_names (l : list string) : Prop :=
  ∀ (i : nat) a b r, l !! i = Some a → l !! S i = Some b →
                     Rooms g !! a = Some r → b ∈ Links r.

Lemma linked_names_cons a b l r :
  Rooms g !! a = Some r → b ∈ Links r → linked_names (b :: l) →
  linked_names (a :: b :: l).
Proof.
  intros Hr Hb Hl [|i] a' b' r' Ha' Hb' Hr'; simpl in *.
  - injection Ha' as <-. injection Hb' as <-. rewrite Hr in Hr'. by injection Hr' as <-.
  - by eapply (Hl i).
Qed.

Lemma quiet_frame gr gr' w :
  (∀ j, edge_at gr' w j = edge_at gr w j) → quiet gr w → quiet gr' w.
Proof. intros Hf Hq j e He. rewrite Hf in He. by eapply Hq. Qed.

Lemma roomNameOf_in (y : nat) : roomNameOf names (2 * y) = names !! y.
Proof.
  unfold roomNameOf. f_equal.
  replace (2 * y)%nat with (y * 2)%nat by lia. by rewrite Nat.div_mul.
Qed.

Lemma seen_bound (seen : list string) :
  NoDup seen → (∀ nm, nm ∈ seen → nm ∈ names) → (length seen ≤ N)%nat.
Proof.
  intros Hnd Hin. apply submseteq_length, NoDup_submseteq; [done|].
  intros nm. apply Hin.
Qed.

Lemma trace_walk_spec (fuel : nat) :
  ∀ (seen : list string) (y : nat) nm0 (np : list string) gr,
    walk_inv gr (2 * y) → names !! y = Some nm0 →
    NoDup seen → (∀ nm, nm ∈ seen → nm ∈ names ∧ dead gr nm) →
    (N < fuel + length seen)%nat →
    ∃ mids gr',
      trace_walk names endName fuel sorted (2 * y) np gr = Some (np ++ mids, gr') ∧
      walk_inv gr' sink ∧
      NoDup mids ∧
      (∀ nm, nm ∈ mids →
             nm ≠ startName ∧ nm ≠ endName ∧ (nm ∉ seen) ∧ nm ∈ names) ∧
      (∀ nm, nm ∈ seen ∨ nm ∈ mids → dead gr' nm) ∧
      linked_names (mids ++ [endName]) ∧
      head (mids ++ [endName]) = Some nm0 ∧
      (∀ j, edge_at gr' source j = edge_at gr source j).
Proof using graph0_done names_nodup names_rooms links_closed sorted_ok
  start_id end_id start_ne_end.
  induction fuel as [|fuel IH]; intros seen y nm0 np gr [Hinv Hex] Hy Hnd Hseen Hfuel.
  { pose proof (seen_bound seen Hnd (λ nm H, proj1 (Hseen nm H))). lia. }
  cbn [trace_walk]. change (Ein names endName) with sink.
  destruct (decide (y = e_id)) as [->|Hye].
  - rewrite (bool_decide_eq_true_2 _ (eq_sym sink_eq)).
    exists [], gr. rewrite app_nil_r. split; [done|].
    split.
    { split; [done|]. intros w Hw1 Hw2. rewrite (Hex w Hw1 Hw2).
      pose proof sink_eq. repeat case_decide; lia. }
    split; [constructor|]. split; [by intros nm ?%elem_of_nil|].
    split.
    { intros nm [Hnm|?%elem_of_nil]; [|done]. by apply Hseen. }
    split.
    { intros i a b r Ha Hb. destruct i; simpl in *; done. }
    simpl. split; [|done]. rewrite end_id in Hy. congruence.
  - rewrite bool_decide_eq_false_2 by (rewrite sink_eq; lia).
    assert (excess gr (2 * y) = 1) as Hexy.
    { rewrite Hex, decide_True; [done..| |].
      - rewrite source_eq. lia.
      - rewrite sink_eq. lia. }
    assert (y ≠ s_id) as Hys.
    { intros ->. pose proof (quiet_excess _ _ (ti_quiet_start _ Hinv)). lia. }
    assert (∀ nm (x : nat), nm ∈ seen → names !! x = Some nm →
                            x ≠ y ∧ quiet gr (2 * x)) as Hseen'.
    { intros nm x Hnm Hx. destruct (Hseen nm Hnm) as [_ (x' & Hx' & Hq)].
      assert (x' = x) as -> by exact (NoDup_lookup names x' x nm names_nodup Hx' Hx).
      split; [|done]. intros ->. pose proof (quiet_excess _ _ Hq). lia. }
    rewrite roomNameOf_in, Hy. cbn [mbind option_bind].
    destruct (room_cap_inner y nm0 Hy Hys Hye) as (_ & Hns & Hne).
    rewrite (bool_decide_eq_true_2 _ Hne).
    destruct (room_step gr y nm0 Hinv Hy Hys Hye Hexy)
      as (gr1 & Hc1 & Hinv1 & Hq1 & Hex1 & Hfr1).
    rewrite Hc1. cbn [mbind option_bind].
    assert (0 < excess gr1 (2 * y + 1)) as Hpos.
    { rewrite Hex1, Hex.
      - repeat case_decide; lia.
      - rewrite source_eq. lia.
      - rewrite sink_eq. lia. }
    destruct (out_step gr1 y nm0 Hinv1 Hy Hq1 Hpos)
      as (j & e & gr2 & z & nb & r & He & Hfl & Hr & Hz & Hnb & Hto & Hnq & Hpush
          & Hc2 & Hinv2).
    rewrite Hc2. cbn [mbind option_bind].
    assert (z ≠ y) as Hzy by (intros ->; done).
    assert (∀ w j', w ≠ (2 * y + 1)%nat → w ≠ (2 * z)%nat →
                    edge_at gr2 w j' = edge_at gr1 w j') as Hfr2.
    { intros w j' Hw1 Hw2.
      apply (unpush_frame gr1 _ _ e gr2 w j' Hinv1 He Hpush); congruence. }
    destruct (IH (nm0 :: seen) z nb (np ++ [nm0]) gr2)
      as (mids & gr' & Hwalk & Hinv' & Hnd' & Hmids & Hdead & Hlink & Hhead & Hsrc).
    + split; [done|]. intros w Hw1 Hw2.
      rewrite (unpush_excess gr1 _ _ e gr2 w Hinv1 He Hpush), Hex1, Hex, Hto by done.
      repeat case_decide; lia.
    + done.
    + constructor; [|done]. intros Hin.
      destruct (Hseen' nm0 y Hin Hy) as [? _]. done.
    + intros nm [->|Hnm]%elem_of_cons.
      * split; [by eapply list_elem_of_lookup_2|].
        exists y. split; [done|].
        apply (quiet_frame gr1); [|done]. intros j'. apply Hfr2; lia.
      * split; [by apply Hseen|].
        destruct (Hseen nm Hnm) as [_ (x & Hx & _)].
        destruct (Hseen' nm x Hnm Hx) as [Hxy Hq].
        exists x. split; [done|].
        assert (quiet gr1 (2 * x)) as Hqx1.
        { apply (quiet_frame gr); [|done]. intros j'. apply Hfr1; lia. }
        apply (quiet_frame gr1); [|done]. intros j'. apply Hfr2; [lia|].
        intros Heq. assert (x = z) as -> by lia. done.
    + simpl. lia.
    + exists (nm0 :: mids), gr'.
      split; [by rewrite Hwalk, <- app_assoc|].
      split; [done|].
      split.
      { constructor; [|done]. intros Hin. destruct (Hmids _ Hin) as (_ & _ & Hn & _).
        apply Hn. by left. }
      split.
      { intros nm [->|Hnm]%elem_of_cons.
        - split_and!; [done|done| |by eapply list_elem_of_lookup_2].
          intros Hin. by destruct (Hseen' nm0 y Hin Hy).
        - destruct (Hmids _ Hnm) as (? & ? & Hn & ?). split_and!; try done.
          intros Hin. apply Hn. by right. }
      split.
      { intros nm [Hnm|[->|Hnm]%elem_of_cons]; apply Hdead.
        - left. by right.
        - left. by left.
        - by right. }
      split.
      { destruct (mids ++ [endName]) as [|b l] eqn:Hml; [done|].
        simpl in Hhead. injection Hhead as ->. simpl. rewrite Hml.
        by eapply linked_names_cons. }
      split; [done|].
      intros j'. rewrite Hsrc.
      rewrite Hfr2, Hfr1; [done|rewrite source_eq; lia..].
Qed.


(** *** The reconstruction loop *)

Lemma Zsum_nonneg (l : list Z) : Forall (λ x, 0 ≤ x) l → 0 ≤ Zsum l.
Proof.
  induction 1 as [|x l Hx _ IH]; [done|]. rewrite Zsum_cons. lia.
Qed.

Lemma Zsum_ge_elem (l : list Z) (i : nat) x :
  Forall (λ x, 0 ≤ x) l → l !! i = Some x → x ≤ Zsum l.
Proof.
  intros Hall. revert i. induction Hall as [|y l Hy Hall IH]; intros i Hi; [done|].
  rewrite Zsum_cons. destruct i as [|i]; simpl in Hi.
  - injection Hi as ->. pose proof (Zsum_nonneg l Hall). lia.
  - specialize (IH i Hi). lia.
Qed.

Lemma out_flows_nonneg gr (a : nat) nm adj :
  trace_inv gr → names !! a = Some nm → quiet gr (2 * a) →
  gr !! (2 * a + 1)%nat = Some adj → Forall (λ x, 0 ≤ x) (flow <$> adj).
Proof using graph0_done names_nodup names_rooms links_closed.
  intros Hinv Ha Hq Hadj. apply Forall_fmap, Forall_lookup. intros i e Hi. simpl.
  assert (edge_at gr (2 * a + 1) i = Some e) as He.
  { unfold edge_at. by rewrite Hadj. }
  destruct i as [|j].
  - by rewrite (quiet_out0 gr a nm e Hinv Ha Hq He).
  - by destruct (link_flow_bounds gr a j nm e Hinv Ha He) as [[? _] _].
Qed.

Lemma out_excess_nonneg gr (a : nat) nm :
  trace_inv gr → names !! a = Some nm → quiet gr (2 * a) →
  0 ≤ excess gr (2 * a + 1).
Proof using graph0_done names_nodup names_rooms links_closed.
  intros Hinv Ha Hq. unfold excess.
  destruct (gr !! (2 * a + 1)%nat) as [adj|] eqn:Hadj; [|done]. simpl.
  by eapply Zsum_nonneg, out_flows_nonneg.
Qed.

Lemma out_excess_ge gr (a : nat) nm i e :
  trace_inv gr → names !! a = Some nm → quiet gr (2 * a) →
  edge_at gr (2 * a + 1) i = Some e → flow e ≤ excess gr (2 * a + 1).
Proof using graph0_done names_nodup names_rooms links_closed.
  intros Hinv Ha Hq (adj & Hadj & Hi)%edge_at_Some. unfold excess. rewrite Hadj. simpl.
  apply (Zsum_ge_elem _ i); [by eapply out_flows_nonneg|].
  by rewrite list_lookup_fmap, Hi.
Qed.

Lemma excess_ext gr gr' w :
  (∀ j, edge_at gr' w j = edge_at gr w j) → excess gr' w = excess gr w.
Proof.
  intros Hf. unfold excess. unfold edge_at in Hf.
  destruct (gr !! w) as [adj|] eqn:H1, (gr' !! w) as [adj'|] eqn:H2; simpl in *.
  - f_equal. f_equal. by apply list_eq.
  - assert (adj = []) as ->; [|done]. apply list_eq. intros j. by rewrite <- Hf.
  - assert (adj' = []) as ->; [|done]. apply list_eq. intros j. by rewrite Hf.
  - done.
Qed.

Lemma links_of_inj (a : nat) nm (j j' : nat) t :
  names !! a = Some nm →
  links_of a !! j = Some t → links_of a !! j' = Some t → j = j'.
Proof using names_nodup names_rooms links_closed links_nodup.
  intros Ha Hj Hj'.
  destruct (names_rooms nm) as [r Hr]; [by eapply list_elem_of_lookup_2|].
  unfold residual.links_of in Hj, Hj'. rewrite Ha, Hr in Hj, Hj'.
  rewrite list_lookup_fmap in Hj, Hj'.
  destruct (merge_sort String.le (Links r) !! j) as [nb|] eqn:Hnb; [|done].
  destruct (merge_sort String.le (Links r) !! j') as [nb'|] eqn:Hnb'; [|done].
  simpl in Hj, Hj'. injection Hj as Hj. injection Hj' as Hj'.
  assert (∀ x (k : nat), merge_sort String.le (Links r) !! k = Some x →
                         ∃ b : nat, names !! b = Some x) as Hid.
  { intros x k Hk. apply list_elem_of_lookup_1, (links_closed nm r); [done|].
    rewrite <- (merge_sort_Permutation String.le). by eapply list_elem_of_lookup_2. }
  destruct (Hid _ _ Hnb) as [b Hb]. destruct (Hid _ _ Hnb') as [b' Hb'].
  rewrite (inIdx_name _ names_nodup _ _ Hb) in Hj.
  rewrite (inIdx_name _ names_nodup _ _ Hb') in Hj'.
  assert (b = b') as <- by lia.
  assert (nb = nb') as <- by congruence.
  eapply NoDup_lookup; [|exact Hnb|exact Hnb'].
  rewrite (merge_sort_Permutation String.le). by eapply links_nodup.
Qed.


(** The path the loop appends for the intermediate rooms [mids]. *)
Definition path_of (mids : list string) : Path :=
  let namePath := ([startName] ++ mids) ++ [endName] in
  mkPath namePath (Z.of_nat (length namePath) - 1).

(** The direct path, without intermediate rooms, occurs at most once. *)
Definition one_direct (ms : list (list string)) : Prop :=
  ∀ i j : nat, ms !! i = Some [] → ms !! j = Some [] → i = j.

(** Once the direct link from start to end has been walked, it carries no
    flow any more. *)
Definition direct_inv (ms : list (list string)) (gr : list (list edge)) : Prop :=
  one_direct ms ∧
  ([] ∈ ms → ∀ (j : nat) e, edge_at gr source (S j) = Some e →
                           to e = (2 * e_id)%nat → flow e = 0).

Variable maxPaths : Z.

Lemma trace_paths_spec (fuel : nat) :
  ∀ (ms : list (list string)) (paths : list Path) gr,
    walk_inv gr sink →
    NoDup (concat ms) →
    (∀ nm, nm ∈ concat ms → nm ∈ names ∧ dead gr nm) →
    direct_inv ms gr →
    excess gr source < Z.of_nat fuel →
    ∃ ms',
      trace_paths names startName endName fuel maxPaths sorted paths gr
        = Some (paths ++ (path_of <$> ms')) ∧
      NoDup (concat (ms ++ ms')) ∧
      one_direct (ms ++ ms') ∧
      (∀ m, m ∈ ms' →
            linked_names (startName :: m ++ [endName]) ∧
            ∀ nm, nm ∈ m → nm ≠ startName ∧ nm ≠ endName ∧ nm ∈ names) ∧
      Z.of_nat (length ms') ≤ excess gr source ∧
      (maxPaths ≤ 0 → Z.of_nat (length ms') = excess gr source).
Proof using graph0_done names_nodup names_rooms links_closed links_nodup sorted_ok
  start_id end_id start_ne_end.
  induction fuel as [|fuel IH]; intros ms paths gr [Hinv Hex] Hnd Hseen [Hone Hdir] Hfuel.
  { pose proof (out_excess_nonneg gr s_id startName Hinv start_id
                  (ti_quiet_start _ Hinv)) as Hnn.
    rewrite <- source_eq in Hnn. lia. }
  pose proof (ti_quiet_start _ Hinv) as Hqs.
  pose proof (out_excess_nonneg gr s_id startName Hinv start_id Hqs) as Hnn.
  cbn [trace_paths]. rewrite source_eq in *.
  destruct (decide (excess gr (2 * s_id + 1) = 0)) as [Hz|Hnz].
  { (* no flow left at the source *)
    destruct (consume_at gr (2 * s_id + 1) Hinv) as [[Hc _]|(i & e & gr1 & He & Hpos & _)].
    { apply lookup_lt_Some in start_id. lia. }
    - rewrite Hc. cbn [mbind option_bind]. exists [].
      rewrite !app_nil_r.
      split_and!; first [done | simpl; lia | by intros m ?%elem_of_nil].
    - pose proof (out_excess_ge gr s_id startName i e Hinv start_id Hqs He). lia. }
  destruct (out_step gr s_id startName Hinv start_id Hqs ltac:(lia))
    as (j & e & gr1 & z & nb & r & He & Hfl & Hr & Hz & Hnb & Hto & Hnq & Hpush
        & Hc1 & Hinv1).
  rewrite Hc1. cbn [mbind option_bind].
  assert (∀ w j', w ≠ (2 * s_id + 1)%nat → w ≠ (2 * z)%nat →
                  edge_at gr1 w j' = edge_at gr w j') as Hfr1.
  { intros w j' Hw1 Hw2.
    apply (unpush_frame gr _ _ e gr1 w j' Hinv He Hpush); congruence. }
  assert (∀ nm, nm ∈ concat ms → nm ∈ names ∧ dead gr1 nm) as Hseen1.
  { intros nm Hnm. destruct (Hseen nm Hnm) as [Hin (x & Hx & Hq)].
    split; [done|]. exists x. split; [done|].
    apply (quiet_frame gr); [|done]. intros j'. apply Hfr1; [lia|].
    intros Heq. assert (x = z) as -> by lia. done. }
  destruct (trace_walk_spec (S (length gr1)) (concat ms) z nb [startName] gr1)
    as (mids & gr' & Hwalk & Hinv' & Hndm & Hmids & Hdead & Hlink & Hhead & Hsrc);
    [| done | done | done | |].
  { split; [done|]. intros w Hw1 Hw2. rewrite source_eq in Hw1.
    rewrite (unpush_excess gr _ _ e gr1 w Hinv He Hpush), Hex, Hto
      by (by rewrite ?source_eq).
    pose proof sink_eq. repeat case_decide; lia. }
  { rewrite (ti_length gr1 Hinv1). lia. }
  rewrite Hwalk. cbn [mbind option_bind]. rewrite source_eq in Hsrc.
  change (paths ++ [ {| PRooms := ([startName] ++ mids) ++ [endName];
                        Length := Z.of_nat (length (([startName] ++ mids) ++ [endName])) - 1 |} ])
    with (paths ++ [path_of mids]).
  assert (excess gr1 (2 * s_id + 1) = excess gr (2 * s_id + 1) - 1) as Hex1.
  { rewrite (unpush_excess gr _ _ e gr1 _ Hinv He Hpush), Hto.
    rewrite decide_True by done. rewrite decide_False by lia. lia. }
  assert (excess gr' (2 * s_id + 1) = excess gr (2 * s_id + 1) - 1) as Hex'.
  { rewrite <- Hex1. by apply excess_ext. }
  assert (NoDup (concat (ms ++ [mids]))) as Hnd1.
  { rewrite concat_app. simpl. rewrite app_nil_r. apply NoDup_app.
    split; [done|]. split; [|done].
    intros nm Hin1 Hin2. by destruct (Hmids nm Hin2) as (_ & _ & ? & _). }
  assert (mids = [] → z = e_id ∧ [] ∉ ms) as Hdirect.
  { intros ->. simpl in Hhead. injection Hhead as <-.
    assert (z = e_id) as -> by exact (NoDup_lookup names z e_id endName names_nodup Hz end_id).
    split; [done|]. intros Hin. specialize (Hdir Hin j e He Hto). lia. }
  assert (direct_inv (ms ++ [mids]) gr') as Hdir'.
  { split.
    - intros i1 i2 H1 H2.
      destruct (decide (mids = [])) as [Hm|Hm].
      + destruct (Hdirect Hm) as [_ Hnin].
        apply lookup_app_Some in H1 as [H1|[? H1]];
          [by apply list_elem_of_lookup_2 in H1|].
        apply lookup_app_Some in H2 as [H2|[? H2]];
          [by apply list_elem_of_lookup_2 in H2|].
        apply lookup_lt_Some in H1, H2. simpl in H1, H2. lia.
      + apply lookup_app_Some in H1 as [H1|[? H1]].
        2:{ apply list_elem_of_lookup_2, list_elem_of_singleton in H1. congruence. }
        apply lookup_app_Some in H2 as [H2|[? H2]].
        2:{ apply list_elem_of_lookup_2, list_elem_of_singleton in H2. congruence. }
        by apply Hone.
    - intros Hin j' e' He' Hto'. rewrite source_eq, Hsrc in He'.
      destruct (unpush_flow gr _ _ e gr1 Hinv He Hpush) as (e1 & He1 & Hf1 & Hoth).
      destruct (decide (j' = j)) as [->|Hjj].
      { rewrite He1 in He'. injection He' as <-. lia. }
      rewrite Hoth in He' by lia.
      apply elem_of_app in Hin as [Hin|Hin%list_elem_of_singleton].
      + by apply (Hdir Hin j' e').
      + destruct (Hdirect (eq_sym Hin)) as [-> _].
        exfalso. apply Hjj.
        destruct (net_out g names startName endName graph0 graph0_done gr
                    (ti_shape _ Hinv) s_id startName (S j) e start_id He)
          as [(? & _)|(k & Hk & _ & Hlk)]; [done|]. injection Hk as <-.
        destruct (net_out g names startName endName graph0 graph0_done gr
                    (ti_shape _ Hinv) s_id startName (S j') e' start_id He')
          as [(? & _)|(k' & Hk' & _ & Hlk')]; [done|]. injection Hk' as <-.
        rewrite Hto in Hlk. rewrite Hto' in Hlk'.
        exact (links_of_inj s_id startName j' j _ start_id Hlk' Hlk). }
  assert (linked_names (startName :: mids ++ [endName]) ∧
          ∀ nm, nm ∈ mids → nm ≠ startName ∧ nm ≠ endName ∧ nm ∈ names) as Hnew.
  { split.
    - destruct (mids ++ [endName]) as [|b l] eqn:Hml; [done|].
      simpl in Hhead. injection Hhead as ->. by eapply linked_names_cons.
    - intros nm Hnm. by destruct (Hmids nm Hnm) as (? & ? & _ & ?). }
  destruct ((0 <? maxPaths) && (maxPaths <=? Z.of_nat (length (paths ++ [path_of mids]))))
    eqn:Hcap.
  { exists [mids]. split; [done|]. split; [done|]. split; [by destruct Hdir'|].
    split; [by intros m ->%list_elem_of_singleton|].
    change (length [mids]) with 1%nat. split; [lia|]. intros Hmp.
    apply andb_prop in Hcap as [Hc%Z.ltb_lt _]. lia. }
  destruct (IH (ms ++ [mids]) (paths ++ [path_of mids]) gr')
    as (ms' & Hres & Hnd' & Hone' & Hall' & Hle & Heq).
  - done.
  - done.
  - intros nm Hnm. rewrite concat_app in Hnm. simpl in Hnm. rewrite app_nil_r in Hnm.
    apply elem_of_app in Hnm as [Hnm|Hnm].
    + split; [by apply Hseen|]. apply Hdead. by left.
    + split; [by destruct (Hmids nm Hnm) as (_ & _ & _ & ?)|]. apply Hdead. by right.
  - done.
  - rewrite ?source_eq. lia.
  - rewrite ?source_eq in *.
    exists (mids :: ms'). rewrite Hres. rewrite <- !app_assoc in *.
    change ([mids] ++ ms') with (mids :: ms') in *.
    split; [done|]. split; [done|]. split; [done|].
    split.
    { intros m [->|Hm]%elem_of_cons; [done|]. by apply Hall'. }
    rewrite length_cons.
    split; [lia|]. intros Hmp. specialize (Heq Hmp). lia.
Qed.


(** *** From the Edmonds-Karp loop to the reconstruction *)

Local Abbreviation ek_state := (ek_state names startName endName graph0).
Local Abbreviation flow_inv := (flow_inv names startName endName graph0).

(** No augmenting path passes through the in-node of the start room. *)
Lemma ek_quiet_start gr : ek_state gr → quiet gr (2 * s_id).
Proof using graph0_done names_nodup start_id end_id start_ne_end.
  induction 1 as [|gr gr' pushed Hst IH Hbfs Hne].
  { intros i e He. by destruct (graph0_edges _ _ _ _ _ graph0_done _ _ _ He). }
  pose proof (ek_state_inv g names startName endName names_ne graph0 graph0_done gr Hst)
    as Hflow.
  destruct (bfs_step g names startName endName names_ne graph0 graph0_done gr Hflow)
    as (par & order & _ & _ & Hno & Hyes).
  destruct (visited_dec par sink) as [Hv|Hv].
  2:{ destruct (Hno Hv) as [_ Hb]. rewrite Hb in Hbfs. by injection Hbfs as <- <-. }
  destruct (Hyes Hv) as (ch & gr1 & Hap & Hnd & _ & _ & Hb & _ & _ & _ & Hframe).
  rewrite Hb in Hbfs. injection Hbfs as <- <-.
  apply (quiet_frame gr); [|done]. intros j. apply Hframe.
  intros [Heq|Hin]%elem_of_cons.
  { pose proof sink_eq. pose proof s_id_ne_e_id. lia. }
  apply list_elem_of_fmap in Hin as ([u i] & Hu & Hp). simpl in Hu. subst u.
  destruct (aug_path_heads names startName gr ch sink _ Hap Hp)
    as (e & He & Hres & Hto & _). simpl in He.
  rewrite (IH _ _ He) in Hres.
  destruct (net_in g names startName endName graph0 graph0_done gr (fi_shape _ _ _ _ _ Hflow)
              s_id startName i e start_id He) as [(_ & Ht & _)|(_ & Hc & _)].
  - rewrite source_eq in Hto. done.
  - lia.
Qed.

Lemma ek_trace_inv gr : ek_state gr → trace_inv gr.
Proof using graph0_done names_nodup start_id end_id start_ne_end.
  intros Hst.
  pose proof (ek_state_inv g names startName endName names_ne graph0 graph0_done gr Hst)
    as [Hs Hc Ha _ _].
  split; [done..|]. by apply ek_quiet_start.
Qed.

Lemma ek_walk_inv gr : ek_state gr → walk_inv gr sink.
Proof using graph0_done names_nodup start_id end_id start_ne_end.
  intros Hst. split; [by apply ek_trace_inv|].
  pose proof (ek_state_inv g names startName endName names_ne graph0 graph0_done gr Hst)
    as [_ _ _ _ Hcons].
  intros w Hw1 Hw2. rewrite (Hcons w Hw1 Hw2). by rewrite decide_False.
Qed.

End trace.

(** *** The whole of [MultiPath] *)

Section extraction.

Variable g : Graph.
Variable names : list string.
Variable startName endName : string.
Hypothesis names_nodup : NoDup names.
Hypothesis links_closed : ∀ nm r nb,
  Rooms g !! nm = Some r → nb ∈ Links r → nb ∈ names.
Hypothesis links_nodup : ∀ nm r, Rooms g !! nm = Some r → NoDup (Links r).
Hypothesis names_rooms : ∀ nm, nm ∈ names → is_Some (Rooms g !! nm).
Hypothesis start_in : startName ∈ names.
Hypothesis end_in : endName ∈ names.
Hypothesis start_ne_end : startName ≠ endName.
Variable maxPaths : Z.

(** What [MultiPath] computes on a graph that meets the invariants: the
    network, the final state of the Edmonds-Karp loop with its flow value,
    and one path per list [m] of intermediate rooms. *)
Lemma flow_and_paths_spec :
  ∃ graph0 adj gr f ms,
    build_network g names startName endName = Some graph0 ∧
    links_done names startName endName (links_of g names) graph0 ∧
    graph0 !! source names startName = Some adj ∧
    ek_loop names startName endName (S (length adj)) maxPaths graph0 0 = Some (gr, f) ∧
    ek_state names startName endName graph0 gr ∧
    excess gr (source names startName) = f ∧
    (maxPaths ≤ 0 → bfs names startName endName gr = Some (gr, 0)) ∧
    flow_and_paths g names startName endName maxPaths
      = Some (path_of startName endName <$> ms) ∧
    NoDup (concat ms) ∧ one_direct ms ∧
    (∀ m, m ∈ ms →
          linked_names g (startName :: m ++ [endName]) ∧
          ∀ nm, nm ∈ m → nm ≠ startName ∧ nm ≠ endName ∧ nm ∈ names) ∧
    Z.of_nat (length ms) ≤ f ∧
    (maxPaths ≤ 0 → Z.of_nat (length ms) = f).
Proof.
  destruct (list_elem_of_lookup_1 _ _ start_in) as [s_id Hs].
  destruct (list_elem_of_lookup_1 _ _ end_in) as [e_id He].
  assert (names ≠ []) as Hne by (intros Hn; by rewrite Hn in Hs).
  destruct (build_network_spec g names startName endName names_nodup names_rooms)
    as (graph0 & Hbuild & Hdone).
  assert (source names startName < length graph0)%nat as Hsrc.
  { destruct Hdone as (Hlen & _). rewrite Hlen.
    rewrite (outIdx_name _ names_nodup _ _ Hs : source names startName = _).
    apply lookup_lt_Some in Hs. lia. }
  destruct (lookup_lt_is_Some_2 _ _ Hsrc) as [adj Hadj].
  destruct (ek_loop_spec g names startName endName Hne graph0 Hdone maxPaths
              (S (length adj)) graph0 0)
    as (gr & f & Hek & Hst & Hf & Hf0 & Hmax).
  { constructor. }
  { by apply (graph0_excess g names startName endName). }
  { pose proof (source_cap_bound g names startName endName Hne graph0 Hdone adj Hadj). lia. }
  pose proof (ek_state_inv g names startName endName Hne graph0 Hdone gr Hst) as Hflow.
  exists graph0, adj, gr, f.
  unfold flow_and_paths. rewrite Hbuild. cbn [mbind option_bind].
  rewrite Hadj. cbn [mbind option_bind]. rewrite Hek. cbn [mbind option_bind].
  case_bool_decide as Hzero.
  { exists []. do 7 (split; [done|]).
    split; [done|]. split; [constructor|].
    split; [intros i j Hi; by rewrite lookup_nil in Hi|].
    split; [by intros ? ?%elem_of_nil|].
    simpl. split; [lia|]. intros _. lia. }
  destruct (sortedOuts_spec names gr) as (sorted & Hsorted & Hok).
  { intros u i e Hu.
    rewrite <- (flow_inv_length g names startName endName graph0 Hdone gr Hflow).
    by eapply (flow_inv_to g names startName endName graph0 Hdone gr). }
  rewrite Hsorted. cbn [mbind option_bind].
  assert (∀ u adj0, graph0 !! u = Some adj0 →
            ∃ outs, sorted !! u = Some outs ∧ ei <$> outs ≡ₚ seq 0 (length adj0)) as Hok0.
  { intros u adj0 H0.
    destruct (same_shape_lookup_length gr graph0 u adj0
                (same_shape_sym _ _ (fi_shape _ _ _ _ _ Hflow)) H0) as (adj1 & H1 & Hl).
    destruct (Hok u adj1 H1) as (outs & Ho & Hp). exists outs. by rewrite <- Hl. }
  destruct (trace_paths_spec g names startName endName names_nodup links_closed links_nodup
              names_rooms s_id e_id Hs He start_ne_end graph0 Hdone sorted Hok0 maxPaths
              (S (length adj)) [] [] gr)
    as (ms & Htr & Hnd & Hone & Hall & Hle & Heq).
  { by eapply ek_walk_inv. }
  { constructor. }
  { by intros nm ?%elem_of_nil. }
  { split; [|by intros ?%elem_of_nil]. intros i j Hi. by rewrite lookup_nil in Hi. }
  { pose proof (excess_le_source_cap names startName endName graph0 gr Hflow).
    pose proof (source_cap_bound g names startName endName Hne graph0 Hdone adj Hadj). lia. }
  exists ms. rewrite Htr. rewrite Hf in Hle, Heq. simpl in *. done.
Qed.

End extraction.

End reconstruction.

(** ** The load balancer *)

(** The pre-allocation computed with unbounded integers.  It is what the
    code computes as long as no operation wraps around. *)
Module unbounded.

(** [sum] of one pass of the inner [for _, L := range lens]. *)
Definition capacity_at (T : Z) (lens : list Z) : Z :=
  foldl (λ sum L, let base := L - 1 in if base <? T then sum + (T - base) else sum)
        0 lens.

(** [for { ... if sum >= ants { break }; T++ }] *)
Fixpoint find_T (fuel : nat) (ants : Z) (lens : list Z) (T : Z) : option Z :=
  match fuel with
  | O => None
  | S fuel' =>
      if ants <=? capacity_at T lens then Some T
      else find_T fuel' ants lens (T + 1)
  end.

(** First pass over [lens]: [counts[i] = min(max(0, T-(L-1)), remain)]. *)
Fixpoint take_counts (T : Z) (lens : list Z) (remain : Z) : list Z * Z :=
  match lens with
  | [] => ([], remain)
  | L :: rest =>
      let base := L - 1 in
      let take := if base <? T then T - base else 0 in
      let take := if remain <? take then remain else take in
      let '(counts, remain') := take_counts T rest (remain - take) in
      (take :: counts, remain')
  end.

(** Second pass: [for i := 0; i < len(paths) && remain > 0; i++]. *)
Fixpoint give_leftovers (counts : list Z) (remain : Z) : list Z :=
  match counts with
  | [] => []
  | c :: rest =>
      if 0 <? remain then (c + 1) :: give_leftovers rest (remain - 1)
      else counts
  end.

(** The turn count [T] and the per-path ant counts. *)
Definition preallocate (ants : Z) (lens : list Z) : option (Z * list Z) :=
  L0 ← head lens;
  let T0 := if L0 - 1 <? 0 then 0 else L0 - 1 in
  T ← find_T (S (Z.to_nat ants)) ants lens T0;
  let '(counts, remain) := take_counts T lens ants in
  Some (T, give_leftovers counts remain).

End unbounded.

Module balancer.
Import scheduler.
Import unbounded.

(** The number of ants path [L] can take within [T] turns. *)
Definition room_for (T L : Z) : Z := Z.max 0 (T - (L - 1)).

Lemma capacity_at_foldl T lens : ∀ acc,
  foldl (λ sum L, let base := L - 1 in if base <? T then sum + (T - base) else sum)
        acc lens = acc + Zsum (room_for T <$> lens).
Proof.
  induction lens as [|L lens IH]; intros acc; [simpl; lia|].
  rewrite fmap_cons. cbn [foldl Zsum foldr]. rewrite IH.
  fold (Zsum (room_for T <$> lens)). generalize (Zsum (room_for T <$> lens)).
  intros s. unfold room_for. destruct (Z.ltb_spec (L - 1) T); lia.
Qed.

Lemma capacity_at_sum T lens : capacity_at T lens = Zsum (room_for T <$> lens).
Proof. unfold capacity_at. rewrite capacity_at_foldl. lia. Qed.

Lemma capacity_at_nonneg T lens : 0 ≤ capacity_at T lens.
Proof.
  rewrite capacity_at_sum. induction lens as [|L lens IH]; [done|].
  rewrite fmap_cons. cbn [Zsum foldr]. fold (Zsum (room_for T <$> lens)).
  unfold room_for at 1. lia.
Qed.

Lemma capacity_at_cons T L lens :
  capacity_at T (L :: lens) = room_for T L + capacity_at T lens.
Proof. by rewrite !capacity_at_sum. Qed.

Lemma capacity_at_nil T : capacity_at T [] = 0.
Proof. done. Qed.

Lemma find_T_spec fuel ants lens : ∀ T0 T,
  find_T fuel ants lens T0 = Some T →
  T0 ≤ T ∧ ants ≤ capacity_at T lens ∧
  ∀ T', T0 ≤ T' < T → capacity_at T' lens < ants.
Proof.
  induction fuel as [|fuel IH]; intros T0 T H; simplify_eq/=.
  destruct (Z.leb_spec ants (capacity_at T0 lens)); simplify_eq/=.
  - repeat split; [lia|done|lia].
  - apply IH in H as (? & ? & Hmin). repeat split; [lia|done|].
    intros T' ?. destruct (decide (T' = T0)) as [->|]; [done|]. apply Hmin. lia.
Qed.

Lemma find_T_total fuel ants lens : ∀ T0 (k : nat),
  (k < fuel)%nat →
  ants ≤ capacity_at (T0 + Z.of_nat k) lens →
  is_Some (find_T fuel ants lens T0).
Proof.
  induction fuel as [|fuel IH]; intros T0 k Hk Hc; [lia|]. simpl.
  destruct (Z.leb_spec ants (capacity_at T0 lens)); [done|].
  destruct k as [|k].
  { rewrite Z.add_0_r in Hc. lia. }
  apply (IH _ k); [lia|]. by replace (T0 + 1 + Z.of_nat k) with (T0 + Z.of_nat (S k)) by lia.
Qed.

Lemma take_counts_spec T lens : ∀ remain counts remain',
  0 ≤ remain →
  take_counts T lens remain = (counts, remain') →
  length counts = length lens ∧
  0 ≤ remain' ∧
  Zsum counts + remain' = remain ∧
  (remain ≤ capacity_at T lens → remain' = 0) ∧
  ∀ i L x, lens !! i = Some L → counts !! i = Some x →
    0 ≤ x ≤ room_for T L.
Proof.
  induction lens as [|L lens IH]; intros remain counts remain' Hr H.
  { simplify_eq/=. repeat split; intros; simplify_eq/=; try lia.
    rewrite capacity_at_nil in *. lia. }
  cbn [take_counts] in H. cbv zeta in H.
  remember (if L - 1 <? T then T - (L - 1) else 0) as want eqn:Hw.
  assert (want = room_for T L) as Hwant.
  { subst want. unfold room_for. destruct (Z.ltb_spec (L - 1) T); lia. }
  clear Hw. remember (if remain <? want then remain else want) as take eqn:Htk.
  assert (0 ≤ take ≤ room_for T L ∧ take ≤ remain ∧
          (take = remain ∨ take = room_for T L)) as (Ht1 & Ht2 & Ht3).
  { subst take. rewrite <- Hwant. assert (0 ≤ want) by (rewrite Hwant; unfold room_for; lia).
    destruct (Z.ltb_spec remain want); lia. }
  clear Htk.
  destruct (take_counts T lens _) as [cs r'] eqn:Ht. simplify_eq/=.
  apply IH in Ht as (Hlen & Hr' & Hsum & Hcap & Hall); [|lia].
  rewrite capacity_at_cons. pose proof (capacity_at_nonneg T lens).
  repeat split; try lia.
  - destruct i as [|i]; simplify_eq/=; [lia|]. by eapply Hall.
  - destruct i as [|i]; simplify_eq/=; [lia|]. by eapply Hall.
Qed.

Lemma give_leftovers_0 counts : give_leftovers counts 0 = counts.
Proof. by destruct counts. Qed.

(** An assignment that exceeds the room within [M] turns has a used path
    that finishes after [M]. *)
Lemma overfull_has_late_path M lens : ∀ xs,
  length xs = length lens →
  Forall (λ x, 0 ≤ x) xs →
  capacity_at M lens < Zsum xs →
  ∃ (i : nat) L x, lens !! i = Some L ∧ xs !! i = Some x ∧ 0 < x ∧ M < (L - 1) + x.
Proof.
  induction lens as [|L lens IH]; intros [|x xs] Hlen Hpos Hs; simplify_eq/=.
  { rewrite capacity_at_nil in Hs. lia. }
  rewrite capacity_at_cons in Hs.
  apply Forall_cons in Hpos as [Hx Hpos].
  destruct (decide (room_for M L < x)) as [Hlt|Hge].
  - exists 0%nat, L, x. unfold room_for in Hlt. repeat split; lia.
  - destruct (IH xs) as (i & L' & x' & ? & ? & ? & ?); [done|done|lia|].
    by exists (S i), L', x'.
Qed.

Lemma capacity_at_below_min M lens :
  Forall (λ L, M ≤ L - 1) lens → capacity_at M lens = 0.
Proof.
  induction 1 as [|L lens HL _ IH]; [done|].
  rewrite capacity_at_cons, IH. unfold room_for. lia.
Qed.

(** The pre-allocation as the balancer's contract states it. *)
Lemma preallocate_spec ants lens :
  lens ≠ [] → 0 < ants →
  Sorted Z.le lens →
  Forall (λ L, 0 ≤ L) lens →
  ∃ T counts,
    preallocate ants lens = Some (T, counts) ∧
    length counts = length lens ∧
    Zsum counts = ants ∧
    (∀ (i : nat) L x, lens !! i = Some L → counts !! i = Some x →
       0 ≤ x ∧ (0 < x → (L - 1) + x ≤ T)) ∧
    (∀ xs, length xs = length lens → Forall (λ x, 0 ≤ x) xs → Zsum xs = ants →
       ∃ (i : nat) L x, lens !! i = Some L ∧ xs !! i = Some x ∧
                        0 < x ∧ T ≤ (L - 1) + x).
Proof.
  intros Hne Hants Hsorted Hpos.
  destruct lens as [|L0 lens]; [done|]. clear Hne.
  unfold preallocate. cbn [head mbind option_bind].
  set (T0 := if L0 - 1 <? 0 then 0 else L0 - 1).
  assert (0 ≤ T0 ∧ L0 - 1 ≤ T0 ∧ (T0 = 0 ∨ T0 = L0 - 1)) as (HT0 & HT0' & HT0'').
  { unfold T0. destruct (Z.ltb_spec (L0 - 1) 0); lia. }
  destruct (find_T_total (S (Z.to_nat ants)) ants (L0 :: lens) T0 (Z.to_nat ants))
    as [T HT]; [lia| |].
  { rewrite capacity_at_cons. pose proof (capacity_at_nonneg (T0 + Z.of_nat (Z.to_nat ants)) lens).
    unfold room_for. lia. }
  rewrite HT. cbn [mbind option_bind].
  apply find_T_spec in HT as (HT1 & HT2 & HT3).
  destruct (take_counts T (L0 :: lens) ants) as [counts remain] eqn:Htc.
  apply take_counts_spec in Htc as (Hlen & Hr & Hsum & Hcap & Hall); [|lia].
  rewrite (Hcap HT2) in *. rewrite give_leftovers_0.
  exists T, counts. repeat split; try done; try lia.
  - by eapply Hall.
  - intros Hx. destruct (Hall i L x) as [_ Hle]; [done..|]. unfold room_for in Hle. lia.
  - intros xs Hxl Hxs Hxsum.
    destruct (overfull_has_late_path (T - 1) (L0 :: lens) xs)
      as (i & L & x & ? & ? & ? & ?); [done|done| |exists i, L, x; repeat split; try done; lia].
    rewrite Hxsum. destruct (decide (T0 ≤ T - 1)) as [Hge|Hlt].
    { apply HT3. lia. }
    assert (T = T0) as -> by lia.
    rewrite capacity_at_below_min; [done|].
    apply Sorted_StronglySorted in Hsorted; [|intros ???; lia].
    apply StronglySorted_inv in Hsorted as [_ Hmin].
    apply Forall_cons in Hpos as [? Hpos].
    apply Forall_cons. split; [lia|].
    rewrite Forall_forall in Hmin, Hpos. apply Forall_forall. intros L HL.
    specialize (Hmin L HL). specialize (Hpos L HL). lia.
Qed.

(** *** The code's arithmetic, within the range of [int] *)

(** The ant count, a path length and the number of paths together stay
    below [2^63]: then no operation of the pre-allocation wraps around. *)
Definition in_range (ants : Z) (lens : list Z) : Prop :=
  Forall (λ L, ants + L + Z.of_nat (length lens) < 2 ^ 63) lens.

Lemma wrap_id z : - 2 ^ 63 ≤ z < 2 ^ 63 → wrap z = z.
Proof. intros H. unfold wrap. rewrite Z.mod_small; lia. Qed.

Lemma room_for_mono T T' L : T ≤ T' → room_for T L ≤ room_for T' L.
Proof. unfold room_for. lia. Qed.

Lemma capacity_at_mono T T' lens : T ≤ T' → capacity_at T lens ≤ capacity_at T' lens.
Proof.
  intros HT. induction lens as [|L lens IH]; [done|].
  rewrite !capacity_at_cons. pose proof (room_for_mono T T' L HT). lia.
Qed.

Lemma capacity_at_succ T lens :
  capacity_at (T + 1) lens ≤ capacity_at T lens + Z.of_nat (length lens).
Proof.
  induction lens as [|L lens IH]; [done|].
  rewrite !capacity_at_cons, length_cons. unfold room_for. lia.
Qed.

Lemma capacity_at_unit T lens :
  Forall (λ L, T ≤ L) lens → capacity_at T lens ≤ Z.of_nat (length lens).
Proof.
  induction 1 as [|L lens HL _ IH]; [done|].
  rewrite capacity_at_cons, length_cons. unfold room_for. lia.
Qed.

Lemma capacity_at_wrap T lens :
  Forall (λ L, 0 ≤ L < 2 ^ 63) lens → 0 ≤ T → T + 1 < 2 ^ 63 →
  capacity_at T lens < 2 ^ 63 →
  scheduler.capacity_at T lens = capacity_at T lens.
Proof.
  intros Hlens HT0 HT Hcap. unfold scheduler.capacity_at, capacity_at.
  rewrite capacity_at_sum in Hcap.
  assert (∀ acc, 0 ≤ acc → acc + Zsum (room_for T <$> lens) < 2 ^ 63 →
    foldl (λ sum L, let base := wrap (L - 1) in
                    if base <? T then wrap (sum + wrap (T - base)) else sum) acc lens
    = foldl (λ sum L, let base := L - 1 in if base <? T then sum + (T - base) else sum)
            acc lens) as Hgen; [|apply Hgen; lia].
  clear Hcap. induction Hlens as [|L lens HL _ IH]; intros acc Hacc Hsum; [done|].
  rewrite fmap_cons, Zsum_cons in Hsum.
  assert (0 ≤ Zsum (room_for T <$> lens)) as Hrest.
  { pose proof (capacity_at_nonneg T lens) as H. by rewrite capacity_at_sum in H. }
  cbn [foldl]. cbv zeta. rewrite (wrap_id (L - 1)) by lia.
  assert (room_for T L = Z.max 0 (T - (L - 1))) as Hroom by done.
  destruct (Z.ltb_spec (L - 1) T).
  - rewrite (wrap_id (T - (L - 1))) by lia. rewrite wrap_id by lia. apply IH; lia.
  - apply IH; lia.
Qed.

Lemma take_counts_wrap T lens : ∀ remain,
  Forall (λ L, 0 ≤ L < 2 ^ 63) lens → 0 ≤ T → T + 1 < 2 ^ 63 →
  0 ≤ remain < 2 ^ 63 →
  scheduler.take_counts T lens remain = take_counts T lens remain.
Proof.
  intros remain Hlens. revert remain.
  induction Hlens as [|L lens HL _ IH]; intros remain HT0 HT Hr; [done|].
  cbn [scheduler.take_counts take_counts]. cbv zeta.
  rewrite (wrap_id (L - 1)) by lia.
  assert ((if L - 1 <? T then wrap (T - (L - 1)) else 0)
          = (if L - 1 <? T then T - (L - 1) else 0)) as ->.
  { destruct (Z.ltb_spec (L - 1) T); [|done]. apply wrap_id. lia. }
  set (want := if L - 1 <? T then T - (L - 1) else 0).
  assert (0 ≤ want) as Hwant by (unfold want; destruct (Z.ltb_spec (L - 1) T); lia).
  set (take := if remain <? want then remain else want).
  assert (0 ≤ take ≤ remain) as Htake by (unfold take; destruct (Z.ltb_spec remain want); lia).
  rewrite (wrap_id (remain - take)) by lia. rewrite IH by lia. done.
Qed.

Lemma take_counts_length T lens : ∀ remain,
  length (scheduler.take_counts T lens remain).1 = length lens.
Proof.
  induction lens as [|L lens IH]; intros remain; [done|].
  cbn [scheduler.take_counts]. cbv zeta.
  destruct (scheduler.take_counts T lens _) as [cs r] eqn:E. simpl.
  specialize (IH (wrap (remain - (if remain <? (if wrap (L - 1) <? T
                                                  then wrap (T - wrap (L - 1)) else 0)
                                    then remain
                                    else if wrap (L - 1) <? T
                                         then wrap (T - wrap (L - 1)) else 0)))).
  rewrite E in IH. simpl in IH. by rewrite IH.
Qed.

Lemma give_leftovers_length counts : ∀ remain,
  length (scheduler.give_leftovers counts remain) = length counts.
Proof.
  induction counts as [|c counts IH]; intros remain; [done|].
  cbn [scheduler.give_leftovers]. destruct (0 <? remain); [|done].
  simpl. by rewrite IH.
Qed.

(** Whatever the pre-allocation returns, it has a count for every path. *)
Lemma preallocate_length ants lens T counts :
  scheduler.preallocate ants lens = Some (T, counts) → length counts = length lens.
Proof.
  unfold scheduler.preallocate. destruct (head lens) as [L0|]; [|done].
  cbn [mbind option_bind]. destruct (scheduler.find_T 64 ants lens _) as [|T']; [done|].
  pose proof (take_counts_length T' lens ants) as Hlen.
  destruct (scheduler.take_counts T' lens ants) as [cs r]. intros [= <- <-].
  rewrite give_leftovers_length. done.
Qed.

(** The loop over [T], run for [2 ^ depth] passes, when it breaks at [T]
    and does not wrap around before. *)
Lemma find_T_doubling ants lens T (depth : nat) : ∀ T0,
  T0 ≤ T →
  (∀ T', T0 ≤ T' < T → find_T_step ants lens T' = inl (T' + 1)) →
  find_T_step ants lens T = inr T →
  scheduler.find_T depth ants lens T0 =
    if decide (T - T0 < 2 ^ Z.of_nat depth) then inr T
    else inl (T0 + 2 ^ Z.of_nat depth).
Proof.
  induction depth as [|depth IH]; intros T0 HT Hstep Hend.
  { cbn [scheduler.find_T]. change (2 ^ Z.of_nat 0) with 1.
    case_decide.
    - by replace T0 with T by lia.
    - apply Hstep. lia. }
  cbn [scheduler.find_T].
  replace (2 ^ Z.of_nat (S depth)) with (2 * 2 ^ Z.of_nat depth)
    by (rewrite Nat2Z.inj_succ, Z.pow_succ_r by lia; done).
  assert (0 < 2 ^ Z.of_nat depth) as Hpos by (apply Z.pow_pos_nonneg; lia).
  rewrite (IH T0 HT Hstep Hend).
  destruct (decide (T - T0 < 2 ^ Z.of_nat depth)) as [Hlt|Hge].
  { rewrite decide_True by lia. done. }
  rewrite (IH (T0 + 2 ^ Z.of_nat depth)); [|lia| |done].
  2:{ intros T' HT'. apply Hstep. lia. }
  destruct (decide (T - (T0 + 2 ^ Z.of_nat depth) < 2 ^ Z.of_nat depth)).
  - by rewrite decide_True by lia.
  - rewrite decide_False by lia. f_equal. lia.
Qed.

(** Within the range of [int] the code computes the unbounded
    pre-allocation. *)
Lemma preallocate_wrap ants lens :
  lens ≠ [] → 0 < ants → Sorted Z.le lens → Forall (λ L, 0 ≤ L) lens →
  in_range ants lens →
  scheduler.preallocate ants lens = preallocate ants lens.
Proof.
  intros Hne Hants Hsorted Hpos Hrange.
  destruct lens as [|L0 lens]; [done|]. clear Hne.
  set (P := Z.of_nat (length (L0 :: lens))).
  assert (0 < P) as HP by (unfold P; simpl; lia).
  assert (Forall (λ L, 0 ≤ L < 2 ^ 63) (L0 :: lens)) as Hfit.
  { unfold in_range in Hrange. rewrite Forall_forall in Hpos, Hrange.
    apply Forall_forall. intros L HL. specialize (Hpos L HL). specialize (Hrange L HL).
    fold P in Hrange. lia. }
  assert (0 ≤ L0 ∧ ants + L0 + P < 2 ^ 63) as [HL0 HL0'].
  { apply Forall_cons in Hpos as [? _]. apply Forall_cons in Hrange as [? _]. done. }
  unfold scheduler.preallocate, preallocate. cbn [head mbind option_bind].
  rewrite (wrap_id (L0 - 1)) by lia.
  set (T0 := if L0 - 1 <? 0 then 0 else L0 - 1).
  assert (0 ≤ T0 ∧ L0 - 1 ≤ T0 ∧ T0 ≤ L0) as (HT0 & HT0' & HT0'').
  { unfold T0. destruct (Z.ltb_spec (L0 - 1) 0); lia. }
  destruct (find_T_total (S (Z.to_nat ants)) ants (L0 :: lens) T0 (Z.to_nat ants))
    as [T HT]; [lia| |].
  { rewrite capacity_at_cons.
    pose proof (capacity_at_nonneg (T0 + Z.of_nat (Z.to_nat ants)) lens).
    unfold room_for. lia. }
  rewrite HT. cbn [mbind option_bind].
  apply find_T_spec in HT as (HT1 & HT2 & HT3).
  assert (T ≤ T0 + ants) as HTle.
  { destruct (decide (T ≤ T0 + ants)) as [|Hgt]; [done|]. exfalso.
    specialize (HT3 (T0 + ants) ltac:(lia)). rewrite capacity_at_cons in HT3.
    pose proof (capacity_at_nonneg (T0 + ants) lens). unfold room_for in HT3. lia. }
  assert (capacity_at T (L0 :: lens) < ants + P) as Hcap.
  { destruct (decide (T = T0)) as [->|Hne].
    - assert (capacity_at T0 (L0 :: lens) ≤ P); [|lia].
      apply capacity_at_unit.
      apply Sorted_StronglySorted in Hsorted; [|intros ???; lia].
      apply StronglySorted_inv in Hsorted as [_ Hmin].
      apply Forall_cons. split; [lia|].
      rewrite Forall_forall in Hmin. apply Forall_forall. intros L HL.
      specialize (Hmin L HL). lia.
    - specialize (HT3 (T - 1) ltac:(lia)).
      pose proof (capacity_at_succ (T - 1) (L0 :: lens)) as Hs.
      replace (T - 1 + 1) with T in Hs by lia. fold P in Hs. lia. }
  assert (∀ T', T0 ≤ T' ≤ T →
            scheduler.capacity_at T' (L0 :: lens) = capacity_at T' (L0 :: lens)) as Hsame.
  { intros T' HT'. apply capacity_at_wrap; [done|lia|lia|].
    pose proof (capacity_at_mono T' T (L0 :: lens) ltac:(lia)). lia. }
  rewrite (find_T_doubling ants (L0 :: lens) T 64 T0 HT1).
  2:{ intros T' HT'. unfold find_T_step. rewrite Hsame by lia.
      specialize (HT3 T' HT'). destruct (Z.leb_spec ants (capacity_at T' (L0 :: lens))); [lia|].
      by rewrite wrap_id by lia. }
  2:{ unfold find_T_step. rewrite Hsame by lia.
      by destruct (Z.leb_spec ants (capacity_at T (L0 :: lens))); [|lia]. }
  rewrite decide_True.
  2:{ assert (2 ^ 63 < 2 ^ Z.of_nat 64) by done. lia. }
  rewrite take_counts_wrap by (done || lia).
  destruct (take_counts T (L0 :: lens) ants) as [counts remain] eqn:Htc.
  apply take_counts_spec in Htc as (_ & _ & _ & Hzero & _); [|lia].
  rewrite (Hzero HT2). rewrite give_leftovers_0. by destruct counts.
Qed.

Lemma wrap_range z : - 2 ^ 63 ≤ wrap z < 2 ^ 63.
Proof.
  unfold wrap. pose proof (Z.mod_pos_bound (z + 2 ^ 63) (2 ^ 64) ltac:(done)). lia.
Qed.

(** The loop over [T] never breaks when no value of [T] gives room for all
    the ants. *)
Lemma find_T_never ants lens :
  (∀ T, - 2 ^ 63 ≤ T < 2 ^ 63 →
        scheduler.find_T_step ants lens T = inl (wrap (T + 1))) →
  ∀ depth T, - 2 ^ 63 ≤ T < 2 ^ 63 →
    ∃ T', - 2 ^ 63 ≤ T' < 2 ^ 63 ∧ scheduler.find_T depth ants lens T = inl T'.
Proof.
  intros Hstep. induction depth as [|depth IH]; intros T HT.
  - cbn [scheduler.find_T]. rewrite Hstep by done.
    eexists. split; [apply wrap_range|done].
  - cbn [scheduler.find_T]. destruct (IH T HT) as (T1 & HT1 & ->). by apply IH.
Qed.

Lemma in_range_perm ants l1 l2 : l1 ≡ₚ l2 → in_range ants l1 → in_range ants l2.
Proof.
  intros Hp H. unfold in_range in *. rewrite <- (Permutation_length Hp).
  rewrite Forall_forall in H. apply Forall_forall. intros L HL. apply H.
  by rewrite Hp.
Qed.

(** The pre-allocation of the code, as the balancer's contract states
    it. *)
Lemma preallocate_fits_spec ants lens :
  lens ≠ [] → 0 < ants →
  Sorted Z.le lens →
  Forall (λ L, 0 ≤ L) lens →
  in_range ants lens →
  ∃ T counts,
    scheduler.preallocate ants lens = Some (T, counts) ∧
    length counts = length lens ∧
    Zsum counts = ants ∧
    (∀ (i : nat) L x, lens !! i = Some L → counts !! i = Some x →
       0 ≤ x ∧ (0 < x → (L - 1) + x ≤ T)) ∧
    (∀ xs, length xs = length lens → Forall (λ x, 0 ≤ x) xs → Zsum xs = ants →
       ∃ (i : nat) L x, lens !! i = Some L ∧ xs !! i = Some x ∧
                        0 < x ∧ T ≤ (L - 1) + x).
Proof.
  intros Hne Hants Hsorted Hpos Hrange.
  rewrite preallocate_wrap by done. by apply preallocate_spec.
Qed.

End balancer.

(** C3 (as the code has it). For a non-empty list of path lengths in
    ascending order and a positive ant count, such that the ant count, any
    one length and the number of paths together stay below [2^63] (the
    range in which the 64-bit arithmetic of the code does not wrap around),
    the pre-allocation returns a
    turn count [T] and one count per path; the counts are non-negative and
    add up to the ant count; every path that receives an ant finishes by
    turn [T], that is [(L - 1) + x <= T]; and [T] is minimal: every other
    assignment of all the ants to the paths has a used path that finishes at
    turn [T] or later. *)
Theorem preallocate_balanced_and_minimal (ants : Z) (lens : list Z) :
  lens ≠ [] → 0 < ants →
  Sorted Z.le lens →
  Forall (λ L, 0 ≤ L) lens →
  Forall (λ L, ants + L + Z.of_nat (length lens) < 2 ^ 63) lens →
  ∃ T counts,
    scheduler.preallocate ants lens = Some (T, counts) ∧
    length counts = length lens ∧
    Zsum counts = ants ∧
    (∀ (i : nat) L x, lens !! i = Some L → counts !! i = Some x →
       0 ≤ x ∧ (0 < x → (L - 1) + x ≤ T)) ∧
    (∀ xs, length xs = length lens → Forall (λ x, 0 ≤ x) xs →
       Zsum xs = ants →
       ∃ (i : nat) L x, lens !! i = Some L ∧ xs !! i = Some x ∧
                        0 < x ∧ T ≤ (L - 1) + x).
Proof. apply balancer.preallocate_fits_spec. Qed.

Lemma preallocate_balanced_and_minimal_witness :
  ∃ T counts,
    scheduler.preallocate 10 [4; 5; 6] = Some (T, counts) ∧
    length counts = length [4; 5; 6] ∧
    Zsum counts = 10 ∧
    (∀ (i : nat) L x, [4; 5; 6] !! i = Some L → counts !! i = Some x →
       0 ≤ x ∧ (0 < x → (L - 1) + x ≤ T)) ∧
    (∀ xs, length xs = length [4; 5; 6] → Forall (λ x, 0 ≤ x) xs →
       Zsum xs = 10 →
       ∃ (i : nat) L x, [4; 5; 6] !! i = Some L ∧ xs !! i = Some x ∧
                        0 < x ∧ T ≤ (L - 1) + x).
Proof.
  apply (preallocate_balanced_and_minimal 10 [4; 5; 6]).
  - discriminate.
  - reflexivity.
  - repeat constructor; discriminate.
  - repeat constructor; discriminate.
  - repeat constructor; reflexivity.
Defined.

(** C3, counterexample: with one ant and paths of lengths 1 and 10 the
    balancer answers [T = 1] and leaves the long path unused, and for that
    path [(L - 1) + x = 9] exceeds [T]. *)
Lemma unused_path_exceeds_T :
  Sorted Z.le [1; 10] ∧
  scheduler.preallocate 1 [1; 10] = Some (1, [1; 0]) ∧
  1 < (10 - 1) + 0.
Proof.
  split; [repeat constructor; discriminate|]. split; reflexivity.
Qed.

(** X25. With [2^63 - 1] ants and a single path of two edges the
    pre-allocation of [Run] has no result: a path of two edges has room for
    [T - 1] ants in [T] turns, which is less than the ant count for every
    [T] an [int] can hold, and [T++] wraps around. *)
Theorem preallocate_out_of_range : scheduler.preallocate (2 ^ 63 - 1) [2] = None.
Proof.
  unfold scheduler.preallocate. cbn [head mbind option_bind].
  destruct (balancer.find_T_never (2 ^ 63 - 1) [2]) with (depth := 64%nat) (T := 1)
    as (T' & _ & HT').
  - intros T HT. unfold scheduler.find_T_step, scheduler.capacity_at. cbn [foldl].
    change (wrap (2 - 1)) with 1. cbv zeta.
    destruct (Z.ltb_spec 1 T); [|done].
    rewrite (balancer.wrap_id (T - 1)) by lia.
    rewrite (balancer.wrap_id (0 + (T - 1))) by lia.
    by destruct (Z.leb_spec (2 ^ 63 - 1) (0 + (T - 1))); [lia|].
  - done.
  - change (if wrap (2 - 1) <? 0 then 0 else wrap (2 - 1)) with 1. by rewrite HT'.
Qed.

(** ** The no-path exit *)

(** C6. When the Edmonds-Karp loop ends with total flow 0, [MultiPath]
    returns the empty list, and [main] then prints the echo followed by
    [ERROR: invalid data format, no path found] and exits with status 0. *)
Theorem zero_flow_prints_no_path
    (res : parser.Result) (keys : list string) (s e : string) (maxPaths : Z)
    (net0 net : list (list path.edge)) (adj : list path.edge) :
  let g := parser.RGraph res in
  let names := merge_sort String.le keys in
  Start g = Some s → End g = Some e → size (Rooms g) ≠ 0%nat →
  path.build_network g names s e = Some net0 →
  net0 !! path.source names s = Some adj →
  path.ek_loop names s e (S (length adj)) maxPaths net0 0 = Some (net, 0) →
  path.MultiPath_from keys g maxPaths = Some [] ∧
  (maxPaths = 0 →
   ∀ sort_paths range_ants,
     main.run_parsed sort_paths (λ _, keys) range_ants (inr res)
     = Some (parser.OriginalLines res ++ [""]
               ++ ["ERROR: invalid data format, no path found"], 0)).
Proof.
  intros g names Hs He Hsz Hb Hadj Hek.
  assert (path.MultiPath_from keys g maxPaths = Some []) as HM.
  { unfold path.MultiPath_from. rewrite Hs, He.
    rewrite bool_decide_eq_false_2 by done.
    unfold path.flow_and_paths. fold names.
    rewrite Hb. cbn [mbind option_bind].
    rewrite Hadj. cbn [mbind option_bind].
    rewrite Hek. cbn [mbind option_bind]. done. }
  split; [done|]. intros -> sp ra. unfold main.run_parsed.
  fold g. rewrite HM. simpl. by rewrite <- app_assoc.
Qed.

Definition dead_end_input : list string :=
  ["1"; "##start"; "start 0 0"; "a 1 1"; "##end"; "end 2 2"; "start-a"].

Definition dead_end_result : parser.Result :=
  match parser.Parse dead_end_input with
  | inr res => res
  | inl _ => parser.mkResult 0 NewGraph []
  end.

Lemma zero_flow_prints_no_path_witness :
  ∃ net0 net adj,
    let res := dead_end_result in
    let g := parser.RGraph res in
    let keys := (map_to_list (Rooms g)).*1 in
    let names := merge_sort String.le keys in
    Start g = Some "start" ∧ End g = Some "end" ∧ size (Rooms g) ≠ 0%nat ∧
    path.build_network g names "start" "end" = Some net0 ∧
    net0 !! path.source names "start" = Some adj ∧
    path.ek_loop names "start" "end" (S (length adj)) 0 net0 0 = Some (net, 0) ∧
    path.MultiPath_from keys g 0 = Some [] ∧
    (0 = 0 →
     ∀ sort_paths range_ants,
       main.run_parsed sort_paths (λ _, keys) range_ants (inr res)
       = Some (parser.OriginalLines res ++ [""]
                 ++ ["ERROR: invalid data format, no path found"], 0)).
Proof.
  eexists _, _, _. intros res g keys names.
  assert (Start g = Some "start") as H1 by reflexivity.
  assert (End g = Some "end") as H2 by reflexivity.
  assert (size (Rooms g) ≠ 0%nat) as H3 by (vm_compute; discriminate).
  assert (path.build_network g names "start" "end" = Some
            (default [] (path.build_network g names "start" "end"))) as H4
    by (vm_compute; reflexivity).
  set (net0 := default [] (path.build_network g names "start" "end")) in *.
  assert (net0 !! path.source names "start" = Some
            (default [] (net0 !! path.source names "start"))) as H5
    by (vm_compute; reflexivity).
  set (adj := default [] (net0 !! path.source names "start")) in *.
  assert (path.ek_loop names "start" "end" (S (length adj)) 0 net0 0 = Some (net0, 0)) as H6
    by (vm_compute; reflexivity).
  split; [exact H1|]. split; [exact H2|]. split; [exact H3|].
  split; [exact H4|]. split; [exact H5|]. split; [exact H6|].
  exact (zero_flow_prints_no_path res keys "start" "end" 0 net0 net0 adj
           H1 H2 H3 H4 H5 H6).
Defined.


(** ** The bottleneck of an augmentation *)

(** C7. In every state the Edmonds-Karp loop of [MultiPath] goes through,
    [bfs] either does not reach the sink, and then pushes nothing, or
    reaches it, and then the bottleneck it computes along the parent chain
    is exactly 1 and that is the amount it pushes. *)
Theorem bottleneck_always_one
    (g : Graph) (s e : string) (net0 gr : list (list path.edge)) :
  let names := merge_sort String.le (map_to_list (Rooms g)).*1 in
  size (Rooms g) ≠ 0%nat →
  path.build_network g names s e = Some net0 →
  residual.ek_state names s e net0 gr →
  ∃ par ps,
    path.bfs_search names s e gr = Some par ∧
    par !! path.sink names e = Some ps ∧
    if decide (path.pu ps = -1)
    then path.bfs names s e gr = Some (gr, 0)
    else path.bottleneck_loop names s (S (length gr)) gr par (path.sink names e) path.INF
           = Some 1 ∧
         ∃ gr', path.bfs names s e gr = Some (gr', 1).
Proof.
  intros names Hsz Hbuild Hst.
  pose proof (residual.sorted_keys_nodup g _ (reflexivity _)) as Hnd.
  pose proof (λ nm, residual.sorted_keys_rooms g _ nm (reflexivity _)) as Hrooms.
  pose proof (residual.sorted_keys_ne g _ (reflexivity _) Hsz) as Hne.
  destruct (residual.build_network_spec g names s e Hnd Hrooms) as (net & Hnet & Hdone).
  fold names in Hnet. rewrite Hbuild in Hnet. injection Hnet as <-.
  by eapply residual.ek_state_bottleneck.
Qed.

Definition diamond_input : list string :=
  ["4"; "##start"; "start 0 0"; "a 1 0"; "b 2 0"; "##end"; "end 3 0";
   "start-a"; "start-b"; "a-end"; "b-end"; "a-b"].

Definition diamond : Graph :=
  match parser.Parse diamond_input with
  | inr res => parser.RGraph res
  | inl _ => NewGraph
  end.

Lemma bottleneck_always_one_witness :
  let names := merge_sort String.le (map_to_list (Rooms diamond)).*1 in
  let net0 := default [] (path.build_network diamond names "start" "end") in
  let net1 := (default ([], 0) (path.bfs names "start" "end" net0)).1 in
  ∃ par ps,
    path.bfs_search names "start" "end" net1 = Some par ∧
    par !! path.sink names "end" = Some ps ∧
    if decide (path.pu ps = -1)
    then path.bfs names "start" "end" net1 = Some (net1, 0)
    else path.bottleneck_loop names "start" (S (length net1)) net1 par
           (path.sink names "end") path.INF = Some 1 ∧
         ∃ gr', path.bfs names "start" "end" net1 = Some (gr', 1).
Proof.
  intros names net0 net1.
  apply (bottleneck_always_one diamond "start" "end" net0 net1).
  - vm_compute. discriminate.
  - vm_compute. reflexivity.
  - apply (residual.ek_state_next names "start" "end" net0 net0 net1 1).
    + apply residual.ek_state_init.
    + vm_compute. reflexivity.
    + discriminate.
Defined.

(** ** Disjointness of the returned paths *)

(** The invariants of a graph the parser hands over: distinct start and end
    rooms that are rooms of the graph, and, in every room, links without
    duplicates, none to the room itself, each to a room that links back. *)
Definition links_back (g : Graph) (nm nb : string) : Prop :=
  match Rooms g !! nb with
  | Some r' => nm ∈ Links r'
  | None => False
  end.

Global Instance links_back_dec g nm nb : Decision (links_back g nm nb).
Proof. unfold links_back. destruct (Rooms g !! nb); apply _. Defined.

Definition valid_room (g : Graph) (nm : string) (r : Room) : Prop :=
  NoDup (Links r) ∧ (nm ∉ Links r) ∧ Forall (links_back g nm) (Links r).

Definition valid_graph (g : Graph) : Prop :=
  match Start g, End g with
  | Some s, Some e =>
      s ≠ e ∧ is_Some (Rooms g !! s) ∧ is_Some (Rooms g !! e) ∧
      map_Forall (valid_room g) (Rooms g)
  | _, _ => False
  end.

Global Instance valid_graph_dec g : Decision (valid_graph g).
Proof.
  unfold valid_graph, valid_room. destruct (Start g), (End g); apply _.
Defined.

(** [a] and [b] are consecutive rooms of the path [l]. *)
Definition adjacent (a b : string) (l : list string) : Prop :=
  ∃ k : nat, l !! k = Some a ∧ l !! S k = Some b.

Lemma adjacent_through (s e a b : string) (m : list string) :
  adjacent a b (s :: m ++ [e]) →
  (a ∈ m ∨ b ∈ m) ∨ (m = [] ∧ a = s ∧ b = e).
Proof.
  intros (k & Ha & Hb). destruct k as [|k]; simpl in Ha, Hb.
  - injection Ha as <-. destruct m as [|x m]; simpl in Hb.
    + right. injection Hb as <-. done.
    + left. right. injection Hb as <-. apply list_elem_of_here.
  - left. left.
    assert (S k < length (m ++ [e]))%nat as Hlt by (by eapply lookup_lt_Some).
    rewrite length_app in Hlt. simpl in Hlt.
    rewrite lookup_app_l in Ha by lia. by eapply list_elem_of_lookup_2.
Qed.

Lemma adjacent_elem (a b : string) (l : list string) :
  adjacent a b l → a ∈ l ∧ b ∈ l.
Proof. intros (k & Ha & Hb). split; by eapply list_elem_of_lookup_2. Qed.

Lemma elem_of_concat_lookup {A} (ms : list (list A)) (i : nat) m x :
  ms !! i = Some m → x ∈ m → x ∈ concat ms.
Proof.
  revert i. induction ms as [|m0 ms IH]; intros i Hi Hx; [done|].
  simpl. apply elem_of_app. destruct i as [|i]; simpl in Hi.
  - left. by injection Hi as ->.
  - right. by eapply IH.
Qed.

Lemma NoDup_concat_lookup {A} (ms : list (list A)) (i j : nat) m m' x :
  NoDup (concat ms) → ms !! i = Some m → ms !! j = Some m' → i ≠ j →
  x ∈ m → x ∈ m' → False.
Proof.
  revert i j. induction ms as [|m0 ms IH]; intros i j Hnd Hi Hj Hij Hx Hx'; [done|].
  simpl in Hnd. apply NoDup_app in Hnd as (Hnd0 & Hdisj & Hnd).
  destruct i as [|i], j as [|j]; simpl in Hi, Hj; try done.
  - injection Hi as ->. apply (Hdisj x Hx). by eapply elem_of_concat_lookup.
  - injection Hj as ->. apply (Hdisj x Hx'). by eapply elem_of_concat_lookup.
  - apply (IH i j); [done..|lia|done|done].
Qed.

Lemma valid_graph_spec (g : Graph) :
  valid_graph g →
  ∃ s e, Start g = Some s ∧ End g = Some e ∧ s ≠ e ∧
         is_Some (Rooms g !! s) ∧ is_Some (Rooms g !! e) ∧
         (∀ nm r, Rooms g !! nm = Some r → NoDup (Links r)) ∧
         (∀ nm r nb, Rooms g !! nm = Some r → nb ∈ Links r →
                     is_Some (Rooms g !! nb)).
Proof.
  unfold valid_graph. destruct (Start g) as [s|], (End g) as [e|]; try done.
  intros (Hne & Hs & He & Hall). exists s, e. split_and!; try done.
  - intros nm r Hr. by destruct (Hall nm r Hr) as (? & _).
  - intros nm r nb Hr Hnb. destruct (Hall nm r Hr) as (_ & _ & Hback).
    rewrite Forall_forall in Hback. specialize (Hback nb Hnb).
    unfold links_back in Hback. by destruct (Rooms g !! nb).
Qed.

(** What [MultiPath] returns on a valid graph, whatever the order in which
    the rooms are enumerated. *)
Lemma MultiPath_from_spec (g : Graph) (keys : list string) (maxPaths : Z) :
  valid_graph g → keys ≡ₚ (map_to_list (Rooms g)).*1 →
  ∃ s e ms,
    Start g = Some s ∧ End g = Some e ∧ s ≠ e ∧
    path.MultiPath_from keys g maxPaths = Some (reconstruction.path_of s e <$> ms) ∧
    NoDup (concat ms) ∧ reconstruction.one_direct ms ∧
    (∀ m, m ∈ ms →
          reconstruction.linked_names g (s :: m ++ [e]) ∧
          ∀ nm, nm ∈ m → nm ≠ s ∧ nm ≠ e ∧ is_Some (Rooms g !! nm)).
Proof.
  intros (s & e & Hs & He & Hne & Hsin & Hein & Hnd & Hclosed)%valid_graph_spec Hk.
  pose proof (residual.sorted_keys_nodup g keys Hk) as Hnames.
  assert (∀ nm r nb, Rooms g !! nm = Some r → nb ∈ Links r →
                     nb ∈ merge_sort String.le keys) as Hclosed'.
  { intros nm r nb Hr Hnb. apply (residual.sorted_keys_elem g keys nb Hk).
    by eapply Hclosed. }
  pose proof (λ nm, residual.sorted_keys_rooms g keys nm Hk) as Hrooms.
  pose proof (residual.sorted_keys_elem g keys s Hk Hsin) as Hsin'.
  pose proof (residual.sorted_keys_elem g keys e Hk Hein) as Hein'.
  destruct (reconstruction.flow_and_paths_spec g (merge_sort String.le keys) s e Hnames
              Hclosed' Hnd Hrooms Hsin' Hein' Hne maxPaths)
    as (graph0 & adj & gr & f & ms & _ & _ & _ & _ & _ & _ & _ & Hfp & Hndm & Hone & Hall & _).
  exists s, e, ms. split_and!; try done.
  - unfold path.MultiPath_from. rewrite Hs, He.
    rewrite bool_decide_eq_false_2; [done|].
    intros Hsz. apply map_size_empty_iff in Hsz. rewrite Hsz in Hsin.
    rewrite lookup_empty in Hsin. by destruct Hsin.
  - intros m Hm. destruct (Hall m Hm) as [Hl Hmid]. split; [done|].
    intros nm Hnm. destruct (Hmid nm Hnm) as (? & ? & Hin). split_and!; try done.
    by apply Hrooms.
Qed.

(** C1. On a valid graph [MultiPath] returns a list of paths, and two paths
    at different positions of that list have no room in common but the
    start and the end room, and no link of the graph in common, in
    whichever direction each of them walks it. *)
Theorem multipath_paths_disjoint (g : Graph) (maxPaths : Z) :
  valid_graph g →
  ∃ paths,
    path.MultiPath g maxPaths = Some paths ∧
    ∀ (i j : nat) p q,
      i ≠ j → paths !! i = Some p → paths !! j = Some q →
      (∀ nm, nm ∈ PRooms p → nm ∈ PRooms q →
             Start g = Some nm ∨ End g = Some nm) ∧
      (∀ a b, adjacent a b (PRooms p) →
              ¬ adjacent a b (PRooms q) ∧ ¬ adjacent b a (PRooms q)).
Proof.
  intros Hvalid.
  destruct (MultiPath_from_spec g (map_to_list (Rooms g)).*1 maxPaths Hvalid
              (reflexivity _))
    as (s & e & ms & Hs & He & Hne & HM & Hnd & Hone & Hall).
  exists (reconstruction.path_of s e <$> ms). split; [done|].
  intros i j p q Hij Hp Hq.
  rewrite list_lookup_fmap in Hp, Hq.
  destruct (ms !! i) as [m|] eqn:Hmi; [|done].
  destruct (ms !! j) as [m'|] eqn:Hmj; [|done].
  simpl in Hp, Hq. injection Hp as <-. injection Hq as <-.
  cbn [reconstruction.path_of PRooms app].
  destruct (Hall m (list_elem_of_lookup_2 _ _ _ Hmi)) as [_ Hm].
  destruct (Hall m' (list_elem_of_lookup_2 _ _ _ Hmj)) as [_ Hm'].
  assert (∀ x, x ∈ m → x ∈ s :: m' ++ [e] → False) as Hsep.
  { intros x Hx [->|[Hx'|Hx']%elem_of_app]%elem_of_cons.
    - by destruct (Hm s Hx) as (? & _).
    - by eapply (NoDup_concat_lookup ms i j).
    - apply list_elem_of_singleton in Hx' as ->. by destruct (Hm e Hx) as (_ & ? & _). }
  assert (∀ x, x ∈ m' → x ∈ s :: m ++ [e] → False) as Hsep'.
  { intros x Hx [->|[Hx'|Hx']%elem_of_app]%elem_of_cons.
    - by destruct (Hm' s Hx) as (? & _).
    - by eapply (NoDup_concat_lookup ms i j).
    - apply list_elem_of_singleton in Hx' as ->. by destruct (Hm' e Hx) as (_ & ? & _). }
  split.
  - intros nm [->|[Hin|Hin]%elem_of_app]%elem_of_cons Hq.
    + by left.
    + by destruct (Hsep nm Hin Hq).
    + apply list_elem_of_singleton in Hin as ->. by right.
  - assert (∀ a b a' b', adjacent a b (s :: m ++ [e]) →
                         adjacent a' b' (s :: m' ++ [e]) →
                         (a = a' ∧ b = b') ∨ (a = b' ∧ b = a') → False) as Hedge.
    { intros a b a' b' Hab Hab' Heq.
      destruct (adjacent_elem _ _ _ Hab) as [Ha Hb].
      destruct (adjacent_elem _ _ _ Hab') as [Ha' Hb'].
      destruct (adjacent_through _ _ _ _ _ Hab) as [[Hin|Hin]|(-> & -> & ->)].
      - apply (Hsep a Hin). by destruct Heq as [[-> _]|[-> _]].
      - apply (Hsep b Hin). by destruct Heq as [[_ ->]|[_ ->]].
      - destruct (adjacent_through _ _ _ _ _ Hab') as [[Hin|Hin]|(-> & _)].
        + apply (Hsep' a' Hin). by destruct Heq as [[<- _]|[_ <-]].
        + apply (Hsep' b' Hin). by destruct Heq as [[_ <-]|[<- _]].
        + apply Hij. by apply Hone. }
    intros a b Hab. split; intros Hab'.
    + apply (Hedge a b a b Hab Hab'). by left.
    + apply (Hedge a b b a Hab Hab'). by right.
Qed.

Lemma multipath_paths_disjoint_witness :
  ∃ paths,
    path.MultiPath diamond 0 = Some paths ∧
    ∀ (i j : nat) p q,
      i ≠ j → paths !! i = Some p → paths !! j = Some q →
      (∀ nm, nm ∈ PRooms p → nm ∈ PRooms q →
             Start diamond = Some nm ∨ End diamond = Some nm) ∧
      (∀ a b, adjacent a b (PRooms p) →
              ¬ adjacent a b (PRooms q) ∧ ¬ adjacent b a (PRooms q)).
Proof.
  apply (multipath_paths_disjoint diamond 0).
  apply (bool_decide_unpack _). vm_compute. reflexivity.
Defined.

(** ** Cuts of the residual graph *)

Module mincut.
Import path residual reconstruction.

Lemma Zsum_perm (l k : list Z) : l ≡ₚ k → Zsum l = Zsum k.
Proof.
  induction 1 as [|x l k _ IH|x y l|l k m _ IH1 _ IH2]; rewrite ?Zsum_cons; lia.
Qed.

Lemma Zsum_filter_split {A} (f : A → Z) (P : A → Prop) `{∀ x, Decision (P x)}
    (l : list A) :
  Zsum (f <$> l) =
  Zsum (f <$> filter P l) + Zsum (f <$> filter (λ x, ¬ P x) l).
Proof.
  induction l as [|x l IH]; [done|].
  rewrite fmap_cons, Zsum_cons, !filter_cons.
  destruct (decide (P x)) as [Hx|Hx].
  - rewrite decide_False by tauto. rewrite fmap_cons, Zsum_cons. lia.
  - rewrite decide_True by done. rewrite fmap_cons, Zsum_cons. lia.
Qed.

Lemma Zsum_single {A} (f : A → Z) (l : list A) (s : A) :
  NoDup l → s ∈ l → (∀ u, u ∈ l → u ≠ s → f u = 0) → Zsum (f <$> l) = f s.
Proof.
  induction 1 as [|x l Hx Hnd IH]; intros Hs Hz; [by apply elem_of_nil in Hs|].
  rewrite fmap_cons, Zsum_cons.
  assert (∀ l', (∀ u, u ∈ l' → f u = 0) → Zsum (f <$> l') = 0) as Hzero.
  { induction l' as [|y l' IH']; intros Hall; [done|].
    rewrite fmap_cons, Zsum_cons, (Hall y), IH'; [done| |apply list_elem_of_here].
    intros u Hu. apply Hall. by apply list_elem_of_further. }
  apply elem_of_cons in Hs as [->|Hs].
  - rewrite Hzero; [lia|]. intros u Hu. apply Hz; [by apply list_elem_of_further|].
    intros ->. done.
  - rewrite IH; [|done|].
    + rewrite (Hz x); [lia|apply list_elem_of_here|]. intros ->. done.
    + intros u Hu. apply Hz. by apply list_elem_of_further.
Qed.

(** Units counted in a sum of non-negative numbers. *)
Lemma Zsum_units {A} `{EqDecision A} (f : A → Z) (l ks : list A) :
  NoDup ks → (∀ p, p ∈ ks → p ∈ l ∧ f p = 1) → (∀ p, p ∈ l → 0 ≤ f p) →
  Z.of_nat (length ks) ≤ Zsum (f <$> l).
Proof.
  intros Hnd Hks Hpos.
  assert (Zsum (f <$> ks) = Z.of_nat (length ks)) as Hunits.
  { clear Hnd. induction ks as [|k ks IH]; [done|].
    rewrite fmap_cons, Zsum_cons, length_cons.
    destruct (Hks k) as [_ ->]; [apply list_elem_of_here|].
    rewrite IH; [lia|]. intros p Hp. apply Hks. by apply list_elem_of_further. }
  destruct (submseteq_Permutation ks l) as [rest Hperm].
  { apply NoDup_submseteq; [done|]. intros p Hp. by apply Hks. }
  rewrite (Zsum_perm _ (f <$> (ks ++ rest))) by (by rewrite Hperm).
  rewrite fmap_app, Zsum_app, Hunits.
  assert (0 ≤ Zsum (f <$> rest)); [|lia].
  apply Zsum_nonneg, Forall_fmap, Forall_forall. intros p Hp. simpl.
  apply Hpos. rewrite Hperm. apply elem_of_app. by right.
Qed.

Definition flow_at (gr : list (list edge)) (p : nat * nat) : Z :=
  from_option flow 0 (edge_at gr p.1 p.2).

(** The half-edges stored at the nodes of [R]. *)
Definition half_edges (gr : list (list edge)) (R : list nat) : list (nat * nat) :=
  R ≫= λ u, (λ i, (u, i)) <$> seq 0 (length (default [] (gr !! u))).

Definition partner (gr : list (list edge)) (p : nat * nat) : nat * nat :=
  from_option (λ e, (to e, rev e)) p (edge_at gr p.1 p.2).

(** A half-edge that stays inside [R]. *)
Definition inner (gr : list (list edge)) (R : list nat) (p : nat * nat) : Prop :=
  ∃ e, edge_at gr p.1 p.2 = Some e ∧ to e ∈ R.

Global Instance inner_dec gr R p : Decision (inner gr R p).
Proof.
  unfold inner. destruct (edge_at gr p.1 p.2) as [e|].
  - destruct (decide (to e ∈ R)) as [Hin|Hout].
    + left. by exists e.
    + right. intros (e' & [= <-] & ?). done.
  - right. by intros (e' & ? & _).
Defined.

Section cut.

Variable gr : list (list edge).
Variable R : list nat.
Hypothesis flow_paired : paired gr.
Hypothesis gr_antisym : antisym gr.
Hypothesis R_nodup : NoDup R.

Lemma excess_half_edges u :
  excess gr u =
  Zsum (flow_at gr <$> ((λ i, (u, i)) <$> seq 0 (length (default [] (gr !! u))))).
Proof using Type.
  unfold excess. f_equal. apply list_eq. intros i.
  rewrite !list_lookup_fmap. unfold flow_at, edge_at. simpl.
  destruct (gr !! u) as [adj|] eqn:Hu; simpl; [|by rewrite ?lookup_nil].
  destruct (decide (i < length adj)%nat) as [Hlt|Hge].
  - rewrite lookup_seq_lt by done. simpl.
    destruct (lookup_lt_is_Some_2 adj i Hlt) as [e He]. rewrite Hu. simpl. by rewrite He.
  - rewrite lookup_seq_ge by lia. rewrite lookup_ge_None_2 by lia. done.
Qed.

Lemma excess_sum (l : list nat) :
  Zsum (flow_at gr <$> half_edges gr l) = Zsum (excess gr <$> l).
Proof using Type.
  induction l as [|u l IH]; [done|].
  unfold half_edges in *. rewrite bind_cons, fmap_app, Zsum_app, IH.
  rewrite fmap_cons, Zsum_cons. by rewrite <- excess_half_edges.
Qed.

Lemma elem_of_half_edges (l : list nat) p :
  p ∈ half_edges gr l ↔ p.1 ∈ l ∧ is_Some (edge_at gr p.1 p.2).
Proof using Type.
  unfold half_edges. rewrite list_elem_of_bind. split.
  - intros (u & Hp & Hu). apply list_elem_of_fmap in Hp as (i & -> & Hi). simpl.
    split; [done|]. apply elem_of_seq in Hi. unfold edge_at.
    destruct (gr !! u) as [adj|]; simpl in *; [|lia].
    apply lookup_lt_is_Some_2. lia.
  - destruct p as [u i]. simpl. intros [Hu [e He]]. exists u. split; [|done].
    apply list_elem_of_fmap. exists i. split; [done|].
    apply edge_at_Some in He as (adj & Hadj & Hi). rewrite Hadj. simpl.
    apply elem_of_seq. apply lookup_lt_Some in Hi. lia.
Qed.

Lemma NoDup_half_edges : NoDup (half_edges gr R).
Proof using R_nodup.
  unfold half_edges. apply NoDup_bind; [| |done].
  - intros u1 u2 p _ _ (i1 & -> & _)%list_elem_of_fmap (i2 & [= <- _] & _)%list_elem_of_fmap.
    done.
  - intros u _. apply NoDup_fmap_2; [|apply NoDup_seq]. by intros i j [= ->].
Qed.

Lemma partner_inner p :
  inner gr R p → p.1 ∈ R →
  inner gr R (partner gr p) ∧ (partner gr p).1 ∈ R ∧
  partner gr (partner gr p) = p ∧ flow_at gr (partner gr p) = - flow_at gr p.
Proof using flow_paired gr_antisym.
  destruct p as [u i]. cbn [fst snd]. intros (e & He & Hto) Hu.
  cbn [fst snd] in He.
  destruct (flow_paired u i e He) as [_ (e' & He' & Hto' & Hrev')].
  pose proof (gr_antisym u i e e' He He') as Hanti.
  unfold partner, flow_at, inner. cbn [fst snd]. rewrite He.
  cbn [from_option fst snd]. rewrite He'. cbn [from_option fst snd].
  split_and!; [|done| |lia].
  - exists e'. split; [done|]. by rewrite Hto'.
  - by rewrite Hto', Hrev'.
Qed.

(** The flows on the half-edges inside [R] cancel in pairs. *)
Lemma inner_sum_zero :
  Zsum (flow_at gr <$> filter (inner gr R) (half_edges gr R)) = 0.
Proof using flow_paired gr_antisym R_nodup.
  set (H := filter (inner gr R) (half_edges gr R)).
  assert (∀ p, p ∈ H ↔ inner gr R p ∧ p.1 ∈ R) as HH.
  { intros p. unfold H. rewrite list_elem_of_filter, elem_of_half_edges.
    split; [tauto|]. intros [Hin Hp]. split; [done|]. split; [done|].
    destruct Hin as (e & He & _). by exists e. }
  assert (partner gr <$> H ≡ₚ H) as Hperm.
  { apply NoDup_Permutation.
    - apply NoDup_fmap_2_strong; [|apply NoDup_filter, NoDup_half_edges].
      intros p q [Hp1 Hp2]%HH [Hq1 Hq2]%HH Heq.
      destruct (partner_inner p Hp1 Hp2) as (_ & _ & <- & _).
      destruct (partner_inner q Hq1 Hq2) as (_ & _ & <- & _). by rewrite Heq.
    - apply NoDup_filter, NoDup_half_edges.
    - intros p. rewrite list_elem_of_fmap. split.
      + intros (q & -> & [Hq1 Hq2]%HH). apply HH.
        by destruct (partner_inner q Hq1 Hq2) as (? & ? & _).
      + intros [Hp1 Hp2]%HH. exists (partner gr p).
        destruct (partner_inner p Hp1 Hp2) as (? & ? & ? & _).
        split; [done|]. by apply HH. }
  assert (Zsum (flow_at gr <$> (partner gr <$> H)) = - Zsum (flow_at gr <$> H)) as Hneg.
  { assert (∀ p, p ∈ H → flow_at gr (partner gr p) = - flow_at gr p) as Hall.
    { intros p [Hp1 Hp2]%HH. by destruct (partner_inner p Hp1 Hp2) as (_ & _ & _ & ?). }
    clear HH Hperm. induction H as [|p H' IH]; [done|].
    rewrite !fmap_cons, !Zsum_cons, (Hall p), IH; [lia| |apply list_elem_of_here].
    intros q Hq. apply Hall. by apply list_elem_of_further. }
  rewrite (Zsum_perm _ (flow_at gr <$> H)) in Hneg by (by rewrite Hperm).
  lia.
Qed.

(** The net flow out of [R] is carried by the half-edges that leave it. *)
Lemma cut_value :
  Zsum (excess gr <$> R) =
  Zsum (flow_at gr <$> filter (λ p, ¬ inner gr R p) (half_edges gr R)).
Proof using flow_paired gr_antisym R_nodup.
  rewrite <- excess_sum.
  rewrite (Zsum_filter_split (flow_at gr) (inner gr R)), inner_sum_zero. lia.
Qed.

End cut.


(** *** Paths of the graph against a saturated cut *)

(** A path of the graph: every room is linked to the next one. *)
Definition is_path (g : Graph) (l : list string) : Prop :=
  ∀ (i : nat) a b, l !! i = Some a → l !! S i = Some b →
                   ∃ r, Rooms g !! a = Some r ∧ b ∈ Links r.

Lemma is_path_tail g a l : is_path g (a :: l) → is_path g l.
Proof. intros Hp i x y Hx Hy. by apply (Hp (S i)). Qed.

Lemma adjacent_cons a b c l : adjacent a b l → adjacent a b (c :: l).
Proof. intros (k & Ha & Hb). by exists (S k). Qed.

(** A family of start-to-end paths of the graph, each given by the list of
    its intermediate rooms.  The paths are simple and pairwise disjoint but
    for the start and the end room: no intermediate room occurs twice in
    the family, none is the start or the end room, and the direct path,
    which has no intermediate room, is a member at most once. *)
Definition disjoint_paths (g : Graph) (s e : string) (ms : list (list string)) : Prop :=
  NoDup (concat ms) ∧ one_direct ms ∧
  ∀ m, m ∈ ms → is_path g (s :: m ++ [e]) ∧ ∀ nm, nm ∈ m → nm ≠ s ∧ nm ≠ e.

Lemma family_edge_disjoint (s e : string) ms (i j : nat) m m' a b :
  NoDup (concat ms) → one_direct ms →
  (∀ m, m ∈ ms → ∀ nm, nm ∈ m → nm ≠ s ∧ nm ≠ e) →
  ms !! i = Some m → ms !! j = Some m' → i ≠ j →
  adjacent a b (s :: m ++ [e]) → adjacent a b (s :: m' ++ [e]) → False.
Proof.
  intros Hnd Hone Hmid Hi Hj Hij Hab Hab'.
  pose proof (Hmid m (list_elem_of_lookup_2 _ _ _ Hi)) as Hm.
  pose proof (Hmid m' (list_elem_of_lookup_2 _ _ _ Hj)) as Hm'.
  assert (∀ x, x ∈ m → x ∈ s :: m' ++ [e] → False) as Hsep.
  { intros x Hx [->|[Hx'|Hx']%elem_of_app]%elem_of_cons.
    - by destruct (Hm s Hx) as (? & _).
    - by eapply (NoDup_concat_lookup ms i j).
    - apply list_elem_of_singleton in Hx' as ->. by destruct (Hm e Hx) as (_ & ?). }
  destruct (adjacent_elem _ _ _ Hab') as [Ha' Hb'].
  destruct (adjacent_through _ _ _ _ _ Hab) as [[Hin|Hin]|(-> & -> & ->)].
  - by apply (Hsep a Hin).
  - by apply (Hsep b Hin).
  - destruct (adjacent_through _ _ _ _ _ Hab') as [[Hin|Hin]|(-> & _)].
    + by destruct (Hm' s Hin) as (? & _).
    + by destruct (Hm' e Hin) as (_ & ?).
    + apply Hij. by apply Hone.
Qed.

Lemma Forall2_choice {A B} (P : A → B → Prop) (l : list A) :
  (∀ x, x ∈ l → ∃ y, P x y) → ∃ k, Forall2 P l k.
Proof.
  induction l as [|x l IH]; intros Hall; [by exists []|].
  destruct (Hall x) as [y Hy]; [apply list_elem_of_here|].
  destruct IH as [k Hk].
  { intros x' Hx'. apply Hall. by apply list_elem_of_further. }
  exists (y :: k). by constructor.
Qed.

Section maxflow.

Variable g : Graph.
Variable names : list string.
Variable startName endName : string.
Hypothesis names_nodup : NoDup names.
Hypothesis links_closed : ∀ nm r nb,
  Rooms g !! nm = Some r → nb ∈ Links r → nb ∈ names.
Variable s_id e_id : nat.
Hypothesis start_id : names !! s_id = Some startName.
Hypothesis end_id : names !! e_id = Some endName.
Hypothesis start_ne_end : startName ≠ endName.

Local Abbreviation source := (path.source names startName).
Local Abbreviation sink := (path.sink names endName).

Variable graph0 : list (list edge).
Hypothesis graph0_done :
  links_done names startName endName (links_of g names) graph0.

(** A state of the loop and a set [R] of nodes that holds the source, not
    the sink, and that no half-edge with residual capacity leaves. *)
Variable gr : list (list edge).
Hypothesis gr_flow : flow_inv names startName endName graph0 gr.
Variable R : list nat.
Hypothesis R_nodup : NoDup R.
Hypothesis R_source : source ∈ R.
Hypothesis R_sink : sink ∉ R.
Hypothesis R_closed : ∀ u, u ∈ R → closed gr R u.

Local Abbreviation crossing :=
  (filter (λ p, ¬ inner gr R p) (half_edges gr R)).

Lemma flow_paired : paired gr.
Proof using graph0_done gr_flow.
  eapply paired_same_shape; [apply (fi_shape _ _ _ _ _ gr_flow)|].
  by destruct graph0_done as (_ & ? & _).
Qed.

Lemma flow_is_cut_value :
  excess gr source = Zsum (flow_at gr <$> crossing).
Proof using graph0_done gr_flow R_nodup R_source R_sink.
  rewrite <- (cut_value gr R flow_paired (fi_antisym _ _ _ _ _ gr_flow) R_nodup).
  symmetry. apply Zsum_single; [done..|].
  intros u Hu Hne. apply (fi_conserved _ _ _ _ _ gr_flow); [done|].
  intros ->. done.
Qed.

Lemma crossing_saturated u i e :
  u ∈ R → edge_at gr u i = Some e → to e ∉ R →
  (u, i) ∈ crossing ∧ flow_at gr (u, i) = cap e.
Proof using gr_flow R_closed.
  intros Hu He Hto. split.
  - apply list_elem_of_filter. split.
    + intros (e' & He' & Hin). cbn [fst snd] in He'. rewrite He in He'.
      injection He' as <-. done.
    + apply elem_of_half_edges. cbn [fst snd]. split; [done|]. by exists e.
  - unfold flow_at. cbn [fst snd]. rewrite He. cbn [from_option].
    pose proof (fi_cap _ _ _ _ _ gr_flow u i e He).
    destruct (decide (0 < cap e - flow e)) as [Hres|Hres]; [|lia].
    destruct Hto. by apply (R_closed u Hu i e).
Qed.

Lemma crossing_nonneg p : p ∈ crossing → 0 ≤ flow_at gr p.
Proof using graph0_done gr_flow R_closed.
  intros [Hout [Hp [e He]]%elem_of_half_edges]%list_elem_of_filter.
  destruct p as [u i]. cbn [fst snd] in *.
  assert (to e ∉ R) as Hto.
  { intros Hin. apply Hout. by exists e. }
  destruct (crossing_saturated u i e Hp He Hto) as [_ ->].
  destruct (same_shape_edge _ _ _ _ _ (same_shape_sym _ _ (fi_shape _ _ _ _ _ gr_flow)) He)
    as (e0 & He0 & _ & _ & <-).
  by destruct (graph0_edges _ _ _ _ _ graph0_done u i e0 He0).
Qed.

(** Where a path leaves [R]: across an intermediate room, or along a link
    between two consecutive rooms. *)
Definition tagged (mid l : list string) (p : nat * nat) : Prop :=
  (∃ (b : nat) nb, p = ((2 * b)%nat, 0%nat) ∧ names !! b = Some nb ∧ nb ∈ mid) ∨
  (∃ (x y j : nat) nx ny e,
      p = ((2 * x + 1)%nat, S j) ∧ edge_at gr (2 * x + 1) (S j) = Some e ∧
      to e = (2 * y)%nat ∧ names !! x = Some nx ∧ names !! y = Some ny ∧
      adjacent nx ny l).

Lemma tagged_cons mid l nb na p :
  tagged mid l p → tagged (nb :: mid) (na :: l) p.
Proof.
  intros [(b & nb' & -> & Hb & Hin)|(x & y & j & nx & ny & e & -> & He & Hto & Hx & Hy & Ha)].
  - left. exists b, nb'. split; [done|]. split; [done|]. by apply list_elem_of_further.
  - right. exists x, y, j, nx, ny, e. split_and!; try done. by apply adjacent_cons.
Qed.

Lemma link_edge (a b : nat) na nb r :
  names !! a = Some na → Rooms g !! na = Some r → nb ∈ Links r →
  names !! b = Some nb →
  ∃ (j : nat) e, edge_at gr (2 * a + 1) (S j) = Some e ∧ to e = (2 * b)%nat ∧ cap e = 1.
Proof using graph0_done gr_flow names_nodup.
  intros Ha Hr Hnb Hb.
  assert (nb ∈ merge_sort String.le (Links r)) as Hin.
  { by rewrite (merge_sort_Permutation String.le). }
  apply list_elem_of_lookup_1 in Hin as [j Hj].
  assert (links_of g names a !! j = Some (2 * b)%nat) as Hlk.
  { unfold links_of. rewrite Ha, Hr, list_lookup_fmap, Hj. simpl.
    by rewrite (inIdx_name _ names_nodup _ _ Hb). }
  destruct (net_out_link g names startName endName graph0 graph0_done gr
              (fi_shape _ _ _ _ _ gr_flow) a j na _ Ha Hlk) as (e & He & Hto & Hcap).
  by exists j, e.
Qed.

Lemma path_crossing (mid : list string) :
  ∀ (a : nat) na,
    is_path g (na :: mid ++ [endName]) → names !! a = Some na →
    (2 * a + 1)%nat ∈ R →
    (∀ nm, nm ∈ mid → nm ≠ startName ∧ nm ≠ endName) →
    ∃ p, p ∈ crossing ∧ flow_at gr p = 1 ∧ tagged mid (na :: mid ++ [endName]) p.
Proof using graph0_done gr_flow names_nodup links_closed R_closed R_sink
  start_id end_id.
  induction mid as [|nb mid IH]; intros a na Hpath Ha HaR Hmid.
  - destruct (Hpath 0%nat na endName) as (r & Hr & Hin); [done..|].
    destruct (link_edge a e_id na endName r Ha Hr Hin end_id) as (j & e & He & Hto & Hcap).
    assert (to e ∉ R) as Hout.
    { rewrite Hto, <- (inIdx_name _ names_nodup _ _ end_id). exact R_sink. }
    destruct (crossing_saturated _ _ e HaR He Hout) as [Hc Hf].
    exists ((2 * a + 1)%nat, S j). split; [done|]. split; [lia|].
    right. exists a, e_id, j, na, endName, e. split_and!; try done. by exists 0%nat.
  - destruct (Hpath 0%nat na nb) as (r & Hr & Hin); [done..|].
    destruct (list_elem_of_lookup_1 _ _ (links_closed na r nb Hr Hin)) as [b Hb].
    destruct (link_edge a b na nb r Ha Hr Hin Hb) as (j & e & He & Hto & Hcap).
    destruct (decide ((2 * b)%nat ∈ R)) as [HbR|HbR].
    2:{ assert (to e ∉ R) as Hout by (by rewrite Hto).
        destruct (crossing_saturated _ _ e HaR He Hout) as [Hc Hf].
        exists ((2 * a + 1)%nat, S j). split; [done|]. split; [lia|].
        right. exists a, b, j, na, nb, e. split_and!; try done. by exists 0%nat. }
    destruct (net_in0 g names startName endName graph0 graph0_done gr
                (fi_shape _ _ _ _ _ gr_flow) b nb Hb) as (e1 & He1 & Hto1 & _ & Hcap1).
    assert (cap e1 = 1) as Hc1.
    { rewrite Hcap1. destruct (Hmid nb) as [H1 H2]; [apply list_elem_of_here|].
      unfold room_cap. by rewrite !bool_decide_eq_false_2. }
    destruct (decide ((2 * b + 1)%nat ∈ R)) as [HoR|HoR].
    2:{ assert (to e1 ∉ R) as Hout by (by rewrite Hto1).
        destruct (crossing_saturated _ _ e1 HbR He1 Hout) as [Hc Hf].
        exists ((2 * b)%nat, 0%nat). split; [done|]. split; [lia|].
        left. exists b, nb. split; [done|]. split; [done|]. apply list_elem_of_here. }
    destruct (IH b nb) as (p & Hp & Hf & Htag).
    + by eapply is_path_tail.
    + done.
    + done.
    + intros nm Hnm. apply Hmid. by apply list_elem_of_further.
    + exists p. split; [done|]. split; [done|]. by apply tagged_cons.
Qed.


Lemma tagged_inj ms (i j : nat) m m' p :
  disjoint_paths g startName endName ms →
  ms !! i = Some m → ms !! j = Some m' → i ≠ j →
  tagged m (startName :: m ++ [endName]) p →
  tagged m' (startName :: m' ++ [endName]) p → False.
Proof using names_nodup.
  intros (Hnd & Hone & Hall) Hi Hj Hij
    [(b & nb & -> & Hb & Hin)|(x & y & k & nx & ny & e & -> & He & Hto & Hx & Hy & Ha)]
    [(b' & nb' & Heq & Hb' & Hin')|(x' & y' & k' & nx' & ny' & e' & Heq & He' & Hto' & Hx'
                                    & Hy' & Ha')];
    apply pair_equal_spec in Heq as [Heq1 Heq2]; try lia.
  - assert (b' = b) as -> by lia. rewrite Hb in Hb'. injection Hb' as <-.
    by eapply (NoDup_concat_lookup ms i j).
  - assert (x' = x) as -> by lia. assert (k' = k) as -> by lia. rewrite He in He'. injection He' as <-.
    assert (y' = y) as -> by lia.
    rewrite Hx in Hx'. injection Hx' as <-. rewrite Hy in Hy'. injection Hy' as <-.
    eapply (family_edge_disjoint startName endName ms i j m m'); try done.
    intros m0 Hm0. by destruct (Hall m0 Hm0).
Qed.

(** No family of disjoint paths is larger than the flow across the cut. *)
Lemma family_bound ms :
  disjoint_paths g startName endName ms →
  Z.of_nat (length ms) ≤ excess gr source.
Proof using graph0_done gr_flow names_nodup links_closed R_nodup R_source R_sink R_closed
  start_id end_id.
  intros Hfam. pose proof Hfam as (Hnd & Hone & Hall).
  destruct (Forall2_choice
              (λ m p, p ∈ crossing ∧ flow_at gr p = 1 ∧
                      tagged m (startName :: m ++ [endName]) p) ms) as [ks Hks].
  { intros m Hm. destruct (Hall m Hm) as [Hpath Hmid].
    apply (path_crossing m s_id startName Hpath start_id); [|done].
    by rewrite <- (outIdx_name _ names_nodup _ _ start_id). }
  rewrite (Forall2_length _ _ _ Hks), flow_is_cut_value.
  apply Zsum_units.
  - apply NoDup_alt. intros i j p Hi Hj.
    destruct (decide (i = j)) as [|Hij]; [done|exfalso].
    destruct (Forall2_lookup_r _ _ _ _ _ Hks Hi) as (m & Hm & _ & _ & Ht).
    destruct (Forall2_lookup_r _ _ _ _ _ Hks Hj) as (m' & Hm' & _ & _ & Ht').
    by eapply (tagged_inj ms i j m m' p).
  - intros p Hp. apply list_elem_of_lookup_1 in Hp as [i Hi].
    destruct (Forall2_lookup_r _ _ _ _ _ Hks Hi) as (m & _ & ? & ? & _). done.
  - apply crossing_nonneg.
Qed.

End maxflow.

End mincut.

(** ** Maximality of the returned family *)

Lemma linked_names_is_path (g : Graph) (s e : string) (m : list string) :
  is_Some (Rooms g !! s) → (∀ nm, nm ∈ m → is_Some (Rooms g !! nm)) →
  reconstruction.linked_names g (s :: m ++ [e]) →
  mincut.is_path g (s :: m ++ [e]).
Proof.
  intros Hs Hm Hl i a b Ha Hb.
  assert (is_Some (Rooms g !! a)) as [r Hr].
  { assert (S i < length (s :: m ++ [e]))%nat as Hlt by (by eapply lookup_lt_Some).
    simpl in Hlt. rewrite length_app in Hlt. simpl in Hlt.
    destruct i as [|i]; simpl in Ha.
    - by injection Ha as <-.
    - rewrite lookup_app_l in Ha by lia. apply Hm. by eapply list_elem_of_lookup_2. }
  exists r. split; [done|]. by eapply (Hl i).
Qed.

(** C2. On a valid graph and without a cap on the number of paths, the
    Edmonds-Karp loop of [MultiPath] ends with a total flow that is the
    number of paths [MultiPath] returns; these paths are start-to-end paths
    of the graph, pairwise disjoint but for start and end, and no family of
    such paths has more members. *)
Theorem multipath_maximum (g : Graph) :
  let names := merge_sort String.le (map_to_list (Rooms g)).*1 in
  valid_graph g →
  ∃ s e ms net0 adj net totalFlow,
    Start g = Some s ∧ End g = Some e ∧
    path.build_network g names s e = Some net0 ∧
    net0 !! path.source names s = Some adj ∧
    path.ek_loop names s e (S (length adj)) 0 net0 0 = Some (net, totalFlow) ∧
    path.MultiPath g 0 = Some (reconstruction.path_of s e <$> ms) ∧
    Z.of_nat (length ms) = totalFlow ∧
    mincut.disjoint_paths g s e ms ∧
    ∀ ms', mincut.disjoint_paths g s e ms' → (length ms' ≤ length ms)%nat.
Proof.
  intros names (s & e & Hs & He & Hne & Hsin & Hein & Hnd & Hclosed)%valid_graph_spec.
  pose proof (residual.sorted_keys_nodup g _ (reflexivity _)) as Hnames.
  fold names in Hnames.
  assert (∀ nm r nb, Rooms g !! nm = Some r → nb ∈ Links r → nb ∈ names) as Hclosed'.
  { intros nm r nb Hr Hnb. apply (residual.sorted_keys_elem g _ nb (reflexivity _)).
    by eapply Hclosed. }
  pose proof (λ nm, residual.sorted_keys_rooms g _ nm (reflexivity _)) as Hrooms.
  pose proof (residual.sorted_keys_elem g _ s (reflexivity _) Hsin) as Hsin'.
  pose proof (residual.sorted_keys_elem g _ e (reflexivity _) Hein) as Hein'.
  fold names in Hrooms, Hsin', Hein'.
  destruct (reconstruction.flow_and_paths_spec g names s e Hnames
              Hclosed' Hnd Hrooms Hsin' Hein' Hne 0)
    as (graph0 & adj & gr & f & ms & Hbuild & Hdone & Hadj & Hek & Hst & Hf & Hmax & Hfp
        & Hndm & Hone & Hall & _ & Heq).
  specialize (Hmax ltac:(lia)). specialize (Heq ltac:(lia)).
  exists s, e, ms, graph0, adj, gr, f.
  do 5 (split; [done|]).
  split.
  { unfold path.MultiPath, path.MultiPath_from. rewrite Hs, He.
    rewrite bool_decide_eq_false_2; [done|].
    intros Hsz. apply map_size_empty_iff in Hsz. rewrite Hsz in Hsin.
    rewrite lookup_empty in Hsin. by destruct Hsin. }
  split; [done|].
  split.
  { split; [done|]. split; [done|]. intros m Hm.
    destruct (Hall m Hm) as [Hl Hmid]. split.
    - apply linked_names_is_path; [done| |done].
      intros nm Hnm. apply Hrooms. by destruct (Hmid nm Hnm) as (_ & _ & ?).
    - intros nm Hnm. by destruct (Hmid nm Hnm) as (? & ? & _). }
  intros ms' Hfam.
  destruct (list_elem_of_lookup_1 _ _ Hsin') as [s_id Hsid].
  destruct (list_elem_of_lookup_1 _ _ Hein') as [e_id Heid].
  assert (names ≠ []) as Hnn by (intros Hn; by rewrite Hn in Hsid).
  pose proof (residual.ek_state_inv g names s e Hnn graph0 Hdone gr Hst) as Hflow.
  destruct (residual.bfs_step g names s e Hnn graph0 Hdone gr Hflow)
    as (par & order & _ & Htree & Hno & Hyes).
  destruct (residual.visited_dec par (path.sink names e)) as [Hv|Hv].
  { destruct (Hyes Hv) as (ch & gr1 & _ & _ & _ & _ & Hb & _).
    rewrite Hb in Hmax. by injection Hmax. }
  destruct (Hno Hv) as [Hclosure _].
  pose proof (mincut.family_bound g names s e Hnames Hclosed' s_id e_id Hsid Heid
                graph0 Hdone gr Hflow order
                (residual.bt_nodup _ _ _ _ _ Htree)) as Hbound.
  specialize (Hbound
    (list_elem_of_lookup_2 _ _ _ (residual.bt_source _ _ _ _ _ Htree))).
  assert (path.sink names e ∉ order) as Hsink.
  { intros Hin. apply Hv. by apply (residual.bt_visited _ _ _ _ _ Htree). }
  specialize (Hbound Hsink Hclosure ms' Hfam). lia.
Qed.

Lemma multipath_maximum_witness :
  let g := diamond in
  let names := merge_sort String.le (map_to_list (Rooms g)).*1 in
  ∃ s e ms net0 adj net totalFlow,
    Start g = Some s ∧ End g = Some e ∧
    path.build_network g names s e = Some net0 ∧
    net0 !! path.source names s = Some adj ∧
    path.ek_loop names s e (S (length adj)) 0 net0 0 = Some (net, totalFlow) ∧
    path.MultiPath g 0 = Some (reconstruction.path_of s e <$> ms) ∧
    Z.of_nat (length ms) = totalFlow ∧
    mincut.disjoint_paths g s e ms ∧
    ∀ ms', mincut.disjoint_paths g s e ms' → (length ms' ≤ length ms)%nat.
Proof.
  apply (multipath_maximum diamond).
  apply (bool_decide_unpack _). vm_compute. reflexivity.
Defined.

(** ** The simulation: one ant per room *)

Module exclusivity.
Import scheduler.

Lemma assign_ids_positive counts : ∀ id (i : nat) q x,
  0 < id → assign_ids id counts !! i = Some q → x ∈ q → 0 < x.
Proof.
  induction counts as [|c counts IH]; intros id i q x Hid Hq Hx; [done|].
  destruct i as [|i]; simpl in Hq.
  - injection Hq as <-. apply elem_of_seqZ in Hx. lia.
  - apply (IH _ i q x) in Hq; [done| |done]. destruct (0 <? c) eqn:Hc; [|lia].
    apply Z.ltb_lt in Hc. lia.
Qed.

Section invariant.

Variable range_ants : nat → nat → gmap Z AntState → list (Z * AntState).
Variable startName endName : string.
Variable paths : list Path.

(** [range] enumerates the entries of the map, in some order. *)
Hypothesis range_ok : ∀ turn pi m, range_ants turn pi m ≡ₚ map_to_list m.

Local Abbreviation room_at := scheduler.room_at.
Local Abbreviation is_inner := (scheduler.is_inner startName endName).
Local Abbreviation is_free := (scheduler.is_free endName).

(** The room an ant of [antsState] is in. *)
Definition ant_room (a : AntState) : option string :=
  p ← paths !! PathIdx a; room_at p (Pos a).

Record sim_inv (st : sim) : Prop := {
  si_ids : ∀ k a, antsState st !! k = Some a → ID a = k ∧ k ≠ 0;
  si_occ : ∀ k a room,
    antsState st !! k = Some a → ant_room a = Some room → is_inner room = true →
    occupied st !! room = Some k;
  si_ends : occupied st !! startName = None ∧ occupied st !! endName = None;
  si_wait : ∀ (i : nat) q id, waitQueues st !! i = Some q → id ∈ q → id ≠ 0;
}.

(** The ants [posToAnt] names are ants of path [pi]. *)
Definition on_path (pi : nat) (posToAnt : gmap Z Z) (st : sim) : Prop :=
  ∀ pos antID a, posToAnt !! pos = Some antID →
                 antsState st !! antID = Some a → PathIdx a = pi.

Lemma is_inner_ne room :
  is_inner room = true → room ≠ startName ∧ room ≠ endName.
Proof.
  unfold scheduler.is_inner. intros [H1 H2]%andb_prop.
  by apply bool_decide_eq_true in H1, H2.
Qed.

Lemma is_free_inner occ room k :
  is_free occ room = true → is_inner room = true → occ !! room = Some k → k = 0.
Proof.
  intros Hfree [_ Hne]%is_inner_ne Hk. unfold scheduler.is_free in Hfree.
  apply orb_prop in Hfree as [H|H]; apply bool_decide_eq_true in H; [done|].
  by rewrite Hk in H.
Qed.

Lemma advance_at_inv (pi : nat) p posToAnt pos st moves st' moves' :
  paths !! pi = Some p → sim_inv st → on_path pi posToAnt st →
  advance_at startName endName p posToAnt pos st moves = Some (st', moves') →
  sim_inv st' ∧ on_path pi posToAnt st'.
Proof using Type.
  intros Hp Hinv Hon Hadv. unfold advance_at in Hadv.
  destruct (posToAnt !! pos) as [antID|] eqn:Hpos; [|by injection Hadv as <- <-].
  destruct (antsState st !! antID) as [a|] eqn:Ha; [|done].
  cbn [mbind option_bind] in Hadv.
  destruct (room_at p (Pos a)) as [curRoom|] eqn:Hcur; [|done].
  cbn [mbind option_bind] in Hadv.
  destruct (room_at p (Pos a + 1)) as [nextRoom|] eqn:Hnext; [|done].
  cbn [mbind option_bind] in Hadv.
  destruct (is_free (occupied st) nextRoom) eqn:Hfree; [|by injection Hadv as <- <-].
  injection Hadv as <- <-.
  pose proof (Hon pos antID a Hpos Ha) as Hpi.
  destruct (si_ids st Hinv antID a Ha) as [Hid Hnz].
  assert (ant_room a = Some curRoom) as Hroom.
  { unfold ant_room. rewrite Hpi, Hp. done. }
  set (occ1 := if is_inner curRoom then <[curRoom := 0]> (occupied st) else occupied st).
  set (occ2 := if is_inner nextRoom then <[nextRoom := antID]> occ1 else occ1).
  assert (∀ room, (is_inner curRoom = true → room ≠ curRoom) →
                  (is_inner nextRoom = true → room ≠ nextRoom) →
                  occ2 !! room = occupied st !! room) as Hframe.
  { intros room H1 H2. unfold occ2, occ1.
    destruct (is_inner nextRoom) eqn:Hn.
    - rewrite lookup_insert_ne by (intros <-; by apply H2).
      destruct (is_inner curRoom) eqn:Hc; [|done].
      by rewrite lookup_insert_ne by (intros <-; by apply H1).
    - destruct (is_inner curRoom) eqn:Hc; [|done].
      by rewrite lookup_insert_ne by (intros <-; by apply H1). }
  split; [split|]; cbn [antsState occupied waitQueues finished].
  - intros k a1 Hk. apply lookup_insert_Some in Hk as [[<- <-]|[Hne Hk]]; [done|].
    by apply (si_ids st Hinv).
  - intros k a1 room Hk Hr Hin.
    apply lookup_insert_Some in Hk as [[<- <-]|[Hne Hk]].
    + unfold ant_room in Hr. cbn [PathIdx Pos] in Hr. rewrite Hpi, Hp in Hr.
      cbn [mbind option_bind] in Hr. rewrite Hnext in Hr. injection Hr as <-.
      unfold occ2. rewrite Hin. by rewrite lookup_insert_eq.
    + pose proof (si_occ st Hinv k a1 room Hk Hr Hin) as Hocc.
      rewrite Hframe; [done| |].
      * intros Hc ->. rewrite (si_occ st Hinv antID a curRoom Ha Hroom Hc) in Hocc.
        by injection Hocc.
      * intros Hn ->. pose proof (is_free_inner _ _ _ Hfree Hn Hocc) as ->.
        by destruct (si_ids st Hinv 0 a1 Hk).
  - destruct (si_ends st Hinv) as [Hs He].
    split; (rewrite Hframe; [done| |]); intros [? ?]%is_inner_ne; congruence.
  - apply (si_wait st Hinv).
  - intros pos' antID' a' Hpos' Ha'. cbn [antsState] in Ha'.
    apply lookup_insert_Some in Ha' as [[<- <-]|[Hne Ha']]; [done|].
    by eapply Hon.
Qed.

Lemma advance_positions_inv (pi : nat) p posToAnt poss : ∀ st moves st' moves',
  paths !! pi = Some p → sim_inv st → on_path pi posToAnt st →
  advance_positions startName endName p posToAnt poss st moves = Some (st', moves') →
  sim_inv st' ∧ on_path pi posToAnt st'.
Proof using Type.
  induction poss as [|pos poss IH]; intros st moves st' moves' Hp Hinv Hon Hadv.
  { by injection Hadv as <- <-. }
  cbn [advance_positions] in Hadv.
  destruct (advance_at startName endName p posToAnt pos st moves) as [[st1 moves1]|] eqn:H1;
    [|done].
  cbn [mbind option_bind] in Hadv.
  destruct (advance_at_inv pi p posToAnt pos st moves st1 moves1 Hp Hinv Hon H1).
  by eapply IH.
Qed.

Lemma posToAnt_of_spec (pi : nat) states pos antID :
  posToAnt_of pi states !! pos = Some antID →
  ∃ k a, (k, a) ∈ states ∧ PathIdx a = pi ∧ ID a = antID.
Proof.
  unfold posToAnt_of.
  assert (∀ m0 : gmap Z Z,
    foldl (λ m ka, let a := snd ka in
                   if bool_decide (PathIdx a = pi) && (0 <? Pos a)
                   then <[Pos a := ID a]> m else m) m0 states !! pos = Some antID →
    m0 !! pos = Some antID ∨
    ∃ k a, (k, a) ∈ states ∧ PathIdx a = pi ∧ ID a = antID) as Hgen.
  { induction states as [|[k a] states IH]; intros m0 Hm; [by left|].
    simpl in Hm. apply IH in Hm as [Hm|(k' & a' & Hin & ? & ?)].
    - destruct (bool_decide (PathIdx a = pi) && (0 <? Pos a)) eqn:Hc; [|by left].
      apply andb_prop in Hc as [Hc%bool_decide_eq_true _].
      apply lookup_insert_Some in Hm as [[_ <-]|[_ Hm]]; [|by left].
      right. exists k, a. split; [apply list_elem_of_here|done].
    - right. exists k', a'. split; [by apply list_elem_of_further|done]. }
  intros Hm. apply Hgen in Hm as [Hm|Hm]; [|done]. by rewrite lookup_empty in Hm.
Qed.

Lemma advance_paths_inv (turn : nat) ps : ∀ (pi : nat) st moves st' moves',
  (∀ (i : nat) p, ps !! i = Some p → paths !! (pi + i)%nat = Some p) →
  sim_inv st →
  advance_paths range_ants startName endName turn pi ps st moves = Some (st', moves') →
  sim_inv st'.
Proof using range_ok.
  induction ps as [|p ps IH]; intros pi st moves st' moves' Hps Hinv Hadv.
  { by injection Hadv as <- <-. }
  cbn [advance_paths] in Hadv.
  set (posToAnt := posToAnt_of pi (range_ants turn pi (antsState st))) in Hadv.
  destruct (advance_positions startName endName p posToAnt (positions_down p) st moves)
    as [[st1 moves1]|] eqn:H1; [|done].
  cbn [mbind option_bind] in Hadv.
  assert (paths !! pi = Some p) as Hp.
  { specialize (Hps 0%nat p eq_refl). by rewrite Nat.add_0_r in Hps. }
  assert (on_path pi posToAnt st) as Hon.
  { intros pos antID a Hpos Ha.
    apply posToAnt_of_spec in Hpos as (k & a0 & Hin & Hpi & Hid).
    rewrite range_ok in Hin. apply elem_of_map_to_list in Hin.
    destruct (si_ids st Hinv k a0 Hin) as [Hk _].
    assert (k = antID) as -> by congruence. rewrite Hin in Ha. by injection Ha as <-. }
  destruct (advance_positions_inv pi p posToAnt _ st moves st1 moves1 Hp Hinv Hon H1)
    as [Hinv1 _].
  apply (IH (S pi) st1 moves1 st' moves'); [|done|done].
  intros i q Hq. replace (S pi + i)%nat with (pi + S i)%nat by lia. by apply Hps.
Qed.

Lemma dispatch_at_inv (pi : nat) p st moves st' moves' :
  paths !! pi = Some p → sim_inv st →
  dispatch_at startName endName pi p st moves = Some (st', moves') →
  sim_inv st'.
Proof using Type.
  intros Hp Hinv Hd. unfold dispatch_at in Hd.
  destruct (waitQueues st !! pi) as [q|] eqn:Hq; [|done].
  cbn [mbind option_bind] in Hd.
  destruct q as [|antID q']; [by injection Hd as <- <-|].
  assert (antID ≠ 0) as Hnz.
  { apply (si_wait st Hinv pi (antID :: q')); [done|apply list_elem_of_here]. }
  assert (∀ (i : nat) q0 id, <[pi := q']> (waitQueues st) !! i = Some q0 → id ∈ q0 →
                             id ≠ 0) as Hwait.
  { intros i q0 id Hi Hid.
    apply list_lookup_insert_Some in Hi as [(-> & <- & _)|[_ Hi]].
    - apply (si_wait st Hinv i (antID :: q')); [done|by apply list_elem_of_further].
    - by apply (si_wait st Hinv i q0). }
  case_bool_decide as Hlen.
  { injection Hd as <- <-. split; cbn [antsState occupied waitQueues finished set_queue];
      [apply (si_ids st Hinv)|apply (si_occ st Hinv)|apply (si_ends st Hinv)|done]. }
  destruct (PRooms p !! 1%nat) as [first|] eqn:Hfirst; [|done].
  cbn [mbind option_bind] in Hd.
  destruct (is_free (occupied st) first) eqn:Hfree; [|by injection Hd as <- <-].
  injection Hd as <- <-.
  split; cbn [antsState occupied waitQueues finished set_queue].
  - intros k a1 Hk. apply lookup_insert_Some in Hk as [[<- <-]|[Hne Hk]]; [done|].
    by apply (si_ids st Hinv).
  - intros k a1 room Hk Hr Hin.
    apply lookup_insert_Some in Hk as [[<- <-]|[Hne Hk]].
    + unfold ant_room in Hr. cbn [PathIdx Pos] in Hr. rewrite Hp in Hr.
      cbn [mbind option_bind] in Hr.
      assert (room_at p 1 = PRooms p !! 1%nat) as Hr1 by done.
      rewrite Hr1, Hfirst in Hr. injection Hr as <-.
      rewrite Hin. by rewrite lookup_insert_eq.
    + pose proof (si_occ st Hinv k a1 room Hk Hr Hin) as Hocc.
      destruct (is_inner first) eqn:Hf; [|done].
      rewrite lookup_insert_ne; [done|]. intros <-.
      pose proof (is_free_inner _ _ _ Hfree Hf Hocc) as ->.
      by destruct (si_ids st Hinv 0 a1 Hk).
  - destruct (si_ends st Hinv) as [Hs He].
    destruct (is_inner first) eqn:Hf; [|done].
    apply is_inner_ne in Hf as [? ?]. by rewrite !lookup_insert_ne.
  - done.
Qed.

Lemma dispatch_paths_inv ps : ∀ (pi : nat) st moves st' moves',
  (∀ (i : nat) p, ps !! i = Some p → paths !! (pi + i)%nat = Some p) →
  sim_inv st →
  dispatch_paths startName endName pi ps st moves = Some (st', moves') →
  sim_inv st'.
Proof using Type.
  induction ps as [|p ps IH]; intros pi st moves st' moves' Hps Hinv Hd.
  { by injection Hd as <- <-. }
  cbn [dispatch_paths] in Hd.
  destruct (dispatch_at startName endName pi p st moves) as [[st1 moves1]|] eqn:H1; [|done].
  cbn [mbind option_bind] in Hd.
  assert (paths !! pi = Some p) as Hp.
  { specialize (Hps 0%nat p eq_refl). by rewrite Nat.add_0_r in Hps. }
  pose proof (dispatch_at_inv pi p st moves st1 moves1 Hp Hinv H1) as Hinv1.
  apply (IH (S pi) st1 moves1 st' moves'); [|done|done].
  intros i q Hq. replace (S pi + i)%nat with (pi + S i)%nat by lia. by apply Hps.
Qed.

Lemma turn_step_inv (turn : nat) st st' moves :
  sim_inv st →
  turn_step range_ants startName endName turn paths st = Some (st', moves) →
  sim_inv st'.
Proof using range_ok.
  intros Hinv Hstep. unfold turn_step in Hstep.
  destruct (advance_paths range_ants startName endName turn 0 paths st [])
    as [[st1 moves1]|] eqn:H1; [|done].
  cbn [mbind option_bind] in Hstep.
  eapply (dispatch_paths_inv paths 0%nat); [done| |done].
  by eapply (advance_paths_inv turn paths 0%nat).
Qed.

End invariant.

End exclusivity.

(** The states of the turn loop of [Run]: [run_state n st] holds when [st]
    is the state of the simulation at the end of turn [n], the state before
    the first turn being [st0]. *)
Inductive run_state (range_ants : nat → nat → gmap Z scheduler.AntState →
                                  list (Z * scheduler.AntState))
    (startName endName : string) (ants : Z) (paths : list Path)
    (st0 : scheduler.sim) : nat → scheduler.sim → Prop :=
| run_state_O : run_state range_ants startName endName ants paths st0 0 st0
| run_state_S n st st' moves :
    run_state range_ants startName endName ants paths st0 n st →
    scheduler.finished st < ants →
    scheduler.turn_step range_ants startName endName n paths st = Some (st', moves) →
    run_state range_ants startName endName ants paths st0 (S n) st'.

(** The loop runs through these states: when it returns, it has stopped in
    one of them. *)
Lemma turn_loop_run_state range_ants s e ants paths st0 (fuel : nat) :
  ∀ (n : nat) st out out',
    run_state range_ants s e ants paths st0 n st →
    scheduler.turn_loop range_ants s e fuel n ants paths st out = Some out' →
    ∃ (m : nat) st',
      run_state range_ants s e ants paths st0 m st' ∧
      (ants ≤ scheduler.finished st' ∨
       ∃ st'', scheduler.turn_step range_ants s e m paths st' = Some (st'', [])).
Proof.
  induction fuel as [|fuel IH]; intros n st out out' Hst Hloop; [done|].
  cbn [scheduler.turn_loop] in Hloop.
  destruct (scheduler.finished st <? ants) eqn:Hfin.
  2:{ exists n, st. split; [done|]. left. apply Z.ltb_ge in Hfin. lia. }
  apply Z.ltb_lt in Hfin.
  destruct (scheduler.turn_step range_ants s e n paths st) as [[st1 moves]|] eqn:Hstep;
    [|done].
  cbn [mbind option_bind] in Hloop.
  destruct moves as [|mv moves].
  - exists n, st. split; [done|]. right. by exists st1.
  - eapply (IH (S n) st1); [|exact Hloop]. by eapply run_state_S.
Qed.

(** C4. In every state the simulation of [Run] is in at the end of a turn,
    two ants that are in the same room, a room that is neither the start
    nor the end room, are the same ant, and the occupancy table has no
    entry for the start room or the end room. *)
Theorem simulation_exclusive
    (sort_paths : list Path → list Path)
    (range_ants : nat → nat → gmap Z scheduler.AntState → list (Z * scheduler.AntState))
    (ants : Z) (paths : list Path) (g : Graph) (s e : string)
    (T : Z) (counts : list Z) (n : nat) (st : scheduler.sim) :
  let paths' := sort_paths paths in
  (∀ turn pi m, range_ants turn pi m ≡ₚ map_to_list m) →
  Start g = Some s → End g = Some e →
  scheduler.preallocate ants (Length <$> paths') = Some (T, counts) →
  run_state range_ants s e ants paths'
    (scheduler.mkSim ∅ ∅ (scheduler.assign_ids 1 counts) 0) n st →
  (∀ k1 k2 a1 a2 room,
     scheduler.antsState st !! k1 = Some a1 →
     scheduler.antsState st !! k2 = Some a2 →
     exclusivity.ant_room paths' a1 = Some room →
     exclusivity.ant_room paths' a2 = Some room →
     scheduler.is_inner s e room = true → k1 = k2) ∧
  scheduler.occupied st !! s = None ∧ scheduler.occupied st !! e = None.
Proof.
  intros paths' Hrange _ _ _ Hst.
  assert (exclusivity.sim_inv s e paths' st) as Hinv.
  { induction Hst as [|n st st' moves _ IH _ Hstep].
    - split; cbn [scheduler.antsState scheduler.occupied scheduler.waitQueues].
      + intros k a Hk. by rewrite lookup_empty in Hk.
      + intros k a room Hk. by rewrite lookup_empty in Hk.
      + by rewrite !lookup_empty.
      + intros i q id Hq Hid.
        pose proof (exclusivity.assign_ids_positive counts 1 i q id ltac:(lia) Hq Hid). lia.
    - by eapply exclusivity.turn_step_inv. }
  split; [|apply (exclusivity.si_ends _ _ _ _ Hinv)].
  intros k1 k2 a1 a2 room H1 H2 Hr1 Hr2 Hin.
  pose proof (exclusivity.si_occ _ _ _ _ Hinv k1 a1 room H1 Hr1 Hin) as Ho1.
  pose proof (exclusivity.si_occ _ _ _ _ Hinv k2 a2 room H2 Hr2 Hin) as Ho2.
  congruence.
Qed.

Definition two_paths : list Path :=
  [mkPath ["start"; "a"; "end"] 2; mkPath ["start"; "b"; "end"] 2].

Lemma simulation_exclusive_witness :
  let paths' := merge_sort scheduler.shorter_eq two_paths in
  let range_ants := λ (_ _ : nat) (m : gmap Z scheduler.AntState), map_to_list m in
  let st0 := scheduler.mkSim ∅ ∅ (scheduler.assign_ids 1 [2; 1]) 0 in
  let st := from_option fst st0
              (scheduler.turn_step range_ants "start" "end" 0 paths' st0) in
  (∀ k1 k2 a1 a2 room,
     scheduler.antsState st !! k1 = Some a1 →
     scheduler.antsState st !! k2 = Some a2 →
     exclusivity.ant_room paths' a1 = Some room →
     exclusivity.ant_room paths' a2 = Some room →
     scheduler.is_inner "start" "end" room = true → k1 = k2) ∧
  scheduler.occupied st !! "start" = None ∧ scheduler.occupied st !! "end" = None.
Proof.
  intros paths' range_ants st0 st.
  apply (simulation_exclusive (merge_sort scheduler.shorter_eq) range_ants 3 two_paths
           diamond "start" "end" 3 [2; 1] 1 st).
  - reflexivity.
  - reflexivity.
  - reflexivity.
  - vm_compute. reflexivity.
  - apply (run_state_S range_ants "start" "end" 3 paths' st0 0 st0 st
             ["L1-a"; "L3-b"]).
    + constructor.
    + reflexivity.
    + vm_compute. reflexivity.
Defined.

(** ** The simulation: independence of the enumeration order, termination *)

Module determinism.
Import scheduler exclusivity.

(** A path as [MultiPath] builds them: start, intermediate rooms, end. *)
Definition good_path (s e : string) (p : Path) : Prop :=
  ∃ m, PRooms p = s :: m ++ [e] ∧ Length p = Z.of_nat (length m) + 1 ∧
       ∀ nm, nm ∈ m → nm ≠ s ∧ nm ≠ e.

Lemma good_path_inner s e p pos :
  good_path s e p → 0 < pos < Length p →
  ∃ room, room_at p pos = Some room ∧ is_inner s e room = true.
Proof.
  intros (m & Hr & Hl & Hm) Hpos. unfold room_at, index_of_Z.
  destruct (Z.ltb_spec pos 0) as [|_]; [lia|]. cbn [mbind option_bind]. rewrite Hr.
  destruct (Z.to_nat pos) as [|i] eqn:Hi; [lia|]. simpl.
  assert (i < length m)%nat as Hlt by lia.
  rewrite lookup_app_l by done.
  destruct (lookup_lt_is_Some_2 m i Hlt) as [room Hroom]. exists room. split; [done|].
  destruct (Hm room) as [H1 H2]; [by eapply list_elem_of_lookup_2|].
  unfold is_inner. by rewrite !bool_decide_eq_true_2.
Qed.

Lemma good_path_room s e p pos :
  good_path s e p → 0 ≤ pos ≤ Length p → is_Some (room_at p pos).
Proof.
  intros (m & Hr & Hl & Hm) Hpos. unfold room_at, index_of_Z.
  destruct (Z.ltb_spec pos 0) as [|_]; [lia|]. cbn [mbind option_bind]. rewrite Hr.
  apply lookup_lt_is_Some_2. simpl. rewrite length_app. simpl. lia.
Qed.

Lemma good_path_end s e p room :
  good_path s e p → room_at p (Length p) = Some room → room = e.
Proof.
  intros (m & Hr & Hl & Hm). unfold room_at, index_of_Z.
  destruct (Z.ltb_spec (Length p) 0) as [|_]; [lia|]. cbn [mbind option_bind]. rewrite Hr.
  replace (Z.to_nat (Length p)) with (S (length m)) by lia. simpl.
  rewrite lookup_app_r by lia. rewrite Nat.sub_diag. simpl. congruence.
Qed.

Lemma posToAnt_of_lookup (pi : nat) states pos antID :
  posToAnt_of pi states !! pos = Some antID →
  ∃ k a, (k, a) ∈ states ∧ PathIdx a = pi ∧ 0 < Pos a ∧ Pos a = pos ∧ ID a = antID.
Proof.
  unfold posToAnt_of.
  assert (∀ m0 : gmap Z Z,
    foldl (λ m ka, let a := snd ka in
                   if bool_decide (PathIdx a = pi) && (0 <? Pos a)
                   then <[Pos a := ID a]> m else m) m0 states !! pos = Some antID →
    m0 !! pos = Some antID ∨
    ∃ k a, (k, a) ∈ states ∧ PathIdx a = pi ∧ 0 < Pos a ∧ Pos a = pos ∧ ID a = antID)
    as Hgen.
  { induction states as [|[k a] states IH]; intros m0 Hm; [by left|].
    simpl in Hm. apply IH in Hm as [Hm|(k' & a' & Hin & ?)].
    - destruct (bool_decide (PathIdx a = pi) && (0 <? Pos a)) eqn:Hc; [|by left].
      apply andb_prop in Hc as [Hc%bool_decide_eq_true Hp%Z.ltb_lt].
      apply lookup_insert_Some in Hm as [[Hpos <-]|[_ Hm]]; [|by left].
      right. exists k, a. split; [apply list_elem_of_here|done].
    - right. exists k', a'. split; [by apply list_elem_of_further|done]. }
  intros Hm. apply Hgen in Hm as [Hm|Hm]; [|done]. by rewrite lookup_empty in Hm.
Qed.

Lemma posToAnt_of_is_Some (pi : nat) states k a :
  (k, a) ∈ states → PathIdx a = pi → 0 < Pos a →
  is_Some (posToAnt_of pi states !! Pos a).
Proof.
  intros Hin Hpi Hpos. unfold posToAnt_of.
  assert (∀ m0 : gmap Z Z,
    is_Some (m0 !! Pos a) ∨ (k, a) ∈ states →
    is_Some (foldl (λ m ka, let a := snd ka in
                   if bool_decide (PathIdx a = pi) && (0 <? Pos a)
                   then <[Pos a := ID a]> m else m) m0 states !! Pos a)) as Hgen.
  { clear Hin. induction states as [|[k' a'] states IH]; intros m0 [Hm|Hin].
    - done.
    - by apply elem_of_nil in Hin.
    - simpl. apply IH. left.
      destruct (bool_decide (PathIdx a' = pi) && (0 <? Pos a')); [|done].
      destruct (decide (Pos a' = Pos a)) as [->|Hne].
      + rewrite lookup_insert_eq. by eexists.
      + by rewrite lookup_insert_ne.
    - simpl. apply IH. apply elem_of_cons in Hin as [[= <- <-]|Hin]; [|by right].
      left. rewrite bool_decide_eq_true_2 by done.
      destruct (Z.ltb_spec 0 (Pos a)) as [_|]; [|lia]. simpl.
      rewrite lookup_insert_eq. by eexists. }
  apply Hgen. by right.
Qed.

Section order.

Variable startName endName : string.
Variable paths : list Path.
Hypothesis paths_good : ∀ (pi : nat) p, paths !! pi = Some p → good_path startName endName p.

Local Abbreviation sim_inv := (sim_inv startName endName paths).

(** The ants found on the rooms of a path do not depend on the order in
    which the map of ants is enumerated. *)
Lemma posToAnt_agree (pi : nat) p st l1 l2 pos :
  sim_inv st → paths !! pi = Some p →
  l1 ≡ₚ map_to_list (antsState st) → l2 ≡ₚ map_to_list (antsState st) →
  0 ≤ pos < Length p →
  posToAnt_of pi l1 !! pos = posToAnt_of pi l2 !! pos.
Proof using paths_good.
  intros Hinv Hp H1 H2 Hpos.
  assert (∀ la lb id, la ≡ₚ map_to_list (antsState st) →
                      lb ≡ₚ map_to_list (antsState st) →
                      posToAnt_of pi la !! pos = Some id →
                      posToAnt_of pi lb !! pos = Some id) as Hone.
  { intros la lb id Ha Hb Hid.
    apply posToAnt_of_lookup in Hid as (k & a & Hin & Hpi & Hgt & Hpa & Hida).
    assert ((k, a) ∈ lb) as Hinb by (by rewrite Hb, <- Ha).
    destruct (posToAnt_of_is_Some pi lb k a Hinb Hpi Hgt) as [id' Hid'].
    rewrite Hpa in Hid'. rewrite Hid'. f_equal.
    apply posToAnt_of_lookup in Hid' as (k' & a' & Hin' & Hpi' & Hgt' & Hpa' & Hida').
    rewrite Ha in Hin. rewrite Hb in Hin'.
    apply elem_of_map_to_list in Hin, Hin'.
    destruct (si_ids _ _ _ st Hinv k a Hin) as [Hk _].
    destruct (si_ids _ _ _ st Hinv k' a' Hin') as [Hk' _].
    destruct (good_path_inner startName endName p pos (paths_good pi p Hp) ltac:(lia))
      as (room & Hroom & Hinner).
    assert (ant_room paths a = Some room) as Hr.
    { unfold ant_room. rewrite Hpi, Hp. cbn [mbind option_bind]. by rewrite Hpa. }
    assert (ant_room paths a' = Some room) as Hr'.
    { unfold ant_room. rewrite Hpi', Hp. cbn [mbind option_bind]. by rewrite Hpa'. }
    pose proof (si_occ _ _ _ st Hinv k a room Hin Hr Hinner) as Ho.
    pose proof (si_occ _ _ _ st Hinv k' a' room Hin' Hr' Hinner) as Ho'.
    congruence. }
  destruct (posToAnt_of pi l1 !! pos) as [id|] eqn:E1.
  { symmetry. by apply (Hone l1 l2). }
  destruct (posToAnt_of pi l2 !! pos) as [id|] eqn:E2; [|done].
  apply (Hone l2 l1) in E2; [|done..]. congruence.
Qed.

Lemma advance_positions_ext p (m1 m2 : gmap Z Z) poss : ∀ st moves,
  (∀ pos, pos ∈ poss → m1 !! pos = m2 !! pos) →
  advance_positions startName endName p m1 poss st moves =
  advance_positions startName endName p m2 poss st moves.
Proof using Type.
  induction poss as [|pos poss IH]; intros st moves Hagree; [done|].
  cbn [advance_positions].
  assert (advance_at startName endName p m1 pos st moves =
          advance_at startName endName p m2 pos st moves) as ->.
  { unfold advance_at. rewrite (Hagree pos); [done|apply list_elem_of_here]. }
  destruct (advance_at startName endName p m2 pos st moves) as [[st1 moves1]|]; [|done].
  cbn [mbind option_bind]. apply IH. intros pos' Hin. apply Hagree.
  by apply list_elem_of_further.
Qed.

Lemma positions_down_range p pos : pos ∈ positions_down p → 0 ≤ pos < Length p.
Proof.
  unfold positions_down. rewrite elem_of_reverse, elem_of_seqZ. lia.
Qed.

Section two_orders.

Variable ra1 ra2 : nat → nat → gmap Z AntState → list (Z * AntState).
Hypothesis ra1_ok : ∀ turn pi m, ra1 turn pi m ≡ₚ map_to_list m.
Hypothesis ra2_ok : ∀ turn pi m, ra2 turn pi m ≡ₚ map_to_list m.

Lemma advance_paths_order (turn : nat) ps : ∀ (pi : nat) st moves,
  (∀ (i : nat) p, ps !! i = Some p → paths !! (pi + i)%nat = Some p) →
  sim_inv st →
  advance_paths ra1 startName endName turn pi ps st moves =
  advance_paths ra2 startName endName turn pi ps st moves.
Proof using paths_good ra1_ok ra2_ok.
  induction ps as [|p ps IH]; intros pi st moves Hps Hinv; [done|].
  cbn [advance_paths].
  assert (paths !! pi = Some p) as Hp.
  { specialize (Hps 0%nat p eq_refl). by rewrite Nat.add_0_r in Hps. }
  rewrite (advance_positions_ext p
             (posToAnt_of pi (ra1 turn pi (antsState st)))
             (posToAnt_of pi (ra2 turn pi (antsState st)))).
  2:{ intros pos Hpos%positions_down_range.
      by apply (posToAnt_agree pi p st). }
  destruct (advance_positions startName endName p
              (posToAnt_of pi (ra2 turn pi (antsState st))) (positions_down p) st moves)
    as [[st1 moves1]|] eqn:H1; [|done].
  cbn [mbind option_bind]. apply IH.
  - intros i q Hq. replace (S pi + i)%nat with (pi + S i)%nat by lia. by apply Hps.
  - assert (on_path pi (posToAnt_of pi (ra2 turn pi (antsState st))) st) as Hon.
    { intros pos antID a Hpos Ha.
      apply posToAnt_of_lookup in Hpos as (k & a0 & Hin & Hpi & _ & _ & Hid).
      rewrite ra2_ok in Hin. apply elem_of_map_to_list in Hin.
      destruct (si_ids _ _ _ st Hinv k a0 Hin) as [Hk _].
      assert (k = antID) as -> by congruence. rewrite Hin in Ha. by injection Ha as <-. }
    by destruct (advance_positions_inv startName endName paths pi p _ _ st moves st1 moves1
                   Hp Hinv Hon H1).
Qed.

Lemma turn_step_order (turn : nat) st :
  sim_inv st →
  turn_step ra1 startName endName turn paths st =
  turn_step ra2 startName endName turn paths st.
Proof using paths_good ra1_ok ra2_ok.
  intros Hinv. unfold turn_step.
  by rewrite (advance_paths_order turn paths 0%nat st []).
Qed.

Lemma turn_loop_order (fuel : nat) : ∀ (turn : nat) ants st out,
  sim_inv st →
  turn_loop ra1 startName endName fuel turn ants paths st out =
  turn_loop ra2 startName endName fuel turn ants paths st out.
Proof using paths_good ra1_ok ra2_ok.
  induction fuel as [|fuel IH]; intros turn ants st out Hinv; [done|].
  cbn [turn_loop]. destruct (finished st <? ants); [|done].
  rewrite (turn_step_order turn st Hinv).
  destruct (turn_step ra2 startName endName turn paths st) as [[st1 moves]|] eqn:Hstep;
    [|done].
  cbn [mbind option_bind]. destruct moves as [|mv moves]; [done|].
  apply IH. by eapply (turn_step_inv ra2 startName endName paths ra2_ok turn st).
Qed.

End two_orders.

End order.


(** *** Termination of the turn loop *)

Lemma concat_pop {A} (qs : list (list A)) (pi : nat) x q' :
  qs !! pi = Some (x :: q') → concat qs ≡ₚ x :: concat (<[pi := q']> qs).
Proof.
  intros Hq. rewrite insert_take_drop by (by eapply lookup_lt_Some).
  rewrite <- (take_drop_middle qs pi (x :: q') Hq) at 1.
  rewrite !concat_app. simpl. rewrite <- Permutation_middle. done.
Qed.

Lemma assign_ids_length counts : ∀ id, length (assign_ids id counts) = length counts.
Proof. induction counts as [|c counts IH]; intros id; simpl; [done|]. by rewrite IH. Qed.

Lemma assign_ids_lower counts : ∀ id x,
  x ∈ concat (assign_ids id counts) → id ≤ x.
Proof.
  induction counts as [|c counts IH]; intros id x Hx; [by apply elem_of_nil in Hx|].
  simpl in Hx. apply elem_of_app in Hx as [Hx|Hx].
  - apply elem_of_seqZ in Hx. lia.
  - apply IH in Hx. destruct (0 <? c) eqn:Hc; [|lia]. apply Z.ltb_lt in Hc. lia.
Qed.

Lemma assign_ids_nodup counts : ∀ id, NoDup (concat (assign_ids id counts)).
Proof.
  induction counts as [|c counts IH]; intros id; simpl; [constructor|].
  apply NoDup_app. split; [apply NoDup_seqZ|]. split; [|apply IH].
  intros x Hx Hx'. apply elem_of_seqZ in Hx. apply assign_ids_lower in Hx'.
  destruct (0 <? c) eqn:Hc; [|apply Z.ltb_ge in Hc; lia]. lia.
Qed.

Definition potential_wait (qs : list (list Z)) (ps : list Path) : Z :=
  Zsum (zip_with (λ q p, Z.of_nat (length q) * Length p) qs ps).

Lemma potential_wait_pop qs : ∀ ps (pi : nat) x q' p,
  qs !! pi = Some (x :: q') → ps !! pi = Some p →
  potential_wait (<[pi := q']> qs) ps = potential_wait qs ps - Length p.
Proof.
  unfold potential_wait.
  induction qs as [|q qs IH]; intros ps pi x q' p Hq Hp; [done|].
  destruct ps as [|p0 ps]; [done|].
  destruct pi as [|pi]; simpl in Hq, Hp.
  - injection Hq as ->. injection Hp as ->.
    change (<[0%nat := q']> ((x :: q') :: qs)) with (q' :: qs).
    cbn [zip_with]. rewrite !Zsum_cons, length_cons. lia.
  - change (<[S pi := q']> (q :: qs)) with (q :: <[pi := q']> qs).
    cbn [zip_with]. rewrite !Zsum_cons.
    rewrite (IH ps pi x q' p Hq Hp). lia.
Qed.

Lemma potential_wait_nonneg qs : ∀ ps,
  Forall (λ p, 0 ≤ Length p) ps → 0 ≤ potential_wait qs ps.
Proof.
  unfold potential_wait.
  induction qs as [|q qs IH]; intros ps Hps; [done|].
  destruct ps as [|p ps]; [done|]. apply Forall_cons in Hps as [Hp Hps].
  cbn -[Z.of_nat Z.mul Zsum length]. rewrite Zsum_cons. specialize (IH ps Hps). nia.
Qed.

Lemma potential_wait_init counts : ∀ id ps,
  Forall (λ c, 0 ≤ c) counts → Forall (λ p, 0 ≤ Length p) ps →
  potential_wait (assign_ids id counts) ps = Z.of_nat (total_moves counts ps).
Proof.
  unfold potential_wait, total_moves.
  induction counts as [|c counts IH]; intros id ps Hc Hps; [done|].
  destruct ps as [|p ps]; [done|].
  apply Forall_cons in Hc as [Hc0 Hc]. apply Forall_cons in Hps as [Hp Hps].
  cbn -[Z.of_nat Z.mul Zsum length Nat.mul Z.to_nat]. rewrite Zsum_cons, length_seqZ, IH by done.
  lia.
Qed.

Section total.

Variable range_ants : nat → nat → gmap Z AntState → list (Z * AntState).
Variable startName endName : string.
Variable paths : list Path.
Hypothesis range_ok : ∀ turn pi m, range_ants turn pi m ≡ₚ map_to_list m.
Hypothesis paths_good : ∀ (pi : nat) p, paths !! pi = Some p → good_path startName endName p.

Local Abbreviation sim_inv := (sim_inv startName endName paths).

(** The steps an ant still has to take. *)
Definition remaining (a : AntState) : Z :=
  from_option (λ p, Length p - Pos a) 0 (paths !! PathIdx a).

Definition potential_ants (m : gmap Z AntState) : Z :=
  Zsum ((λ ka, remaining ka.2) <$> map_to_list m).

Definition potential (st : sim) : Z :=
  potential_ants (antsState st) + potential_wait (waitQueues st) paths.

Lemma potential_ants_insert m k a :
  m !! k = None → potential_ants (<[k := a]> m) = remaining a + potential_ants m.
Proof using Type.
  intros Hk. unfold potential_ants.
  rewrite (mincut.Zsum_perm _ ((λ ka, remaining ka.2) <$> ((k, a) :: map_to_list m))).
  - by rewrite fmap_cons, Zsum_cons.
  - by rewrite map_to_list_insert.
Qed.

Lemma potential_ants_update m k a a' :
  m !! k = Some a →
  potential_ants (<[k := a']> m) = potential_ants m - remaining a + remaining a'.
Proof using Type.
  intros Hk. rewrite <- (insert_delete_eq m k a').
  rewrite potential_ants_insert by apply lookup_delete_eq.
  rewrite <- (insert_delete_id m k a Hk) at 2.
  rewrite potential_ants_insert by apply lookup_delete_eq. lia.
Qed.

(** The invariant of the loop, with what termination needs on top of
    exclusivity. *)
Record sim_ok (st : sim) : Prop := {
  so_inv : sim_inv st;
  so_pos : ∀ k a, antsState st !! k = Some a →
                  ∃ p, paths !! PathIdx a = Some p ∧ 0 < Pos a ≤ Length p;
  so_queues : length (waitQueues st) = length paths;
  so_nodup : NoDup (concat (waitQueues st));
  so_fresh : ∀ id, id ∈ concat (waitQueues st) → antsState st !! id = None;
}.

Lemma paths_length_nonneg : Forall (λ p, 0 ≤ Length p) paths.
Proof using paths_good.
  apply Forall_lookup. intros i p Hp.
  destruct (paths_good i p Hp) as (m & _ & Hl & _). lia.
Qed.

Lemma potential_nonneg st : sim_ok st → 0 ≤ potential st.
Proof using paths_good.
  intros Hok. unfold potential.
  pose proof (potential_wait_nonneg (waitQueues st) paths paths_length_nonneg).
  assert (0 ≤ potential_ants (antsState st)); [|lia].
  apply reconstruction.Zsum_nonneg, Forall_fmap, Forall_forall.
  intros [k a] Hin%elem_of_map_to_list. simpl.
  destruct (so_pos st Hok k a Hin) as (p & Hp & Hpos).
  unfold remaining. rewrite Hp. simpl. lia.
Qed.


(** While the positions [poss] of path [pi] are still to be handled, the
    ant [posToAnt] names for one of them is there. *)
Definition tracks (pi : nat) (posToAnt : gmap Z Z) (poss : list Z) (st : sim) : Prop :=
  ∀ pos antID, pos ∈ poss → posToAnt !! pos = Some antID →
    ∃ a, antsState st !! antID = Some a ∧ PathIdx a = pi ∧ Pos a = pos.

Lemma advance_at_total (pi : nat) p posToAnt pos st moves :
  paths !! pi = Some p → sim_ok st → on_path pi posToAnt st →
  tracks pi posToAnt [pos] st → 0 ≤ pos < Length p →
  ∃ st' new,
    advance_at startName endName p posToAnt pos st moves = Some (st', moves ++ new) ∧
    sim_ok st' ∧ on_path pi posToAnt st' ∧
    potential st' + Z.of_nat (length new) = potential st ∧
    (∀ k, posToAnt !! pos ≠ Some k → antsState st' !! k = antsState st !! k).
Proof using paths_good.
  intros Hp Hok Hon Htr Hpos.
  assert (∃ st' new,
            advance_at startName endName p posToAnt pos st moves = Some (st', moves ++ new) ∧
            (new = [] ∧ st' = st ∨
             ∃ antID a tok,
               posToAnt !! pos = Some antID ∧ antsState st !! antID = Some a ∧
               PathIdx a = pi ∧ Pos a = pos ∧ new = [tok] ∧
               waitQueues st' = waitQueues st ∧
               antsState st' =
                 <[antID := mkAnt (ID a) (PathIdx a) (Pos a + 1)]> (antsState st)))
    as (st' & new & Hadv & Hcases).
  { unfold advance_at. destruct (posToAnt !! pos) as [antID|] eqn:Hlook.
    2:{ exists st, []. rewrite app_nil_r. split; [done|]. by left. }
    destruct (Htr pos antID) as (a & Ha & Hpi & Hpa); [apply list_elem_of_here|done|].
    rewrite Ha. cbn [mbind option_bind].
    destruct (good_path_room startName endName p (Pos a) (paths_good pi p Hp)) as [cur Hcur];
      [lia|].
    destruct (good_path_room startName endName p (Pos a + 1) (paths_good pi p Hp))
      as [next Hnext]; [lia|].
    rewrite Hcur. cbn [mbind option_bind]. rewrite Hnext. cbn [mbind option_bind].
    destruct (is_free endName (occupied st) next).
    - eexists _, [_]. split; [done|]. right. by exists antID, a, (move_token antID next).
    - exists st, []. rewrite app_nil_r. split; [done|]. by left. }
  exists st', new. split; [done|].
  destruct (advance_at_inv startName endName paths pi p posToAnt pos st moves st' _
              Hp (so_inv st Hok) Hon Hadv) as [Hinv' Hon'].
  destruct Hcases as [[-> ->]|(antID & a & tok & Hlook & Ha & Hpi & Hpa & -> & Hw & Hants)].
  { split; [done|]. split; [done|]. split; [simpl; lia|done]. }
  split; [|split; [done|split]].
  - split; [done|..].
    + rewrite Hants. intros k a1 Hk.
      apply lookup_insert_Some in Hk as [[<- <-]|[Hne Hk]]; [|by apply (so_pos st Hok k)].
      cbn [PathIdx Pos]. exists p. split; [by rewrite Hpi|]. lia.
    + rewrite Hw. apply (so_queues st Hok).
    + rewrite Hw. apply (so_nodup st Hok).
    + rewrite Hw, Hants. intros id Hid.
      rewrite lookup_insert_ne; [by apply (so_fresh st Hok)|].
      intros <-. rewrite (so_fresh st Hok antID Hid) in Ha. done.
  - unfold potential. rewrite Hw, Hants, (potential_ants_update _ _ a) by done.
    unfold remaining. cbn [PathIdx Pos]. rewrite Hpi, Hp. simpl. lia.
  - intros k Hk. rewrite Hants. rewrite lookup_insert_ne; [done|]. intros <-. done.
Qed.

Lemma advance_positions_total (pi : nat) p posToAnt poss : ∀ st moves,
  paths !! pi = Some p → sim_ok st → on_path pi posToAnt st →
  tracks pi posToAnt poss st → NoDup poss →
  (∀ pos, pos ∈ poss → 0 ≤ pos < Length p) →
  ∃ st' new,
    advance_positions startName endName p posToAnt poss st moves
      = Some (st', moves ++ new) ∧
    sim_ok st' ∧ potential st' + Z.of_nat (length new) = potential st.
Proof using paths_good.
  induction poss as [|pos poss IH]; intros st moves Hp Hok Hon Htr Hnd Hrange.
  { exists st, []. rewrite app_nil_r. split; [done|]. split; [done|]. simpl. lia. }
  apply NoDup_cons in Hnd as [Hnotin Hnd].
  destruct (advance_at_total pi p posToAnt pos st moves Hp Hok Hon)
    as (st1 & new1 & Hadv & Hok1 & Hon1 & Hpot1 & Hframe).
  { intros pos' antID ->%list_elem_of_singleton. apply Htr, list_elem_of_here. }
  { apply Hrange, list_elem_of_here. }
  destruct (IH st1 (moves ++ new1) Hp Hok1 Hon1) as (st' & new & Hrest & Hok' & Hpot');
    [|done| |].
  { intros pos' antID Hin Hlook.
    destruct (Htr pos' antID (list_elem_of_further _ _ _ Hin) Hlook) as (a & Ha & Hpi & Hpa).
    exists a. split; [|done]. rewrite Hframe; [done|]. intros Hsame.
    destruct (Htr pos antID (list_elem_of_here _ _) Hsame) as (a' & Ha' & _ & Hpa').
    rewrite Ha in Ha'. injection Ha' as <-. apply Hnotin. congruence. }
  { intros pos' Hin. by apply Hrange, list_elem_of_further. }
  exists st', (new1 ++ new). cbn [advance_positions]. rewrite Hadv.
  cbn [mbind option_bind]. rewrite Hrest, app_assoc. split; [done|]. split; [done|].
  rewrite length_app. lia.
Qed.

Lemma advance_paths_total (turn : nat) ps : ∀ (pi : nat) st moves,
  (∀ (i : nat) p, ps !! i = Some p → paths !! (pi + i)%nat = Some p) →
  sim_ok st →
  ∃ st' new,
    advance_paths range_ants startName endName turn pi ps st moves
      = Some (st', moves ++ new) ∧
    sim_ok st' ∧ potential st' + Z.of_nat (length new) = potential st.
Proof using paths_good range_ok.
  induction ps as [|p ps IH]; intros pi st moves Hps Hok.
  { exists st, []. rewrite app_nil_r. split; [done|]. split; [done|]. simpl. lia. }
  assert (paths !! pi = Some p) as Hp.
  { specialize (Hps 0%nat p eq_refl). by rewrite Nat.add_0_r in Hps. }
  set (posToAnt := posToAnt_of pi (range_ants turn pi (antsState st))).
  assert (∀ pos antID, posToAnt !! pos = Some antID →
            ∃ a, antsState st !! antID = Some a ∧ PathIdx a = pi ∧ Pos a = pos) as Hfound.
  { intros pos antID Hlook.
    apply posToAnt_of_lookup in Hlook as (k & a & Hin & Hpi & _ & Hpa & Hid).
    rewrite range_ok in Hin. apply elem_of_map_to_list in Hin.
    destruct (si_ids _ _ _ st (so_inv st Hok) k a Hin) as [Hk _].
    exists a. split; [congruence|done]. }
  destruct (advance_positions_total pi p posToAnt (positions_down p) st moves Hp Hok)
    as (st1 & new1 & Hadv & Hok1 & Hpot1).
  { intros pos antID a Hlook Ha. destruct (Hfound pos antID Hlook) as (a' & Ha' & ? & _).
    rewrite Ha in Ha'. by injection Ha' as <-. }
  { intros pos antID _ Hlook. by apply Hfound. }
  { unfold positions_down. rewrite reverse_Permutation. apply NoDup_seqZ. }
  { apply positions_down_range. }
  destruct (IH (S pi) st1 (moves ++ new1)) as (st' & new & Hrest & Hok' & Hpot'); [|done|].
  { intros i q Hq. replace (S pi + i)%nat with (pi + S i)%nat by lia. by apply Hps. }
  exists st', (new1 ++ new). cbn [advance_paths]. fold posToAnt. rewrite Hadv.
  cbn [mbind option_bind]. rewrite Hrest, app_assoc. split; [done|]. split; [done|].
  rewrite length_app. lia.
Qed.


Lemma dispatch_at_total (pi : nat) p st moves :
  paths !! pi = Some p → sim_ok st →
  ∃ st' new,
    dispatch_at startName endName pi p st moves = Some (st', moves ++ new) ∧
    sim_ok st' ∧ potential st' + Z.of_nat (length new) = potential st.
Proof using paths_good.
  intros Hp Hok.
  destruct (lookup_lt_is_Some_2 (waitQueues st) pi) as [q Hq].
  { rewrite (so_queues st Hok). by eapply lookup_lt_Some. }
  destruct (paths_good pi p Hp) as (m & Hrooms & Hlen & Hm).
  assert (∃ st' new,
            dispatch_at startName endName pi p st moves = Some (st', moves ++ new) ∧
            (new = [] ∧ st' = st ∨
             ∃ antID q' tok,
               q = antID :: q' ∧ new = [tok] ∧
               waitQueues st' = <[pi := q']> (waitQueues st) ∧
               (antsState st' = antsState st ∧ Length p = 1 ∨
                antsState st' = <[antID := mkAnt antID pi 1]> (antsState st))))
    as (st' & new & Hd & Hcases).
  { unfold dispatch_at. rewrite Hq. cbn [mbind option_bind].
    destruct q as [|antID q'].
    { exists st, []. rewrite app_nil_r. split; [done|]. by left. }
    case_bool_decide as Hl.
    { eexists _, [_]. split; [done|]. right. exists antID, q', (move_token antID endName).
      split; [done|]. split; [done|]. split; [done|]. left. split; [done|].
      rewrite Hrooms in Hl. simpl in Hl. rewrite length_app in Hl. simpl in Hl. lia. }
    destruct m as [|first m'].
    { rewrite Hrooms in Hl. done. }
    rewrite Hrooms. cbn [lookup list_lookup app mbind option_bind].
    destruct (is_free endName (occupied st) first).
    - eexists _, [_]. split; [done|]. right. exists antID, q', (move_token antID first).
      split; [done|]. split; [done|]. split; [done|]. by right.
    - exists st, []. rewrite app_nil_r. split; [done|]. by left. }
  exists st', new. split; [done|].
  pose proof (dispatch_at_inv startName endName paths pi p st moves st' _ Hp
                (so_inv st Hok) Hd) as Hinv'.
  destruct Hcases as [[-> ->]|(antID & q' & tok & -> & -> & Hw & Hants)].
  { split; [done|]. simpl. lia. }
  pose proof (concat_pop (waitQueues st) pi antID q' Hq) as Hperm.
  pose proof (so_nodup st Hok) as Hnd. rewrite Hperm in Hnd.
  apply NoDup_cons in Hnd as [Hnotin Hnd].
  assert (antsState st !! antID = None) as Hfresh.
  { apply (so_fresh st Hok). rewrite Hperm. apply list_elem_of_here. }
  assert (∀ id, id ∈ concat (<[pi := q']> (waitQueues st)) →
                id ≠ antID ∧ antsState st !! id = None) as Hrest.
  { intros id Hid. split; [by intros ->|].
    apply (so_fresh st Hok). rewrite Hperm. by apply list_elem_of_further. }
  destruct Hants as [[Hants Hone]|Hants].
  - split.
    + split; [done|..].
      * rewrite Hants. apply (so_pos st Hok).
      * rewrite Hw, length_insert. apply (so_queues st Hok).
      * by rewrite Hw.
      * rewrite Hw, Hants. intros id Hid. by apply Hrest.
    + unfold potential. rewrite Hw, Hants.
      rewrite (potential_wait_pop _ _ _ antID q' p Hq Hp). simpl. lia.
  - split.
    + split; [done|..].
      * rewrite Hants. intros k a Hk.
        apply lookup_insert_Some in Hk as [[<- <-]|[Hne Hk]]; [|by apply (so_pos st Hok k)].
        cbn [PathIdx Pos]. exists p. split; [done|]. lia.
      * rewrite Hw, length_insert. apply (so_queues st Hok).
      * by rewrite Hw.
      * rewrite Hw, Hants. intros id Hid. destruct (Hrest id Hid) as [Hne Hnone].
        by rewrite lookup_insert_ne.
    + unfold potential. rewrite Hw, Hants.
      rewrite (potential_wait_pop _ _ _ antID q' p Hq Hp).
      rewrite potential_ants_insert by done.
      unfold remaining. cbn [PathIdx Pos]. rewrite Hp. simpl. lia.
Qed.

Lemma dispatch_paths_total ps : ∀ (pi : nat) st moves,
  (∀ (i : nat) p, ps !! i = Some p → paths !! (pi + i)%nat = Some p) →
  sim_ok st →
  ∃ st' new,
    dispatch_paths startName endName pi ps st moves = Some (st', moves ++ new) ∧
    sim_ok st' ∧ potential st' + Z.of_nat (length new) = potential st.
Proof using paths_good.
  induction ps as [|p ps IH]; intros pi st moves Hps Hok.
  { exists st, []. rewrite app_nil_r. split; [done|]. split; [done|]. simpl. lia. }
  assert (paths !! pi = Some p) as Hp.
  { specialize (Hps 0%nat p eq_refl). by rewrite Nat.add_0_r in Hps. }
  destruct (dispatch_at_total pi p st moves Hp Hok) as (st1 & new1 & Hd & Hok1 & Hpot1).
  destruct (IH (S pi) st1 (moves ++ new1)) as (st' & new & Hrest & Hok' & Hpot'); [|done|].
  { intros i q Hq. replace (S pi + i)%nat with (pi + S i)%nat by lia. by apply Hps. }
  exists st', (new1 ++ new). cbn [dispatch_paths]. rewrite Hd.
  cbn [mbind option_bind]. rewrite Hrest, app_assoc. split; [done|]. split; [done|].
  rewrite length_app. lia.
Qed.

(** A turn never fails, and it uses up one unit of the potential for each
    move it prints. *)
Lemma turn_step_total (turn : nat) st :
  sim_ok st →
  ∃ st' moves,
    turn_step range_ants startName endName turn paths st = Some (st', moves) ∧
    sim_ok st' ∧ potential st' + Z.of_nat (length moves) = potential st.
Proof using paths_good range_ok.
  intros Hok. unfold turn_step.
  destruct (advance_paths_total turn paths 0%nat st [] ltac:(done) Hok)
    as (st1 & new1 & H1 & Hok1 & Hpot1).
  rewrite H1. cbn [mbind option_bind].
  destruct (dispatch_paths_total paths 0%nat st1 ([] ++ new1) ltac:(done) Hok1)
    as (st' & new & H2 & Hok' & Hpot').
  rewrite H2. exists st', (([] ++ new1) ++ new). split; [done|]. split; [done|].
  rewrite !length_app. simpl. lia.
Qed.

Lemma turn_loop_total (fuel : nat) : ∀ (turn : nat) ants st out,
  sim_ok st → potential st < Z.of_nat fuel →
  is_Some (turn_loop range_ants startName endName fuel turn ants paths st out).
Proof using paths_good range_ok.
  induction fuel as [|fuel IH]; intros turn ants st out Hok Hpot.
  { pose proof (potential_nonneg st Hok). lia. }
  cbn [turn_loop]. destruct (finished st <? ants); [|done].
  destruct (turn_step_total turn st Hok) as (st' & moves & Hstep & Hok' & Hpot').
  rewrite Hstep. cbn [mbind option_bind].
  destruct moves as [|mv moves]; [done|].
  apply IH; [done|]. simpl length in Hpot'. lia.
Qed.

Lemma sim_ok_init counts :
  length counts = length paths →
  sim_ok (mkSim ∅ ∅ (assign_ids 1 counts) 0).
Proof using Type.
  intros Hlen. split; cbn [antsState occupied waitQueues].
  - split; cbn [antsState occupied waitQueues].
    + intros k a Hk. by rewrite lookup_empty in Hk.
    + intros k a room Hk. by rewrite lookup_empty in Hk.
    + by rewrite !lookup_empty.
    + intros i q id Hq Hid.
      pose proof (assign_ids_positive counts 1 i q id ltac:(lia) Hq Hid). lia.
  - intros k a Hk. by rewrite lookup_empty in Hk.
  - by rewrite assign_ids_length.
  - apply assign_ids_nodup.
  - intros id _. apply lookup_empty.
Qed.

End total.

End determinism.

(** ** Determinism of the pipeline *)

(** What [sort.Slice] guarantees for the comparison [Run] passes. *)
Definition sorts_by_length (sort_paths : list Path → list Path) : Prop :=
  ∀ l, sort_paths l ≡ₚ l ∧ Sorted scheduler.shorter_eq (sort_paths l).

(** The sorted list of room names does not depend on the order in which the
    map of rooms is enumerated. *)
Lemma MultiPath_from_order (g : Graph) (keys1 keys2 : list string) (maxPaths : Z) :
  keys1 ≡ₚ keys2 →
  path.MultiPath_from keys1 g maxPaths = path.MultiPath_from keys2 g maxPaths.
Proof.
  intros Hk. unfold path.MultiPath_from.
  assert (merge_sort String.le keys1 = merge_sort String.le keys2) as ->; [|done].
  apply (Sorted_unique String.le); [apply Sorted_merge_sort, _..|].
  by rewrite !merge_sort_Permutation.
Qed.

Lemma path_of_good (s e : string) (m : list string) :
  (∀ nm, nm ∈ m → nm ≠ s ∧ nm ≠ e) →
  determinism.good_path s e (reconstruction.path_of s e m).
Proof.
  intros Hm. exists m. cbn [reconstruction.path_of PRooms Length app].
  split; [done|]. split; [|done].
  cbn [length]. rewrite length_app. simpl. lia.
Qed.

(** On paths as [MultiPath] builds them, what [Run] does is the same in
    whatever order the map of ants is enumerated. *)
Lemma Run_order_eq sort_paths ra1 ra2 (ants : Z) (paths : list Path) (g : Graph) s e :
  sorts_by_length sort_paths →
  (∀ turn pi m, ra1 turn pi m ≡ₚ map_to_list m) →
  (∀ turn pi m, ra2 turn pi m ≡ₚ map_to_list m) →
  Start g = Some s → End g = Some e →
  (∀ p, p ∈ paths → determinism.good_path s e p) →
  scheduler.Run sort_paths ra1 ants paths g = scheduler.Run sort_paths ra2 ants paths g.
Proof.
  intros Hsort H1 H2 Hs He Hgood. unfold scheduler.Run.
  destruct ((ants <=? 0) || bool_decide (paths = [])) eqn:Hc; [done|].
  destruct (Hsort paths) as [Hperm Hsorted].
  set (paths' := sort_paths paths) in *.
  assert (∀ (pi : nat) p, paths' !! pi = Some p → determinism.good_path s e p) as Hgood'.
  { intros pi p Hp. apply Hgood. rewrite <- Hperm. by eapply list_elem_of_lookup_2. }
  destruct (scheduler.preallocate ants (Length <$> paths')) as [[T counts]|] eqn:Hpre;
    [|done].
  apply balancer.preallocate_length in Hpre as Hlen.
  cbn [mbind option_bind]. rewrite Hs, He. cbn [mbind option_bind].
  rewrite length_fmap in Hlen.
  pose proof (determinism.sim_ok_init s e paths' counts Hlen) as Hok.
  rewrite (determinism.turn_loop_order s e paths' Hgood' ra1 ra2 H1 H2);
    [done|apply (determinism.so_inv _ _ _ _ Hok)].
Qed.

(** Within the range of [int], [Run] returns. *)
Lemma Run_returns sort_paths ra (ants : Z) (paths : list Path) (g : Graph) s e :
  sorts_by_length sort_paths →
  (∀ turn pi m, ra turn pi m ≡ₚ map_to_list m) →
  Start g = Some s → End g = Some e →
  (∀ p, p ∈ paths → determinism.good_path s e p) →
  balancer.in_range ants (Length <$> paths) →
  ∃ out, scheduler.Run sort_paths ra ants paths g = Some out.
Proof.
  intros Hsort H2 Hs He Hgood Hrange. unfold scheduler.Run.
  destruct ((ants <=? 0) || bool_decide (paths = [])) eqn:Hc; [by exists []|].
  apply orb_false_elim in Hc as [Hants%Z.leb_gt Hne%bool_decide_eq_false].
  destruct (Hsort paths) as [Hperm Hsorted].
  set (paths' := sort_paths paths) in *.
  assert (∀ (pi : nat) p, paths' !! pi = Some p → determinism.good_path s e p) as Hgood'.
  { intros pi p Hp. apply Hgood. rewrite <- Hperm. by eapply list_elem_of_lookup_2. }
  destruct (balancer.preallocate_fits_spec ants (Length <$> paths'))
    as (T & counts & Hpre & Hlen & _ & Hcounts & _).
  { intros Hnil. apply fmap_nil_inv in Hnil. rewrite Hnil in Hperm.
    by apply Permutation_nil_l in Hperm. }
  { done. }
  { by apply (Sorted_fmap _ scheduler.shorter_eq). }
  { apply Forall_fmap, Forall_lookup. intros i p Hp.
    destruct (Hgood' i p Hp) as (m & _ & Hl & _). simpl. lia. }
  { apply (balancer.in_range_perm ants (Length <$> paths)); [|done].
    by apply fmap_Permutation. }
  rewrite Hpre. cbn [mbind option_bind]. rewrite Hs, He. cbn [mbind option_bind].
  rewrite length_fmap in Hlen.
  pose proof (determinism.sim_ok_init s e paths' counts Hlen) as Hok.
  destruct (determinism.turn_loop_total ra s e paths' H2 Hgood'
              (S (scheduler.total_moves counts paths')) 0 ants _ [] Hok) as [out Hout].
  { unfold determinism.potential. cbn [scheduler.antsState scheduler.waitQueues].
    unfold determinism.potential_ants. rewrite map_to_list_empty. simpl.
    rewrite determinism.potential_wait_init; [lia| |].
    - apply Forall_lookup. intros i x Hx.
      destruct (lookup_lt_is_Some_2 (Length <$> paths') i) as [L HL].
      { rewrite length_fmap, <- Hlen. by eapply lookup_lt_Some. }
      by destruct (Hcounts i L x HL Hx).
    - by apply (determinism.paths_length_nonneg s e). }
  by exists out.
Qed.

(** *** The paths of [MultiPath] and the range of [int] *)

(** The ant count and twice the number of rooms together stay below
    [2^63]. *)
Definition fits_int (ants : Z) (g : Graph) : Prop :=
  ants + 2 * Z.of_nat (size (Rooms g)) < 2 ^ 63.

Lemma length_le_concat (ms : list (list string)) :
  Forall (λ m, m ≠ []) ms → (length ms ≤ length (concat ms))%nat.
Proof.
  induction 1 as [|m ms Hm _ IH]; [done|].
  cbn [concat length]. rewrite length_app. destruct m; [done|]. simpl. lia.
Qed.

Lemma one_direct_length (ms : list (list string)) :
  reconstruction.one_direct ms → (length ms ≤ S (length (concat ms)))%nat.
Proof.
  induction ms as [|m ms IH]; intros Hone; [simpl; lia|].
  cbn [concat length]. rewrite length_app.
  destruct m as [|x m].
  - assert (Forall (λ m, m ≠ []) ms) as Hall.
    { apply Forall_lookup. intros j m Hj ->.
      by specialize (Hone 0%nat (S j) eq_refl Hj). }
    apply length_le_concat in Hall. simpl. lia.
  - assert (reconstruction.one_direct ms) as Hone'.
    { intros i j Hi Hj. by specialize (Hone (S i) (S j) Hi Hj) as [= ->]. }
    specialize (IH Hone'). simpl. lia.
Qed.

Lemma elem_concat_length (m : list string) (ms : list (list string)) :
  m ∈ ms → (length m ≤ length (concat ms))%nat.
Proof.
  induction ms as [|m' ms IH]; [by intros ?%elem_of_nil|].
  cbn [concat]. rewrite length_app.
  intros [->|Hm]%elem_of_cons; [lia|]. specialize (IH Hm). lia.
Qed.

Lemma elem_of_concat_inv {A} (ms : list (list A)) (x : A) :
  x ∈ concat ms → ∃ m, m ∈ ms ∧ x ∈ m.
Proof.
  induction ms as [|m ms IH]; cbn [concat]; [by intros ?%elem_of_nil|].
  intros [H|H]%elem_of_app.
  - exists m. split; [by left|done].
  - destruct (IH H) as (m' & ? & ?). exists m'. split; [by right|done].
Qed.

(** The paths of [MultiPath] are fewer than the rooms, and shorter than
    the number of rooms. *)
Lemma multipath_in_range (g : Graph) (s e : string) (ms : list (list string)) (ants : Z) :
  s ≠ e → is_Some (Rooms g !! s) → is_Some (Rooms g !! e) →
  NoDup (concat ms) →
  reconstruction.one_direct ms →
  (∀ m, m ∈ ms → ∀ nm, nm ∈ m → nm ≠ s ∧ nm ≠ e ∧ is_Some (Rooms g !! nm)) →
  fits_int ants g →
  balancer.in_range ants (Length <$> (reconstruction.path_of s e <$> ms)).
Proof.
  intros Hse Hs He Hnd Hone Hall Hfit. unfold fits_int in Hfit.
  assert (∀ nm, nm ∈ concat ms → nm ≠ s ∧ nm ≠ e ∧ is_Some (Rooms g !! nm)) as Hin.
  { intros nm (m & Hm & Hnm)%elem_of_concat_inv. by apply (Hall m). }
  assert (length (s :: e :: concat ms) ≤ size (Rooms g))%nat as Hsize.
  { rewrite <- length_map_to_list, <- (length_fmap fst).
    apply submseteq_length, NoDup_submseteq.
    - apply NoDup_cons. split.
      + intros [->|Hc]%elem_of_cons; [done|]. by destruct (Hin s Hc).
      + apply NoDup_cons. split; [|done]. intros Hc. by destruct (Hin e Hc) as (_ & ? & _).
    - intros nm Hnm.
      assert (is_Some (Rooms g !! nm)) as [r Hr].
      { apply elem_of_cons in Hnm as [->|Hnm]; [done|].
        apply elem_of_cons in Hnm as [->|Hnm]; [done|]. by apply Hin. }
      apply list_elem_of_fmap. exists (nm, r). split; [done|].
      by apply elem_of_map_to_list. }
  cbn [length] in Hsize.
  pose proof (one_direct_length ms Hone) as Hcount.
  unfold balancer.in_range. rewrite !length_fmap.
  apply Forall_fmap, Forall_fmap, Forall_forall. intros m Hm.
  pose proof (elem_concat_length m ms Hm).
  simpl. rewrite length_app. simpl. lia.
Qed.

(** *** The graphs the parser builds are valid *)

Module parser_graph.
Import parser.

Definition links_ok (g : Graph) : Prop := map_Forall (valid_room g) (Rooms g).

Record graph_inv (g : Graph) : Prop := {
  gi_links : links_ok g;
  gi_start : ∀ s, Start g = Some s → is_Some (Rooms g !! s);
  gi_end : ∀ e, End g = Some e → is_Some (Rooms g !! e);
  gi_distinct : ∀ s e, Start g = Some s → End g = Some e → s ≠ e;
}.

(** Links that lead back in [g] lead back in a graph with more links. *)
Lemma links_back_mono (g g1 : Graph) nm nb :
  (∀ r, Rooms g !! nb = Some r →
        ∃ r1, Rooms g1 !! nb = Some r1 ∧ ∀ x, x ∈ Links r → x ∈ Links r1) →
  links_back g nm nb → links_back g1 nm nb.
Proof.
  intros Hmono. unfold links_back.
  destruct (Rooms g !! nb) as [r|] eqn:Hr; [|done].
  destruct (Hmono r eq_refl) as (r1 & -> & Hsub). apply Hsub.
Qed.

Lemma valid_room_mono (g g1 : Graph) nm r :
  (∀ nb r0, Rooms g !! nb = Some r0 →
            ∃ r1, Rooms g1 !! nb = Some r1 ∧ ∀ x, x ∈ Links r0 → x ∈ Links r1) →
  valid_room g nm r → valid_room g1 nm r.
Proof.
  intros Hmono (Hnd & Hself & Hback). split; [done|]. split; [done|].
  eapply Forall_impl; [exact Hback|]. intros nb. apply links_back_mono.
  intros r0. apply Hmono.
Qed.

Lemma AddRoom_links_ok (g : Graph) name x y :
  Rooms g !! name = None → links_ok g →
  Rooms (AddRoom g name x y).1 = <[name := mkRoom name x y []]> (Rooms g) ∧
  Name (AddRoom g name x y).2 = name ∧
  links_ok (AddRoom g name x y).1.
Proof.
  intros Hnew Hok. unfold AddRoom. rewrite Hnew. cbn [fst snd Rooms Name].
  split; [done|]. split; [done|]. unfold links_ok. cbn [Rooms].
  apply map_Forall_insert; [done|]. split.
  - split; [constructor|]. split; [by intros ?%elem_of_nil|constructor].
  - intros nm r Hr. eapply valid_room_mono; [|by apply Hok].
    intros nb r0 Hr0. exists r0. split; [|done]. cbn [Rooms].
    rewrite lookup_insert_ne; [done|]. intros <-. congruence.
Qed.

Lemma AddLink_links_ok (g g1 : Graph) a b :
  AddLink g a b = (g1, true) → links_ok g →
  links_ok g1 ∧ ∀ nm, is_Some (Rooms g1 !! nm) ↔ is_Some (Rooms g !! nm).
Proof.
  intros Hadd Hok. unfold AddLink in Hadd.
  destruct (Rooms g !! a) as [ra|] eqn:Ha; [|done].
  destruct (Rooms g !! b) as [rb|] eqn:Hb; [|done].
  case_bool_decide as Hab; [done|]. case_bool_decide as Hin; [done|].
  injection Hadd as <-.
  destruct (Hok a ra Ha) as (Hnda & Hselfa & Hbacka).
  destruct (Hok b rb Hb) as (Hndb & Hselfb & Hbackb).
  assert (a ∉ Links rb) as Hin'.
  { intros Hx. rewrite Forall_forall in Hbackb. specialize (Hbackb a Hx).
    unfold links_back in Hbackb. rewrite Ha in Hbackb. done. }
  set (g1 := mkGraph (<[b := add_link_to rb a]> (<[a := add_link_to ra b]> (Rooms g)))
                (Start g) (End g)).
  assert (∀ nb r0, Rooms g !! nb = Some r0 →
            ∃ r1, Rooms g1 !! nb = Some r1 ∧ ∀ x, x ∈ Links r0 → x ∈ Links r1) as Hmono.
  { intros nb r0 Hr0. cbn [g1 Rooms].
    destruct (decide (nb = b)) as [->|Hnb].
    { rewrite lookup_insert_eq. eexists. split; [done|]. rewrite Hb in Hr0.
      injection Hr0 as <-. intros x Hx. cbn [add_link_to Links]. apply elem_of_app. by left. }
    rewrite lookup_insert_ne by done.
    destruct (decide (nb = a)) as [->|Hna].
    { rewrite lookup_insert_eq. eexists. split; [done|]. rewrite Ha in Hr0.
      injection Hr0 as <-. intros x Hx. cbn [add_link_to Links]. apply elem_of_app. by left. }
    rewrite lookup_insert_ne by done. by exists r0. }
  assert (Rooms g1 !! a = Some (add_link_to ra b)) as Ha1.
  { cbn [g1 Rooms]. rewrite lookup_insert_ne by done. by rewrite lookup_insert_eq. }
  assert (Rooms g1 !! b = Some (add_link_to rb a)) as Hb1.
  { cbn [g1 Rooms]. by rewrite lookup_insert_eq. }
  split.
  - intros nm r Hr. cbn [g1 Rooms] in Hr.
    apply lookup_insert_Some in Hr as [[<- <-]|[Hnb Hr]].
    { split; [|split]; cbn [add_link_to Links].
      - apply NoDup_app. split; [done|]. split; [|apply NoDup_singleton].
        intros x Hx ->%list_elem_of_singleton. done.
      - intros [Hx|Hx%list_elem_of_singleton]%elem_of_app; [done|]. by subst.
      - apply Forall_app. split.
        + eapply Forall_impl; [exact Hbackb|]. intros nb. apply links_back_mono.
          intros r0. apply Hmono.
        + constructor; [|constructor]. unfold links_back. rewrite Ha1.
          cbn [add_link_to Links]. apply elem_of_app. right. apply list_elem_of_here. }
    apply lookup_insert_Some in Hr as [[<- <-]|[Hna Hr]].
    { split; [|split]; cbn [add_link_to Links].
      - apply NoDup_app. split; [done|]. split; [|apply NoDup_singleton].
        intros x Hx ->%list_elem_of_singleton. done.
      - intros [Hx|Hx%list_elem_of_singleton]%elem_of_app; [done|]. by subst.
      - apply Forall_app. split.
        + eapply Forall_impl; [exact Hbacka|]. intros nb. apply links_back_mono.
          intros r0. apply Hmono.
        + constructor; [|constructor]. unfold links_back. rewrite Hb1.
          cbn [add_link_to Links]. apply elem_of_app. right. apply list_elem_of_here. }
    eapply valid_room_mono; [exact Hmono|]. by apply Hok.
  - intros nm. cbn [g1 Rooms].
    destruct (decide (nm = b)) as [->|Hnb].
    { rewrite lookup_insert_eq, Hb. split; by eexists. }
    rewrite lookup_insert_ne by done.
    destruct (decide (nm = a)) as [->|Hna].
    { rewrite lookup_insert_eq, Ha. split; by eexists. }
    by rewrite lookup_insert_ne.
Qed.

Lemma parse_line_graph st line st' :
  parse_line st line = inr st' → graph_inv (ps_graph st) → graph_inv (ps_graph st').
Proof.
  intros Hline Hinv. unfold parse_line in Hline.
  case_bool_decide; [done|].
  destruct (String.prefix "#" line).
  { destruct (String.prefix "##" line); [|by injection Hline as <-].
    destruct (bool_decide (line = "##start") || bool_decide (line = "##end"));
      by injection Hline as <-. }
  case_bool_decide.
  { destruct (Atoi line) as [ants ok]. destruct (negb ok || (ants <=? 0)); [done|].
    by injection Hline as <-. }
  assert (∀ a b, linkLineRe line = Some (a, b) →
            match Start (ps_graph st), End (ps_graph st) with
            | Some _, Some _ =>
                let '(g1, ok) := AddLink (ps_graph st) a b in
                if ok then
                  inr (mkPState (ps_ants st) g1 (ps_lines st ++ [line])
                         PhLinks (ps_pending st))
                else inl (errInvalid +:+ ", invalid link")
            | _, _ => inl (errInvalid +:+ ", missing start or end")
            end = inr st' → graph_inv (ps_graph st')) as Hlink.
  { intros a b _ Hl.
    destruct (Start (ps_graph st)) as [s|] eqn:Hs; [|done].
    destruct (End (ps_graph st)) as [e|] eqn:He; [|done].
    destruct (AddLink (ps_graph st) a b) as [g1 ok] eqn:Hadd.
    destruct ok; [|done]. injection Hl as <-. cbn [ps_graph].
    destruct (AddLink_links_ok _ _ _ _ Hadd (gi_links _ Hinv)) as [Hok Hdom].
    pose proof (AddLink_Start (ps_graph st) a b) as HS.
    pose proof (AddLink_End (ps_graph st) a b) as HE.
    rewrite Hadd in HS, HE. cbn [fst] in HS, HE.
    split; [done|..].
    - intros s' Hs'. rewrite HS in Hs'. apply Hdom. by apply (gi_start _ Hinv).
    - intros e' He'. rewrite HE in He'. apply Hdom. by apply (gi_end _ Hinv).
    - intros s' e' Hs' He'. rewrite HS in Hs'. rewrite HE in He'.
      by apply (gi_distinct _ Hinv). }
  destruct (roomLineRe line) as [[[name xs] ys]|] eqn:Hroom.
  2:{ destruct (linkLineRe line) as [[a b]|] eqn:Hlk; [by eapply Hlink|].
      by case_bool_decide. }
  case_bool_decide as Hph.
  2:{ destruct (linkLineRe line) as [[a b]|] eqn:Hlk; [by eapply Hlink|].
      by case_bool_decide. }
  destruct (Rooms (ps_graph st) !! name) as [r0|] eqn:Hname; [done|].
  destruct (AddRoom_links_ok (ps_graph st) name (Atoi xs).1 (Atoi ys).1 Hname
              (gi_links _ Hinv)) as (Hrooms & Hnm & Hok).
  pose proof (AddRoom_Start (ps_graph st) name (Atoi xs).1 (Atoi ys).1) as HS.
  pose proof (AddRoom_End (ps_graph st) name (Atoi xs).1 (Atoi ys).1) as HE.
  destruct (AddRoom (ps_graph st) name (Atoi xs).1 (Atoi ys).1) as [g1 r] eqn:Hadd.
  cbn [fst snd] in *.
  assert (∀ nm, is_Some (Rooms (ps_graph st) !! nm) → is_Some (Rooms g1 !! nm) ∧ nm ≠ name)
    as Hold.
  { intros nm Hsome. assert (nm ≠ name) as Hne.
    { intros ->. rewrite Hname in Hsome. by destruct Hsome. }
    split; [|done]. rewrite Hrooms. by rewrite lookup_insert_ne. }
  assert (is_Some (Rooms g1 !! name)) as Hnew.
  { rewrite Hrooms, lookup_insert_eq. by eexists. }
  assert (graph_inv g1) as Hinv1.
  { split; [done|..].
    - intros s Hs. rewrite HS in Hs. by apply Hold, (gi_start _ Hinv).
    - intros e He. rewrite HE in He. by apply Hold, (gi_end _ Hinv).
    - intros s e Hs He. rewrite HS in Hs. rewrite HE in He. by apply (gi_distinct _ Hinv). }
  case_bool_decide.
  { destruct (Start g1) as [s|] eqn:Hs1; [done|]. injection Hline as <-.
    cbn [ps_graph]. split; cbn [set_start Rooms Start End].
    - intros nm r1 Hr1. eapply valid_room_mono; [|by apply (gi_links _ Hinv1 nm r1)].
      intros nb r2 Hr2. by exists r2.
    - intros s [= <-]. by rewrite Hnm.
    - apply (gi_end _ Hinv1).
    - intros s e [= <-] He. rewrite Hnm. rewrite HE in He.
      destruct (Hold e (gi_end _ Hinv e He)) as [_ Hne]. congruence. }
  case_bool_decide.
  { destruct (End g1) as [e|] eqn:He1; [done|]. injection Hline as <-.
    cbn [ps_graph]. split; cbn [set_end Rooms Start End].
    - intros nm r1 Hr1. eapply valid_room_mono; [|by apply (gi_links _ Hinv1 nm r1)].
      intros nb r2 Hr2. by exists r2.
    - apply (gi_start _ Hinv1).
    - intros e [= <-]. by rewrite Hnm.
    - intros s e Hs [= <-]. rewrite Hnm. rewrite HS in Hs.
      by destruct (Hold s (gi_start _ Hinv s Hs)) as [_ Hne]. }
  by injection Hline as <-.
Qed.

Lemma parse_loop_graph input : ∀ st st',
  parse_loop st input = inr st' → graph_inv (ps_graph st) → graph_inv (ps_graph st').
Proof.
  induction input as [|line input IH]; intros st st' Hloop Hinv.
  { by injection Hloop as <-. }
  cbn [parse_loop] in Hloop.
  destruct (parse_line st line) as [err|st1] eqn:Hline; [done|].
  apply (IH st1 st' Hloop). by eapply parse_line_graph.
Qed.

(** An accepted input yields a valid graph. *)
Lemma Parse_valid (input : list string) (res : Result) :
  Parse input = inr res → valid_graph (RGraph res).
Proof.
  unfold Parse, Parse_scanner. intros HP.
  destruct (parse_loop init_pstate input) as [err|st] eqn:Hloop; [done|].
  assert (graph_inv (ps_graph st)) as Hinv.
  { apply (parse_loop_graph input init_pstate st Hloop). cbn [init_pstate ps_graph].
    split; first [done | intros nm r Hr; by rewrite lookup_empty in Hr]. }
  destruct (Start (ps_graph st)) as [s|] eqn:Hs; [|done].
  destruct (End (ps_graph st)) as [e|] eqn:He; [|done].
  case_bool_decide; [done|]. injection HP as <-. cbn [RGraph].
  unfold valid_graph. rewrite Hs, He.
  split; [by apply (gi_distinct _ Hinv)|].
  split; [by apply (gi_start _ Hinv)|].
  split; [by apply (gi_end _ Hinv)|]. apply (gi_links _ Hinv).
Qed.

End parser_graph.

Lemma merge_sort_sorts_by_length : sorts_by_length (merge_sort scheduler.shorter_eq).
Proof.
  intros l. split; [apply merge_sort_Permutation|].
  apply Sorted_merge_sort. intros p q. unfold scheduler.shorter_eq. lia.
Qed.

(** Within the range of [int] the program returns for every accepted
    input: it prints the echoed lines and an empty line, then the rest. *)
Lemma run_parsed_returns
    (lines : list string) (res : parser.Result)
    (sort_paths : list Path → list Path)
    (range_rooms : gmap string Room → list string)
    (range_ants : nat → nat → gmap Z scheduler.AntState → list (Z * scheduler.AntState)) :
  parser.Parse lines = inr res →
  sorts_by_length sort_paths →
  (∀ m, range_rooms m ≡ₚ (map_to_list m).*1) →
  (∀ turn pi m, range_ants turn pi m ≡ₚ map_to_list m) →
  fits_int (parser.Ants res) (parser.RGraph res) →
  ∃ rest, main.run_parsed sort_paths range_rooms range_ants (inr res)
          = Some ((parser.OriginalLines res ++ [""]) ++ rest, 0).
Proof.
  intros Hparse Hsort Hr Ha Hfit.
  pose proof (parser_graph.Parse_valid lines res Hparse) as Hvalid.
  set (g := parser.RGraph res) in *.
  destruct (MultiPath_from_spec g (range_rooms (Rooms g)) 0 Hvalid (Hr _))
    as (s & e & ms & Hs & He & Hne & HM & Hnd & Hone & Hall).
  unfold main.run_parsed. fold g. rewrite HM. cbn [mbind option_bind].
  case_bool_decide as Hempty; [by eexists|].
  destruct (Run_returns sort_paths range_ants (parser.Ants res)
              (reconstruction.path_of s e <$> ms) g s e Hsort Ha Hs He)
    as [out Hout].
  { intros p (m & -> & Hm)%list_elem_of_fmap. apply path_of_good.
    intros nm Hnm. destruct (Hall m Hm) as [_ Hmid].
    by destruct (Hmid nm Hnm) as (? & ? & _). }
  { unfold valid_graph in Hvalid. rewrite Hs, He in Hvalid.
    destruct Hvalid as (_ & Hsr & Her & _).
    apply (multipath_in_range g s e ms (parser.Ants res) Hne Hsr Her Hnd Hone); [|done].
    intros m Hm nm Hnm. destruct (Hall m Hm) as [_ Hmid]. by apply Hmid. }
  rewrite Hout. cbn [mbind option_bind]. by eexists.
Qed.

(** C5. On a parsed input neither the list of paths [MultiPath] returns
    nor what the program does afterwards (the lines printed and the exit
    status, or no result at all) depends on the order in which the map of
    rooms and the map of ants are enumerated, the only sources of variation
    between two runs.  When the ant count and twice the number of rooms
    together stay below [2^63] ([fits_int]), the program returns, with
    status 0. *)
Theorem pipeline_deterministic
    (lines : list string) (res : parser.Result)
    (sort_paths : list Path → list Path)
    (rr1 rr2 : gmap string Room → list string)
    (ra1 ra2 : nat → nat → gmap Z scheduler.AntState → list (Z * scheduler.AntState)) :
  parser.Parse lines = inr res →
  sorts_by_length sort_paths →
  (∀ m, rr1 m ≡ₚ (map_to_list m).*1) →
  (∀ m, rr2 m ≡ₚ (map_to_list m).*1) →
  (∀ turn pi m, ra1 turn pi m ≡ₚ map_to_list m) →
  (∀ turn pi m, ra2 turn pi m ≡ₚ map_to_list m) →
  ∃ paths,
    path.MultiPath_from (rr1 (Rooms (parser.RGraph res))) (parser.RGraph res) 0
      = Some paths ∧
    path.MultiPath_from (rr2 (Rooms (parser.RGraph res))) (parser.RGraph res) 0
      = Some paths ∧
    main.run_parsed sort_paths rr1 ra1 (inr res)
      = main.run_parsed sort_paths rr2 ra2 (inr res) ∧
    (fits_int (parser.Ants res) (parser.RGraph res) →
     ∃ out, main.run_parsed sort_paths rr1 ra1 (inr res) = Some (out, 0) ∧
            main.run_parsed sort_paths rr2 ra2 (inr res) = Some (out, 0)).
Proof.
  intros Hparse Hsort Hr1 Hr2 Ha1 Ha2.
  pose proof (parser_graph.Parse_valid lines res Hparse) as Hvalid.
  set (g := parser.RGraph res) in *.
  destruct (MultiPath_from_spec g (rr1 (Rooms g)) 0 Hvalid (Hr1 _))
    as (s & e & ms & Hs & He & Hne & HM & Hnd & Hone & Hall).
  assert (path.MultiPath_from (rr2 (Rooms g)) g 0
          = Some (reconstruction.path_of s e <$> ms)) as HM2.
  { rewrite <- HM. apply MultiPath_from_order. by rewrite Hr1, Hr2. }
  assert (∀ p, p ∈ reconstruction.path_of s e <$> ms → determinism.good_path s e p)
    as Hgood.
  { intros p (m & -> & Hm)%list_elem_of_fmap. apply path_of_good.
    intros nm Hnm. destruct (Hall m Hm) as [_ Hmid].
    by destruct (Hmid nm Hnm) as (? & ? & _). }
  pose proof (Run_order_eq sort_paths ra1 ra2 (parser.Ants res)
                (reconstruction.path_of s e <$> ms) g s e Hsort Ha1 Ha2 Hs He Hgood) as Heq.
  assert (main.run_parsed sort_paths rr1 ra1 (inr res)
          = main.run_parsed sort_paths rr2 ra2 (inr res)) as Hsame.
  { unfold main.run_parsed. fold g. rewrite HM, HM2. cbn [mbind option_bind].
    case_bool_decide; [done|]. by rewrite Heq. }
  exists (reconstruction.path_of s e <$> ms).
  split; [done|]. split; [done|]. split; [done|].
  intros Hfit. rewrite <- Hsame.
  destruct (run_parsed_returns lines res sort_paths rr1 ra1 Hparse Hsort Hr1 Ha1 Hfit)
    as [rest Hrest].
  by eexists.
Qed.

Definition diamond_result : parser.Result :=
  match parser.Parse diamond_input with
  | inr res => res
  | inl _ => parser.mkResult 0 NewGraph []
  end.

Lemma pipeline_deterministic_witness :
  let res := diamond_result in
  let rr1 := λ m : gmap string Room, (map_to_list m).*1 in
  let rr2 := λ m : gmap string Room, reverse (map_to_list m).*1 in
  let ra1 := λ (_ _ : nat) (m : gmap Z scheduler.AntState), map_to_list m in
  let ra2 := λ (_ _ : nat) (m : gmap Z scheduler.AntState), reverse (map_to_list m) in
  ∃ paths,
    path.MultiPath_from (rr1 (Rooms (parser.RGraph res))) (parser.RGraph res) 0
      = Some paths ∧
    path.MultiPath_from (rr2 (Rooms (parser.RGraph res))) (parser.RGraph res) 0
      = Some paths ∧
    main.run_parsed (merge_sort scheduler.shorter_eq) rr1 ra1 (inr res)
      = main.run_parsed (merge_sort scheduler.shorter_eq) rr2 ra2 (inr res) ∧
    (fits_int (parser.Ants res) (parser.RGraph res) →
     ∃ out,
       main.run_parsed (merge_sort scheduler.shorter_eq) rr1 ra1 (inr res) = Some (out, 0) ∧
       main.run_parsed (merge_sort scheduler.shorter_eq) rr2 ra2 (inr res) = Some (out, 0)).
Proof.
  intros res rr1 rr2 ra1 ra2.
  apply (pipeline_deterministic diamond_input res (merge_sort scheduler.shorter_eq)
           rr1 rr2 ra1 ra2).
  - vm_compute. reflexivity.
  - apply merge_sort_sorts_by_length.
  - reflexivity.
  - intros m. apply reverse_Permutation.
  - reflexivity.
  - intros turn pi m. apply reverse_Permutation.
Defined.

(** C8 (as the code has it). The lines [Parse] keeps for the echo are the
    input lines that are not comments, in their order: a line that begins
    with [#] but not with [##] is dropped, every other line of an accepted
    input (the ant count, [##] commands, rooms, links) is kept; and [main]
    prints exactly these lines, then an empty line, before anything else:
    whatever it prints begins with them, and when the ant count and twice
    the number of rooms together stay below [2^63] it does print, and exits
    with status 0. *)
Theorem echo_is_input_without_comments (input : list string) (res : parser.Result) :
  parser.Parse input = inr res →
  parser.OriginalLines res = filter (λ l, ¬ parser_facts.is_comment l) input ∧
  (∀ sort_paths range_rooms range_ants out code,
     main.run_parsed sort_paths range_rooms range_ants (inr res) = Some (out, code) →
     ∃ rest, out = (parser.OriginalLines res ++ [""]) ++ rest) ∧
  (∀ sort_paths range_rooms range_ants,
     sorts_by_length sort_paths →
     (∀ m, range_rooms m ≡ₚ (map_to_list m).*1) →
     (∀ turn pi m, range_ants turn pi m ≡ₚ map_to_list m) →
     fits_int (parser.Ants res) (parser.RGraph res) →
     ∃ rest, main.run_parsed sort_paths range_rooms range_ants (inr res)
             = Some ((parser.OriginalLines res ++ [""]) ++ rest, 0)).
Proof.
  intros H. split; [|split].
  - unfold parser.Parse, parser.Parse_scanner in H.
    destruct (parser.parse_loop _ input) as [|st] eqn:Hl; [done|].
    apply parser_facts.parse_loop_lines in Hl.
    repeat case_match; by simplify_eq/=.
  - intros sp rr ra out code Hrun. unfold main.run_parsed in Hrun.
    destruct (path.MultiPath_from _ _ _) as [paths|]; simplify_eq/=.
    case_bool_decide.
    + simplify_eq/=. by eexists.
    + destruct (scheduler.Run _ _ _ _ _) as [moves|]; simplify_eq/=.
      by eexists.
  - intros sp rr ra Hsort Hrr Hra Hfit.
    by apply (run_parsed_returns input).
Qed.

Definition commented_input : list string :=
  ["1"; "#the rooms"; "##start"; "a 0 0"; "##end"; "b 1 1"; "a-b"].

Lemma echo_is_input_without_comments_witness :
  ∃ res, parser.Parse commented_input = inr res ∧
    (parser.OriginalLines res
       = filter (λ l, ¬ parser_facts.is_comment l) commented_input ∧
     (∀ sort_paths range_rooms range_ants out code,
        main.run_parsed sort_paths range_rooms range_ants (inr res) = Some (out, code) →
        ∃ rest, out = (parser.OriginalLines res ++ [""]) ++ rest) ∧
     (∀ sort_paths range_rooms range_ants,
        sorts_by_length sort_paths →
        (∀ m, range_rooms m ≡ₚ (map_to_list m).*1) →
        (∀ turn pi m, range_ants turn pi m ≡ₚ map_to_list m) →
        fits_int (parser.Ants res) (parser.RGraph res) →
        ∃ rest, main.run_parsed sort_paths range_rooms range_ants (inr res)
                = Some ((parser.OriginalLines res ++ [""]) ++ rest, 0))).
Proof.
  eexists. split; [reflexivity|].
  apply (echo_is_input_without_comments commented_input). reflexivity.
Defined.

(** C8, counterexample: an accepted input has a comment line that is
    missing from the lines kept for the echo and from everything the program
    prints. *)
Lemma comment_line_not_echoed :
  ∃ res out,
    parser.Parse commented_input = inr res ∧
    "#the rooms" ∈ commented_input ∧
    parser_facts.is_comment "#the rooms" = true ∧
    ("#the rooms" ∉ parser.OriginalLines res) ∧
    main.lem_in commented_input = Some (out, 0) ∧
    ("#the rooms" ∉ out).
Proof.
  eexists _, _. split; [reflexivity|].
  split; [set_solver|]. split; [reflexivity|].
  split; [apply (bool_decide_unpack _); by vm_compute|].
  split; [vm_compute; reflexivity|].
  apply (bool_decide_unpack _); by vm_compute.
Qed.

(** ** Further properties of package model *)

Lemma AddLink_false_unchanged (g g1 : Graph) a b :
  AddLink g a b = (g1, false) → g1 = g.
Proof.
  unfold AddLink. intros H.
  destruct (Rooms g !! a), (Rooms g !! b); try (by injection H as <-).
  repeat case_bool_decide; by injection H.
Qed.

Lemma AddLink_true_rooms (g g1 : Graph) a b :
  AddLink g a b = (g1, true) →
  a ≠ b ∧
  ∃ ra rb, Rooms g !! a = Some ra ∧ Rooms g !! b = Some rb ∧ (b ∉ Links ra) ∧
           Rooms g1 = <[b := add_link_to rb a]> (<[a := add_link_to ra b]> (Rooms g)) ∧
           Start g1 = Start g ∧ End g1 = End g.
Proof.
  unfold AddLink. intros H.
  destruct (Rooms g !! a) as [ra|]; [|done]. destruct (Rooms g !! b) as [rb|]; [|done].
  case_bool_decide; [done|]. case_bool_decide; [done|]. injection H as <-.
  split; [done|]. by exists ra, rb.
Qed.

(** X1. A link is added once: after [AddLink a b] has succeeded, adding the
    same link again, in either direction, fails and leaves the graph as it
    is. *)
Theorem AddLink_not_twice (g g1 : Graph) (a b : string) :
  AddLink g a b = (g1, true) →
  AddLink g1 a b = (g1, false) ∧ AddLink g1 b a = (g1, false).
Proof.
  intros (Hab & ra & rb & Ha & Hb & Hnew & Hrooms & _)%AddLink_true_rooms.
  assert (Rooms g1 !! a = Some (add_link_to ra b)) as Ha1.
  { rewrite Hrooms, lookup_insert_ne by done. by rewrite lookup_insert_eq. }
  assert (Rooms g1 !! b = Some (add_link_to rb a)) as Hb1.
  { by rewrite Hrooms, lookup_insert_eq. }
  unfold AddLink. rewrite Ha1, Hb1.
  rewrite (bool_decide_eq_false_2 (a = b)) by done.
  rewrite (bool_decide_eq_false_2 (b = a)) by done.
  rewrite !bool_decide_eq_true_2; [done| |];
    cbn [add_link_to Links]; apply elem_of_app; right; apply list_elem_of_here.
Qed.

Lemma AddLink_not_twice_witness :
  let g := (AddRoom (AddRoom NewGraph "a" 0 0).1 "b" 1 1).1 in
  let g1 := (AddLink g "a" "b").1 in
  AddLink g1 "a" "b" = (g1, false) ∧ AddLink g1 "b" "a" = (g1, false).
Proof.
  intros g g1. apply (AddLink_not_twice g g1 "a" "b"). reflexivity.
Defined.

(** X2. [AddRoom] and [AddLink] keep the link lists in order: if in every
    room the links have no duplicate, do not name the room itself, and name
    rooms that link back, then the same holds after either call, whatever
    it returns. *)
Theorem graph_api_keeps_links_ok (g : Graph) (name a b : string) (x y : Z) :
  parser_graph.links_ok g →
  parser_graph.links_ok (AddRoom g name x y).1 ∧
  parser_graph.links_ok (AddLink g a b).1.
Proof.
  intros Hok. split.
  - destruct (Rooms g !! name) as [r|] eqn:Hr.
    + unfold AddRoom. by rewrite Hr.
    + by destruct (parser_graph.AddRoom_links_ok g name x y Hr Hok) as (_ & _ & ?).
  - destruct (AddLink g a b) as [g1 [|]] eqn:Hadd; cbn [fst].
    + by destruct (parser_graph.AddLink_links_ok g g1 a b Hadd Hok).
    + by rewrite (AddLink_false_unchanged g g1 a b Hadd).
Qed.

Lemma graph_api_keeps_links_ok_witness :
  let g := (AddLink (AddRoom (AddRoom NewGraph "a" 0 0).1 "b" 1 1).1 "a" "b").1 in
  parser_graph.links_ok (AddRoom g "c" 2 2).1 ∧
  parser_graph.links_ok (AddLink g "b" "a").1.
Proof.
  intros g. apply (graph_api_keeps_links_ok g "c" "b" "a" 2 2).
  apply (bool_decide_unpack _). vm_compute. reflexivity.
Defined.


(** ** Further properties of package parser *)

Module parser_more.
Import parser.
Import Stdlib.Strings.Ascii.

(** What one line does to the graph. *)
Lemma parse_line_graph_cases st line st' :
  parse_line st line = inr st' →
  ps_graph st' = ps_graph st ∨
  (∃ name xs ys g1 r,
     roomLineRe line = Some (name, xs, ys) ∧ ps_phase st = PhRooms ∧
     Rooms (ps_graph st) !! name = None ∧
     AddRoom (ps_graph st) name (Atoi xs).1 (Atoi ys).1 = (g1, r) ∧
     (ps_graph st' = g1 ∨ ps_graph st' = set_start g1 (Name r) ∨
      ps_graph st' = set_end g1 (Name r))) ∨
  (∃ a b, linkLineRe line = Some (a, b) ∧
          is_Some (Start (ps_graph st)) ∧ is_Some (End (ps_graph st)) ∧
          AddLink (ps_graph st) a b = (ps_graph st', true) ∧ ps_phase st' = PhLinks).
Proof.
  intros Hline. unfold parse_line in Hline.
  case_bool_decide; [done|].
  destruct (String.prefix "#" line).
  { left. destruct (String.prefix "##" line); [|by injection Hline as <-].
    destruct (bool_decide (line = "##start") || bool_decide (line = "##end"));
      by injection Hline as <-. }
  case_bool_decide.
  { left. destruct (Atoi line) as [ants ok]. destruct (negb ok || (ants <=? 0)); [done|].
    by injection Hline as <-. }
  assert (∀ a b, linkLineRe line = Some (a, b) →
            match Start (ps_graph st), End (ps_graph st) with
            | Some _, Some _ =>
                let '(g1, ok) := AddLink (ps_graph st) a b in
                if ok then
                  inr (mkPState (ps_ants st) g1 (ps_lines st ++ [line])
                         PhLinks (ps_pending st))
                else inl (errInvalid +:+ ", invalid link")
            | _, _ => inl (errInvalid +:+ ", missing start or end")
            end = inr st' →
            ∃ a b, linkLineRe line = Some (a, b) ∧
              is_Some (Start (ps_graph st)) ∧ is_Some (End (ps_graph st)) ∧
              AddLink (ps_graph st) a b = (ps_graph st', true) ∧ ps_phase st' = PhLinks)
    as Hlink.
  { intros a b Hre Hl.
    destruct (Start (ps_graph st)) as [s|] eqn:Hs; [|done].
    destruct (End (ps_graph st)) as [e|] eqn:He; [|done].
    destruct (AddLink (ps_graph st) a b) as [g1 ok] eqn:Hadd.
    destruct ok; [|done]. injection Hl as <-. exists a, b. cbn [ps_graph ps_phase].
    split; [done|]. split; [by eexists|]. split; [by eexists|]. done. }
  destruct (roomLineRe line) as [[[name xs] ys]|] eqn:Hroom.
  2:{ right. right. destruct (linkLineRe line) as [[a b]|] eqn:Hlk; [by eapply Hlink|].
      by case_bool_decide. }
  case_bool_decide as Hph.
  2:{ right. right. destruct (linkLineRe line) as [[a b]|] eqn:Hlk; [by eapply Hlink|].
      by case_bool_decide. }
  right. left.
  destruct (Rooms (ps_graph st) !! name) as [r0|] eqn:Hname; [done|].
  destruct (AddRoom (ps_graph st) name (Atoi xs).1 (Atoi ys).1) as [g1 r] eqn:Hadd.
  exists name, xs, ys, g1, r. do 4 (split; [done|]).
  case_bool_decide.
  { destruct (Start g1); [done|]. injection Hline as <-. right. by left. }
  case_bool_decide.
  { destruct (End g1); [done|]. injection Hline as <-. right. by right. }
  injection Hline as <-. by left.
Qed.


Lemma Atoi_ok_range s v : Atoi s = (v, true) → - 2 ^ 63 ≤ v ≤ 2 ^ 63 - 1.
Proof.
  unfold Atoi. intros H.
  repeat (case_match; simplify_eq/=; try done);
    repeat match goal with
           | H : (_ <? _) = false |- _ => apply Z.ltb_ge in H
           end; lia.
Qed.

(** The ant count is set when the phase leaves [PhAnts], and stays. *)
Definition ants_inv (st : pstate) : Prop :=
  if decide (ps_phase st = PhAnts) then ps_ants st = 0
  else 0 < ps_ants st ≤ 2 ^ 63 - 1.

Lemma parse_line_ants st line st' :
  parse_line st line = inr st' → ants_inv st → ants_inv st'.
Proof.
  unfold parse_line, ants_inv. intros Hline Hinv.
  case_bool_decide; [done|].
  destruct (String.prefix "#" line).
  { destruct (String.prefix "##" line); [|by injection Hline as <-].
    destruct (bool_decide (line = "##start") || bool_decide (line = "##end"));
      by injection Hline as <-. }
  case_bool_decide as Hph.
  { destruct (Atoi line) as [ants ok] eqn:Hatoi.
    destruct (negb ok || (ants <=? 0)) eqn:Hc; [done|].
    apply orb_false_elim in Hc as [Hok%negb_false_iff Hpos%Z.leb_gt]. subst ok.
    injection Hline as <-. cbn [ps_phase ps_ants]. rewrite decide_False by done.
    pose proof (Atoi_ok_range line ants Hatoi). lia. }
  rewrite decide_False in Hinv by done.
  repeat (case_match; simplify_eq/=; try done).
Qed.

Lemma parse_loop_ants input : ∀ st st',
  parse_loop st input = inr st' → ants_inv st → ants_inv st'.
Proof.
  induction input as [|line input IH]; intros st st' Hloop Hinv.
  { by injection Hloop as <-. }
  cbn [parse_loop] in Hloop.
  destruct (parse_line st line) as [err|st1] eqn:Hline; [done|].
  apply (IH st1 st' Hloop). by eapply parse_line_ants.
Qed.

Lemma parse_line_error_prefix st line err :
  parse_line st line = inl err → String.prefix errInvalid err = true.
Proof.
  unfold parse_line. intros H.
  repeat (case_match; simplify_eq/=; try done).
Qed.

Lemma parse_loop_error_prefix input : ∀ st err,
  parse_loop st input = inl err → String.prefix errInvalid err = true.
Proof.
  induction input as [|line input IH]; intros st err Hloop; [done|].
  cbn [parse_loop] in Hloop.
  destruct (parse_line st line) as [err1|st1] eqn:Hline.
  - injection Hloop as <-. by eapply parse_line_error_prefix.
  - by eapply IH.
Qed.

Lemma parse_loop_empty_line input : ∀ st,
  "" ∈ input → ∃ err, parse_loop st input = inl err.
Proof.
  induction input as [|line input IH]; intros st Hin; [by apply elem_of_nil in Hin|].
  cbn [parse_loop].
  destruct (parse_line st line) as [err1|st1] eqn:Hline; [by eexists|].
  apply elem_of_cons in Hin as [<-|Hin]; [|by apply IH].
  unfold parse_line in Hline. by rewrite bool_decide_eq_true_2 in Hline.
Qed.

(** A room name as the room pattern accepts it. *)
Definition name_ok (name : string) : bool :=
  match String.list_ascii_of_string name with
  | [] => false
  | c :: cs => name_head c && forallb (λ c, negb (is_space c)) cs
  end.

Lemma roomLineRe_name line name xs ys :
  roomLineRe line = Some (name, xs, ys) → name_ok name = true.
Proof.
  unfold roomLineRe. intros H.
  destruct (span _ (String.list_ascii_of_string line)) as [nm r1] eqn:H1.
  destruct (span is_space r1) as [ws1 r2] eqn:H2.
  destruct (span _ r2) as [xs' r3] eqn:H3.
  destruct (span is_space r3) as [ws2 r4] eqn:H4.
  destruct (span _ r4) as [ys' r5] eqn:H5.
  destruct (is_name_token nm) eqn:Hnm; [|done]. simpl in H.
  repeat (case_match; simplify_eq/=; try done).
  apply parser_facts.span_spec in H1 as [_ Hall].
  unfold name_ok. rewrite String.list_ascii_of_string_of_list_ascii.
  destruct nm as [|c cs]; [done|]. simpl in Hnm, Hall. rewrite Hnm. simpl.
  by apply andb_prop in Hall as [_ ?].
Qed.

Definition names_inv (g : Graph) : Prop :=
  ∀ name r, Rooms g !! name = Some r → Name r = name ∧ name_ok name = true.

Lemma parse_line_names st line st' :
  parse_line st line = inr st' → names_inv (ps_graph st) → names_inv (ps_graph st').
Proof.
  intros Hline Hinv.
  destruct (parse_line_graph_cases st line st' Hline)
    as [->|[(name & xs & ys & g1 & r & Hre & _ & Hnew & Hadd & Hg)|
            (a & b & _ & _ & _ & Hadd & _)]]; [done| |].
  - assert (names_inv g1) as H1.
    { unfold AddRoom in Hadd. rewrite Hnew in Hadd. injection Hadd as <- <-.
      intros nm r1 Hr1. cbn [Rooms] in Hr1.
      apply lookup_insert_Some in Hr1 as [[<- <-]|[_ Hr1]]; [|by apply Hinv].
      split; [done|]. by eapply roomLineRe_name. }
    by destruct Hg as [->|[->| ->]].
  - apply AddLink_true_rooms in Hadd as (_ & ra & rb & Ha & Hb & _ & Hrooms & _).
    intros nm r1 Hr1. rewrite Hrooms in Hr1.
    apply lookup_insert_Some in Hr1 as [[<- <-]|[_ Hr1]]; [by apply (Hinv b rb)|].
    apply lookup_insert_Some in Hr1 as [[<- <-]|[_ Hr1]]; [by apply (Hinv a ra)|].
    by apply Hinv.
Qed.

Lemma parse_loop_names input : ∀ st st',
  parse_loop st input = inr st' → names_inv (ps_graph st) → names_inv (ps_graph st').
Proof.
  induction input as [|line input IH]; intros st st' Hloop Hinv.
  { by injection Hloop as <-. }
  cbn [parse_loop] in Hloop.
  destruct (parse_line st line) as [err|st1] eqn:Hline; [done|].
  apply (IH st1 st' Hloop). by eapply parse_line_names.
Qed.

Lemma parse_line_links_phase st line st' :
  parse_line st line = inr st' → ps_phase st = PhLinks →
  ps_phase st' = PhLinks ∧
  (String.prefix "#" line = true ∨ is_Some (linkLineRe line)).
Proof.
  intros Hline Hph. unfold parse_line in Hline.
  case_bool_decide; [done|].
  destruct (String.prefix "#" line).
  { split; [|by left]. destruct (String.prefix "##" line); [|by injection Hline as <-].
    destruct (bool_decide (line = "##start") || bool_decide (line = "##end"));
      by injection Hline as <-. }
  rewrite Hph in Hline.
  rewrite (bool_decide_eq_false_2 (PhLinks = PhAnts)) in Hline by done.
  rewrite (bool_decide_eq_false_2 (PhLinks = PhRooms)) in Hline by done.
  destruct (linkLineRe line) as [[a b]|] eqn:Hlk.
  - split; [|right; by eexists].
    repeat (case_match; simplify_eq/=; try done).
  - repeat (case_match; simplify_eq/=; try done).
Qed.

Lemma parse_loop_links_phase input : ∀ st st',
  parse_loop st input = inr st' → ps_phase st = PhLinks →
  Forall (λ line, String.prefix "#" line = true ∨ is_Some (linkLineRe line)) input.
Proof.
  induction input as [|line input IH]; intros st st' Hloop Hph; [constructor|].
  cbn [parse_loop] in Hloop.
  destruct (parse_line st line) as [err|st1] eqn:Hline; [done|].
  destruct (parse_line_links_phase st line st1 Hline Hph) as [Hph1 Hl].
  constructor; [done|]. by eapply IH.
Qed.


Lemma digits_val_dash cs : ∀ acc, "-"%char ∈ cs → digits_val acc cs = None.
Proof.
  induction cs as [|c cs IH]; intros acc Hin; [by apply elem_of_nil in Hin|].
  apply elem_of_cons in Hin as [<-|Hin]; [done|].
  simpl. destruct (is_digit c); [by apply IH|done].
Qed.

Lemma last_dash_split_dash cs a b : last_dash_split cs = Some (a, b) → "-"%char ∈ cs.
Proof.
  revert a b. induction cs as [|c cs IH]; intros a b H; [done|].
  simpl in H. destruct (last_dash_split cs) as [[a' b']|].
  - apply list_elem_of_further. by eapply IH.
  - destruct (Ascii.eqb c "-") eqn:Hc; [|done].
    apply Ascii.eqb_eq in Hc as ->. apply list_elem_of_here.
Qed.

Lemma link_line_Atoi line m : linkLineRe line = Some m → (Atoi line).2 = false.
Proof.
  unfold linkLineRe. intros H.
  destruct (String.list_ascii_of_string line) as [|c0 rest] eqn:Hl; [done|].
  destruct (name_head c0 && forallb (λ c, negb (is_space c)) rest); [|done].
  destruct (last_dash_split rest) as [[a b]|] eqn:Hsplit; [|done].
  apply last_dash_split_dash in Hsplit.
  assert (∀ acc, digits_val acc rest = None) as Hrest.
  { intros acc. by apply digits_val_dash. }
  assert (∀ acc, digits_val acc (c0 :: rest) = None) as Hall.
  { intros acc. apply digits_val_dash. by apply list_elem_of_further. }
  unfold Atoi. rewrite Hl.
  destruct rest as [|c1 rest1]; [by apply elem_of_nil in Hsplit|].
  repeat case_match; simplify_eq/=; try done;
    try (by rewrite Hrest in *); by rewrite Hall in *.
Qed.

Lemma link_line_not_room line m : linkLineRe line = Some m → roomLineRe line = None.
Proof.
  intros Hlink. destruct (roomLineRe line) as [m'|] eqn:Hroom; [|done].
  apply parser_facts.room_line_not_link in Hroom. congruence.
Qed.

(** A link line, once accepted, starts the last phase. *)
Lemma parse_line_link_phase st line st' m :
  parse_line st line = inr st' → String.prefix "#" line = false →
  linkLineRe line = Some m → ps_phase st' = PhLinks.
Proof.
  intros Hline Hhash Hlink. unfold parse_line in Hline.
  case_bool_decide; [done|]. rewrite Hhash in Hline.
  case_bool_decide.
  { pose proof (link_line_Atoi line m Hlink) as Hno.
    destruct (Atoi line) as [ants ok]. simpl in Hno. subst ok. done. }
  rewrite (link_line_not_room line m Hlink), Hlink in Hline.
  destruct m as [a b].
  repeat (case_match; simplify_eq/=; try done).
Qed.

End parser_more.

(** X3. An accepted input yields a valid graph: start and end are marked,
    are rooms of the graph and differ, and in every room the links have no
    duplicate, do not name the room itself and name rooms that link back. *)
Theorem parsed_graph_is_valid (input : list string) (res : parser.Result) :
  parser.Parse input = inr res → valid_graph (parser.RGraph res).
Proof. apply parser_graph.Parse_valid. Qed.

Lemma parsed_graph_is_valid_witness : valid_graph (parser.RGraph diamond_result).
Proof.
  apply (parsed_graph_is_valid diamond_input diamond_result). vm_compute. reflexivity.
Defined.

Lemma Parse_ants_range (input : list string) (res : parser.Result) :
  parser.Parse input = inr res → 0 < parser.Ants res ≤ 2 ^ 63 - 1.
Proof.
  unfold parser.Parse, parser.Parse_scanner. intros HP.
  destruct (parser.parse_loop parser.init_pstate input) as [err|st] eqn:Hloop; [done|].
  pose proof (parser_more.parse_loop_ants input _ st Hloop eq_refl) as Hinv.
  destruct (Start (parser.ps_graph st)); [|done].
  destruct (End (parser.ps_graph st)); [|done].
  case_bool_decide as Hz; [done|]. injection HP as <-. cbn [parser.Ants].
  unfold parser_more.ants_inv in Hinv.
  destruct (decide (parser.ps_phase st = parser.PhAnts)); [done|lia].
Qed.

(** X4. The ant count of an accepted input is positive and fits a 64-bit
    integer. *)
Theorem parsed_ants_in_range (input : list string) (res : parser.Result) :
  parser.Parse input = inr res → 0 < parser.Ants res ≤ 2 ^ 63 - 1.
Proof. apply Parse_ants_range. Qed.

Lemma parsed_ants_in_range_witness : 0 < parser.Ants diamond_result ≤ 2 ^ 63 - 1.
Proof.
  apply (parsed_ants_in_range diamond_input diamond_result). vm_compute. reflexivity.
Defined.

(** X5. An input with an empty line, wherever it is, is rejected. *)
Theorem empty_line_rejected (input : list string) :
  "" ∈ input → ∃ err, parser.Parse input = inl err.
Proof.
  intros Hin. unfold parser.Parse, parser.Parse_scanner.
  destruct (parser_more.parse_loop_empty_line input parser.init_pstate Hin) as [err ->].
  by exists err.
Qed.

Lemma empty_line_rejected_witness :
  ∃ err, parser.Parse ["3"; "##start"; "a 0 0"; ""; "##end"; "b 1 1"; "a-b"] = inl err.
Proof.
  apply (empty_line_rejected ["3"; "##start"; "a 0 0"; ""; "##end"; "b 1 1"; "a-b"]).
  apply (bool_decide_unpack _). vm_compute. reflexivity.
Defined.

(** X6. An error [Parse] returns is the error the scanner ended on, or its
    message begins with [ERROR: invalid data format]; the latter always
    when the scanner reads the input to its end. *)
Theorem parse_error_has_prefix
    (input : list string) (scan_err : option string) (err : string) :
  parser.Parse_scanner input scan_err = inl err →
  (String.prefix parser.errInvalid err = true ∨ scan_err = Some err) ∧
  (scan_err = None → String.prefix parser.errInvalid err = true).
Proof.
  unfold parser.Parse_scanner. intros HP.
  destruct (parser.parse_loop parser.init_pstate input) as [err1|st] eqn:Hloop.
  - injection HP as <-.
    assert (String.prefix parser.errInvalid err1 = true) as Hpre
      by (by eapply parser_more.parse_loop_error_prefix).
    split; [by left|done].
  - destruct scan_err as [e|].
    + injection HP as <-. split; [by right|done].
    + assert (String.prefix parser.errInvalid err = true) as Hpre
        by (repeat (case_match; simplify_eq/=; try done)).
      split; [by left|done].
Qed.

Lemma parse_error_has_prefix_witness :
  (String.prefix parser.errInvalid "ERROR: invalid data format, duplicate room" = true ∨
   None = Some "ERROR: invalid data format, duplicate room") ∧
  ((None : option string) = None →
   String.prefix parser.errInvalid "ERROR: invalid data format, duplicate room" = true).
Proof.
  apply (parse_error_has_prefix ["3"; "a 0 0"; "a 1 1"] None). vm_compute. reflexivity.
Defined.

(** X7. In the graph of an accepted input every room is stored under its
    own name, and the name is not empty, does not begin with [L] or [#] and
    contains none of the characters space, tab, line feed, form feed and
    carriage return (the class "\s" of Go's [regexp]; other white space,
    such as a vertical tab, can occur in a name). *)
Theorem parsed_room_names (input : list string) (res : parser.Result)
    (name : string) (r : Room) :
  parser.Parse input = inr res →
  Rooms (parser.RGraph res) !! name = Some r →
  Name r = name ∧ parser_more.name_ok name = true.
Proof.
  unfold parser.Parse, parser.Parse_scanner. intros HP Hr.
  destruct (parser.parse_loop parser.init_pstate input) as [err|st] eqn:Hloop; [done|].
  assert (parser_more.names_inv (parser.ps_graph st)) as Hinv.
  { apply (parser_more.parse_loop_names input _ st Hloop).
    intros nm r0 H0. cbn [parser.init_pstate parser.ps_graph NewGraph Rooms] in H0.
    by rewrite lookup_empty in H0. }
  destruct (Start (parser.ps_graph st)); [|done].
  destruct (End (parser.ps_graph st)); [|done].
  case_bool_decide; [done|]. injection HP as <-. by apply Hinv.
Qed.

Lemma parsed_room_names_witness :
  Name (mkRoom "a" 1 0 ["start"; "end"; "b"]) = "a" ∧ parser_more.name_ok "a" = true.
Proof.
  apply (parsed_room_names diamond_input diamond_result "a").
  - vm_compute. reflexivity.
  - vm_compute. reflexivity.
Defined.

(** X8. Links come last: in an accepted input every line after a link line
    is a link line or begins with [#]. *)
Theorem links_come_last (pre post : list string) (line : string) (res : parser.Result) :
  parser.Parse (pre ++ line :: post) = inr res →
  String.prefix "#" line = false → is_Some (parser.linkLineRe line) →
  Forall (λ l, String.prefix "#" l = true ∨ is_Some (parser.linkLineRe l)) post.
Proof.
  unfold parser.Parse, parser.Parse_scanner. intros HP Hhash [m Hlink].
  rewrite parser_facts.parse_loop_app in HP.
  destruct (parser.parse_loop parser.init_pstate pre) as [err|st1]; [done|].
  cbn [parser.parse_loop] in HP.
  destruct (parser.parse_line st1 line) as [err|st2] eqn:Hline; [done|].
  destruct (parser.parse_loop st2 post) as [err|st3] eqn:Hpost; [done|].
  apply (parser_more.parse_loop_links_phase post st2 st3 Hpost).
  by eapply parser_more.parse_line_link_phase.
Qed.

Lemma links_come_last_witness :
  Forall (λ l, String.prefix "#" l = true ∨ is_Some (parser.linkLineRe l))
         ["start-b"; "a-end"; "b-end"; "a-b"].
Proof.
  apply (links_come_last
           ["4"; "##start"; "start 0 0"; "a 1 0"; "b 2 0"; "##end"; "end 3 0"]
           ["start-b"; "a-end"; "b-end"; "a-b"] "start-a" diamond_result).
  - vm_compute. reflexivity.
  - reflexivity.
  - vm_compute. by eexists.
Defined.

(** ** Further properties of MultiPath *)

Module multipath_more.
Import path residual reconstruction.

Section cap.

Variable g : Graph.
Variable names : list string.
Variable startName endName : string.
Hypothesis names_ne : names ≠ [].
Variable graph0 : list (list edge).
Hypothesis graph0_done :
  links_done names startName endName (links_of g names) graph0.
Variable maxPaths : Z.
Hypothesis cap_pos : 0 < maxPaths.

(** With a cap, the loop stops as soon as the flow reaches it. *)
Lemma ek_loop_cap (fuel : nat) : ∀ gr f gr' f',
  ek_state names startName endName graph0 gr → f < maxPaths →
  ek_loop names startName endName fuel maxPaths gr f = Some (gr', f') →
  f' ≤ maxPaths.
Proof using names_ne graph0_done cap_pos.
  induction fuel as [|fuel IH]; intros gr f gr' f' Hst Hf Hloop; [done|].
  pose proof (ek_state_inv g names startName endName names_ne graph0 graph0_done gr Hst)
    as Hinv.
  destruct (bfs_step g names startName endName names_ne graph0 graph0_done gr Hinv)
    as (par & order & _ & _ & Hno & Hyes).
  cbn [ek_loop] in Hloop.
  destruct (visited_dec par (sink names endName)) as [Hv|Hv].
  - destruct (Hyes Hv) as (ch & gr1 & _ & _ & _ & _ & Hbfs & _).
    rewrite Hbfs in Hloop. cbn [mbind option_bind] in Hloop.
    rewrite bool_decide_eq_false_2 in Hloop by lia.
    destruct ((0 <? maxPaths) && (maxPaths <=? f + 1)) eqn:Hc.
    + injection Hloop as <- <-. lia.
    + apply (IH gr1 (f + 1) gr' f'); [by eapply ek_state_next| |done].
      apply andb_false_iff in Hc as [Hc%Z.ltb_ge|Hc%Z.leb_gt]; lia.
  - destruct (Hno Hv) as [_ Hbfs]. rewrite Hbfs in Hloop.
    cbn [mbind option_bind] in Hloop.
    rewrite bool_decide_eq_true_2 in Hloop by done. injection Hloop as <- <-. lia.
Qed.

End cap.

Lemma NoDup_concat_elem {A} (ms : list (list A)) m :
  NoDup (concat ms) → m ∈ ms → NoDup m.
Proof.
  induction ms as [|m0 ms IH]; intros Hnd Hm; [by apply elem_of_nil in Hm|].
  simpl in Hnd. apply NoDup_app in Hnd as (H0 & _ & Hrest).
  apply elem_of_cons in Hm as [->|Hm]; [done|by apply IH].
Qed.


(** What [MultiPath] returns on a valid graph: one path for each list of
    intermediate rooms in [ms], as many as the cap and the graph allow. *)
Lemma MultiPath_full_spec (g : Graph) (maxPaths : Z) :
  valid_graph g →
  ∃ s e ms,
    Start g = Some s ∧ End g = Some e ∧ s ≠ e ∧
    MultiPath g maxPaths = Some (path_of s e <$> ms) ∧
    NoDup (concat ms) ∧ one_direct ms ∧
    (∀ m, m ∈ ms →
          mincut.is_path g (s :: m ++ [e]) ∧
          ∀ nm, nm ∈ m → nm ≠ s ∧ nm ≠ e ∧ is_Some (Rooms g !! nm)) ∧
    (0 < maxPaths → Z.of_nat (length ms) ≤ maxPaths) ∧
    (maxPaths ≤ 0 →
     ∀ ms', mincut.disjoint_paths g s e ms' → (length ms' ≤ length ms)%nat).
Proof.
  intros (s & e & Hs & He & Hne & Hsin & Hein & Hnd & Hclosed)%valid_graph_spec.
  set (names := merge_sort String.le (map_to_list (Rooms g)).*1).
  pose proof (sorted_keys_nodup g _ (reflexivity _)) as Hnames. fold names in Hnames.
  assert (∀ nm r nb, Rooms g !! nm = Some r → nb ∈ Links r → nb ∈ names) as Hclosed'.
  { intros nm r nb Hr Hnb. apply (sorted_keys_elem g _ nb (reflexivity _)).
    by eapply Hclosed. }
  pose proof (λ nm, sorted_keys_rooms g _ nm (reflexivity _)) as Hrooms.
  pose proof (sorted_keys_elem g _ s (reflexivity _) Hsin) as Hsin'.
  pose proof (sorted_keys_elem g _ e (reflexivity _) Hein) as Hein'.
  fold names in Hrooms, Hsin', Hein'.
  destruct (flow_and_paths_spec g names s e Hnames Hclosed' Hnd Hrooms Hsin' Hein' Hne
              maxPaths)
    as (graph0 & adj & gr & f & ms & Hbuild & Hdone & Hadj & Hek & Hst & Hf & Hmax & Hfp
        & Hndm & Hone & Hall & Hle & Heq).
  destruct (list_elem_of_lookup_1 _ _ Hsin') as [s_id Hsid].
  destruct (list_elem_of_lookup_1 _ _ Hein') as [e_id Heid].
  assert (names ≠ []) as Hnn by (intros Hn; by rewrite Hn in Hsid).
  exists s, e, ms. do 3 (split; [done|]).
  split.
  { unfold MultiPath, MultiPath_from. rewrite Hs, He.
    rewrite bool_decide_eq_false_2; [done|].
    intros Hsz. apply map_size_empty_iff in Hsz. rewrite Hsz in Hsin.
    rewrite lookup_empty in Hsin. by destruct Hsin. }
  split; [done|]. split; [done|].
  split.
  { intros m Hm. destruct (Hall m Hm) as [Hl Hmid]. split.
    - apply linked_names_is_path; [done| |done].
      intros nm Hnm. apply Hrooms. by destruct (Hmid nm Hnm) as (_ & _ & ?).
    - intros nm Hnm. destruct (Hmid nm Hnm) as (? & ? & ?). split_and!; try done.
      by apply Hrooms. }
  split.
  { intros Hpos.
    pose proof (ek_loop_cap g names s e Hnn graph0 Hdone maxPaths Hpos _ graph0 0 gr f
                  (ek_state_init _ _ _ _) Hpos Hek). lia. }
  intros Hmp ms' Hfam. specialize (Hmax Hmp). specialize (Heq Hmp).
  pose proof (ek_state_inv g names s e Hnn graph0 Hdone gr Hst) as Hflow.
  destruct (bfs_step g names s e Hnn graph0 Hdone gr Hflow)
    as (par & order & _ & Htree & Hno & Hyes).
  destruct (visited_dec par (sink names e)) as [Hv|Hv].
  { destruct (Hyes Hv) as (ch & gr1 & _ & _ & _ & _ & Hb & _).
    rewrite Hb in Hmax. by injection Hmax. }
  destruct (Hno Hv) as [Hclosure _].
  pose proof (mincut.family_bound g names s e Hnames Hclosed' s_id e_id Hsid Heid
                graph0 Hdone gr Hflow order (bt_nodup _ _ _ _ _ Htree)) as Hbound.
  specialize (Hbound (list_elem_of_lookup_2 _ _ _ (bt_source _ _ _ _ _ Htree))).
  assert (sink names e ∉ order) as Hsink.
  { intros Hin. apply Hv. by apply (bt_visited _ _ _ _ _ Htree). }
  specialize (Hbound Hsink Hclosure ms' Hfam). lia.
Qed.

End multipath_more.

(** X9. On a valid graph every path [MultiPath] returns starts in the
    start room, ends in the end room, visits no room twice, steps from each
    room to a room it is linked to, and has as length the number of its
    rooms less one. *)
Theorem multipath_paths_wellformed (g : Graph) (maxPaths : Z) :
  valid_graph g →
  ∃ paths,
    path.MultiPath g maxPaths = Some paths ∧
    ∀ p, p ∈ paths →
      head (PRooms p) = Start g ∧ last (PRooms p) = End g ∧
      NoDup (PRooms p) ∧ mincut.is_path g (PRooms p) ∧
      Length p = Z.of_nat (length (PRooms p)) - 1.
Proof.
  intros (s & e & ms & Hs & He & Hne & HM & Hnd & _ & Hall & _)%
    (multipath_more.MultiPath_full_spec g maxPaths).
  exists (reconstruction.path_of s e <$> ms). split; [done|].
  intros p (m & -> & Hm)%list_elem_of_fmap.
  destruct (Hall m Hm) as [Hpath Hmid].
  cbn [reconstruction.path_of PRooms Length app].
  split; [by rewrite Hs|]. split.
  { rewrite He. change (s :: m ++ [e]) with ([s] ++ m ++ [e]).
    by rewrite app_assoc, last_snoc. }
  split; [|done].
  apply NoDup_cons. split.
  - intros [Hin|Hin%list_elem_of_singleton]%elem_of_app; [|done].
    by destruct (Hmid s Hin) as (? & _).
  - apply NoDup_app. split; [by eapply multipath_more.NoDup_concat_elem|].
    split; [|apply NoDup_singleton].
    intros x Hx ->%list_elem_of_singleton. by destruct (Hmid e Hx) as (_ & ? & _).
Qed.

Lemma multipath_paths_wellformed_witness :
  ∃ paths,
    path.MultiPath diamond 0 = Some paths ∧
    ∀ p, p ∈ paths →
      head (PRooms p) = Start diamond ∧ last (PRooms p) = End diamond ∧
      NoDup (PRooms p) ∧ mincut.is_path diamond (PRooms p) ∧
      Length p = Z.of_nat (length (PRooms p)) - 1.
Proof.
  apply (multipath_paths_wellformed diamond 0).
  apply (bool_decide_unpack _). vm_compute. reflexivity.
Defined.

(** X10. With a positive [maxPaths], [MultiPath] returns at most that many
    paths. *)
Theorem multipath_respects_cap (g : Graph) (maxPaths : Z) :
  valid_graph g → 0 < maxPaths →
  ∃ paths, path.MultiPath g maxPaths = Some paths ∧
           Z.of_nat (length paths) ≤ maxPaths.
Proof.
  intros (s & e & ms & _ & _ & _ & HM & _ & _ & _ & Hcap & _)%
    (multipath_more.MultiPath_full_spec g maxPaths) Hpos.
  exists (reconstruction.path_of s e <$> ms). split; [done|].
  rewrite length_fmap. by apply Hcap.
Qed.

Lemma multipath_respects_cap_witness :
  ∃ paths, path.MultiPath diamond 1 = Some paths ∧ Z.of_nat (length paths) ≤ 1.
Proof.
  apply (multipath_respects_cap diamond 1).
  - apply (bool_decide_unpack _). vm_compute. reflexivity.
  - reflexivity.
Defined.

Module multipath_reach.

(** Room [a] lists room [b] among its links. *)
Definition linked (g : Graph) (a b : string) : Prop :=
  ∃ r, Rooms g !! a = Some r ∧ b ∈ Links r.

Lemma is_path_app_r g l1 l2 : mincut.is_path g (l1 ++ l2) → mincut.is_path g l2.
Proof.
  intros Hp i a b Ha Hb. apply (Hp (length l1 + i)%nat).
  - by rewrite lookup_app_r, Nat.add_comm, Nat.add_sub by lia.
  - replace (S (length l1 + i)) with (length l1 + S i)%nat by lia.
    by rewrite lookup_app_r, Nat.add_comm, Nat.add_sub by lia.
Qed.

Lemma is_path_cons g a b l :
  linked g a b → mincut.is_path g (b :: l) → mincut.is_path g (a :: b :: l).
Proof.
  intros Hab Hp i x y Hx Hy. destruct i as [|i]; simpl in Hx, Hy.
  - injection Hx as <-. injection Hy as <-. done.
  - by apply (Hp i).
Qed.

(** A walk can be cut down to a path that visits no room twice. *)
Lemma walk_to_simple_path g a e :
  rtc (linked g) a e →
  ∃ l, head l = Some a ∧ last l = Some e ∧ NoDup l ∧ mincut.is_path g l.
Proof.
  induction 1 as [a|a b e Hab _ (l & Hh & Hl & Hnd & Hp)].
  { exists [a]. split; [done|]. split; [done|]. split; [apply NoDup_singleton|].
    intros i x y Hx Hy. destruct i; done. }
  destruct (decide (a ∈ l)) as [Hin|Hnotin].
  - apply list_elem_of_split in Hin as (l1 & l2 & ->).
    exists (a :: l2). split; [done|]. split.
    { rewrite last_app in Hl. destruct (last (a :: l2)) as [z|] eqn:E; [done|].
      by apply last_None in E. }
    split; [by apply NoDup_app in Hnd as (_ & _ & ?)|]. by eapply is_path_app_r.
  - destruct l as [|b' l]; [done|]. injection Hh as ->.
    exists (a :: b :: l). split; [done|]. split; [done|].
    split; [by apply NoDup_cons|]. by apply is_path_cons.
Qed.

Lemma path_is_walk g l a e :
  mincut.is_path g l → head l = Some a → last l = Some e → rtc (linked g) a e.
Proof.
  revert a. induction l as [|x l IH]; intros a Hp Hh Hl; [done|].
  injection Hh as ->. destruct l as [|y l].
  { injection Hl as ->. done. }
  apply (rtc_l _ _ y).
  - by apply (Hp 0%nat).
  - apply IH; [by eapply mincut.is_path_tail|done|done].
Qed.

End multipath_reach.

(** No path is found exactly when there is none. *)
Lemma MultiPath_empty_iff (g : Graph) :
  valid_graph g →
  ∃ s e, Start g = Some s ∧ End g = Some e ∧
         (path.MultiPath g 0 = Some [] ↔ ¬ rtc (multipath_reach.linked g) s e).
Proof.
  intros (s & e & ms & Hs & He & Hne & HM & Hnd & Hone & Hall & _ & Hmax)%
    (multipath_more.MultiPath_full_spec g 0).
  exists s, e. split; [done|]. split; [done|]. rewrite HM. split.
  - intros Hnil Hreach. assert (ms = []) as -> by (by destruct ms).
    destruct (multipath_reach.walk_to_simple_path g s e Hreach)
      as (l & Hh & Hl & Hndl & Hp).
    destruct l as [|x l]; [done|]. injection Hh as ->.
    destruct l as [|y l] using rev_ind.
    { injection Hl as ->. done. }
    clear IHl. change (s :: l ++ [y]) with ([s] ++ l ++ [y]) in Hl.
    rewrite app_assoc, last_snoc in Hl. injection Hl as ->.
    apply NoDup_cons in Hndl as [Hs_l Hndl].
    apply NoDup_app in Hndl as (Hndl & He_l & _).
    specialize (Hmax ltac:(lia) [l]).
    assert (length [l] ≤ length (@nil (list string)))%nat as Hlen; [|simpl in Hlen; lia].
    apply Hmax. split; [simpl; by rewrite app_nil_r|]. split.
    { intros i j Hi Hj. apply lookup_lt_Some in Hi, Hj. simpl in Hi, Hj. lia. }
    intros m ->%list_elem_of_singleton. split; [done|].
    intros nm Hnm. split.
    + intros ->. apply Hs_l, elem_of_app. by left.
    + intros ->. apply (He_l e Hnm), list_elem_of_here.
  - intros Hno. destruct ms as [|m ms]; [done|]. exfalso. apply Hno.
    destruct (Hall m) as [Hp _]; [apply list_elem_of_here|].
    apply (multipath_reach.path_is_walk g (s :: m ++ [e])); [done|done|].
    change (s :: m ++ [e]) with ([s] ++ m ++ [e]). by rewrite app_assoc, last_snoc.
Qed.

(** X11. On a valid graph [MultiPath] returns [Some []] exactly when the end room
    cannot be reached from the start room by following links. *)
Theorem multipath_empty_iff_unreachable (g : Graph) :
  valid_graph g →
  ∃ s e, Start g = Some s ∧ End g = Some e ∧
         (path.MultiPath g 0 = Some [] ↔ ¬ rtc (multipath_reach.linked g) s e).
Proof. apply MultiPath_empty_iff. Qed.

Lemma multipath_empty_iff_unreachable_witness :
  ∃ s e, Start (parser.RGraph dead_end_result) = Some s ∧
         End (parser.RGraph dead_end_result) = Some e ∧
         (path.MultiPath (parser.RGraph dead_end_result) 0 = Some [] ↔
          ¬ rtc (multipath_reach.linked (parser.RGraph dead_end_result)) s e).
Proof.
  apply (multipath_empty_iff_unreachable (parser.RGraph dead_end_result)).
  apply (bool_decide_unpack _). vm_compute. reflexivity.
Defined.

Module multipath_degree.

(** The rooms next to the start room on the paths of a family are pairwise
    different. *)
Lemma seconds_nodup (s e : string) (ms : list (list string)) :
  NoDup (concat ms) → reconstruction.one_direct ms →
  (∀ m, m ∈ ms → ∀ nm, nm ∈ m → nm ≠ s ∧ nm ≠ e) →
  NoDup ((λ m, default e (head m)) <$> ms).
Proof.
  intros Hnd Hone Hmid. apply NoDup_alt. intros i j x Hi Hj.
  rewrite list_lookup_fmap in Hi, Hj.
  destruct (ms !! i) as [m|] eqn:Hmi; [|done].
  destruct (ms !! j) as [m'|] eqn:Hmj; [|done].
  simpl in Hi, Hj. injection Hi as Hi. injection Hj as Hj.
  destruct (decide (i = j)) as [|Hij]; [done|exfalso].
  pose proof (Hmid m (list_elem_of_lookup_2 _ _ _ Hmi)) as Hm.
  pose proof (Hmid m' (list_elem_of_lookup_2 _ _ _ Hmj)) as Hm'.
  destruct m as [|a m], m' as [|a' m']; simpl in Hi, Hj.
  - apply Hij. by apply Hone.
  - destruct (Hm' a') as [_ ?]; [apply list_elem_of_here|congruence].
  - destruct (Hm a) as [_ ?]; [apply list_elem_of_here|congruence].
  - assert (a' = a) as -> by congruence.
    apply (NoDup_concat_lookup ms i j (a :: m) (a :: m') a Hnd Hmi Hmj Hij);
      apply list_elem_of_here.
Qed.

Lemma lasts_nodup (s e : string) (ms : list (list string)) :
  NoDup (concat ms) → reconstruction.one_direct ms →
  (∀ m, m ∈ ms → ∀ nm, nm ∈ m → nm ≠ s ∧ nm ≠ e) →
  NoDup ((λ m, default s (last m)) <$> ms).
Proof.
  intros Hnd Hone Hmid. apply NoDup_alt. intros i j x Hi Hj.
  rewrite list_lookup_fmap in Hi, Hj.
  destruct (ms !! i) as [m|] eqn:Hmi; [|done].
  destruct (ms !! j) as [m'|] eqn:Hmj; [|done].
  simpl in Hi, Hj. injection Hi as Hi. injection Hj as Hj.
  destruct (decide (i = j)) as [|Hij]; [done|exfalso].
  pose proof (Hmid m (list_elem_of_lookup_2 _ _ _ Hmi)) as Hm.
  pose proof (Hmid m' (list_elem_of_lookup_2 _ _ _ Hmj)) as Hm'.
  destruct (last m) as [a|] eqn:Hla, (last m') as [a'|] eqn:Hla'; simpl in Hi, Hj.
  - assert (a' = a) as -> by congruence.
    apply last_Some in Hla as [l1 ->]. apply last_Some in Hla' as [l2 ->].
    apply (NoDup_concat_lookup ms i j _ _ a Hnd Hmi Hmj Hij);
      apply elem_of_app; right; apply list_elem_of_here.
  - apply last_Some in Hla as [l1 ->].
    destruct (Hm a) as [? _]; [|congruence]. apply elem_of_app. right.
    apply list_elem_of_here.
  - apply last_Some in Hla' as [l2 ->].
    destruct (Hm' a') as [? _]; [|congruence]. apply elem_of_app. right.
    apply list_elem_of_here.
  - apply last_None in Hla, Hla'. subst m m'. apply Hij. by apply Hone.
Qed.

End multipath_degree.

(** X12. On a valid graph [MultiPath] returns no more paths than the start
    room has links, and no more than the end room has. *)
Theorem multipath_count_le_degree (g : Graph) (maxPaths : Z) :
  valid_graph g →
  ∃ s e rs re paths,
    Start g = Some s ∧ End g = Some e ∧
    Rooms g !! s = Some rs ∧ Rooms g !! e = Some re ∧
    path.MultiPath g maxPaths = Some paths ∧
    (length paths ≤ length (Links rs))%nat ∧
    (length paths ≤ length (Links re))%nat.
Proof.
  intros Hvalid.
  destruct (multipath_more.MultiPath_full_spec g maxPaths Hvalid)
    as (s & e & ms & Hs & He & Hne & HM & Hnd & Hone & Hall & _).
  unfold valid_graph in Hvalid. rewrite Hs, He in Hvalid.
  destruct Hvalid as (_ & [rs Hrs] & [re Hre] & Hrooms).
  exists s, e, rs, re, (reconstruction.path_of s e <$> ms).
  do 5 (split; [done|]). rewrite length_fmap.
  assert (∀ m, m ∈ ms → ∀ nm, nm ∈ m → nm ≠ s ∧ nm ≠ e) as Hmid.
  { intros m Hm nm Hnm. destruct (Hall m Hm) as [_ H]. by destruct (H nm Hnm) as (? & ? & _). }
  split.
  - rewrite <- (length_fmap (λ m, default e (head m)) ms).
    apply submseteq_length, NoDup_submseteq;
      [by apply (multipath_degree.seconds_nodup s e)|].
    intros x (m & -> & Hm)%list_elem_of_fmap.
    destruct (Hall m Hm) as [Hpath _].
    destruct (Hpath 0%nat s (default e (head m))) as (r & Hr & Hin); [done| |].
    { by destruct m. }
    rewrite Hrs in Hr. by injection Hr as <-.
  - rewrite <- (length_fmap (λ m, default s (last m)) ms).
    apply submseteq_length, NoDup_submseteq;
      [by apply (multipath_degree.lasts_nodup s e)|].
    intros x (m & -> & Hm)%list_elem_of_fmap.
    destruct (Hall m Hm) as [Hpath _].
    destruct (Hpath (length m) (default s (last m)) e) as (r & Hr & Hin).
    { destruct m as [|a m] using rev_ind; [done|].
      rewrite last_snoc. simpl. rewrite length_app. simpl.
      replace (length m + 1)%nat with (S (length m)) by lia. simpl.
      rewrite lookup_app_l by (rewrite length_app; simpl; lia).
      by rewrite lookup_app_r, Nat.sub_diag by lia. }
    { change (s :: m ++ [e]) with ([s] ++ m ++ [e]). rewrite app_assoc.
      replace (S (length m)) with (length ([s] ++ m) + 0)%nat
        by (rewrite length_app; simpl; lia).
      by rewrite lookup_app_r, Nat.add_comm, Nat.add_sub by lia. }
    destruct (Hrooms _ r Hr) as (_ & _ & Hback).
    rewrite Forall_forall in Hback. specialize (Hback e Hin).
    unfold links_back in Hback. by rewrite Hre in Hback.
Qed.

Lemma multipath_count_le_degree_witness :
  ∃ s e rs re paths,
    Start diamond = Some s ∧ End diamond = Some e ∧
    Rooms diamond !! s = Some rs ∧ Rooms diamond !! e = Some re ∧
    path.MultiPath diamond 0 = Some paths ∧
    (length paths ≤ length (Links rs))%nat ∧
    (length paths ≤ length (Links re))%nat.
Proof.
  apply (multipath_count_le_degree diamond 0).
  apply (bool_decide_unpack _). vm_compute. reflexivity.
Defined.

(** X13. In every state of the Edmonds-Karp loop the flow is a flow: no
    half-edge carries more than its capacity, the two half-edges of a pair
    point at each other and carry opposite flows, and at every node but the
    source and the sink what flows in flows out. *)
Theorem ek_loop_keeps_flow
    (g : Graph) (s e : string) (net0 gr : list (list path.edge)) :
  let names := merge_sort String.le (map_to_list (Rooms g)).*1 in
  size (Rooms g) ≠ 0%nat →
  path.build_network g names s e = Some net0 →
  residual.ek_state names s e net0 gr →
  (∀ u i ed, path.edge_at gr u i = Some ed →
     path.flow ed ≤ path.cap ed ∧
     ∃ ed', path.edge_at gr (path.to ed) (path.rev ed) = Some ed' ∧
            path.to ed' = u ∧ path.rev ed' = i ∧
            path.flow ed' = - path.flow ed) ∧
  (∀ w, w ≠ path.source names s → w ≠ path.sink names e →
        residual.excess gr w = 0).
Proof.
  intros names Hsz Hbuild Hst.
  pose proof (residual.sorted_keys_nodup g _ (reflexivity _)) as Hnd.
  pose proof (λ nm, residual.sorted_keys_rooms g _ nm (reflexivity _)) as Hrooms.
  pose proof (residual.sorted_keys_ne g _ (reflexivity _) Hsz) as Hne.
  destruct (residual.build_network_spec g names s e Hnd Hrooms) as (net & Hnet & Hdone).
  fold names in Hnet. rewrite Hbuild in Hnet. injection Hnet as <-.
  pose proof (residual.ek_state_inv g names s e Hne net0 Hdone gr Hst) as Hinv.
  split; [|apply (residual.fi_conserved _ _ _ _ _ Hinv)].
  intros u i ed Hed. split; [by apply (residual.fi_cap _ _ _ _ _ Hinv u i)|].
  assert (residual.paired gr) as Hp.
  { eapply residual.paired_same_shape; [apply (residual.fi_shape _ _ _ _ _ Hinv)|].
    by destruct Hdone as (_ & ? & _). }
  destruct (Hp u i ed Hed) as [_ (ed' & Hed' & Hto & Hrev)].
  exists ed'. split; [done|]. split; [done|]. split; [done|].
  pose proof (residual.fi_antisym _ _ _ _ _ Hinv u i ed ed' Hed Hed'). lia.
Qed.

Lemma ek_loop_keeps_flow_witness :
  let names := merge_sort String.le (map_to_list (Rooms diamond)).*1 in
  let net0 := default [] (path.build_network diamond names "start" "end") in
  let net1 := (default ([], 0) (path.bfs names "start" "end" net0)).1 in
  (∀ u i ed, path.edge_at net1 u i = Some ed →
     path.flow ed ≤ path.cap ed ∧
     ∃ ed', path.edge_at net1 (path.to ed) (path.rev ed) = Some ed' ∧
            path.to ed' = u ∧ path.rev ed' = i ∧
            path.flow ed' = - path.flow ed) ∧
  (∀ w, w ≠ path.source names "start" → w ≠ path.sink names "end" →
        residual.excess net1 w = 0).
Proof.
  intros names net0 net1.
  apply (ek_loop_keeps_flow diamond "start" "end" net0 net1).
  - vm_compute. discriminate.
  - vm_compute. reflexivity.
  - apply (residual.ek_state_next names "start" "end" net0 net0 net1 1).
    + apply residual.ek_state_init.
    + vm_compute. reflexivity.
    + discriminate.
Defined.

(** ** The simulation on disjoint paths: every ant moves in every turn *)

Module pipeline.
Import scheduler exclusivity determinism.

(** [f 0 + ... + f (n - 1)] *)
Fixpoint sum_upto (f : nat → Z) (n : nat) : Z :=
  match n with
  | O => 0
  | S n' => sum_upto f n' + f n'
  end.

Lemma sum_upto_ext f g (n : nat) :
  (∀ i : nat, (i < n)%nat → f i = g i) → sum_upto f n = sum_upto g n.
Proof.
  induction n as [|n IH]; intros H; [done|]. simpl.
  rewrite IH, (H n) by (intros; try apply H; lia). done.
Qed.

Lemma sum_upto_change f g (n i : nat) (x : Z) :
  (i < n)%nat → g i = f i + x → (∀ j : nat, j ≠ i → g j = f j) →
  sum_upto g n = sum_upto f n + x.
Proof.
  induction n as [|n IH]; intros Hi Hg Hframe; [lia|]. simpl.
  destruct (decide (i = n)) as [->|Hne].
  - rewrite Hg, (sum_upto_ext g f n); [lia|]. intros j Hj. apply Hframe. lia.
  - rewrite IH, (Hframe n) by (done || lia). lia.
Qed.

Lemma sum_upto_le f g (n : nat) :
  (∀ i : nat, (i < n)%nat → f i ≤ g i) → sum_upto f n ≤ sum_upto g n.
Proof.
  induction n as [|n IH]; simpl; intros H; [lia|].
  specialize (H n ltac:(lia)) as Hn. specialize (IH ltac:(intros; apply H; lia)). lia.
Qed.

(** [x] cut down to the interval from 0 to [c]. *)
Definition clamp (x c : Z) : Z := Z.max 0 (Z.min c x).

(** Where the ant that is number [k] in the queue of a path of length [L]
    stands in turn [t + 1], once the ants at the positions from [fr] on have
    been moved: without the move it is [min (t - k) L] rooms from the
    start. *)
Definition where_ (t fr k L : Z) : Z :=
  let p0 := Z.min (t - k) L in
  if bool_decide (fr ≤ p0 ∧ p0 < L) then p0 + 1 else p0.

(** The ant found at position [pos] at the beginning of turn [t + 1]. *)
Definition ant_at (t : nat) (q : list Z) (pos : Z) : option Z :=
  if bool_decide (1 ≤ pos ≤ Z.of_nat t) then q !! Z.to_nat (Z.of_nat t - pos) else None.

(** What the first phase of turn [t + 1] prints for position [pos]. *)
Definition adv_tok (t : nat) (p : Path) (q : list Z) (pos : Z) : list string :=
  match ant_at t q pos, room_at p (pos + 1) with
  | Some id, Some r => [move_token id r]
  | _, _ => []
  end.

(** What the second phase of turn [t + 1] prints for a path. *)
Definition disp_tok (t : nat) (p : Path) (q : list Z) : list string :=
  match q !! t, PRooms p !! 1%nat with
  | Some id, Some r => [move_token id r]
  | _, _ => []
  end.

(** What the first phase of turn [t + 1] prints for a path, of which the
    positions below [n] are gone through from the last to the first. *)
Definition adv_toks (t : nat) (p : Path) (q : list Z) (n : nat) : list string :=
  concat (adv_tok t p q <$> reverse (seqZ 0 (Z.of_nat n))).

Definition fr_set (fr : nat → Z) (pi : nat) (v : Z) : nat → Z :=
  λ j, if decide (j = pi) then v else fr j.

Definition d_set (d : nat → nat) (pi : nat) (v : nat) : nat → nat :=
  λ j, if decide (j = pi) then v else d j.

Lemma seqZ_down_S (n : nat) :
  reverse (seqZ 0 (Z.of_nat (S n))) = Z.of_nat n :: reverse (seqZ 0 (Z.of_nat n)).
Proof.
  replace (Z.of_nat (S n)) with (Z.of_nat n + 1) by lia.
  rewrite seqZ_app by lia. rewrite reverse_app. done.
Qed.

Ltac where_lia :=
  unfold where_, clamp in *; repeat case_bool_decide; lia.

Lemma good_path_cases s e p P room :
  good_path s e p → room_at p P = Some room → is_inner s e room = true →
  0 < P < Length p.
Proof.
  intros (m & Hr & Hl & Hm) Hroom Hin.
  apply is_inner_ne in Hin as [Hs He].
  unfold room_at, index_of_Z in Hroom.
  destruct (Z.ltb_spec P 0) as [|Hge]; [done|]. cbn [mbind option_bind] in Hroom.
  rewrite Hr in Hroom.
  destruct (Z.to_nat P) as [|i] eqn:Hi; simpl in Hroom; [congruence|].
  destruct (decide (i < length m)%nat) as [Hlt|Hnlt]; [lia|].
  rewrite lookup_app_r in Hroom by lia.
  destruct (i - length m)%nat as [|j]; simpl in Hroom; [congruence|done].
Qed.

Lemma good_path_first s e p :
  good_path s e p → Length p ≠ 1 →
  ∃ first, PRooms p !! 1%nat = Some first ∧ room_at p 1 = Some first ∧
           is_inner s e first = true ∧ length (PRooms p) ≠ 2%nat.
Proof.
  intros Hgood Hl.
  destruct (good_path_inner s e p 1 Hgood) as (room & Hroom & Hin).
  { destruct Hgood as (m & _ & ? & _). lia. }
  exists room. split; [done|]. split; [done|]. split; [done|].
  destruct Hgood as (m & -> & ? & _). simpl. rewrite length_app. simpl. lia.
Qed.

Lemma good_path_direct s e p :
  good_path s e p → Length p = 1 → length (PRooms p) = 2%nat.
Proof.
  intros (m & -> & ? & _) Hl. simpl. rewrite length_app. simpl. lia.
Qed.

Section pipeline.

Variable range_ants : nat → nat → gmap Z AntState → list (Z * AntState).
Variable startName endName : string.
Variable paths : list Path.
Variable Q : list (list Z).

Hypothesis range_ok : ∀ turn pi m, range_ants turn pi m ≡ₚ map_to_list m.
Hypothesis paths_good :
  ∀ (pi : nat) p, paths !! pi = Some p → good_path startName endName p.
Hypothesis paths_disjoint :
  ∀ (pi pi' : nat) p p' pos pos' room,
    paths !! pi = Some p → paths !! pi' = Some p' →
    0 < pos < Length p → 0 < pos' < Length p' →
    room_at p pos = Some room → room_at p' pos' = Some room →
    pi = pi' ∧ pos = pos'.
Hypothesis Q_length : length Q = length paths.
Hypothesis Q_nodup : NoDup (concat Q).

Local Abbreviation is_inner := (scheduler.is_inner startName endName).
Local Abbreviation is_free := (scheduler.is_free endName).
Local Abbreviation ant_room := (exclusivity.ant_room paths).

Lemma Q_inj (pi pi' k k' : nat) q q' id :
  Q !! pi = Some q → q !! k = Some id →
  Q !! pi' = Some q' → q' !! k' = Some id →
  pi = pi' ∧ k = k'.
Proof.
  intros Hq Hk Hq' Hk'.
  destruct (decide (pi = pi')) as [<-|Hne].
  - split; [done|]. rewrite Hq in Hq'. injection Hq' as <-.
    eapply NoDup_lookup; [|done..].
    eapply multipath_more.NoDup_concat_elem; [done|]. by eapply list_elem_of_lookup_2.
  - exfalso. eapply (NoDup_concat_lookup Q pi pi' q q' id); try done;
      by eapply list_elem_of_lookup_2.
Qed.

(** The ants of path [pi] that have reached the end room. *)
Definition fin (t : nat) (fr : nat → Z) (d : nat → nat) (pi : nat) : Z :=
  match paths !! pi, Q !! pi with
  | Some p, Some q =>
      let c := Z.of_nat (length q) in
      if bool_decide (Length p = 1) then clamp (Z.of_nat (t + d pi)) c
      else clamp (Z.of_nat t + (if bool_decide (fr pi ≤ Length p - 1) then 1 else 0)
                  - Length p + 1) c
  | _, _ => 0
  end.

(** The state in turn [t + 1], when on path [pi] the ants at the positions
    from [fr pi] on have been moved and [d pi] ants have been sent. *)
Record Inv (t : nat) (fr : nat → Z) (d : nat → nat) (st : sim) : Prop := {
  i_wait : ∀ (pi : nat) q, Q !! pi = Some q →
    waitQueues st !! pi = Some (drop (t + d pi) q);
  i_len : length (waitQueues st) = length Q;
  i_ants : ∀ id a, antsState st !! id = Some a →
    ∃ (pi : nat) p q (k : nat),
      paths !! pi = Some p ∧ Q !! pi = Some q ∧ q !! k = Some id ∧
      (k < t + d pi)%nat ∧ Length p ≠ 1 ∧
      a = mkAnt id pi (where_ (Z.of_nat t) (fr pi) (Z.of_nat k) (Length p));
  i_sent : ∀ (pi : nat) p q (k : nat) id,
    paths !! pi = Some p → Q !! pi = Some q → q !! k = Some id →
    (k < t + d pi)%nat → Length p ≠ 1 →
    antsState st !! id =
      Some (mkAnt id pi (where_ (Z.of_nat t) (fr pi) (Z.of_nat k) (Length p)));
  i_occ : ∀ room k, occupied st !! room = Some k → k ≠ 0 →
    ∃ a, antsState st !! k = Some a ∧ ant_room a = Some room;
  i_fin : finished st = sum_upto (fin t fr d) (length paths);
}.

Lemma Inv_ext (t : nat) fr fr' d d' st :
  (∀ pi, fr' pi = fr pi) → (∀ pi, d' pi = d pi) → Inv t fr d st → Inv t fr' d' st.
Proof.
  intros Hfr Hd [H1 H0 H2 H3 H4 H5]. split.
  - intros pi q Hq. rewrite Hd. by apply H1.
  - done.
  - intros id a Ha. destruct (H2 id a Ha) as (pi & p & q & k & ?).
    exists pi, p, q, k. by rewrite Hfr, Hd.
  - intros pi p q k id ? ? ? ? ?. rewrite Hfr. apply (H3 pi p q k id); try done.
    by rewrite <- Hd.
  - done.
  - rewrite H5. apply sum_upto_ext. intros i _. unfold fin. by rewrite Hfr, Hd.
Qed.

Lemma ant_at_Some (t : nat) q pos id :
  ant_at t q pos = Some id →
  ∃ k : nat, Z.of_nat k = Z.of_nat t - pos ∧ 1 ≤ pos ∧ (k < t)%nat ∧ q !! k = Some id.
Proof.
  unfold ant_at. case_bool_decide as Hc; [|done]. intros Hk.
  exists (Z.to_nat (Z.of_nat t - pos)). split; [lia|]. split; [lia|]. split; [lia|done].
Qed.

Lemma ant_at_None (t : nat) q pos (k : nat) :
  ant_at t q pos = None → (k < t)%nat → is_Some (q !! k) →
  Z.of_nat t - Z.of_nat k ≠ pos.
Proof.
  unfold ant_at. intros Hnone Hk [id Hid] Heq.
  rewrite bool_decide_eq_true_2 in Hnone by lia.
  replace (Z.to_nat (Z.of_nat t - pos)) with k in Hnone by lia. congruence.
Qed.

(** The count of arrived ants changes at the last position only. *)
Lemma fin_advance (t : nat) fr fr' d (pi : nat) p q pos :
  paths !! pi = Some p → Q !! pi = Some q →
  fr pi = pos + 1 → fr' pi = pos → (∀ j, j ≠ pi → fr' j = fr j) →
  0 ≤ pos < Length p →
  sum_upto (fin t fr' d) (length paths) =
  sum_upto (fin t fr d) (length paths) +
  (if bool_decide (pos + 1 = Length p ∧ is_Some (ant_at t q pos)) then 1 else 0).
Proof.
  intros Hp Hq Hfr Hfr' Hframe Hpos.
  apply (sum_upto_change _ _ _ pi).
  - by eapply lookup_lt_Some.
  - unfold fin. rewrite Hp, Hq, Hfr, Hfr'. cbv zeta.
    destruct (decide (Length p = 1)) as [H1|H1].
    { rewrite !(bool_decide_eq_true_2 (Length p = 1)) by done.
      rewrite (bool_decide_eq_false_2 (pos + 1 = Length p ∧ _)); [lia|].
      intros [? Hs]. destruct Hs as [id' Hid].
      apply ant_at_Some in Hid as (k & ? & ? & _). lia. }
    rewrite !(bool_decide_eq_false_2 (Length p = 1)) by done.
    destruct (decide (pos + 1 = Length p ∧ is_Some (ant_at t q pos))) as [Hc|Hc].
    + rewrite (bool_decide_eq_true_2 _ Hc).
      destruct Hc as [HL [id Hid]]. apply ant_at_Some in Hid as (k & Hk & Hpos1 & Hkt & Hid).
      apply lookup_lt_Some in Hid. where_lia.
    + rewrite (bool_decide_eq_false_2 _ Hc).
      destruct (decide (pos + 1 = Length p)) as [HL|HL]; [|where_lia].
      assert (ant_at t q pos = None) as Hnone.
      { destruct (ant_at t q pos) eqn:E; [|done]. destruct Hc. split; [done|by eexists]. }
      unfold ant_at in Hnone. case_bool_decide as Hr; [|where_lia].
      apply lookup_ge_None in Hnone. where_lia.
  - intros j Hj. unfold fin. by rewrite (Hframe j Hj).
Qed.

Lemma advance_at_pipe (t : nat) fr fr' d (pi : nat) p q pos posToAnt st moves :
  paths !! pi = Some p → Q !! pi = Some q →
  Inv t fr d st →
  fr pi = pos + 1 → d pi = 0%nat →
  fr' pi = pos → (∀ j, j ≠ pi → fr' j = fr j) →
  0 ≤ pos < Length p →
  posToAnt !! pos = ant_at t q pos →
  ∃ st', advance_at startName endName p posToAnt pos st moves
           = Some (st', moves ++ adv_tok t p q pos) ∧
         Inv t fr' d st'.
Proof.
  intros Hp Hq Hinv Hfr Hd Hfr' Hframe Hpos Hlook.
  pose proof (paths_good pi p Hp) as Hgood.
  pose proof (fin_advance t fr fr' d pi p q pos Hp Hq Hfr Hfr' Hframe Hpos) as Hfin.
  assert (∀ (pi' : nat) p' (k' : nat), paths !! pi' = Some p' →
            (pi' = pi → Z.of_nat t - Z.of_nat k' ≠ pos) →
            where_ (Z.of_nat t) (fr' pi') (Z.of_nat k') (Length p') =
            where_ (Z.of_nat t) (fr pi') (Z.of_nat k') (Length p')) as Hsame.
  { intros pi' p' k' Hp' Hne. destruct (decide (pi' = pi)) as [->|Hpi].
    - rewrite Hfr', Hfr. rewrite Hp in Hp'. injection Hp' as <-.
      specialize (Hne eq_refl). where_lia.
    - by rewrite Hframe. }
  unfold advance_at, adv_tok. rewrite Hlook.
  destruct (ant_at t q pos) as [id|] eqn:Hant.
  2:{ exists st. rewrite app_nil_r. split; [done|].
      assert (∀ (pi' : nat) (k' : nat), (k' < t + d pi')%nat →
                pi' = pi → is_Some (q !! k') → Z.of_nat t - Z.of_nat k' ≠ pos) as Hno.
      { intros pi' k' Hk' -> Hsome. rewrite Hd in Hk'.
        apply (ant_at_None t q pos k' Hant); [lia|done]. }
      split.
      - apply (i_wait _ _ _ _ Hinv).
      - apply (i_len _ _ _ _ Hinv).
      - intros id a Ha.
        destruct (i_ants _ _ _ _ Hinv id a Ha) as (pi' & p' & q' & k' & Hp' & Hq' & Hk' & Hlt & HL & ->).
        exists pi', p', q', k'. do 5 (split; [done|]). f_equal. symmetry.
        apply Hsame; [done|]. intros ->. rewrite Hq in Hq'. injection Hq' as <-.
        by apply (Hno pi k').
      - intros pi' p' q' k' id Hp' Hq' Hk' Hlt HL.
        rewrite (i_sent _ _ _ _ Hinv pi' p' q' k' id) by done. do 2 f_equal. symmetry.
        apply Hsame; [done|]. intros ->. rewrite Hq in Hq'. injection Hq' as <-.
        by apply (Hno pi k').
      - apply (i_occ _ _ _ _ Hinv).
      - rewrite Hfin, (i_fin _ _ _ _ Hinv).
        rewrite bool_decide_eq_false_2; [lia|]. by intros [_ [? ?]]. }
  destruct (ant_at_Some t q pos id Hant) as (k & Hk & Hpos1 & Hkt & Hid).
  assert (Length p ≠ 1) as HL by lia.
  pose proof (i_sent _ _ _ _ Hinv pi p q k id Hp Hq Hid ltac:(lia) HL) as Ha.
  assert (where_ (Z.of_nat t) (fr pi) (Z.of_nat k) (Length p) = pos) as Hw.
  { rewrite Hfr. where_lia. }
  rewrite Hw in Ha. rewrite Ha. cbn [mbind option_bind Pos ID PathIdx].
  destruct (good_path_inner startName endName p pos Hgood ltac:(lia))
    as (cur & Hcur & Hcin).
  destruct (good_path_room startName endName p (pos + 1) Hgood ltac:(lia))
    as [next Hnext].
  rewrite Hcur. cbn [mbind option_bind]. rewrite Hnext. cbn [mbind option_bind].
  (* the next room is free *)
  assert (is_free (occupied st) next = true) as Hfree.
  { unfold scheduler.is_free. apply orb_true_iff.
    destruct (decide (pos + 1 = Length p)) as [Hend|Hmid].
    { left. apply bool_decide_eq_true. rewrite Hend in Hnext.
      by apply (good_path_end startName endName p). }
    right. apply bool_decide_eq_true.
    destruct (occupied st !! next) as [k'|] eqn:Hocc; [|done]. simpl.
    destruct (decide (k' = 0)) as [|Hnz]; [done|]. exfalso.
    destruct (i_occ _ _ _ _ Hinv next k' Hocc Hnz) as (a' & Ha' & Hroom').
    destruct (i_ants _ _ _ _ Hinv k' a' Ha')
      as (pi' & p' & q' & k'' & Hp' & Hq' & Hk'' & Hlt'' & HL' & ->).
    unfold exclusivity.ant_room in Hroom'. cbn [PathIdx Pos] in Hroom'.
    rewrite Hp' in Hroom'. cbn [mbind option_bind] in Hroom'.
    destruct (good_path_inner startName endName p (pos + 1) Hgood ltac:(lia))
      as (next' & Hnext' & Hnin).
    rewrite Hnext in Hnext'. injection Hnext' as <-.
    pose proof (good_path_cases startName endName p' _ next (paths_good pi' p' Hp')
                  Hroom' Hnin) as Hrange.
    destruct (paths_disjoint pi' pi p' p _ (pos + 1) next Hp' Hp Hrange ltac:(lia)
                Hroom' Hnext) as [-> Heq].
    rewrite Hp in Hp'. injection Hp' as <-. rewrite Hfr in Heq. where_lia. }
  rewrite Hfree.
  eexists. split; [done|].
  (* the invariant after the move *)
  assert (∀ (pi' : nat) q' (k' : nat) id', Q !! pi' = Some q' → q' !! k' = Some id' →
            id' ≠ id → pi' = pi → Z.of_nat t - Z.of_nat k' ≠ pos) as Hother.
  { intros pi' q' k' id' Hq' Hk' Hne -> Heq. rewrite Hq in Hq'. injection Hq' as <-.
    assert (k' = k) as -> by lia. congruence. }
  split; cbn [waitQueues antsState occupied finished].
  - apply (i_wait _ _ _ _ Hinv).
  - apply (i_len _ _ _ _ Hinv).
  - intros id' a'. rewrite lookup_insert_Some. intros [[<- <-]|[Hne Ha']].
    + exists pi, p, q, k. do 3 (split; [done|]). split; [lia|]. split; [done|].
      f_equal. rewrite Hfr'. where_lia.
    + destruct (i_ants _ _ _ _ Hinv id' a' Ha')
        as (pi' & p' & q' & k' & Hp' & Hq' & Hk' & Hlt & HL' & ->).
      exists pi', p', q', k'. do 5 (split; [done|]). f_equal. symmetry.
      apply Hsame; [done|]. by apply (Hother pi' q' k' id').
  - intros pi' p' q' k' id' Hp' Hq' Hk' Hlt HL'.
    destruct (decide (id' = id)) as [->|Hne].
    + destruct (Q_inj pi' pi k' k q' q id Hq' Hk' Hq Hid) as [-> ->].
      rewrite Hp in Hp'. injection Hp' as <-.
      rewrite lookup_insert_eq. do 2 f_equal. rewrite Hfr'. where_lia.
    + rewrite lookup_insert_ne by done.
      rewrite (i_sent _ _ _ _ Hinv pi' p' q' k' id') by done. do 2 f_equal. symmetry.
      apply Hsame; [done|]. by apply (Hother pi' q' k' id').
  - intros room k' Hocc Hnz. rewrite Hcin in Hocc.
    destruct (is_inner next) eqn:Hnin.
    + apply lookup_insert_Some in Hocc as [[<- <-]|[Hne Hocc]].
      * eexists. rewrite lookup_insert_eq. split; [done|].
        unfold exclusivity.ant_room. cbn [PathIdx Pos]. rewrite Hp. done.
      * apply lookup_insert_Some in Hocc as [[<- <-]|[Hne' Hocc]]; [done|].
        destruct (i_occ _ _ _ _ Hinv room k' Hocc Hnz) as (a' & Ha' & Hroom').
        exists a'. split; [|done]. rewrite lookup_insert_ne; [done|]. intros <-.
        rewrite Ha in Ha'. injection Ha' as <-.
        unfold exclusivity.ant_room in Hroom'. cbn [PathIdx Pos] in Hroom'.
        rewrite Hp in Hroom'. cbn [mbind option_bind] in Hroom'. congruence.
    + apply lookup_insert_Some in Hocc as [[<- <-]|[Hne' Hocc]]; [done|].
      destruct (i_occ _ _ _ _ Hinv room k' Hocc Hnz) as (a' & Ha' & Hroom').
      exists a'. split; [|done]. rewrite lookup_insert_ne; [done|]. intros <-.
      rewrite Ha in Ha'. injection Ha' as <-.
      unfold exclusivity.ant_room in Hroom'. cbn [PathIdx Pos] in Hroom'.
      rewrite Hp in Hroom'. cbn [mbind option_bind] in Hroom'. congruence.
  - rewrite Hfin, (i_fin _ _ _ _ Hinv).
    destruct (decide (pos + 1 = Length p)) as [Hend|Hmid].
    + rewrite Hend in Hnext. apply (good_path_end startName endName p) in Hnext; [|done].
      rewrite !bool_decide_eq_true_2; [done| |done]. split; [done|by eexists].
    + destruct (good_path_inner startName endName p (pos + 1) Hgood ltac:(lia))
        as (next' & Hnext' & Hnin).
      rewrite Hnext in Hnext'. injection Hnext' as <-.
      apply is_inner_ne in Hnin as [_ Hne].
      rewrite !bool_decide_eq_false_2; [lia| |done]. by intros [? _].
Qed.

Lemma advance_positions_pipe (t : nat) fr d (pi : nat) p q posToAnt (n : nat) :
  ∀ st moves,
    paths !! pi = Some p → Q !! pi = Some q → d pi = 0%nat →
    Z.of_nat n ≤ Length p →
    (∀ pos, 0 ≤ pos < Z.of_nat n → posToAnt !! pos = ant_at t q pos) →
    Inv t (fr_set fr pi (Z.of_nat n)) d st →
    ∃ st', advance_positions startName endName p posToAnt
             (reverse (seqZ 0 (Z.of_nat n))) st moves
             = Some (st', moves ++ adv_toks t p q n) ∧
           Inv t (fr_set fr pi 0) d st'.
Proof.
  induction n as [|n IH]; intros st moves Hp Hq Hd Hn Hlook Hinv.
  { exists st. unfold adv_toks. simpl. rewrite app_nil_r. done. }
  unfold adv_toks. rewrite seqZ_down_S. cbn [advance_positions fmap list_fmap concat].
  destruct (advance_at_pipe t (fr_set fr pi (Z.of_nat (S n))) (fr_set fr pi (Z.of_nat n))
              d pi p q (Z.of_nat n) posToAnt st moves Hp Hq Hinv)
    as (st1 & Hadv & Hinv1).
  { unfold fr_set. rewrite decide_True by done. lia. }
  { done. }
  { unfold fr_set. by rewrite decide_True. }
  { intros j Hj. unfold fr_set. by rewrite !decide_False. }
  { lia. }
  { apply Hlook. lia. }
  rewrite Hadv. cbn [mbind option_bind].
  destruct (IH st1 (moves ++ adv_tok t p q (Z.of_nat n)) Hp Hq Hd ltac:(lia))
    as (st' & Hrest & Hinv'); [|done|].
  { intros pos Hpos. apply Hlook. lia. }
  exists st'. rewrite Hrest. unfold adv_toks. by rewrite app_assoc.
Qed.

(** On the paths before [pi] the ants have been moved, on the others not
    yet. *)
Definition stage_fr (pi : nat) : nat → Z :=
  λ j, if decide (j < pi)%nat then 0 else from_option Length 0 (paths !! j).

Fixpoint adv_all (t pi : nat) (ps : list Path) : list string :=
  match ps with
  | [] => []
  | p :: rest =>
      adv_toks t p (default [] (Q !! pi)) (Z.to_nat (Length p)) ++ adv_all t (S pi) rest
  end.

Lemma posToAnt_pipe (t : nat) d (pi : nat) p q st states pos :
  paths !! pi = Some p → Q !! pi = Some q → d pi = 0%nat →
  Inv t (stage_fr pi) d st → states ≡ₚ map_to_list (antsState st) →
  0 ≤ pos < Length p →
  posToAnt_of pi states !! pos = ant_at t q pos.
Proof.
  intros Hp Hq Hd Hinv Hstates Hpos.
  assert (stage_fr pi pi = Length p) as Hfr.
  { unfold stage_fr. rewrite decide_False by lia. by rewrite Hp. }
  assert (∀ id, posToAnt_of pi states !! pos = Some id → ant_at t q pos = Some id) as Hin.
  { intros id Hid.
    apply posToAnt_of_lookup in Hid as (k0 & a & Hka & Hpi & Hgt & Hpa & Hida).
    rewrite Hstates in Hka. apply elem_of_map_to_list in Hka.
    destruct (i_ants _ _ _ _ Hinv k0 a Hka)
      as (pi' & p' & q' & k & Hp' & Hq' & Hk & Hlt & HL & ->).
    cbn [PathIdx Pos ID] in *. subst pi'. subst k0.
    rewrite Hp in Hp'. injection Hp' as <-. rewrite Hq in Hq'. injection Hq' as <-.
    rewrite Hfr in Hpa, Hgt. rewrite Hd in Hlt.
    unfold ant_at. rewrite bool_decide_eq_true_2 by where_lia.
    replace (Z.to_nat (Z.of_nat t - pos)) with k by where_lia. done. }
  destruct (posToAnt_of pi states !! pos) as [id|] eqn:E.
  { symmetry. by apply Hin. }
  destruct (ant_at t q pos) as [id|] eqn:Hant; [|done]. exfalso.
  destruct (ant_at_Some t q pos id Hant) as (k & Hk & Hpos1 & Hkt & Hid).
  pose proof (i_sent _ _ _ _ Hinv pi p q k id Hp Hq Hid ltac:(lia) ltac:(lia)) as Ha.
  rewrite Hfr in Ha.
  assert (where_ (Z.of_nat t) (Length p) (Z.of_nat k) (Length p) = pos) as Hw by where_lia.
  rewrite Hw in Ha.
  destruct (posToAnt_of_is_Some pi states id (mkAnt id pi pos)) as [id' Hid'].
  - rewrite Hstates. by apply elem_of_map_to_list.
  - done.
  - simpl. lia.
  - simpl in Hid'. congruence.
Qed.

Lemma stage_fr_set (pi : nat) p j :
  paths !! pi = Some p → fr_set (stage_fr pi) pi (Length p) j = stage_fr pi j.
Proof.
  intros Hp. unfold fr_set, stage_fr. destruct (decide (j = pi)) as [->|]; [|done].
  rewrite decide_False by lia. by rewrite Hp.
Qed.

Lemma stage_fr_next (pi : nat) j : fr_set (stage_fr pi) pi 0 j = stage_fr (S pi) j.
Proof.
  unfold fr_set, stage_fr. destruct (decide (j = pi)) as [->|].
  - by rewrite decide_True by lia.
  - destruct (decide (j < pi)%nat), (decide (j < S pi)%nat); (done || lia).
Qed.

Lemma advance_paths_pipe (t turn : nat) d ps : ∀ (pi : nat) st moves,
  (∀ (i : nat) p, ps !! i = Some p → paths !! (pi + i)%nat = Some p) →
  (∀ j, d j = 0%nat) →
  Inv t (stage_fr pi) d st →
  ∃ st', advance_paths range_ants startName endName turn pi ps st moves
           = Some (st', moves ++ adv_all t pi ps) ∧
         Inv t (stage_fr (pi + length ps)) d st'.
Proof.
  induction ps as [|p ps IH]; intros pi st moves Hps Hd Hinv.
  { exists st. simpl. rewrite app_nil_r, Nat.add_0_r. done. }
  assert (paths !! pi = Some p) as Hp.
  { specialize (Hps 0%nat p eq_refl). by rewrite Nat.add_0_r in Hps. }
  destruct (lookup_lt_is_Some_2 Q pi) as [q Hq].
  { rewrite Q_length. by eapply lookup_lt_Some. }
  pose proof (paths_good pi p Hp) as Hgood.
  assert (0 ≤ Length p) as HL by (destruct Hgood as (m & _ & ? & _); lia).
  cbn [advance_paths adv_all]. rewrite Hq. cbn [default from_option].
  set (posToAnt := posToAnt_of pi (range_ants turn pi (antsState st))).
  replace (positions_down p) with (reverse (seqZ 0 (Z.of_nat (Z.to_nat (Length p)))))
    by (unfold positions_down; by rewrite Z2Nat.id).
  destruct (advance_positions_pipe t (stage_fr pi) d pi p q posToAnt
              (Z.to_nat (Length p)) st moves Hp Hq (Hd pi) ltac:(lia))
    as (st1 & Hadv & Hinv1).
  { intros pos Hpos. apply (posToAnt_pipe t d pi p q st); try done. lia. }
  { eapply Inv_ext; [| |exact Hinv]; [|done]. intros j.
    rewrite Z2Nat.id by done. by apply stage_fr_set. }
  rewrite Hadv. cbn [mbind option_bind].
  destruct (IH (S pi) st1 (moves ++ adv_toks t p q (Z.to_nat (Length p))))
    as (st' & Hrest & Hinv'); [|done| |].
  { intros i p' Hp'. replace (S pi + i)%nat with (pi + S i)%nat by lia. by apply Hps. }
  { eapply Inv_ext; [| |exact Hinv1]; [|done]. intros j. symmetry. apply stage_fr_next. }
  exists st'. rewrite Hrest, app_assoc. split; [done|].
  replace (pi + length (p :: ps))%nat with (S pi + length ps)%nat by (simpl; lia). done.
Qed.

Lemma fin_dispatch (t : nat) fr d (pi : nat) p q :
  paths !! pi = Some p → Q !! pi = Some q → d pi = 0%nat →
  sum_upto (fin t fr (d_set d pi 1)) (length paths) =
  sum_upto (fin t fr d) (length paths) +
  (if bool_decide (Length p = 1 ∧ (t < length q)%nat) then 1 else 0).
Proof.
  intros Hp Hq Hd. apply (sum_upto_change _ _ _ pi).
  - by eapply lookup_lt_Some.
  - unfold fin, d_set. rewrite Hp, Hq, Hd, decide_True by done. cbv zeta.
    destruct (decide (Length p = 1 ∧ (t < length q)%nat)) as [Hc|Hc].
    + rewrite (bool_decide_eq_true_2 _ Hc). destruct Hc as [H1 Hlt].
      rewrite !(bool_decide_eq_true_2 (Length p = 1)) by done. where_lia.
    + rewrite (bool_decide_eq_false_2 _ Hc).
      destruct (decide (Length p = 1)) as [H1|H1].
      * rewrite !(bool_decide_eq_true_2 (Length p = 1)) by done.
        assert (¬ (t < length q)%nat) by (intros ?; by apply Hc). where_lia.
      * rewrite !(bool_decide_eq_false_2 (Length p = 1)) by done. lia.
  - intros j Hj. unfold fin, d_set. by rewrite decide_False.
Qed.

Lemma dispatch_at_pipe (t : nat) fr d (pi : nat) p q st moves :
  paths !! pi = Some p → Q !! pi = Some q →
  Inv t fr d st → fr pi = 0 → d pi = 0%nat →
  ∃ st', dispatch_at startName endName pi p st moves
           = Some (st', moves ++ disp_tok t p q) ∧
         Inv t fr (d_set d pi 1) st'.
Proof.
  intros Hp Hq Hinv Hfr Hd.
  pose proof (paths_good pi p Hp) as Hgood.
  pose proof (fin_dispatch t fr d pi p q Hp Hq Hd) as Hfin.
  pose proof (i_wait _ _ _ _ Hinv pi q Hq) as Hw. rewrite Hd, Nat.add_0_r in Hw.
  assert (∀ j, (t + d j ≤ t + d_set d pi 1 j)%nat) as Hmono.
  { intros j. unfold d_set. destruct (decide (j = pi)) as [->|]; lia. }
  unfold dispatch_at, disp_tok. rewrite Hw. cbn [mbind option_bind].
  destruct (q !! t) as [id|] eqn:Hid.
  2:{ apply lookup_ge_None in Hid. rewrite drop_ge by done.
      exists st. rewrite app_nil_r. split; [done|]. split.
      - intros pi' q' Hq'. unfold d_set. destruct (decide (pi' = pi)) as [->|].
        + rewrite Hq in Hq'. injection Hq' as <-. rewrite Hw. by rewrite !drop_ge by lia.
        + by apply (i_wait _ _ _ _ Hinv).
      - apply (i_len _ _ _ _ Hinv).
      - intros id a Ha.
        destruct (i_ants _ _ _ _ Hinv id a Ha)
          as (pi' & p' & q' & k' & Hp' & Hq' & Hk' & Hlt & HL & ->).
        exists pi', p', q', k'. do 3 (split; [done|]). split; [|done].
        specialize (Hmono pi'). lia.
      - intros pi' p' q' k' id Hp' Hq' Hk' Hlt HL.
        apply (i_sent _ _ _ _ Hinv pi' p' q' k' id); try done.
        unfold d_set in Hlt. destruct (decide (pi' = pi)) as [->|]; [|done].
        rewrite Hq in Hq'. injection Hq' as <-. apply lookup_lt_Some in Hk'. lia.
      - apply (i_occ _ _ _ _ Hinv).
      - rewrite Hfin, (i_fin _ _ _ _ Hinv).
        rewrite bool_decide_eq_false_2; [lia|]. intros [_ ?]. lia. }
  rewrite (drop_S q id t Hid).
  assert (∀ (pi' : nat) q', Q !! pi' = Some q' →
            <[pi := drop (S t) q]> (waitQueues st) !! pi'
            = Some (drop (t + d_set d pi 1 pi') q')) as Hwait.
  { intros pi' q' Hq'. unfold d_set. destruct (decide (pi' = pi)) as [->|Hne].
    - rewrite Hq in Hq'. injection Hq' as <-.
      rewrite list_lookup_insert_eq by (by eapply lookup_lt_Some).
      by rewrite Nat.add_1_r.
    - rewrite list_lookup_insert_ne by done. by apply (i_wait _ _ _ _ Hinv). }
  destruct (decide (Length p = 1)) as [H1|H1].
  { rewrite bool_decide_eq_true_2 by (by eapply good_path_direct).
    assert (PRooms p !! 1%nat = Some endName) as ->.
    { destruct Hgood as (m & -> & Hl & _). destruct m; [done|simpl in Hl; lia]. }
    eexists. split; [done|].
    split; cbn [waitQueues antsState occupied finished set_queue].
    - done.
    - rewrite length_insert. apply (i_len _ _ _ _ Hinv).
    - intros id' a Ha.
      destruct (i_ants _ _ _ _ Hinv id' a Ha)
        as (pi' & p' & q' & k' & Hp' & Hq' & Hk' & Hlt & HL & ->).
      exists pi', p', q', k'. do 3 (split; [done|]). split; [|done].
      specialize (Hmono pi'). lia.
    - intros pi' p' q' k' id' Hp' Hq' Hk' Hlt HL.
      apply (i_sent _ _ _ _ Hinv pi' p' q' k' id'); try done.
      unfold d_set in Hlt. destruct (decide (pi' = pi)) as [->|]; [|done].
      rewrite Hp in Hp'. by injection Hp' as <-.
    - apply (i_occ _ _ _ _ Hinv).
    - rewrite Hfin, (i_fin _ _ _ _ Hinv).
      rewrite bool_decide_eq_true_2; [done|]. split; [done|]. by eapply lookup_lt_Some. }
  destruct (good_path_first startName endName p Hgood H1)
    as (first & Hfirst & Hroom1 & Hinner & Hlen).
  rewrite bool_decide_eq_false_2 by done. rewrite Hfirst. cbn [mbind option_bind].
  assert (is_free (occupied st) first = true) as Hfree.
  { unfold scheduler.is_free. apply orb_true_iff. right. apply bool_decide_eq_true.
    destruct (occupied st !! first) as [k'|] eqn:Hocc; [|done]. simpl.
    destruct (decide (k' = 0)) as [|Hnz]; [done|]. exfalso.
    destruct (i_occ _ _ _ _ Hinv first k' Hocc Hnz) as (a' & Ha' & Hroom').
    destruct (i_ants _ _ _ _ Hinv k' a' Ha')
      as (pi' & p' & q' & k'' & Hp' & Hq' & Hk'' & Hlt'' & HL' & ->).
    unfold exclusivity.ant_room in Hroom'. cbn [PathIdx Pos] in Hroom'.
    rewrite Hp' in Hroom'. cbn [mbind option_bind] in Hroom'.
    pose proof (good_path_cases startName endName p' _ first (paths_good pi' p' Hp')
                  Hroom' Hinner) as Hrange.
    assert (0 < 1 < Length p) as Hone.
    { destruct Hgood as (m & _ & ? & _). lia. }
    destruct (paths_disjoint pi' pi p' p _ 1 first Hp' Hp Hrange Hone Hroom' Hroom1)
      as [-> Heq].
    rewrite Hp in Hp'. injection Hp' as <-. rewrite Hfr in Heq. rewrite Hd in Hlt''.
    where_lia. }
  rewrite Hfree. rewrite Hinner.
  apply is_inner_ne in Hinner as Hne. destruct Hne as [_ Hne].
  rewrite (bool_decide_eq_false_2 (first = endName)) by done.
  eexists. split; [done|].
  split; cbn [waitQueues antsState occupied finished set_queue].
  - done.
  - rewrite length_insert. apply (i_len _ _ _ _ Hinv).
  - intros id' a'. rewrite lookup_insert_Some. intros [[<- <-]|[Hne' Ha']].
    + exists pi, p, q, t. do 3 (split; [done|]). split.
      { unfold d_set. rewrite decide_True by done. lia. }
      split; [done|]. f_equal. rewrite Hfr.
      destruct Hgood as (m & _ & ? & _). where_lia.
    + destruct (i_ants _ _ _ _ Hinv id' a' Ha')
        as (pi' & p' & q' & k' & Hp' & Hq' & Hk' & Hlt & HL' & ->).
      exists pi', p', q', k'. do 3 (split; [done|]). split; [|done].
      specialize (Hmono pi'). lia.
  - intros pi' p' q' k' id' Hp' Hq' Hk' Hlt HL'.
    destruct (decide (id' = id)) as [->|Hne'].
    + destruct (Q_inj pi' pi k' t q' q id Hq' Hk' Hq Hid) as [-> ->].
      rewrite Hp in Hp'. injection Hp' as <-.
      rewrite lookup_insert_eq. do 2 f_equal. rewrite Hfr.
      destruct Hgood as (m & _ & ? & _). where_lia.
    + rewrite lookup_insert_ne by done.
      apply (i_sent _ _ _ _ Hinv pi' p' q' k' id'); try done.
      unfold d_set in Hlt. destruct (decide (pi' = pi)) as [->|]; [|done].
      rewrite Hq in Hq'. injection Hq' as <-.
      destruct (decide (k' = t)) as [->|]; [congruence|lia].
  - intros room k' Hocc Hnz.
    apply lookup_insert_Some in Hocc as [[<- <-]|[Hne' Hocc]].
    + eexists. rewrite lookup_insert_eq. split; [done|].
      unfold exclusivity.ant_room. cbn [PathIdx Pos]. rewrite Hp. done.
    + destruct (i_occ _ _ _ _ Hinv room k' Hocc Hnz) as (a' & Ha' & Hroom').
      exists a'. split; [|done]. rewrite lookup_insert_ne; [done|]. intros <-.
      destruct (i_ants _ _ _ _ Hinv id a' Ha')
        as (pi' & p' & q' & k'' & Hp' & Hq' & Hk'' & Hlt'' & HL' & ->).
      destruct (Q_inj pi' pi k'' t q' q id Hq' Hk'' Hq Hid) as [-> ->].
      rewrite Hd in Hlt''. lia.
  - rewrite Hfin, (i_fin _ _ _ _ Hinv).
    rewrite bool_decide_eq_false_2; [lia|]. by intros [? _].
Qed.

(** The paths before [pi] have sent their ant of the turn. *)
Definition stage_d (pi : nat) : nat → nat :=
  λ j, if decide (j < pi)%nat then 1%nat else 0%nat.

Fixpoint disp_all (t pi : nat) (ps : list Path) : list string :=
  match ps with
  | [] => []
  | p :: rest => disp_tok t p (default [] (Q !! pi)) ++ disp_all t (S pi) rest
  end.

Lemma stage_d_next (pi : nat) j : d_set (stage_d pi) pi 1 j = stage_d (S pi) j.
Proof.
  unfold d_set, stage_d. destruct (decide (j = pi)) as [->|].
  - by rewrite decide_True by lia.
  - destruct (decide (j < pi)%nat), (decide (j < S pi)%nat); (done || lia).
Qed.

Lemma dispatch_paths_pipe (t : nat) fr ps : ∀ (pi : nat) st moves,
  (∀ (i : nat) p, ps !! i = Some p → paths !! (pi + i)%nat = Some p) →
  (∀ j, fr j = 0) →
  Inv t fr (stage_d pi) st →
  ∃ st', dispatch_paths startName endName pi ps st moves
           = Some (st', moves ++ disp_all t pi ps) ∧
         Inv t fr (stage_d (pi + length ps)) st'.
Proof.
  induction ps as [|p ps IH]; intros pi st moves Hps Hfr Hinv.
  { exists st. simpl. rewrite app_nil_r, Nat.add_0_r. done. }
  assert (paths !! pi = Some p) as Hp.
  { specialize (Hps 0%nat p eq_refl). by rewrite Nat.add_0_r in Hps. }
  destruct (lookup_lt_is_Some_2 Q pi) as [q Hq].
  { rewrite Q_length. by eapply lookup_lt_Some. }
  cbn [dispatch_paths disp_all]. rewrite Hq. cbn [default from_option].
  destruct (dispatch_at_pipe t fr (stage_d pi) pi p q st moves Hp Hq Hinv (Hfr pi))
    as (st1 & Hd & Hinv1).
  { unfold stage_d. by rewrite decide_False by lia. }
  rewrite Hd. cbn [mbind option_bind].
  destruct (IH (S pi) st1 (moves ++ disp_tok t p q)) as (st' & Hrest & Hinv'); [|done| |].
  { intros i p' Hp'. replace (S pi + i)%nat with (pi + S i)%nat by lia. by apply Hps. }
  { eapply Inv_ext; [| |exact Hinv1]; [done|]. intros j. symmetry. apply stage_d_next. }
  exists st'. rewrite Hrest, app_assoc. split; [done|].
  replace (pi + length (p :: ps))%nat with (S pi + length ps)%nat by (simpl; lia). done.
Qed.

(** The moves of turn [t + 1]. *)
Definition turn_moves (t : nat) : list string :=
  adv_all t 0 paths ++ disp_all t 0 paths.

(** The state after [t] turns. *)
Definition at_turn (t : nat) (st : sim) : Prop := Inv t (stage_fr 0) (λ _, 0%nat) st.

Lemma turn_step_pipe (t turn : nat) st :
  at_turn t st →
  ∃ st', turn_step range_ants startName endName turn paths st = Some (st', turn_moves t) ∧
         at_turn (S t) st'.
Proof.
  intros Hinv. unfold turn_step, turn_moves.
  destruct (advance_paths_pipe t turn (λ _, 0%nat) paths 0%nat st [] ltac:(done)
              ltac:(done) Hinv) as (st1 & H1 & Hinv1).
  rewrite H1. cbn [mbind option_bind app].
  destruct (dispatch_paths_pipe t (λ _, 0) paths 0%nat st1 (adv_all t 0 paths)
              ltac:(done) ltac:(done)) as (st' & H2 & Hinv').
  { eapply Inv_ext; [| |exact Hinv1].
    - intros j. unfold stage_fr. simpl. destruct (decide (j < length paths)%nat) as [|Hge]; [done|].
      by rewrite lookup_ge_None_2 by lia.
    - intros j. unfold stage_d. by rewrite decide_False by lia. }
  rewrite H2. exists st'. split; [done|].
  assert (∀ j, stage_d (0 + length paths) j = if decide (j < length paths)%nat then 1%nat else 0%nat)
    as Hd by done.
  destruct Hinv' as [H1' H0' H2' H3' H4' H5']. split.
  - intros pi q Hq. rewrite (H1' pi q Hq), Hd.
    rewrite decide_True by (rewrite <- Q_length; by eapply lookup_lt_Some).
    f_equal. f_equal. lia.
  - done.
  - intros id a Ha. destruct (H2' id a Ha) as (pi & p & q & k & Hp & Hq & Hk & Hlt & HL & ->).
    exists pi, p, q, k. do 3 (split; [done|]).
    rewrite Hd in Hlt. rewrite decide_True in Hlt by (by eapply lookup_lt_Some).
    split; [lia|]. split; [done|]. f_equal.
    unfold stage_fr. rewrite decide_False by lia. rewrite Hp. simpl.
    destruct (paths_good pi p Hp) as (m & _ & ? & _). where_lia.
  - intros pi p q k id Hp Hq Hk Hlt HL.
    rewrite (H3' pi p q k id Hp Hq Hk); [|rewrite Hd, decide_True by (by eapply lookup_lt_Some); lia|done].
    do 2 f_equal. unfold stage_fr. rewrite decide_False by lia. rewrite Hp. simpl.
    destruct (paths_good pi p Hp) as (m & _ & ? & _). where_lia.
  - done.
  - rewrite H5'. apply sum_upto_ext. intros pi Hpi. unfold fin.
    destruct (paths !! pi) as [p|] eqn:Hp; [|done].
    destruct (Q !! pi) as [q|] eqn:Hq; [|done].
    rewrite Hd, decide_True by done. unfold stage_fr. rewrite decide_False by lia.
    rewrite Hp. simpl from_option.
    destruct (paths_good pi p Hp) as (m & _ & ? & _).
    destruct (decide (Length p = 1)) as [H1l|H1l].
    + rewrite !(bool_decide_eq_true_2 (Length p = 1)) by done. f_equal. lia.
    + rewrite !(bool_decide_eq_false_2 (Length p = 1)) by done.
      rewrite (bool_decide_eq_true_2 (0 ≤ Length p - 1)) by lia.
      rewrite (bool_decide_eq_false_2 (Length p ≤ Length p - 1)) by lia. f_equal. lia.
Qed.

Lemma adv_all_elem (t : nat) x ps : ∀ (pi0 i : nat) p,
  ps !! i = Some p →
  x ∈ adv_toks t p (default [] (Q !! (pi0 + i)%nat)) (Z.to_nat (Length p)) →
  x ∈ adv_all t pi0 ps.
Proof.
  induction ps as [|p0 ps IH]; intros pi0 i p Hi Hx; [done|].
  cbn [adv_all]. apply elem_of_app. destruct i as [|i]; simpl in Hi.
  - injection Hi as ->. left. by rewrite Nat.add_0_r in Hx.
  - right. apply (IH (S pi0) i p Hi).
    by replace (S pi0 + i)%nat with (pi0 + S i)%nat by lia.
Qed.

Lemma disp_all_elem (t : nat) x ps : ∀ (pi0 i : nat) p,
  ps !! i = Some p →
  x ∈ disp_tok t p (default [] (Q !! (pi0 + i)%nat)) →
  x ∈ disp_all t pi0 ps.
Proof.
  induction ps as [|p0 ps IH]; intros pi0 i p Hi Hx; [done|].
  cbn [disp_all]. apply elem_of_app. destruct i as [|i]; simpl in Hi.
  - injection Hi as ->. left. by rewrite Nat.add_0_r in Hx.
  - right. apply (IH (S pi0) i p Hi).
    by replace (S pi0 + i)%nat with (pi0 + S i)%nat by lia.
Qed.

(** While an ant of some path has not arrived, the turn prints a move. *)
Lemma turn_moves_nonempty (t : nat) (pi : nat) p q :
  paths !! pi = Some p → Q !! pi = Some q → q ≠ [] →
  Z.of_nat t < Length p - 1 + Z.of_nat (length q) →
  turn_moves t ≠ [].
Proof.
  intros Hp Hq Hne Ht.
  destruct (paths_good pi p Hp) as (m & Hrooms & Hlen & Hm).
  assert (∃ x, x ∈ turn_moves t) as [x Hx]; [|intros Hnil; rewrite Hnil in Hx;
                                                 by apply elem_of_nil in Hx].
  unfold turn_moves.
  destruct (q !! t) as [id|] eqn:Hid.
  - assert (is_Some (PRooms p !! 1%nat)) as [r Hr].
    { apply lookup_lt_is_Some_2. rewrite Hrooms. simpl. rewrite length_app. simpl. lia. }
    exists (move_token id r). apply elem_of_app. right.
    apply (disp_all_elem t _ paths 0%nat pi p Hp). simpl. rewrite Hq. simpl.
    unfold disp_tok. rewrite Hid, Hr. apply list_elem_of_here.
  - apply lookup_ge_None in Hid.
    assert (0 < length q)%nat as Hpos by (destruct q; [done|simpl; lia]).
    destruct (lookup_lt_is_Some_2 q (length q - 1)) as [id Hlast]; [lia|].
    set (pos := Z.of_nat t - Z.of_nat (length q - 1)).
    assert (1 ≤ pos < Length p) as Hrange by (unfold pos; lia).
    destruct (good_path_room startName endName p (pos + 1) (paths_good pi p Hp))
      as [r Hr]; [lia|].
    exists (move_token id r). apply elem_of_app. left.
    apply (adv_all_elem t _ paths 0%nat pi p Hp). simpl. rewrite Hq. simpl.
    unfold adv_toks. apply list_elem_of_In, in_concat. exists [move_token id r].
    split; [|by left]. apply list_elem_of_In, list_elem_of_fmap. exists pos. split.
    + unfold adv_tok, ant_at. rewrite bool_decide_eq_true_2 by lia.
      replace (Z.to_nat (Z.of_nat t - pos)) with (length q - 1)%nat by (unfold pos; lia).
      by rewrite Hlast, Hr.
    + rewrite elem_of_reverse, elem_of_seqZ. lia.
Qed.

Lemma sum_upto_lt_one f g (n i : nat) :
  (∀ j : nat, (j < n)%nat → f j ≤ g j) → (i < n)%nat → f i < g i →
  sum_upto f n < sum_upto g n.
Proof.
  induction n as [|n IH]; intros Hle Hi Hlt; [lia|]. simpl.
  destruct (decide (i = n)) as [->|Hne].
  - pose proof (sum_upto_le f g n ltac:(intros; apply Hle; lia)). lia.
  - specialize (IH ltac:(intros; apply Hle; lia) ltac:(lia) Hlt).
    specialize (Hle n ltac:(lia)). lia.
Qed.

(** The number of ants in the queue of path [pi]. *)
Definition cnt (pi : nat) : Z := Z.of_nat (length (default [] (Q !! pi))).

Lemma fin_turn (t pi : nat) :
  fin t (stage_fr 0) (λ _, 0%nat) pi ≤ cnt pi ∧
  ∀ p q, paths !! pi = Some p → Q !! pi = Some q →
    fin t (stage_fr 0) (λ _, 0%nat) pi
    = clamp (Z.of_nat t - Length p + 1) (Z.of_nat (length q)).
Proof.
  unfold fin, cnt, stage_fr.
  destruct (paths !! pi) as [p|] eqn:Hp; [|split; [lia|done]].
  destruct (Q !! pi) as [q|] eqn:Hq; [|split; [simpl; lia|done]].
  cbv zeta. rewrite decide_False by lia. simpl from_option. simpl default.
  destruct (paths_good pi p Hp) as (m & _ & ? & _).
  assert ((if bool_decide (Length p = 1) then clamp (Z.of_nat (t + 0)) (Z.of_nat (length q))
           else clamp (Z.of_nat t + (if bool_decide (Length p ≤ Length p - 1) then 1 else 0)
                       - Length p + 1) (Z.of_nat (length q)))
          = clamp (Z.of_nat t - Length p + 1) (Z.of_nat (length q))) as ->.
  { destruct (decide (Length p = 1)) as [H1|H1].
    - rewrite (bool_decide_eq_true_2 (Length p = 1)) by done. f_equal. lia.
    - rewrite (bool_decide_eq_false_2 (Length p = 1)) by done.
      rewrite (bool_decide_eq_false_2 (Length p ≤ Length p - 1)) by lia. f_equal. lia. }
  split; [unfold clamp; lia|]. intros p' q' [= <-] [= <-]. done.
Qed.

Lemma adv_all_inv (t : nat) x ps : ∀ (pi0 : nat),
  x ∈ adv_all t pi0 ps →
  ∃ (i : nat) p, ps !! i = Some p ∧
    x ∈ adv_toks t p (default [] (Q !! (pi0 + i)%nat)) (Z.to_nat (Length p)).
Proof.
  induction ps as [|p0 ps IH]; intros pi0 Hx; [by apply elem_of_nil in Hx|].
  cbn [adv_all] in Hx. apply elem_of_app in Hx as [Hx|Hx].
  - exists 0%nat, p0. split; [done|]. by rewrite Nat.add_0_r.
  - destruct (IH (S pi0) Hx) as (i & p & Hi & Hin). exists (S i), p. split; [done|].
    by replace (pi0 + S i)%nat with (S pi0 + i)%nat by lia.
Qed.

Lemma disp_all_inv (t : nat) x ps : ∀ (pi0 : nat),
  x ∈ disp_all t pi0 ps →
  ∃ (i : nat) p, ps !! i = Some p ∧ x ∈ disp_tok t p (default [] (Q !! (pi0 + i)%nat)).
Proof.
  induction ps as [|p0 ps IH]; intros pi0 Hx; [by apply elem_of_nil in Hx|].
  cbn [disp_all] in Hx. apply elem_of_app in Hx as [Hx|Hx].
  - exists 0%nat, p0. split; [done|]. by rewrite Nat.add_0_r.
  - destruct (IH (S pi0) Hx) as (i & p & Hi & Hin). exists (S i), p. split; [done|].
    by replace (pi0 + S i)%nat with (S pi0 + i)%nat by lia.
Qed.

(** The moves of turn [t + 1]: the ant that is number [k] in the queue of a
    path goes to room number [t + 1 - k] of the path, if the path has such a
    room after the start room. *)
Lemma turn_moves_elem (t : nat) tok :
  tok ∈ turn_moves t ↔
  ∃ (pi : nat) p q (k : nat) id r,
    paths !! pi = Some p ∧ Q !! pi = Some q ∧ q !! k = Some id ∧
    (k ≤ t)%nat ∧ Z.of_nat t < Z.of_nat k + Length p ∧
    PRooms p !! (t + 1 - k)%nat = Some r ∧ tok = move_token id r.
Proof.
  unfold turn_moves. rewrite elem_of_app. split.
  - intros [Hx|Hx].
    + apply adv_all_inv in Hx as (pi & p & Hp & Hx). simpl in Hx.
      destruct (lookup_lt_is_Some_2 Q pi) as [q Hq].
      { rewrite Q_length. by eapply lookup_lt_Some. }
      rewrite Hq in Hx. simpl in Hx. unfold adv_toks in Hx.
      apply list_elem_of_In, in_concat in Hx as (toks & Htoks & Hx).
      apply list_elem_of_In, list_elem_of_fmap in Htoks as (pos & -> & Hpos).
      rewrite elem_of_reverse, elem_of_seqZ in Hpos.
      unfold adv_tok in Hx.
      destruct (ant_at t q pos) as [id|] eqn:Hant; [|by destruct Hx].
      destruct (room_at p (pos + 1)) as [r|] eqn:Hr; [|by destruct Hx].
      destruct Hx as [<-|[]].
      destruct (ant_at_Some t q pos id Hant) as (k & Hk & Hpos1 & Hkt & Hid).
      exists pi, p, q, k, id, r. do 3 (split; [done|]). split; [lia|]. split; [lia|].
      split; [|done]. unfold room_at, index_of_Z in Hr.
      destruct (Z.ltb_spec (pos + 1) 0) as [|_]; [lia|]. cbn [mbind option_bind] in Hr.
      by replace (t + 1 - k)%nat with (Z.to_nat (pos + 1)) by lia.
    + apply disp_all_inv in Hx as (pi & p & Hp & Hx). simpl in Hx.
      destruct (lookup_lt_is_Some_2 Q pi) as [q Hq].
      { rewrite Q_length. by eapply lookup_lt_Some. }
      rewrite Hq in Hx. simpl in Hx. unfold disp_tok in Hx.
      destruct (q !! t) as [id|] eqn:Hid; [|by apply elem_of_nil in Hx].
      destruct (PRooms p !! 1%nat) as [r|] eqn:Hr; [|by apply elem_of_nil in Hx].
      apply list_elem_of_singleton in Hx as ->.
      destruct (paths_good pi p Hp) as (m & _ & ? & _).
      exists pi, p, q, t, id, r. do 3 (split; [done|]). split; [lia|]. split; [lia|].
      split; [|done]. by replace (t + 1 - t)%nat with 1%nat by lia.
  - intros (pi & p & q & k & id & r & Hp & Hq & Hid & Hk & Ht & Hr & ->).
    destruct (decide (k = t)) as [->|Hne].
    + right. apply (disp_all_elem t _ paths 0%nat pi p Hp). simpl. rewrite Hq. simpl.
      unfold disp_tok. rewrite Hid.
      replace (t + 1 - t)%nat with 1%nat in Hr by lia. rewrite Hr. apply list_elem_of_here.
    + left. apply (adv_all_elem t _ paths 0%nat pi p Hp). simpl. rewrite Hq. simpl.
      set (pos := Z.of_nat t - Z.of_nat k).
      unfold adv_toks. apply list_elem_of_In, in_concat. exists [move_token id r].
      split; [|by left]. apply list_elem_of_In, list_elem_of_fmap. exists pos. split.
      * unfold adv_tok, ant_at. rewrite bool_decide_eq_true_2 by (unfold pos; lia).
        replace (Z.to_nat (Z.of_nat t - pos)) with k by (unfold pos; lia).
        rewrite Hid. unfold room_at, index_of_Z.
        destruct (Z.ltb_spec (pos + 1) 0) as [|_]; [unfold pos in *; lia|].
        cbn [mbind option_bind].
        replace (Z.to_nat (pos + 1)) with (t + 1 - k)%nat by (unfold pos; lia).
        by rewrite Hr.
      * rewrite elem_of_reverse, elem_of_seqZ.
        destruct (paths_good pi p Hp) as (m & _ & ? & _). unfold pos. lia.
Qed.

(** Where the ants are after [n] turns. *)
Lemma at_turn_ant (n : nat) st (pi : nat) p q (k : nat) id :
  at_turn n st → paths !! pi = Some p → Q !! pi = Some q → q !! k = Some id →
  waitQueues st !! pi = Some (drop n q) ∧
  antsState st !! id =
    if bool_decide ((k < n)%nat ∧ Length p ≠ 1)
    then Some (mkAnt id pi (Z.min (Z.of_nat n - Z.of_nat k) (Length p)))
    else None.
Proof.
  intros Hinv Hp Hq Hid. split.
  { rewrite (i_wait _ _ _ _ Hinv pi q Hq). by rewrite Nat.add_0_r. }
  case_bool_decide as Hc.
  - destruct Hc as [Hk HL].
    rewrite (i_sent _ _ _ _ Hinv pi p q k id Hp Hq Hid ltac:(simpl; lia) HL).
    do 2 f_equal. unfold stage_fr. rewrite decide_False by lia. rewrite Hp. simpl.
    where_lia.
  - destruct (antsState st !! id) as [a|] eqn:Ha; [|done]. exfalso.
    destruct (i_ants _ _ _ _ Hinv id a Ha)
      as (pi' & p' & q' & k' & Hp' & Hq' & Hk' & Hlt & HL' & ->).
    destruct (Q_inj pi' pi k' k q' q id Hq' Hk' Hq Hid) as [-> ->].
    rewrite Hp in Hp'. injection Hp' as <-. apply Hc. split; [lia|done].
Qed.

Section loop.

Variable ants : Z.
Variable T : nat.

Hypothesis ants_sum : sum_upto cnt (length paths) = ants.
Hypothesis T_bound : ∀ (pi : nat) p q,
  paths !! pi = Some p → Q !! pi = Some q → q ≠ [] →
  Length p - 1 + Z.of_nat (length q) ≤ Z.of_nat T.
Hypothesis T_reached : ∃ (pi : nat) p q,
  paths !! pi = Some p ∧ Q !! pi = Some q ∧ q ≠ [] ∧
  Length p - 1 + Z.of_nat (length q) = Z.of_nat T.

Lemma finished_before (t : nat) st :
  at_turn t st → (t < T)%nat → finished st < ants ∧ turn_moves t ≠ [].
Proof.
  intros Hinv Ht. destruct T_reached as (pi & p & q & Hp & Hq & Hne & HT).
  split; [|apply (turn_moves_nonempty t pi p q); (done || lia)].
  rewrite (i_fin _ _ _ _ Hinv), <- ants_sum.
  apply (sum_upto_lt_one _ _ _ pi).
  - intros j _. apply fin_turn.
  - by eapply lookup_lt_Some.
  - destruct (fin_turn t pi) as [_ Hfin]. rewrite (Hfin p q Hp Hq).
    unfold cnt. rewrite Hq. simpl. destruct q; [done|]. simpl length in *. unfold clamp. lia.
Qed.

Lemma finished_at_T st : at_turn T st → finished st = ants.
Proof.
  intros Hinv. rewrite (i_fin _ _ _ _ Hinv), <- ants_sum.
  apply sum_upto_ext. intros pi Hpi.
  destruct (lookup_lt_is_Some_2 paths pi Hpi) as [p Hp].
  destruct (lookup_lt_is_Some_2 Q pi) as [q Hq]; [by rewrite Q_length|].
  destruct (fin_turn T pi) as [_ Hfin]. rewrite (Hfin p q Hp Hq).
  unfold cnt. rewrite Hq. simpl.
  destruct (paths_good pi p Hp) as (m & _ & ? & _).
  destruct q as [|x q]; [unfold clamp; simpl; lia|].
  specialize (T_bound pi p (x :: q) Hp Hq ltac:(done)). unfold clamp. lia.
Qed.

(** The lines the loop prints from turn [t + 1] on. *)
Definition lines_from (t : nat) : list string :=
  (λ i, join_moves (turn_moves i)) <$> seq t (T - t).

Lemma turn_loop_pipe (fuel : nat) : ∀ (t : nat) st out out',
  at_turn t st → (t ≤ T)%nat →
  turn_loop range_ants startName endName fuel t ants paths st out = Some out' →
  out' = out ++ lines_from t.
Proof.
  induction fuel as [|fuel IH]; intros t st out out' Hinv Ht Hloop; [done|].
  cbn [turn_loop] in Hloop. unfold lines_from.
  destruct (decide (t = T)) as [->|Hne].
  { rewrite (finished_at_T st Hinv) in Hloop.
    rewrite Z.ltb_irrefl in Hloop. injection Hloop as <-.
    rewrite Nat.sub_diag. simpl. by rewrite app_nil_r. }
  destruct (finished_before t st Hinv ltac:(lia)) as [Hfin Hmoves].
  destruct (Z.ltb_spec (finished st) ants) as [_|]; [|lia].
  destruct (turn_step_pipe t t st Hinv) as (st' & Hstep & Hinv').
  rewrite Hstep in Hloop. cbn [mbind option_bind] in Hloop.
  destruct (turn_moves t) as [|mv moves] eqn:Hm; [done|].
  apply (IH (S t) st') in Hloop; [|done|lia]. rewrite Hloop.
  replace (T - t)%nat with (S (T - S t)) by lia. cbn [seq fmap list_fmap].
  rewrite Hm. unfold lines_from. by rewrite <- app_assoc.
Qed.

Lemma at_turn_init : at_turn 0 (mkSim ∅ ∅ Q 0).
Proof.
  split; cbn [waitQueues antsState occupied finished].
  - intros pi q Hq. by rewrite Hq.
  - done.
  - intros id a Ha. by rewrite lookup_empty in Ha.
  - intros pi p q k id _ _ _ Hk. lia.
  - intros room k Hk. by rewrite lookup_empty in Hk.
  - symmetry. transitivity (sum_upto (λ _, 0) (length paths)).
    + apply sum_upto_ext. intros pi Hpi.
      destruct (lookup_lt_is_Some_2 paths pi Hpi) as [p Hp].
      destruct (lookup_lt_is_Some_2 Q pi) as [q Hq]; [by rewrite Q_length|].
      destruct (fin_turn 0 pi) as [_ Hfin]. rewrite (Hfin p q Hp Hq).
      destruct (paths_good pi p Hp) as (m & _ & ? & _). unfold clamp. lia.
    + clear. induction (length paths) as [|n IH]; simpl; lia.
Qed.

(** The states of the loop are the states of the pipeline. *)
Lemma run_state_at_turn (n : nat) st :
  run_state range_ants startName endName ants paths (mkSim ∅ ∅ Q 0) n st →
  at_turn n st.
Proof.
  induction 1 as [|n st st' moves _ IH _ Hstep]; [apply at_turn_init|].
  destruct (turn_step_pipe n n st IH) as (st1 & Hstep1 & Hinv1).
  rewrite Hstep in Hstep1. by injection Hstep1 as -> _.
Qed.

Lemma run_state_reaches (n : nat) :
  (n ≤ T)%nat →
  ∃ st, run_state range_ants startName endName ants paths (mkSim ∅ ∅ Q 0) n st.
Proof.
  induction n as [|n IH]; intros Hn; [eexists; constructor|].
  destruct (IH ltac:(lia)) as [st Hst].
  pose proof (run_state_at_turn n st Hst) as Hinv.
  destruct (finished_before n st Hinv ltac:(lia)) as [Hfin _].
  destruct (turn_step_pipe n n st Hinv) as (st' & Hstep & _).
  exists st'. by eapply run_state_S.
Qed.

(** After the last turn the queues are empty and every ant that walked is
    in the end room. *)
Lemma at_turn_T_final st :
  at_turn T st →
  Forall (λ q, q = []) (waitQueues st) ∧
  map_Forall (λ _ a, ant_room a = Some endName) (antsState st).
Proof.
  intros Hinv. split.
  - apply Forall_lookup. intros pi q0 Hq0.
    destruct (lookup_lt_is_Some_2 Q pi) as [q Hq].
    { rewrite <- (i_len _ _ _ _ Hinv). by eapply lookup_lt_Some. }
    destruct (lookup_lt_is_Some_2 paths pi) as [p Hp].
    { rewrite <- Q_length. by eapply lookup_lt_Some. }
    rewrite (i_wait _ _ _ _ Hinv pi q Hq) in Hq0. injection Hq0 as <-.
    destruct q as [|x q]; [by rewrite drop_nil|].
    pose proof (T_bound pi p (x :: q) Hp Hq ltac:(done)) as Hb.
    destruct (paths_good pi p Hp) as (m & _ & ? & _).
    apply drop_ge. lia.
  - intros id a Ha.
    destruct (i_ants _ _ _ _ Hinv id a Ha)
      as (pi & p & q & k & Hp & Hq & Hk & Hlt & HL & ->).
    unfold exclusivity.ant_room. cbn [PathIdx Pos]. rewrite Hp. cbn [mbind option_bind].
    assert (q ≠ []) as Hne by (intros ->; done).
    pose proof (T_bound pi p q Hp Hq Hne) as Hb.
    apply lookup_lt_Some in Hk.
    assert (where_ (Z.of_nat T) (stage_fr 0 pi) (Z.of_nat k) (Length p) = Length p) as ->.
    { unfold stage_fr. rewrite decide_False by lia. rewrite Hp. simpl. where_lia. }
    destruct (good_path_room startName endName p (Length p) (paths_good pi p Hp))
      as [room Hroom].
    { destruct (paths_good pi p Hp) as (m & _ & ? & _). lia. }
    rewrite Hroom. f_equal.
    apply (good_path_end startName endName p room (paths_good pi p Hp) Hroom).
Qed.

End loop.

End pipeline.

Lemma sum_upto_Zsum (f : nat → Z) (l : list Z) :
  (∀ (i : nat) x, l !! i = Some x → f i = x) → sum_upto f (length l) = Zsum l.
Proof.
  induction l as [|x l IH] using rev_ind; intros Hf; [done|].
  rewrite length_app, Zsum_app. simpl. rewrite Nat.add_1_r. simpl.
  rewrite IH.
  - rewrite (Hf (length l) x); [lia|]. by rewrite lookup_app_r, Nat.sub_diag by lia.
  - intros i y Hi. apply Hf. by rewrite lookup_app_l by (by eapply lookup_lt_Some).
Qed.

Lemma assign_ids_lookup counts : ∀ id (i : nat) q,
  assign_ids id counts !! i = Some q →
  ∃ c, counts !! i = Some c ∧ length q = Z.to_nat c.
Proof.
  induction counts as [|c counts IH]; intros id i q Hq; [done|].
  destruct i as [|i]; simpl in Hq.
  - injection Hq as <-. exists c. split; [done|]. apply length_seqZ.
  - by apply IH in Hq.
Qed.

Lemma concat_perm {A} (l1 l2 : list (list A)) : l1 ≡ₚ l2 → concat l1 ≡ₚ concat l2.
Proof.
  induction 1 as [|x l1 l2 _ IH|x y l|l1 l2 l3 _ IH1 _ IH2]; simpl.
  - done.
  - by rewrite IH.
  - rewrite !app_assoc. by rewrite (Permutation_app_comm y x).
  - by rewrite IH1.
Qed.

Lemma path_of_room s e m pos room :
  0 < pos < Length (reconstruction.path_of s e m) →
  room_at (reconstruction.path_of s e m) pos = Some room →
  m !! (Z.to_nat pos - 1)%nat = Some room.
Proof.
  cbn [reconstruction.path_of Length PRooms]. rewrite !length_app. simpl length.
  intros Hpos. unfold room_at, index_of_Z.
  destruct (Z.ltb_spec pos 0) as [|_]; [lia|]. cbn [mbind option_bind].
  destruct (Z.to_nat pos) as [|i] eqn:Hi; [lia|]. simpl.
  rewrite Nat.sub_0_r. rewrite lookup_app_l by lia. done.
Qed.

(** What the simulation needs to know of the paths and of the queues, for
    the paths [MultiPath] returns and the queues [Run] builds. *)
Lemma Run_setup_paths sort_paths (g : Graph) (maxPaths ants : Z) (paths : list Path)
    (T : Z) (counts : list Z) :
  sorts_by_length sort_paths → valid_graph g →
  path.MultiPath g maxPaths = Some paths →
  preallocate ants (Length <$> sort_paths paths) = Some (T, counts) →
  ∃ s e, Start g = Some s ∧ End g = Some e ∧
    (∀ (pi : nat) p, sort_paths paths !! pi = Some p → good_path s e p) ∧
    (∀ (pi pi' : nat) p p' pos pos' room,
       sort_paths paths !! pi = Some p → sort_paths paths !! pi' = Some p' →
       0 < pos < Length p → 0 < pos' < Length p' →
       room_at p pos = Some room → room_at p' pos' = Some room →
       pi = pi' ∧ pos = pos') ∧
    length (assign_ids 1 counts) = length (sort_paths paths) ∧
    NoDup (concat (assign_ids 1 counts)).
Proof.
  intros Hsort Hvalid HM Hpre.
  destruct (multipath_more.MultiPath_full_spec g maxPaths Hvalid)
    as (s & e & ms & Hs & He & Hse & HM' & Hnd & _ & Hall & _).
  rewrite HM in HM'. injection HM' as ->.
  exists s, e. split; [done|]. split; [done|].
  destruct (Hsort (reconstruction.path_of s e <$> ms)) as [Hperm Hsorted].
  set (paths' := sort_paths (reconstruction.path_of s e <$> ms)) in *.
  pose proof Hperm as Hperm'.
  change (reconstruction.path_of s e <$> ms) with (map (reconstruction.path_of s e) ms)
    in Hperm'.
  apply Permutation_map_inv in Hperm' as (ms' & Hms' & Hpm).
  change (map (reconstruction.path_of s e) ms') with (reconstruction.path_of s e <$> ms')
    in Hms'.
  assert (NoDup (concat ms')) as Hnd'.
  { by rewrite <- (concat_perm ms ms' Hpm). }
  assert (∀ m, m ∈ ms' → ∀ nm, nm ∈ m → nm ≠ s ∧ nm ≠ e) as Hmid.
  { intros m Hm nm Hnm. rewrite <- Hpm in Hm. destruct (Hall m Hm) as [_ H].
    by destruct (H nm Hnm) as (? & ? & _). }
  assert (∀ (pi : nat) p, paths' !! pi = Some p →
            ∃ m, ms' !! pi = Some m ∧ p = reconstruction.path_of s e m) as Hlook.
  { intros pi p Hp. rewrite Hms', list_lookup_fmap in Hp.
    destruct (ms' !! pi) as [m|]; [|done]. injection Hp as <-. by exists m. }
  assert (∀ (pi : nat) p, paths' !! pi = Some p → good_path s e p) as Hgood.
  { intros pi p (m & Hm & ->)%Hlook. apply path_of_good.
    apply Hmid. by eapply list_elem_of_lookup_2. }
  split; [done|]. split.
  { intros pi pi' p p' pos pos' room (m & Hm & ->)%Hlook (m' & Hm' & ->)%Hlook
      Hpos Hpos' Hr Hr'.
    apply path_of_room in Hr, Hr'; try done.
    destruct (decide (pi = pi')) as [<-|Hdiff].
    - split; [done|]. rewrite Hm in Hm'. injection Hm' as <-.
      assert (NoDup m) as Hndm.
      { eapply multipath_more.NoDup_concat_elem; [exact Hnd'|].
        by eapply list_elem_of_lookup_2. }
      pose proof (NoDup_lookup m _ _ room Hndm Hr Hr'). lia.
    - exfalso. eapply (NoDup_concat_lookup ms' pi pi' m m' room); try done;
        by eapply list_elem_of_lookup_2. }
  apply balancer.preallocate_length in Hpre. rewrite length_fmap in Hpre.
  split; [by rewrite assign_ids_length|]. apply assign_ids_nodup.
Qed.

(** Within the range of [int], what it needs to know of the turn count
    [T] as well. *)
Lemma Run_setup sort_paths (g : Graph) (maxPaths ants : Z) (paths : list Path)
    (T : Z) (counts : list Z) :
  sorts_by_length sort_paths → valid_graph g →
  path.MultiPath g maxPaths = Some paths → paths ≠ [] → 0 < ants →
  balancer.in_range ants (Length <$> paths) →
  preallocate ants (Length <$> sort_paths paths) = Some (T, counts) →
  ∃ s e, Start g = Some s ∧ End g = Some e ∧
    (∀ (pi : nat) p, sort_paths paths !! pi = Some p → good_path s e p) ∧
    (∀ (pi pi' : nat) p p' pos pos' room,
       sort_paths paths !! pi = Some p → sort_paths paths !! pi' = Some p' →
       0 < pos < Length p → 0 < pos' < Length p' →
       room_at p pos = Some room → room_at p' pos' = Some room →
       pi = pi' ∧ pos = pos') ∧
    length (assign_ids 1 counts) = length (sort_paths paths) ∧
    NoDup (concat (assign_ids 1 counts)) ∧
    0 ≤ T ∧
    sum_upto (cnt (assign_ids 1 counts)) (length (sort_paths paths)) = ants ∧
    (∀ (pi : nat) p q,
       sort_paths paths !! pi = Some p → assign_ids 1 counts !! pi = Some q → q ≠ [] →
       Length p - 1 + Z.of_nat (length q) ≤ Z.of_nat (Z.to_nat T)) ∧
    (∃ (pi : nat) p q,
       sort_paths paths !! pi = Some p ∧ assign_ids 1 counts !! pi = Some q ∧ q ≠ [] ∧
       Length p - 1 + Z.of_nat (length q) = Z.of_nat (Z.to_nat T)).
Proof.
  intros Hsort Hvalid HM Hne Hants Hfit Hpre.
  destruct (Run_setup_paths sort_paths g maxPaths ants paths T counts Hsort Hvalid HM Hpre)
    as (s & e & Hs & He & Hgood & Hdisj & Hlen0 & Hnd0).
  exists s, e. split; [done|]. split; [done|]. split; [done|]. split; [done|].
  destruct (Hsort paths) as [Hperm Hsorted].
  set (paths' := sort_paths paths) in *.
  destruct (balancer.preallocate_fits_spec ants (Length <$> paths'))
    as (T' & counts' & Hpre' & Hlen & Hsum & Hcounts & Hmin).
  { intros Hnil. apply fmap_nil_inv in Hnil. rewrite Hnil in Hperm.
    apply Permutation_nil_l in Hperm. by symmetry in Hperm. }
  { done. }
  { by apply (Sorted_fmap _ scheduler.shorter_eq). }
  { apply Forall_fmap, Forall_lookup. intros i p Hp.
    destruct (Hgood i p Hp) as (m & _ & Hl & _). simpl. lia. }
  { apply (balancer.in_range_perm ants (Length <$> paths)); [|done].
    by apply fmap_Permutation. }
  rewrite Hpre in Hpre'. injection Hpre' as <- <-.
  rewrite length_fmap in Hlen.
  assert (∀ (pi : nat) p q, paths' !! pi = Some p → assign_ids 1 counts !! pi = Some q →
            ∃ c, counts !! pi = Some c ∧ 0 ≤ c ∧ Z.of_nat (length q) = c ∧
                 (0 < c → Length p - 1 + c ≤ T) ∧ 1 ≤ Length p) as Hq.
  { intros pi p q Hp Hq. destruct (assign_ids_lookup counts 1 pi q Hq) as (c & Hc & Hl).
    destruct (Hcounts pi (Length p) c) as [H0 Hb]; [by rewrite list_lookup_fmap, Hp|done|].
    exists c. split; [done|]. split; [done|]. split; [lia|]. split; [done|].
    destruct (Hgood pi p Hp) as (m & _ & ? & _). lia. }
  destruct (Hmin counts) as (i & L & x & HL & Hx & Hxpos & HTle).
  { by rewrite length_fmap. }
  { apply Forall_lookup. intros j c Hc.
    destruct (lookup_lt_is_Some_2 (Length <$> paths') j) as [L HL].
    { rewrite length_fmap, <- Hlen. by eapply lookup_lt_Some. }
    by destruct (Hcounts j L c HL Hc). }
  { done. }
  rewrite list_lookup_fmap in HL.
  destruct (paths' !! i) as [pc|] eqn:Hpc; [|done]. injection HL as <-.
  destruct (lookup_lt_is_Some_2 (assign_ids 1 counts) i) as [qc Hqc].
  { rewrite assign_ids_length. by eapply lookup_lt_Some. }
  destruct (Hq i pc qc Hpc Hqc) as (c & Hc & Hc0 & Hcl & Hcb & HcL).
  rewrite Hx in Hc. injection Hc as <-.
  specialize (Hcb Hxpos).
  split; [by rewrite assign_ids_length|]. split; [apply assign_ids_nodup|].
  split; [lia|]. split.
  { rewrite <- Hlen, <- Hsum. apply sum_upto_Zsum. intros j c Hc. unfold cnt.
    destruct (lookup_lt_is_Some_2 (assign_ids 1 counts) j) as [q Hqj].
    { rewrite assign_ids_length. by eapply lookup_lt_Some. }
    destruct (lookup_lt_is_Some_2 paths' j) as [p Hpj].
    { rewrite <- Hlen. by eapply lookup_lt_Some. }
    rewrite Hqj. simpl. destruct (Hq j p q Hpj Hqj) as (c' & Hc' & _ & Hl & _). congruence. }
  split.
  { intros pi p q Hp Hqi Hnil. destruct (Hq pi p q Hp Hqi) as (c & Hc & Hc0' & Hl & Hb & _).
    rewrite Z2Nat.id by lia. rewrite Hl. apply Hb. destruct q; [done|]. simpl in Hl. lia. }
  exists i, pc, qc. split; [done|]. split; [done|]. split.
  { intros ->. simpl in Hcl. lia. }
  rewrite Z2Nat.id by lia. lia.
Qed.

Lemma Run_lines sort_paths range_ants (g : Graph) (maxPaths ants : Z)
    (paths : list Path) (T : Z) (counts : list Z) :
  sorts_by_length sort_paths →
  (∀ turn pi m, range_ants turn pi m ≡ₚ map_to_list m) →
  valid_graph g →
  path.MultiPath g maxPaths = Some paths → paths ≠ [] → 0 < ants →
  balancer.in_range ants (Length <$> paths) →
  preallocate ants (Length <$> sort_paths paths) = Some (T, counts) →
  Run sort_paths range_ants ants paths g
  = Some (lines_from (sort_paths paths) (assign_ids 1 counts) (Z.to_nat T) 0).
Proof.
  intros Hsort Hrange Hvalid HM Hne Hants Hfit Hpre.
  destruct (Run_setup sort_paths g maxPaths ants paths T counts Hsort Hvalid HM Hne Hants
              Hfit Hpre)
    as (s & e & Hs & He & Hgood & Hdisj & Hlen & Hnd & HT & Hsum & Hbound & Hreach).
  destruct (Run_returns sort_paths range_ants ants paths g s e
              Hsort Hrange Hs He) as (out & Hout); [|done|].
  { intros p Hp. destruct (Hsort paths) as [Hperm _]. rewrite <- Hperm in Hp.
    apply list_elem_of_lookup in Hp as [i Hi]. by eapply Hgood. }
  rewrite Hout. f_equal. unfold Run in Hout.
  destruct (Z.leb_spec ants 0) as [|_]; [lia|].
  rewrite bool_decide_eq_false_2 in Hout by done. cbn [orb] in Hout.
  rewrite Hpre in Hout. cbn [mbind option_bind] in Hout.
  rewrite Hs, He in Hout. cbn [mbind option_bind] in Hout.
  apply (turn_loop_pipe range_ants s e (sort_paths paths) (assign_ids 1 counts)
           Hrange Hgood Hdisj Hlen Hnd ants (Z.to_nat T) Hsum Hbound Hreach) in Hout.
  - done.
  - by apply (at_turn_init s e).
  - lia.
Qed.

End pipeline.

(** X14. With the paths of [MultiPath], [Run] prints exactly [T] lines,
    [T] being the number of turns the pre-allocation has computed: no turn
    is lost to an ant that waits. *)
Theorem run_prints_T_lines
    (sort_paths : list Path → list Path)
    (range_ants : nat → nat → gmap Z scheduler.AntState → list (Z * scheduler.AntState))
    (g : Graph) (maxPaths ants : Z) (paths : list Path) (T : Z) (counts : list Z) :
  sorts_by_length sort_paths →
  (∀ turn pi m, range_ants turn pi m ≡ₚ map_to_list m) →
  valid_graph g →
  path.MultiPath g maxPaths = Some paths → paths ≠ [] → 0 < ants →
  balancer.in_range ants (Length <$> paths) →
  scheduler.preallocate ants (Length <$> sort_paths paths) = Some (T, counts) →
  ∃ out, scheduler.Run sort_paths range_ants ants paths g = Some out ∧
         Z.of_nat (length out) = T.
Proof.
  intros Hsort Hrange Hvalid HM Hne Hants Hfit Hpre.
  eexists. split; [by eapply pipeline.Run_lines|].
  unfold pipeline.lines_from. rewrite length_fmap, length_seq.
  destruct (pipeline.Run_setup sort_paths g maxPaths ants paths T counts
              Hsort Hvalid HM Hne Hants Hfit Hpre) as (_ & _ & _ & _ & _ & _ & _ & _ & HT & _).
  lia.
Qed.

Lemma run_prints_T_lines_witness :
  ∃ out, scheduler.Run (merge_sort scheduler.shorter_eq) (λ _ _ m, map_to_list m)
           3 two_paths diamond = Some out ∧
         Z.of_nat (length out) = 3.
Proof.
  apply (run_prints_T_lines (merge_sort scheduler.shorter_eq) (λ _ _ m, map_to_list m)
           diamond 0 3 two_paths 3 [2; 1]).
  - apply merge_sort_sorts_by_length.
  - done.
  - apply (bool_decide_unpack _). vm_compute. reflexivity.
  - vm_compute. reflexivity.
  - discriminate.
  - reflexivity.
  - repeat constructor; reflexivity.
  - vm_compute. reflexivity.
Defined.

(** X15. With the paths of [MultiPath], the turn loop of [Run] reaches,
    after [T] turns, a state in which all the ants are counted as finished,
    the queues are empty and every ant that walked stands in the end
    room. *)
Theorem all_ants_arrive
    (sort_paths : list Path → list Path)
    (range_ants : nat → nat → gmap Z scheduler.AntState → list (Z * scheduler.AntState))
    (g : Graph) (s e : string) (maxPaths ants : Z) (paths : list Path)
    (T : Z) (counts : list Z) :
  sorts_by_length sort_paths →
  (∀ turn pi m, range_ants turn pi m ≡ₚ map_to_list m) →
  valid_graph g → Start g = Some s → End g = Some e →
  path.MultiPath g maxPaths = Some paths → paths ≠ [] → 0 < ants →
  balancer.in_range ants (Length <$> paths) →
  scheduler.preallocate ants (Length <$> sort_paths paths) = Some (T, counts) →
  ∃ st,
    run_state range_ants s e ants (sort_paths paths)
      (scheduler.mkSim ∅ ∅ (scheduler.assign_ids 1 counts) 0) (Z.to_nat T) st ∧
    scheduler.finished st = ants ∧
    Forall (λ q, q = []) (scheduler.waitQueues st) ∧
    map_Forall (λ _ a, exclusivity.ant_room (sort_paths paths) a = Some e)
               (scheduler.antsState st).
Proof.
  intros Hsort Hrange Hvalid Hs He HM Hne Hants Hfit Hpre.
  destruct (pipeline.Run_setup sort_paths g maxPaths ants paths T counts
              Hsort Hvalid HM Hne Hants Hfit Hpre)
    as (s' & e' & Hs' & He' & Hgood & Hdisj & Hlen & Hnd & HT & Hsum & Hbound & Hreach).
  assert (s' = s) as -> by congruence. assert (e' = e) as -> by congruence.
  destruct (pipeline.run_state_reaches range_ants s e (sort_paths paths)
              (scheduler.assign_ids 1 counts) Hrange Hgood Hdisj Hlen Hnd ants (Z.to_nat T)
              Hsum Hreach (Z.to_nat T)) as [st Hst]; [lia|].
  exists st. split; [done|].
  pose proof (pipeline.run_state_at_turn range_ants s e (sort_paths paths)
                (scheduler.assign_ids 1 counts) Hrange Hgood Hdisj Hlen Hnd ants
                (Z.to_nat T) st Hst) as Hinv.
  split.
  - by apply (pipeline.finished_at_T s e (sort_paths paths) (scheduler.assign_ids 1 counts)
                Hgood Hlen ants (Z.to_nat T)).
  - by apply (pipeline.at_turn_T_final s e (sort_paths paths)
                (scheduler.assign_ids 1 counts) Hgood Hlen (Z.to_nat T)).
Qed.

Lemma all_ants_arrive_witness :
  let paths' := merge_sort scheduler.shorter_eq two_paths in
  let range_ants := λ (_ _ : nat) (m : gmap Z scheduler.AntState), map_to_list m in
  ∃ st,
    run_state range_ants "start" "end" 3 paths'
      (scheduler.mkSim ∅ ∅ (scheduler.assign_ids 1 [2; 1]) 0) (Z.to_nat 3) st ∧
    scheduler.finished st = 3 ∧
    Forall (λ q, q = []) (scheduler.waitQueues st) ∧
    map_Forall (λ _ a, exclusivity.ant_room paths' a = Some "end")
               (scheduler.antsState st).
Proof.
  intros paths' range_ants.
  apply (all_ants_arrive (merge_sort scheduler.shorter_eq) range_ants
           diamond "start" "end" 0 3 two_paths 3 [2; 1]).
  - apply merge_sort_sorts_by_length.
  - done.
  - apply (bool_decide_unpack _). vm_compute. reflexivity.
  - reflexivity.
  - reflexivity.
  - vm_compute. reflexivity.
  - discriminate.
  - reflexivity.
  - repeat constructor; reflexivity.
  - vm_compute. reflexivity.
Defined.

(** X16. With the paths of [MultiPath] no ant ever waits on its way: after
    [n] turns of the loop of [Run], the queue of a path has lost its first
    [n] ants, and the ant that was number [k] in it (from 0) has, if
    [k < n], made [n - k] steps on the path, or all the steps of the path if
    these are fewer.  An ant of the direct path is never recorded in the map
    of moving ants. *)
Theorem ants_advance_every_turn
    (sort_paths : list Path → list Path)
    (range_ants : nat → nat → gmap Z scheduler.AntState → list (Z * scheduler.AntState))
    (g : Graph) (s e : string) (maxPaths ants : Z) (paths : list Path)
    (T : Z) (counts : list Z)
    (n : nat) (st : scheduler.sim) (pi : nat) (p : Path) (q : list Z) (k : nat) (id : Z) :
  sorts_by_length sort_paths →
  (∀ turn pi m, range_ants turn pi m ≡ₚ map_to_list m) →
  valid_graph g → Start g = Some s → End g = Some e →
  path.MultiPath g maxPaths = Some paths → paths ≠ [] → 0 < ants →
  scheduler.preallocate ants (Length <$> sort_paths paths) = Some (T, counts) →
  run_state range_ants s e ants (sort_paths paths)
    (scheduler.mkSim ∅ ∅ (scheduler.assign_ids 1 counts) 0) n st →
  sort_paths paths !! pi = Some p →
  scheduler.assign_ids 1 counts !! pi = Some q →
  q !! k = Some id →
  scheduler.waitQueues st !! pi = Some (drop n q) ∧
  scheduler.antsState st !! id =
    if bool_decide ((k < n)%nat ∧ Length p ≠ 1)
    then Some (scheduler.mkAnt id pi (Z.min (Z.of_nat n - Z.of_nat k) (Length p)))
    else None.
Proof.
  intros Hsort Hrange Hvalid Hs He HM Hne Hants Hpre Hst Hp Hq Hid.
  destruct (pipeline.Run_setup_paths sort_paths g maxPaths ants paths T counts
              Hsort Hvalid HM Hpre)
    as (s' & e' & Hs' & He' & Hgood & Hdisj & Hlen & Hnd).
  assert (s' = s) as -> by congruence. assert (e' = e) as -> by congruence.
  pose proof (pipeline.run_state_at_turn range_ants s e (sort_paths paths)
                (scheduler.assign_ids 1 counts) Hrange Hgood Hdisj Hlen Hnd ants
                n st Hst) as Hinv.
  eapply pipeline.at_turn_ant; eassumption.
Qed.

Lemma ants_advance_every_turn_witness :
  let paths' := merge_sort scheduler.shorter_eq two_paths in
  let range_ants := λ (_ _ : nat) (m : gmap Z scheduler.AntState), map_to_list m in
  let st0 := scheduler.mkSim ∅ ∅ (scheduler.assign_ids 1 [2; 1]) 0 in
  let st := from_option fst st0
              (scheduler.turn_step range_ants "start" "end" 0 paths' st0) in
  scheduler.waitQueues st !! 0%nat = Some (drop 1 [1; 2]) ∧
  scheduler.antsState st !! 1 =
    if bool_decide ((0 < 1)%nat ∧ Length (mkPath ["start"; "a"; "end"] 2) ≠ 1)
    then Some (scheduler.mkAnt 1 0
                 (Z.min (Z.of_nat 1 - Z.of_nat 0) (Length (mkPath ["start"; "a"; "end"] 2))))
    else None.
Proof.
  intros paths' range_ants st0 st.
  apply (ants_advance_every_turn (merge_sort scheduler.shorter_eq) range_ants
           diamond "start" "end" 0 3 two_paths 3 [2; 1] 1 st 0
           (mkPath ["start"; "a"; "end"] 2) [1; 2] 0 1).
  - apply merge_sort_sorts_by_length.
  - done.
  - apply (bool_decide_unpack _). vm_compute. reflexivity.
  - reflexivity.
  - reflexivity.
  - vm_compute. reflexivity.
  - discriminate.
  - reflexivity.
  - vm_compute. reflexivity.
  - apply (run_state_S range_ants "start" "end" 3 paths' st0 0 st0 st
             ["L1-a"; "L3-b"]).
    + constructor.
    + reflexivity.
    + vm_compute. reflexivity.
  - vm_compute. reflexivity.
  - vm_compute. reflexivity.
  - reflexivity.
Defined.

(** X17. With the paths of [MultiPath], what [Run] prints is this: the line
    of turn [t + 1] holds the move [L<id>-<room>] exactly when [id] is the
    ant number [k] (from 0) of the queue of a path of length [L], with
    [k <= t < k + L], and [room] is room number [t + 1 - k] of that path.
    Each ant leaves in the turn after its predecessor in the queue and makes
    one step in every turn until it is in the end room. *)
Theorem printed_moves_follow_paths
    (sort_paths : list Path → list Path)
    (range_ants : nat → nat → gmap Z scheduler.AntState → list (Z * scheduler.AntState))
    (g : Graph) (maxPaths ants : Z) (paths : list Path) (T : Z) (counts : list Z) :
  sorts_by_length sort_paths →
  (∀ turn pi m, range_ants turn pi m ≡ₚ map_to_list m) →
  valid_graph g →
  path.MultiPath g maxPaths = Some paths → paths ≠ [] → 0 < ants →
  balancer.in_range ants (Length <$> paths) →
  scheduler.preallocate ants (Length <$> sort_paths paths) = Some (T, counts) →
  ∃ turns : list (list string),
    scheduler.Run sort_paths range_ants ants paths g
      = Some (scheduler.join_moves <$> turns) ∧
    ∀ (t : nat) toks tok, turns !! t = Some toks →
      (tok ∈ toks ↔
       ∃ (pi : nat) p q (k : nat) id room,
         sort_paths paths !! pi = Some p ∧
         scheduler.assign_ids 1 counts !! pi = Some q ∧
         q !! k = Some id ∧
         (k ≤ t)%nat ∧ Z.of_nat t < Z.of_nat k + Length p ∧
         PRooms p !! (t + 1 - k)%nat = Some room ∧
         tok = scheduler.move_token id room).
Proof.
  intros Hsort Hrange Hvalid HM Hne Hants Hfit Hpre.
  destruct (pipeline.Run_setup_paths sort_paths g maxPaths ants paths T counts
              Hsort Hvalid HM Hpre)
    as (s & e & Hs & He & Hgood & Hdisj & Hlen & Hnd).
  exists (pipeline.turn_moves (sort_paths paths) (scheduler.assign_ids 1 counts)
            <$> seq 0 (Z.to_nat T)).
  split.
  - rewrite (pipeline.Run_lines sort_paths range_ants g maxPaths ants paths T counts)
      by done.
    unfold pipeline.lines_from. by rewrite <- list_fmap_compose, Nat.sub_0_r.
  - intros t toks tok Ht. rewrite list_lookup_fmap in Ht.
    destruct (seq 0 (Z.to_nat T) !! t) as [t'|] eqn:Hseq; [|done].
    apply lookup_seq in Hseq as [-> _]. injection Ht as <-.
    apply (pipeline.turn_moves_elem s e (sort_paths paths) (scheduler.assign_ids 1 counts)
             Hgood Hlen).
Qed.

Lemma printed_moves_follow_paths_witness :
  let sort_paths := merge_sort scheduler.shorter_eq in
  ∃ turns : list (list string),
    scheduler.Run sort_paths (λ _ _ m, map_to_list m) 3 two_paths diamond
      = Some (scheduler.join_moves <$> turns) ∧
    ∀ (t : nat) toks tok, turns !! t = Some toks →
      (tok ∈ toks ↔
       ∃ (pi : nat) p q (k : nat) id room,
         sort_paths two_paths !! pi = Some p ∧
         scheduler.assign_ids 1 [2; 1] !! pi = Some q ∧
         q !! k = Some id ∧
         (k ≤ t)%nat ∧ Z.of_nat t < Z.of_nat k + Length p ∧
         PRooms p !! (t + 1 - k)%nat = Some room ∧
         tok = scheduler.move_token id room).
Proof.
  intros sort_paths.
  apply (printed_moves_follow_paths sort_paths (λ _ _ m, map_to_list m)
           diamond 0 3 two_paths 3 [2; 1]).
  - apply merge_sort_sorts_by_length.
  - done.
  - apply (bool_decide_unpack _). vm_compute. reflexivity.
  - vm_compute. reflexivity.
  - discriminate.
  - reflexivity.
  - repeat constructor; reflexivity.
  - vm_compute. reflexivity.
Defined.

Lemma assign_ids_concat (counts : list Z) : ∀ id,
  Forall (λ c, 0 ≤ c) counts →
  concat (scheduler.assign_ids id counts) = seqZ id (Zsum counts).
Proof.
  induction counts as [|c counts IH]; intros id Hc; [done|].
  apply Forall_cons in Hc as [Hc0 Hc].
  cbn [scheduler.assign_ids concat]. rewrite Zsum_cons.
  pose proof (reconstruction.Zsum_nonneg counts Hc) as Hsum.
  rewrite seqZ_app by done. f_equal. rewrite IH by done. f_equal.
  destruct (Z.ltb_spec 0 c); lia.
Qed.

(** X18. The queues [Run] builds hold, read one after the other, the ants
    [1, 2, ..., ants] in this order: every ant is in exactly one queue, and
    the ants of one path have consecutive numbers. *)
Theorem every_ant_queued_once (ants : Z) (lens : list Z) :
  lens ≠ [] → 0 < ants → Sorted Z.le lens → Forall (λ L, 0 ≤ L) lens →
  balancer.in_range ants lens →
  ∃ T counts,
    scheduler.preallocate ants lens = Some (T, counts) ∧
    concat (scheduler.assign_ids 1 counts) = seqZ 1 ants.
Proof.
  intros Hne Hants Hsorted Hpos Hfit.
  destruct (balancer.preallocate_fits_spec ants lens Hne Hants Hsorted Hpos Hfit)
    as (T & counts & Hpre & Hlen & Hsum & Hcounts & _).
  exists T, counts. split; [done|]. rewrite <- Hsum. apply assign_ids_concat.
  apply Forall_lookup. intros i c Hc.
  destruct (lookup_lt_is_Some_2 lens i) as [L HL].
  { rewrite <- Hlen. by eapply lookup_lt_Some. }
  by destruct (Hcounts i L c HL Hc).
Qed.

Lemma every_ant_queued_once_witness :
  ∃ T counts,
    scheduler.preallocate 10 [4; 5; 6] = Some (T, counts) ∧
    concat (scheduler.assign_ids 1 counts) = seqZ 1 10.
Proof.
  apply (every_ant_queued_once 10 [4; 5; 6]).
  - discriminate.
  - reflexivity.
  - repeat constructor; discriminate.
  - repeat constructor; discriminate.
  - repeat constructor; reflexivity.
Defined.

(** ** The graph of an accepted input holds what the input says *)

Module parser_trip.
Import parser.

Lemma elem_of_snoc {A} (l : list A) (x y : A) : y ∈ l ++ [x] → y ∈ l ∨ y = x.
Proof. rewrite elem_of_app, list_elem_of_singleton. tauto. Qed.

(** The four ways in which a line is accepted. *)
Lemma parse_line_kind st line st' :
  parse_line st line = inr st' →
  (String.prefix "#" line = true ∧ ps_graph st' = ps_graph st ∧
   ps_phase st' = ps_phase st) ∨
  (String.prefix "#" line = false ∧ ps_phase st = PhAnts ∧ (Atoi line).2 = true ∧
   ps_graph st' = ps_graph st ∧ ps_phase st' = PhRooms) ∨
  (String.prefix "#" line = false ∧ ps_phase st = PhRooms ∧
   ∃ name xs ys,
     roomLineRe line = Some (name, xs, ys) ∧
     Rooms (ps_graph st) !! name = None ∧
     Rooms (ps_graph st') =
       <[name := mkRoom name (Atoi xs).1 (Atoi ys).1 []]> (Rooms (ps_graph st)) ∧
     ps_phase st' = PhRooms) ∨
  (String.prefix "#" line = false ∧ ps_phase st ≠ PhAnts ∧
   ∃ a b, linkLineRe line = Some (a, b) ∧
          AddLink (ps_graph st) a b = (ps_graph st', true) ∧ ps_phase st' = PhLinks).
Proof.
  intros Hline. unfold parse_line in Hline.
  case_bool_decide; [done|].
  destruct (String.prefix "#" line) eqn:Hhash.
  { left. split; [done|]. destruct (String.prefix "##" line); [|by injection Hline as <-].
    destruct (bool_decide (line = "##start") || bool_decide (line = "##end"));
      by injection Hline as <-. }
  right. case_bool_decide as Hph.
  { left. destruct (Atoi line) as [ants ok] eqn:HA.
    destruct ok; [|done]. simpl in Hline. destruct (ants <=? 0); [done|].
    by injection Hline as <-. }
  right.
  assert (∀ a b, linkLineRe line = Some (a, b) →
            match Start (ps_graph st), End (ps_graph st) with
            | Some _, Some _ =>
                let '(g1, ok) := AddLink (ps_graph st) a b in
                if ok then
                  inr (mkPState (ps_ants st) g1 (ps_lines st ++ [line])
                         PhLinks (ps_pending st))
                else inl (errInvalid +:+ ", invalid link")
            | _, _ => inl (errInvalid +:+ ", missing start or end")
            end = inr st' →
            ∃ a b, linkLineRe line = Some (a, b) ∧
              AddLink (ps_graph st) a b = (ps_graph st', true) ∧ ps_phase st' = PhLinks)
    as Hlink.
  { intros a b Hre Hl.
    destruct (Start (ps_graph st)) as [s|] eqn:Hs; [|done].
    destruct (End (ps_graph st)) as [e|] eqn:He; [|done].
    destruct (AddLink (ps_graph st) a b) as [g1 ok] eqn:Hadd.
    destruct ok; [|done]. injection Hl as <-. by exists a, b. }
  destruct (roomLineRe line) as [[[name xs] ys]|] eqn:Hroom.
  2:{ right. do 2 (split; [done|]).
      destruct (linkLineRe line) as [[a b]|] eqn:Hlk; [by eapply Hlink|].
      by case_bool_decide. }
  case_bool_decide as Hph'.
  2:{ right. do 2 (split; [done|]).
      destruct (linkLineRe line) as [[a b]|] eqn:Hlk; [by eapply Hlink|].
      by case_bool_decide. }
  left. do 2 (split; [done|]). exists name, xs, ys. split; [done|].
  destruct (Rooms (ps_graph st) !! name) as [r0|] eqn:Hname; [done|]. split; [done|].
  unfold AddRoom in Hline. rewrite Hname in Hline. cbn [Start End Name] in Hline.
  case_bool_decide.
  { destruct (Start (ps_graph st)); [done|]. by injection Hline as <-. }
  case_bool_decide.
  { destruct (End (ps_graph st)); [done|]. by injection Hline as <-. }
  by injection Hline as <-.
Qed.

(** The rooms and links of the graph are those of the lines read. *)
Record trip (seen : list string) (st : pstate) : Prop := {
  t_ants : ps_phase st = PhAnts →
    Rooms (ps_graph st) = ∅ ∧ ∀ line, line ∈ seen → String.prefix "#" line = true;
  t_room_in : ∀ line name xs ys,
    line ∈ seen → String.prefix "#" line = false →
    roomLineRe line = Some (name, xs, ys) →
    ∃ r, Rooms (ps_graph st) !! name = Some r ∧
         X r = (Atoi xs).1 ∧ Y r = (Atoi ys).1;
  t_room_out : ∀ name r,
    Rooms (ps_graph st) !! name = Some r →
    ∃ line xs ys, line ∈ seen ∧ String.prefix "#" line = false ∧
      roomLineRe line = Some (name, xs, ys) ∧
      X r = (Atoi xs).1 ∧ Y r = (Atoi ys).1;
  t_link_in : ∀ line a b,
    line ∈ seen → String.prefix "#" line = false →
    linkLineRe line = Some (a, b) →
    ∃ ra rb, Rooms (ps_graph st) !! a = Some ra ∧ Rooms (ps_graph st) !! b = Some rb ∧
             b ∈ Links ra ∧ a ∈ Links rb;
  t_link_out : ∀ a ra b,
    Rooms (ps_graph st) !! a = Some ra → b ∈ Links ra →
    ∃ line, line ∈ seen ∧ String.prefix "#" line = false ∧
            (linkLineRe line = Some (a, b) ∨ linkLineRe line = Some (b, a));
}.

Lemma trip_init : trip [] init_pstate.
Proof.
  split; cbn [init_pstate ps_graph ps_phase NewGraph Rooms].
  - intros _. split; [done|]. intros line Hin. by apply elem_of_nil in Hin.
  - intros line name xs ys Hin. by apply elem_of_nil in Hin.
  - intros name r Hr. by rewrite lookup_empty in Hr.
  - intros line a b Hin. by apply elem_of_nil in Hin.
  - intros a ra b Hr. by rewrite lookup_empty in Hr.
Qed.

Lemma trip_step seen st line st' :
  parse_line st line = inr st' → trip seen st → trip (seen ++ [line]) st'.
Proof.
  intros Hline Htrip.
  destruct (parse_line_kind st line st' Hline)
    as [(Hhash & Hg & Hph)|[(Hhash & Hph & HA & Hg & Hph')|
        [(Hhash & Hph & name & xs & ys & Hre & Hfresh & Hrooms & Hph')|
         (Hhash & Hph & a & b & Hre & Hadd & Hph')]]].
  - (* a comment *)
    split; rewrite ?Hg, ?Hph.
    + intros H0. destruct (t_ants _ _ Htrip H0) as [He Hall]. split; [done|].
      intros l [Hl | ->]%elem_of_snoc; [by apply Hall|done].
    + intros l name xs ys [Hl | ->]%elem_of_snoc Hh Hre;
        [by eapply (t_room_in _ _ Htrip)|congruence].
    + intros name r Hr. destruct (t_room_out _ _ Htrip name r Hr) as (l & xs & ys & Hl & ?).
      exists l, xs, ys. split; [|done]. apply elem_of_app. by left.
    + intros l a b [Hl | ->]%elem_of_snoc Hh Hre;
        [by eapply (t_link_in _ _ Htrip)|congruence].
    + intros a ra b Hr Hb. destruct (t_link_out _ _ Htrip a ra b Hr Hb) as (l & Hl & ?).
      exists l. split; [|done]. apply elem_of_app. by left.
  - (* the number of ants *)
    destruct (t_ants _ _ Htrip Hph) as [Hempty Hall].
    split; rewrite ?Hg, ?Hph'.
    + done.
    + intros l name xs ys [Hl | ->]%elem_of_snoc Hh Hre.
      * rewrite (Hall l Hl) in Hh. done.
      * apply parser_facts.room_line_Atoi in Hre. congruence.
    + intros name r Hr. rewrite Hempty in Hr. by rewrite lookup_empty in Hr.
    + intros l a b [Hl | ->]%elem_of_snoc Hh Hre.
      * rewrite (Hall l Hl) in Hh. done.
      * apply parser_more.link_line_Atoi in Hre. congruence.
    + intros a ra b Hr. rewrite Hempty in Hr. by rewrite lookup_empty in Hr.
  - (* a room *)
    split; rewrite ?Hrooms, ?Hph'.
    + done.
    + intros l name' xs' ys' [Hl | ->]%elem_of_snoc Hh Hre'.
      * destruct (t_room_in _ _ Htrip l name' xs' ys' Hl Hh Hre') as (r & Hr & ?).
        exists r. split; [|done]. rewrite lookup_insert_ne; [done|]. intros <-. congruence.
      * rewrite Hre in Hre'. injection Hre' as <- <- <-.
        eexists. rewrite lookup_insert_eq. done.
    + intros name' r. rewrite lookup_insert_Some. intros [[<- <-]|[Hne Hr]].
      * exists line, xs, ys. split; [apply elem_of_app; right; apply list_elem_of_here|done].
      * destruct (t_room_out _ _ Htrip name' r Hr) as (l & xs' & ys' & Hl & ?).
        exists l, xs', ys'. split; [|done]. apply elem_of_app. by left.
    + intros l a b [Hl | ->]%elem_of_snoc Hh Hre'.
      * destruct (t_link_in _ _ Htrip l a b Hl Hh Hre') as (ra & rb & Ha & Hb & ?).
        exists ra, rb. rewrite !lookup_insert_ne by (intros <-; congruence). done.
      * apply parser_more.link_line_not_room in Hre'. congruence.
    + intros a ra b. rewrite lookup_insert_Some. intros [[<- <-]|[Hne Hr]] Hb.
      * by apply elem_of_nil in Hb.
      * destruct (t_link_out _ _ Htrip a ra b Hr Hb) as (l & Hl & ?).
        exists l. split; [|done]. apply elem_of_app. by left.
  - (* a link *)
    apply AddLink_true_rooms in Hadd
      as (Hab & ra & rb & Ha & Hb & Hnew & Hrooms & _).
    assert (∀ nm r, Rooms (ps_graph st) !! nm = Some r →
              ∃ r', Rooms (ps_graph st') !! nm = Some r' ∧ X r' = X r ∧ Y r' = Y r ∧
                    ∀ x, x ∈ Links r → x ∈ Links r') as Hkeep.
    { intros nm r Hr. rewrite Hrooms.
      destruct (decide (nm = b)) as [->|Hnb].
      { rewrite lookup_insert_eq. eexists. split; [done|]. rewrite Hb in Hr.
        injection Hr as <-. cbn [add_link_to X Y Links]. do 2 (split; [done|]).
        intros x Hx. apply elem_of_app. by left. }
      rewrite lookup_insert_ne by done.
      destruct (decide (nm = a)) as [->|Hna].
      { rewrite lookup_insert_eq. eexists. split; [done|]. rewrite Ha in Hr.
        injection Hr as <-. cbn [add_link_to X Y Links]. do 2 (split; [done|]).
        intros x Hx. apply elem_of_app. by left. }
      rewrite lookup_insert_ne by done. by exists r. }
    assert (∀ nm r', Rooms (ps_graph st') !! nm = Some r' →
              ∃ r, Rooms (ps_graph st) !! nm = Some r ∧ X r' = X r ∧ Y r' = Y r ∧
                   ∀ x, x ∈ Links r' →
                        x ∈ Links r ∨ (nm = a ∧ x = b) ∨ (nm = b ∧ x = a)) as Hback.
    { intros nm r'. rewrite Hrooms. rewrite lookup_insert_Some.
      intros [[<- <-]|[Hnb Hr]].
      { exists rb. split; [done|]. cbn [add_link_to X Y Links]. do 2 (split; [done|]).
        intros x [Hx | ->]%elem_of_snoc; [by left|]. right. by right. }
      apply lookup_insert_Some in Hr as [[<- <-]|[Hna Hr]].
      { exists ra. split; [done|]. cbn [add_link_to X Y Links]. do 2 (split; [done|]).
        intros x [Hx | ->]%elem_of_snoc; [by left|]. right. by left. }
      exists r'. split; [done|]. do 2 (split; [done|]). intros x Hx. by left. }
    split; rewrite ?Hph'.
    + done.
    + intros l name' xs' ys' [Hl | ->]%elem_of_snoc Hh Hre'.
      * destruct (t_room_in _ _ Htrip l name' xs' ys' Hl Hh Hre') as (r & Hr & Hx & Hy).
        destruct (Hkeep name' r Hr) as (r' & Hr' & Hx' & Hy' & _).
        exists r'. split; [done|]. split; congruence.
      * apply parser_facts.room_line_not_link in Hre'. congruence.
    + intros name' r' Hr'. destruct (Hback name' r' Hr') as (r & Hr & Hx & Hy & _).
      destruct (t_room_out _ _ Htrip name' r Hr) as (l & xs' & ys' & Hl & Hh & Hre' & ? & ?).
      exists l, xs', ys'. split; [apply elem_of_app; by left|]. do 2 (split; [done|]).
      split; congruence.
    + intros l a' b' [Hl | ->]%elem_of_snoc Hh Hre'.
      * destruct (t_link_in _ _ Htrip l a' b' Hl Hh Hre')
          as (ra' & rb' & Ha' & Hb' & Hin1 & Hin2).
        destruct (Hkeep a' ra' Ha') as (r1 & Hr1 & _ & _ & Hl1).
        destruct (Hkeep b' rb' Hb') as (r2 & Hr2 & _ & _ & Hl2).
        exists r1, r2. do 2 (split; [done|]). split; [by apply Hl1|by apply Hl2].
      * rewrite Hre in Hre'. injection Hre' as <- <-.
        exists (add_link_to ra b), (add_link_to rb a). rewrite Hrooms.
        rewrite lookup_insert_ne by done. rewrite !lookup_insert_eq.
        do 2 (split; [done|]). cbn [add_link_to Links].
        split; apply elem_of_app; right; apply list_elem_of_here.
    + intros a' ra' b' Hr' Hb'.
      destruct (Hback a' ra' Hr') as (r & Hr & _ & _ & Hl).
      destruct (Hl b' Hb') as [Hold|[[-> ->]|[-> ->]]].
      * destruct (t_link_out _ _ Htrip a' r b' Hr Hold) as (l & Hin & ?).
        exists l. split; [apply elem_of_app; by left|done].
      * exists line. split; [apply elem_of_app; right; apply list_elem_of_here|].
        split; [done|by left].
      * exists line. split; [apply elem_of_app; right; apply list_elem_of_here|].
        split; [done|by right].
Qed.

Lemma trip_loop input : ∀ seen st st',
  parse_loop st input = inr st' → trip seen st → trip (seen ++ input) st'.
Proof.
  induction input as [|line input IH]; intros seen st st' Hloop Htrip.
  { injection Hloop as <-. by rewrite app_nil_r. }
  cbn [parse_loop] in Hloop.
  destruct (parse_line st line) as [err|st1] eqn:Hline; [done|].
  rewrite (cons_middle line), app_assoc. apply (IH _ st1); [done|].
  by apply (trip_step seen st).
Qed.

Lemma Parse_trip input res :
  Parse input = inr res →
  ∃ st, ps_graph st = RGraph res ∧ trip input st.
Proof.
  unfold Parse, Parse_scanner. intros HP.
  destruct (parse_loop init_pstate input) as [err|st] eqn:Hloop; [done|].
  destruct (Start (ps_graph st)); [|done].
  destruct (End (ps_graph st)); [|done].
  case_bool_decide; [done|]. injection HP as <-. exists st. split; [done|].
  apply (trip_loop input [] init_pstate st Hloop trip_init).
Qed.

End parser_trip.

(** X19. The rooms of the graph of an accepted input are the rooms of its
    room lines: the graph has a room [name] with coordinates [x] and [y]
    exactly when a line of the input that is no comment reads as a room
    line with this name and these coordinates. *)
Theorem rooms_are_the_room_lines (input : list string) (res : parser.Result)
    (name : string) (x y : Z) :
  parser.Parse input = inr res →
  (∃ r, Rooms (parser.RGraph res) !! name = Some r ∧ X r = x ∧ Y r = y) ↔
  (∃ line xs ys,
     line ∈ input ∧ String.prefix "#" line = false ∧
     parser.roomLineRe line = Some (name, xs, ys) ∧
     x = (parser.Atoi xs).1 ∧ y = (parser.Atoi ys).1).
Proof.
  intros (st & Hg & Htrip)%parser_trip.Parse_trip. rewrite <- Hg. split.
  - intros (r & Hr & <- & <-).
    destruct (parser_trip.t_room_out _ _ Htrip name r Hr)
      as (line & xs & ys & Hin & Hh & Hre & Hx & Hy).
    by exists line, xs, ys.
  - intros (line & xs & ys & Hin & Hh & Hre & -> & ->).
    destruct (parser_trip.t_room_in _ _ Htrip line name xs ys Hin Hh Hre) as (r & Hr & ? & ?).
    by exists r.
Qed.

Lemma rooms_are_the_room_lines_witness :
  (∃ r, Rooms (parser.RGraph diamond_result) !! "b" = Some r ∧ X r = 2 ∧ Y r = 0) ↔
  (∃ line xs ys,
     line ∈ diamond_input ∧ String.prefix "#" line = false ∧
     parser.roomLineRe line = Some ("b", xs, ys) ∧
     2 = (parser.Atoi xs).1 ∧ 0 = (parser.Atoi ys).1).
Proof.
  apply (rooms_are_the_room_lines diamond_input diamond_result "b" 2 0).
  vm_compute. reflexivity.
Defined.

(** X20. The links of the graph of an accepted input are the links of its
    link lines: room [a] lists room [b] among its links exactly when a line
    of the input that is no comment reads as the link [a-b] or as the link
    [b-a]. *)
Theorem links_are_the_link_lines (input : list string) (res : parser.Result)
    (a b : string) :
  parser.Parse input = inr res →
  (∃ ra, Rooms (parser.RGraph res) !! a = Some ra ∧ b ∈ Links ra) ↔
  (∃ line,
     line ∈ input ∧ String.prefix "#" line = false ∧
     (parser.linkLineRe line = Some (a, b) ∨ parser.linkLineRe line = Some (b, a))).
Proof.
  intros (st & Hg & Htrip)%parser_trip.Parse_trip. rewrite <- Hg. split.
  - intros (ra & Hr & Hb). by apply (parser_trip.t_link_out _ _ Htrip a ra b).
  - intros (line & Hin & Hh & [Hre|Hre]).
    + destruct (parser_trip.t_link_in _ _ Htrip line a b Hin Hh Hre)
        as (ra & rb & Ha & _ & Hb & _).
      by exists ra.
    + destruct (parser_trip.t_link_in _ _ Htrip line b a Hin Hh Hre)
        as (rb & ra & _ & Ha & _ & Hb).
      by exists ra.
Qed.

Lemma links_are_the_link_lines_witness :
  (∃ ra, Rooms (parser.RGraph diamond_result) !! "end" = Some ra ∧ "a" ∈ Links ra) ↔
  (∃ line,
     line ∈ diamond_input ∧ String.prefix "#" line = false ∧
     (parser.linkLineRe line = Some ("end", "a") ∨
      parser.linkLineRe line = Some ("a", "end"))).
Proof.
  apply (links_are_the_link_lines diamond_input diamond_result "end" "a").
  vm_compute. reflexivity.
Defined.

(** ** The shape of an accepted input *)

Module parser_shape.
Import parser.

Definition comment_line (line : string) : Prop := String.prefix "#" line = true.

Definition room_or_link (line : string) : Prop :=
  comment_line line ∨ is_Some (roomLineRe line) ∨ is_Some (linkLineRe line).

(** What the lines read so far look like. *)
Definition shape (seen : list string) (st : pstate) : Prop :=
  if decide (ps_phase st = PhAnts) then Forall comment_line seen
  else ∃ pre line rest,
      seen = pre ++ line :: rest ∧ Forall comment_line pre ∧
      String.prefix "#" line = false ∧ Atoi line = (ps_ants st, true) ∧
      Forall room_or_link rest.

Lemma parse_line_ants_kind st line st' :
  parse_line st line = inr st' →
  (ps_phase st = PhAnts ∧ String.prefix "#" line = false ∧
   Atoi line = (ps_ants st', true)) ∨
  (ps_ants st' = ps_ants st ∧ (String.prefix "#" line = true ∨ ps_phase st ≠ PhAnts)).
Proof.
  intros Hline. unfold parse_line in Hline.
  case_bool_decide; [done|].
  destruct (String.prefix "#" line) eqn:Hhash.
  { right. split; [|by left]. destruct (String.prefix "##" line); [|by injection Hline as <-].
    destruct (bool_decide (line = "##start") || bool_decide (line = "##end"));
      by injection Hline as <-. }
  case_bool_decide as Hph.
  { left. destruct (Atoi line) as [ants ok] eqn:HA.
    destruct ok; [|done]. simpl in Hline. destruct (ants <=? 0); [done|].
    by injection Hline as <-. }
  right. split; [|by right].
  repeat (case_match; simplify_eq/=; try done).
Qed.

Lemma shape_step seen st line st' :
  parse_line st line = inr st' → shape seen st → shape (seen ++ [line]) st'.
Proof.
  intros Hline Hshape. unfold shape in *.
  assert (∀ l, room_or_link l → ps_phase st ≠ PhAnts → ps_phase st' ≠ PhAnts →
               ps_ants st' = ps_ants st → l = line →
               ∃ pre l0 rest,
                 seen ++ [line] = pre ++ l0 :: rest ∧ Forall comment_line pre ∧
                 String.prefix "#" l0 = false ∧ Atoi l0 = (ps_ants st', true) ∧
                 Forall room_or_link rest) as Hmore.
  { intros l Hl Hph Hph' Hants ->. rewrite decide_False in Hshape by done.
    destruct Hshape as (pre & l0 & rest & -> & Hpre & Hl0 & HA & Hrest).
    exists pre, l0, (rest ++ [line]). rewrite <- app_assoc. split; [done|].
    do 2 (split; [done|]). split; [congruence|].
    apply Forall_app. split; [done|]. by apply Forall_singleton. }
  destruct (parse_line_ants_kind st line st' Hline) as [(Hp0 & Hh0 & HA0)|[Hants Hor]].
  - (* the number of ants *)
    destruct (parser_trip.parse_line_kind st line st' Hline)
      as [(Hhash & _ & Hph)|[(Hhash & Hph & HA & _ & Hph')|
          [(Hhash & Hph & _)|(Hhash & Hph & _)]]]; try congruence.
    rewrite decide_True in Hshape by done. rewrite decide_False by congruence.
    exists seen, line, []. done.
  - destruct (parser_trip.parse_line_kind st line st' Hline)
      as [(Hhash & _ & Hph)|[(Hhash & Hph & HA & _ & Hph')|
          [(Hhash & Hph & name & xs & ys & Hre & _ & _ & Hph')|
           (Hhash & Hph & a & b & Hre & _ & Hph')]]].
    + rewrite Hph. destruct (decide (ps_phase st = PhAnts)) as [Hp|Hp].
      * apply Forall_app. split; [done|]. by apply Forall_singleton.
      * apply (Hmore line); try done; [by left|congruence].
    + destruct Hor as [?|?]; congruence.
    + rewrite decide_False by congruence.
      apply (Hmore line); try done; try congruence. right. left. by eexists.
    + rewrite decide_False by congruence.
      apply (Hmore line); try done; try congruence. right. right. by eexists.
Qed.

Lemma shape_loop input : ∀ seen st st',
  parse_loop st input = inr st' → shape seen st → shape (seen ++ input) st'.
Proof.
  induction input as [|line input IH]; intros seen st st' Hloop Hshape.
  { injection Hloop as <-. by rewrite app_nil_r. }
  cbn [parse_loop] in Hloop.
  destruct (parse_line st line) as [err|st1] eqn:Hline; [done|].
  rewrite (cons_middle line), app_assoc. apply (IH _ st1); [done|].
  by apply (shape_step seen st).
Qed.

End parser_shape.

(** X21. An accepted input begins, after comments only, with the line that
    gives the number of ants, read as a decimal integer; every later line is
    a comment, a room line or a link line. *)
Theorem ants_line_comes_first (input : list string) (res : parser.Result) :
  parser.Parse input = inr res →
  ∃ pre line rest,
    input = pre ++ line :: rest ∧
    Forall (λ l, String.prefix "#" l = true) pre ∧
    String.prefix "#" line = false ∧
    parser.Atoi line = (parser.Ants res, true) ∧
    Forall (λ l, String.prefix "#" l = true ∨ is_Some (parser.roomLineRe l) ∨
                 is_Some (parser.linkLineRe l)) rest.
Proof.
  unfold parser.Parse, parser.Parse_scanner. intros HP.
  destruct (parser.parse_loop parser.init_pstate input) as [err|st] eqn:Hloop; [done|].
  pose proof (parser_shape.shape_loop input [] _ st Hloop) as Hshape.
  unfold parser_shape.shape at 1 in Hshape. cbn [parser.init_pstate parser.ps_phase] in Hshape.
  rewrite decide_True in Hshape by done. specialize (Hshape (Forall_nil_2 _)).
  destruct (Start (parser.ps_graph st)) as [s|] eqn:Hs; [|done].
  destruct (End (parser.ps_graph st)); [|done].
  case_bool_decide as Hz; [done|]. injection HP as <-. cbn [parser.Ants].
  unfold parser_shape.shape in Hshape. simpl in Hshape.
  destruct (decide (parser.ps_phase st = parser.PhAnts)) as [Hph|Hph]; [|done].
  exfalso.
  destruct (parser_trip.trip_loop input [] _ st Hloop parser_trip.trip_init) as [Hants _ _ _ _].
  destruct (Hants Hph) as [Hempty _].
  pose proof (parser_graph.parse_loop_graph input _ st Hloop) as Hg.
  assert (parser_graph.graph_inv (parser.ps_graph st)) as Hinv.
  { apply Hg. split; cbn [parser.init_pstate parser.ps_graph NewGraph Rooms Start End];
      try done; intros nm r Hr; by rewrite lookup_empty in Hr. }
  destruct (parser_graph.gi_start _ Hinv s Hs) as [r Hr].
  rewrite Hempty in Hr. by rewrite lookup_empty in Hr.
Qed.

Lemma ants_line_comes_first_witness :
  ∃ pre line rest,
    diamond_input = pre ++ line :: rest ∧
    Forall (λ l, String.prefix "#" l = true) pre ∧
    String.prefix "#" line = false ∧
    parser.Atoi line = (parser.Ants diamond_result, true) ∧
    Forall (λ l, String.prefix "#" l = true ∨ is_Some (parser.roomLineRe l) ∨
                 is_Some (parser.linkLineRe l)) rest.
Proof.
  apply (ants_line_comes_first diamond_input diamond_result).
  vm_compute. reflexivity.
Defined.

(** ** A cap that is not positive *)

Lemma ek_loop_no_cap names s e (maxPaths : Z) (fuel : nat) : ∀ gr f,
  maxPaths ≤ 0 →
  path.ek_loop names s e fuel maxPaths gr f = path.ek_loop names s e fuel 0 gr f.
Proof.
  induction fuel as [|fuel IH]; intros gr f Hmp; [done|].
  cbn [path.ek_loop].
  destruct (path.bfs names s e gr) as [[gr1 pushed]|]; [|done].
  cbn [mbind option_bind]. case_bool_decide; [done|].
  destruct (Z.ltb_spec 0 maxPaths) as [|_]; [lia|]. cbn [andb].
  change (0 <? 0) with false. cbn [andb]. by apply IH.
Qed.

Lemma trace_paths_no_cap names s e (maxPaths : Z) sorted (fuel : nat) : ∀ paths gr,
  maxPaths ≤ 0 →
  path.trace_paths names s e fuel maxPaths sorted paths gr
  = path.trace_paths names s e fuel 0 sorted paths gr.
Proof.
  induction fuel as [|fuel IH]; intros paths gr Hmp; [done|].
  cbn [path.trace_paths].
  destruct (path.consumeFlowAlong sorted (path.source names s) gr) as [[next gr1]|]; [|done].
  cbn [mbind option_bind]. destruct next as [cur|]; [|done].
  destruct (path.trace_walk names e (S (length gr1)) sorted cur [s] gr1)
    as [[namePath gr2]|]; [|done].
  cbn [mbind option_bind].
  destruct (Z.ltb_spec 0 maxPaths) as [|_]; [lia|]. cbn [andb].
  change (0 <? 0) with false. cbn [andb]. by apply IH.
Qed.

(** X22. A [maxPaths] that is zero or negative sets no limit: [MultiPath]
    returns for it what it returns for 0. *)
Theorem nonpositive_cap_is_no_cap (g : Graph) (maxPaths : Z) :
  maxPaths ≤ 0 → path.MultiPath g maxPaths = path.MultiPath g 0.
Proof.
  intros Hmp. unfold path.MultiPath, path.MultiPath_from.
  destruct (Start g) as [s|]; [|done]. destruct (End g) as [e|]; [|done].
  case_bool_decide; [done|]. unfold path.flow_and_paths.
  destruct (path.build_network _ _ _ _) as [graph|]; [|done]. cbn [mbind option_bind].
  destruct (graph !! _) as [adj|]; [|done]. cbn [mbind option_bind].
  rewrite ek_loop_no_cap by done.
  destruct (path.ek_loop _ _ _ _ 0 graph 0) as [[gr f]|]; [|done].
  cbn [mbind option_bind]. case_bool_decide; [done|].
  destruct (path.sortedOuts _ gr) as [sorted|]; [|done]. cbn [mbind option_bind].
  by apply trace_paths_no_cap.
Qed.

Lemma nonpositive_cap_is_no_cap_witness :
  path.MultiPath diamond (-3) = path.MultiPath diamond 0.
Proof. apply (nonpositive_cap_is_no_cap diamond (-3)). lia. Defined.

(** ** The round-robin assignment of antfarm.Schedule *)

Module round_robin.
Import antfarm.







End round_robin.



(** ** The output of the program *)

(** With at least one path and a positive number of ants, within the range
    of [int], the pre-allocation returns, [Run] prints as many lines as it
    says, and at least one. *)
Lemma Run_turns sort_paths range_ants (g : Graph) (maxPaths ants : Z) (paths : list Path) :
  sorts_by_length sort_paths →
  (∀ turn pi m, range_ants turn pi m ≡ₚ map_to_list m) →
  valid_graph g →
  path.MultiPath g maxPaths = Some paths → paths ≠ [] → 0 < ants →
  fits_int ants g →
  ∃ T counts out,
    scheduler.preallocate ants (Length <$> sort_paths paths) = Some (T, counts) ∧
    scheduler.Run sort_paths range_ants ants paths g = Some out ∧
    Z.of_nat (length out) = T ∧ 0 < T.
Proof.
  intros Hsort Hrange Hvalid HM Hne Hants Hfit.
  destruct (multipath_more.MultiPath_full_spec g maxPaths Hvalid)
    as (s & e & ms & Hs & He & Hse & HM' & Hnd & Hone & Hall & _).
  destruct (Hsort paths) as [Hperm Hsorted].
  assert (balancer.in_range ants (Length <$> paths)) as Hin.
  { rewrite HM in HM'. injection HM' as ->.
    pose proof Hvalid as Hv. unfold valid_graph in Hv. rewrite Hs, He in Hv.
    destruct Hv as (_ & Hsr & Her & _).
    apply (multipath_in_range g s e ms ants Hse Hsr Her Hnd Hone); [|done].
    intros m Hm nm Hnm. destruct (Hall m Hm) as [_ Hmid]. by apply Hmid. }
  destruct (balancer.preallocate_fits_spec ants (Length <$> sort_paths paths))
    as (T & counts & Hpre & _).
  { intros Hnil. apply fmap_nil_inv in Hnil. rewrite Hnil in Hperm.
    apply Permutation_nil_l in Hperm. by symmetry in Hperm. }
  { done. }
  { by apply (Sorted_fmap _ scheduler.shorter_eq). }
  { apply Forall_fmap, Forall_forall. intros p Hp. rewrite Hperm in Hp.
    rewrite HM in HM'. injection HM' as ->.
    apply list_elem_of_fmap in Hp as (m & -> & Hm).
    unfold reconstruction.path_of. simpl. rewrite ?length_app. simpl. lia. }
  { apply (balancer.in_range_perm ants (Length <$> paths)); [|done].
    by apply fmap_Permutation. }
  exists T, counts. eexists. split; [done|].
  split; [by eapply pipeline.Run_lines|].
  unfold pipeline.lines_from. rewrite length_fmap, length_seq.
  destruct (pipeline.Run_setup sort_paths g maxPaths ants paths T counts
              Hsort Hvalid HM Hne Hants Hin Hpre)
    as (s' & e' & _ & _ & Hgood & _ & _ & _ & HT & _ & _ & Hreach).
  destruct Hreach as (pi & p & q & Hp & Hq & Hqne & HTeq).
  destruct (Hgood pi p Hp) as (m & _ & HL & _).
  destruct q as [|x q]; [done|]. simpl length in HTeq. lia.
Qed.

(** X24. What the program prints for an accepted input.  If the end room
    cannot be reached from the start room, it prints the echoed input, an
    empty line and the message that no path was found.  If it can, it
    prints the echoed input, an empty line and the lines of moves, which are
    as many as the turn count [T] of the pre-allocation, at least one; this
    when the ant count and twice the number of rooms together stay below
    [2^63] ([fits_int]).  The exit status is 0 in both cases. *)
Theorem program_output
    (lines : list string) (res : parser.Result) (s e : string)
    (sort_paths : list Path → list Path)
    (range_rooms : gmap string Room → list string)
    (range_ants : nat → nat → gmap Z scheduler.AntState → list (Z * scheduler.AntState)) :
  let g := parser.RGraph res in
  parser.Parse lines = inr res →
  sorts_by_length sort_paths →
  (∀ m, range_rooms m ≡ₚ (map_to_list m).*1) →
  (∀ turn pi m, range_ants turn pi m ≡ₚ map_to_list m) →
  Start g = Some s → End g = Some e →
  (¬ rtc (multipath_reach.linked g) s e →
   main.run_parsed sort_paths range_rooms range_ants (inr res)
   = Some (parser.OriginalLines res ++
             [""; "ERROR: invalid data format, no path found"], 0)) ∧
  (rtc (multipath_reach.linked g) s e →
   fits_int (parser.Ants res) g →
   ∃ paths T counts moves,
     path.MultiPath g 0 = Some paths ∧
     scheduler.preallocate (parser.Ants res) (Length <$> sort_paths paths)
       = Some (T, counts) ∧
     0 < T ∧ Z.of_nat (length moves) = T ∧
     main.run_parsed sort_paths range_rooms range_ants (inr res)
     = Some (parser.OriginalLines res ++ [""] ++ moves, 0)).
Proof.
  intros g Hparse Hsort Hrr Hra Hs He.
  pose proof (parser_graph.Parse_valid lines res Hparse) as Hvalid. fold g in Hvalid.
  pose proof (Parse_ants_range lines res Hparse) as [Hants _].
  destruct (MultiPath_empty_iff g Hvalid) as (s' & e' & Hs' & He' & Hiff).
  assert (s' = s) as -> by congruence. assert (e' = e) as -> by congruence.
  destruct (multipath_more.MultiPath_full_spec g 0 Hvalid)
    as (s0 & e0 & ms & _ & _ & _ & HM & _).
  set (paths := reconstruction.path_of s0 e0 <$> ms) in HM.
  assert (path.MultiPath_from (range_rooms (Rooms g)) g 0 = Some paths) as HM'.
  { rewrite <- HM. apply MultiPath_from_order, Hrr. }
  unfold main.run_parsed. fold g. rewrite HM'. cbn [mbind option_bind]. split.
  - intros Hno. apply Hiff in Hno. rewrite HM in Hno. injection Hno as ->.
    rewrite bool_decide_eq_true_2 by done. by rewrite <- app_assoc.
  - intros Hreach Hfit.
    assert (paths ≠ []) as Hne.
    { intros Hnil. rewrite Hnil in HM. by apply Hiff in HM. }
    destruct (Run_turns sort_paths range_ants g 0 (parser.Ants res) paths
                Hsort Hra Hvalid HM Hne Hants Hfit) as (T & counts & out & Hpre & Hrun & Hlen & HT).
    exists paths, T, counts, out. do 4 (split; [done|]).
    rewrite bool_decide_eq_false_2 by (by destruct paths).
    rewrite Hrun. cbn [mbind option_bind]. by rewrite <- app_assoc.
Qed.

Lemma program_output_witness :
  let g := parser.RGraph diamond_result in
  let sort_paths := merge_sort scheduler.shorter_eq in
  let range_rooms := λ m : gmap string Room, (map_to_list m).*1 in
  let range_ants := λ (_ _ : nat) (m : gmap Z scheduler.AntState), map_to_list m in
  (¬ rtc (multipath_reach.linked g) "start" "end" →
   main.run_parsed sort_paths range_rooms range_ants (inr diamond_result)
   = Some (parser.OriginalLines diamond_result ++
             [""; "ERROR: invalid data format, no path found"], 0)) ∧
  (rtc (multipath_reach.linked g) "start" "end" →
   fits_int (parser.Ants diamond_result) g →
   ∃ paths T counts moves,
     path.MultiPath g 0 = Some paths ∧
     scheduler.preallocate (parser.Ants diamond_result) (Length <$> sort_paths paths)
       = Some (T, counts) ∧
     0 < T ∧ Z.of_nat (length moves) = T ∧
     main.run_parsed sort_paths range_rooms range_ants (inr diamond_result)
     = Some (parser.OriginalLines diamond_result ++ [""] ++ moves, 0)).
Proof.
  intros g sort_paths range_rooms range_ants.
  apply (program_output diamond_input diamond_result "start" "end"
           sort_paths range_rooms range_ants).
  - vm_compute. reflexivity.
  - apply merge_sort_sorts_by_length.
  - done.
  - done.
  - reflexivity.
  - reflexivity.
Defined.
